(** * Missing-model resolution engine of the ComfyUI Hugging Face downloader

    A shallow embedding of [src/model_discovery.py]: reference extraction
    from a workflow graph, reconciliation of the extracted references, the
    local-existence check, and the budgeted remote search, followed by the
    properties established about them.

    Conventions of the embedding.
    - A Python [str] is a Rocq [string]; characters are Rocq [ascii], so case
      folding and white space are those of the ASCII range (code points above
      127 are left alone by [str_lower] and are never white space).
    - A reference (a Python dict with string-valued keys) is the record
      [Model]; an absent key and a key bound to [None] are both [None].
    - Paths follow [posixpath].
    - Module-level globals of the source are the fields of [World]; code that
      reads or writes them, calls the remote API, notifies the progress
      callback or raises is written in the monad [M].
    - [time.time()] is the field [clock]; it moves when a remote call
      returns.  The answers of the hub are a parameter ([Env]), indexed by
      the number of calls made before.
    - The field [trace] is no global of the source: it is the history of
      budget resets, grants of [_hf_search_allowed] and requests sent to
      the hub
      ([list_models], [list_repo_files]) that the model keeps, so that
      properties of a whole run can be stated.  The existence probe of a
      registry URL is part of the registry look-up and is not logged. *)

From Stdlib Require Import ZArith Lia Ascii String FunctionalExtensionality.
From stdpp Require Import base decidable option list gmap strings pretty.

(* ===================================================================== *)
(** ** 1. Python string primitives                                        *)
(* ===================================================================== *)

Definition chars (s : string) : list ascii := String.list_ascii_of_string s.
Definition str (l : list ascii) : string := String.string_of_list_ascii l.

Definition ch_backslash : ascii := "\"%char.
Definition ch_newline : ascii := "010"%char.

Definition ascii_eqb (a b : ascii) : bool := Ascii.eqb a b.

Definition is_upper (c : ascii) : bool :=
  (65 <=? nat_of_ascii c) && (nat_of_ascii c <=? 90).
Definition is_lower (c : ascii) : bool :=
  (97 <=? nat_of_ascii c) && (nat_of_ascii c <=? 122).
Definition is_digit (c : ascii) : bool :=
  (48 <=? nat_of_ascii c) && (nat_of_ascii c <=? 57).
Definition is_alnum (c : ascii) : bool := is_upper c || is_lower c || is_digit c.

(** [str.isspace] on the ASCII range. *)
Definition is_space (c : ascii) : bool :=
  let n := nat_of_ascii c in
  ((9 <=? n) && (n <=? 13)) || ((28 <=? n) && (n <=? 32)).

Definition lower_ascii (c : ascii) : ascii :=
  if is_upper c then ascii_of_nat (nat_of_ascii c + 32) else c.

(** [s.lower()] *)
Fixpoint str_lower (s : string) : string :=
  match s with
  | EmptyString => EmptyString
  | String c r => String (lower_ascii c) (str_lower r)
  end.

Fixpoint drop_while {A} (p : A -> bool) (l : list A) : list A :=
  match l with
  | [] => []
  | x :: r => if p x then drop_while p r else l
  end.

Fixpoint take_while {A} (p : A -> bool) (l : list A) : list A :=
  match l with
  | [] => []
  | x :: r => if p x then x :: take_while p r else []
  end.

(** [s.strip(...)] for the set of characters recognised by [p]. *)
Definition strip_with (p : ascii -> bool) (s : string) : string :=
  str (rev (drop_while p (rev (drop_while p (chars s))))).

(** [s.strip()] *)
Definition str_strip (s : string) : string := strip_with is_space s.

Definition is_slash (c : ascii) : bool := ascii_eqb c "/".

(** [s.strip("/")] *)
Definition strip_slashes (s : string) : string := strip_with is_slash s.

(** [s.replace("\\", "/")] *)
Fixpoint norm_slashes (s : string) : string :=
  match s with
  | EmptyString => EmptyString
  | String c r =>
      String (if ascii_eqb c ch_backslash then "/"%char else c) (norm_slashes r)
  end.

(** [s.replace(a, b)] for single characters. *)
Fixpoint replace_char (a b : ascii) (s : string) : string :=
  match s with
  | EmptyString => EmptyString
  | String c r => String (if ascii_eqb c a then b else c) (replace_char a b r)
  end.

(** Removal of every character recognised by [p]
    ([re.sub(r'[-_]+', '', s)], [re.sub(r"\d+", "", s)]). *)
Fixpoint remove_chars (p : ascii -> bool) (s : string) : string :=
  match s with
  | EmptyString => EmptyString
  | String c r => if p c then remove_chars p r else String c (remove_chars p r)
  end.

Fixpoint is_prefix (p l : list ascii) : bool :=
  match p, l with
  | [], _ => true
  | a :: p', b :: l' => ascii_eqb a b && is_prefix p' l'
  | _ :: _, [] => false
  end.

(** [l = p ++ rest] gives [Some rest]. *)
Fixpoint strip_prefix (p l : list ascii) : option (list ascii) :=
  match p, l with
  | [], _ => Some l
  | a :: p', b :: l' => if ascii_eqb a b then strip_prefix p' l' else None
  | _ :: _, [] => None
  end.

(** [s.startswith(p)] and [s.endswith(p)] *)
Definition startswith (s p : string) : bool := is_prefix (chars p) (chars s).
Definition endswith (s p : string) : bool :=
  is_prefix (rev (chars p)) (rev (chars s)).

Fixpoint contains_chars (sub l : list ascii) : bool :=
  is_prefix sub l ||
  match l with
  | [] => false
  | _ :: r => contains_chars sub r
  end.

(** [sub in s] *)
Definition contains (sub s : string) : bool := contains_chars (chars sub) (chars s).

(** [s.split(c)]: the pieces between occurrences of the character [c]. *)
Fixpoint split_chars (p : ascii -> bool) (cur : list ascii) (l : list ascii)
  : list string :=
  match l with
  | [] => [str (rev cur)]
  | c :: r => if p c then str (rev cur) :: split_chars p [] r
              else split_chars p (c :: cur) r
  end.

Definition split_on (c : ascii) (s : string) : list string :=
  split_chars (ascii_eqb c) [] (chars s).

(** [sep.join(parts)] *)
Fixpoint join (sep : string) (parts : list string) : string :=
  match parts with
  | [] => ""
  | [p] => p
  | p :: r => p +:+ sep +:+ join sep r
  end.

(** [s.split("?")[0]] *)
Definition before_query (s : string) : string :=
  str (take_while (fun c => negb (ascii_eqb c "?")) (chars s)).

(** [s.split("/")[-1]], which is also [posixpath.basename]. *)
Definition after_last_slash (s : string) : string :=
  str (rev (take_while (fun c => negb (is_slash c)) (rev (chars s)))).

(** [os.path.basename] *)
Definition basename (s : string) : string := after_last_slash s.

Definition is_dot (c : ascii) : bool := ascii_eqb c ".".

(** [os.path.splitext]: the extension starts at the last dot of the last
    path component, unless that component has only dots before it. *)
Definition splitext (s : string) : string * string :=
  let r := rev (chars s) in
  let e := take_while (fun c => negb (is_dot c || is_slash c)) r in
  match drop_while (fun c => negb (is_dot c || is_slash c)) r with
  | d :: rest =>
      if is_dot d &&
         existsb (fun c => negb (is_dot c))
                 (take_while (fun c => negb (is_slash c)) rest)
      then (str (rev rest), str ("."%char :: rev e))
      else (s, "")
  | [] => (s, "")
  end.

(** Python truthiness of a string. *)
Definition nonempty (s : string) : bool :=
  match s with EmptyString => false | _ => true end.

(** Truthiness of an optional string: [None] and [""] are falsy. *)
Definition truthy (o : option string) : bool :=
  match o with Some s => nonempty s | None => false end.

(** [o or ""] *)
Definition or_empty (o : option string) : string := default "" o.

Definition str_len (s : string) : nat := String.length s.

(* ===================================================================== *)
(** ** 2. File-name conventions                                           *)
(* ===================================================================== *)

Definition MODEL_EXTENSIONS : list string :=
  [".safetensors"; ".ckpt"; ".pt"; ".bin"; ".pth"; ".gguf"].

(** [any(value.endswith(ext) for ext in MODEL_EXTENSIONS)] *)
Definition has_model_ext (s : string) : bool :=
  existsb (endswith s) MODEL_EXTENSIONS.

Definition HF_SEARCH_SKIP_FILENAMES : list string :=
  ["pytorch_model.bin"; "adapter_model.bin"; "diffusion_pytorch_model.bin";
   "model.safetensors"; "model.bin"; "model.ckpt"; "model.pt";
   "config.json"; "tokenizer.json"].

Definition PRIORITY_AUTHORS : list string :=
  ["Kijai"; "comfyanonymous"; "Comfy-Org"; "city96"; "QuantStack";
   "alibaba-pai"; "unsloth"; "nunchaku-ai"; "black-forest-labs"].

Definition str_in (s : string) (l : list string) : bool := bool_decide (s ∈ l).

Definition normalize_filename_key (name : string) : string :=
  str_lower (str_strip (basename (norm_slashes name))).

Definition is_sep (c : ascii) : bool := ascii_eqb c "-" || ascii_eqb c "_".

Definition normalize_filename_compact (name : string) : string :=
  remove_chars is_sep (normalize_filename_key name).

Definition split_model_identifier (value : string) : string * option string :=
  let normalized := str_strip (norm_slashes value) in
  if nonempty normalized then (basename normalized, Some normalized)
  else ("", None).

Definition _is_nunchaku_svdq_name (value : option string) : bool :=
  match value with
  | None => false
  | Some v =>
      nonempty v &&
      (let lowered := str_lower v in
       contains "svdq-" lowered && (contains "int4" lowered || contains "fp4" lowered))
  end.

(** The two precisions [_preferred_nunchaku_precision] can answer. *)
Inductive Precision := FP4 | INT4.

Definition precision_name (p : Precision) : string :=
  match p with FP4 => "fp4" | INT4 => "int4" end.

(** [_preferred_nunchaku_precision]: the cached accelerator probe. *)
Definition _preferred_nunchaku_precision (is_blackwell : bool) : Precision :=
  if is_blackwell then FP4 else INT4.

Fixpoint is_prefix_ci (p l : list ascii) : bool :=
  match p, l with
  | [], _ => true
  | a :: p', b :: l' => ascii_eqb (lower_ascii a) (lower_ascii b) && is_prefix_ci p' l'
  | _ :: _, [] => false
  end.

Definition not_alnum_next (l : list ascii) : bool :=
  match l with
  | [] => true
  | c :: _ => negb (is_alnum c)
  end.

(** [re.sub(r'(?<![a-z0-9])FROM(?![a-z0-9])', TO, value, flags=re.IGNORECASE)]
    scanned left to right; [skip] counts the characters of a match still to
    be consumed, [prev] says whether the previous character is alphanumeric. *)
Fixpoint swap_scan (from to : list ascii) (skip : nat) (prev : bool)
  (l : list ascii) : list ascii :=
  match l with
  | [] => []
  | c :: r =>
      match skip with
      | S k => swap_scan from to k (is_alnum c) r
      | O =>
          if negb prev && is_prefix_ci from l
             && not_alnum_next (drop (length from) l)
          then to ++ swap_scan from to (length from - 1) (is_alnum c) r
          else c :: swap_scan from to 0 (is_alnum c) r
      end
  end.

Definition _swap_nunchaku_precision (value : string) (target : Precision) : string :=
  match target with
  | FP4 => str (swap_scan (chars "int4") (chars "fp4") 0 false (chars value))
  | INT4 => str (swap_scan (chars "fp4") (chars "int4") 0 false (chars value))
  end.

Definition _is_nunchaku_extensionless_identifier (value : option string) : bool :=
  match value with
  | None => false
  | Some v =>
      nonempty v &&
      (let base := basename (norm_slashes v) in
       _is_nunchaku_svdq_name (Some base) && negb (nonempty (snd (splitext base))))
  end.

Definition _looks_like_model_widget_value (value node_type : string) : bool :=
  has_model_ext value ||
  (contains "nunchaku" (str_lower node_type) && _is_nunchaku_svdq_name (Some value)).

(** *** Quantization suffixes

    A regular expression [[-_]?BODY$] is applied to the reversed characters
    of the stem: one of the reversed bodies is a prefix, then at most one
    separator goes with it.  [$] also matches just before a final newline. *)

Definition drop_opt_sep (r : list ascii) : list ascii :=
  match r with
  | c :: r' => if is_sep c then r' else r
  | [] => []
  end.

Fixpoint strip_any (bodies : list (list ascii)) (r : list ascii)
  : option (list ascii) :=
  match bodies with
  | [] => None
  | b :: bs =>
      match strip_prefix b r with
      | Some rest => Some (drop_opt_sep rest)
      | None => strip_any bs r
      end
  end.

Definition rbody (s : string) : list ascii := rev (chars s).

(** [re.sub(r'[-_]?(b1|b2|...)$', '', s)] *)
Definition sub_quant_suffix (bodies : list string) (s : string) : string :=
  let r := rev (chars s) in
  match strip_any (map rbody bodies) r with
  | Some r' => str (rev r')
  | None =>
      match r with
      | c :: r1 =>
          if ascii_eqb c ch_newline then
            match strip_any (map rbody bodies) r1 with
            | Some r1' => str (rev (c :: r1'))
            | None => s
            end
          else s
      | [] => s
      end
  end.

Definition Q_FP8_E4M3FN : list string := ["fp8e4m3fn"; "fp8-e4m3fn"; "fp8_e4m3fn"].
Definition Q_FP : list string := ["fp16"; "fp32"; "fp8"; "fp4"].
Definition Q_BF16 : list string := ["bf16"].
Definition Q_NF4 : list string := ["nf4"].
Definition Q_INT : list string := ["int8"; "int4"].

Definition canonicalize_model_base (filename : string) : string :=
  let base := fst (splitext (str_lower filename)) in
  let base := sub_quant_suffix Q_FP8_E4M3FN base in
  let base := sub_quant_suffix Q_FP base in
  let base := sub_quant_suffix Q_BF16 base in
  let base := sub_quant_suffix Q_NF4 base in
  sub_quant_suffix Q_INT base.

(** What may follow the body of [(^|[-_])BODY($|[-_])]. *)
Definition quant_end_ok (rest : list ascii) : bool :=
  match rest with
  | [] => true
  | c :: r => is_sep c || (ascii_eqb c ch_newline && match r with [] => true | _ => false end)
  end.

(** [re.search] of [(^|[-_])(b1|b2|...)($|[-_])]: [at_start] holds at the
    beginning of the string and right after a separator. *)
Fixpoint search_quant (bodies : list (list ascii)) (at_start : bool)
  (l : list ascii) : bool :=
  (at_start &&
   existsb (fun b => match strip_prefix b l with
                     | Some rest => quant_end_ok rest
                     | None => false
                     end) bodies)
  || match l with
     | [] => false
     | c :: r => search_quant bodies (is_sep c) r
     end.

Definition is_quant_variant_filename (filename : string) : bool :=
  let name := fst (splitext (str_lower filename)) in
  existsb (fun bodies => search_quant (map chars bodies) true (chars name))
          [Q_FP8_E4M3FN; Q_FP; Q_BF16; Q_NF4; Q_INT].

(* ===================================================================== *)
(** ** 3. References                                                      *)
(* ===================================================================== *)

(** A node id as [node.get("id")] gives it. *)
Inductive NodeId :=
  | NidNone
  | NidInt (z : Z)
  | NidStr (s : string).

#[global] Instance NodeId_eq_dec : EqDecision NodeId.
Proof. solve_decision. Defined.

(** A quantized alternative offered for an unresolved reference. *)
Record Alternative := mkAlternative {
  alt_filename : string;
  alt_url : option string;
  alt_source : string;
  alt_suggested_folder : option string;
  alt_hf_repo : option string;
  alt_hf_path : option string
}.

(** One reference: the dict built by the extractor and enriched later. *)
Record Model := mkModel {
  filename : option string;
  requested_path : option string;
  url : option string;
  node_id : NodeId;
  node_title : option string;
  suggested_folder : option string;
  origin : option string;
  source : option string;
  note : option string;
  hf_repo : option string;
  hf_path : option string;
  nunchaku_precision : option string;
  found_path : option string;
  clean_path : option string;
  alternatives : list Alternative
}.

Definition set_filename (v : option string) (m : Model) : Model :=
  mkModel v (requested_path m) (url m) (node_id m) (node_title m)
    (suggested_folder m) (origin m) (source m) (note m) (hf_repo m) (hf_path m)
    (nunchaku_precision m) (found_path m) (clean_path m) (alternatives m).
Definition set_requested_path (v : option string) (m : Model) : Model :=
  mkModel (filename m) v (url m) (node_id m) (node_title m)
    (suggested_folder m) (origin m) (source m) (note m) (hf_repo m) (hf_path m)
    (nunchaku_precision m) (found_path m) (clean_path m) (alternatives m).
Definition set_url (v : option string) (m : Model) : Model :=
  mkModel (filename m) (requested_path m) v (node_id m) (node_title m)
    (suggested_folder m) (origin m) (source m) (note m) (hf_repo m) (hf_path m)
    (nunchaku_precision m) (found_path m) (clean_path m) (alternatives m).
Definition set_suggested_folder (v : option string) (m : Model) : Model :=
  mkModel (filename m) (requested_path m) (url m) (node_id m) (node_title m)
    v (origin m) (source m) (note m) (hf_repo m) (hf_path m)
    (nunchaku_precision m) (found_path m) (clean_path m) (alternatives m).
Definition set_source (v : option string) (m : Model) : Model :=
  mkModel (filename m) (requested_path m) (url m) (node_id m) (node_title m)
    (suggested_folder m) (origin m) v (note m) (hf_repo m) (hf_path m)
    (nunchaku_precision m) (found_path m) (clean_path m) (alternatives m).
Definition set_note (v : option string) (m : Model) : Model :=
  mkModel (filename m) (requested_path m) (url m) (node_id m) (node_title m)
    (suggested_folder m) (origin m) (source m) v (hf_repo m) (hf_path m)
    (nunchaku_precision m) (found_path m) (clean_path m) (alternatives m).
Definition set_hf_repo (v : option string) (m : Model) : Model :=
  mkModel (filename m) (requested_path m) (url m) (node_id m) (node_title m)
    (suggested_folder m) (origin m) (source m) (note m) v (hf_path m)
    (nunchaku_precision m) (found_path m) (clean_path m) (alternatives m).
Definition set_hf_path (v : option string) (m : Model) : Model :=
  mkModel (filename m) (requested_path m) (url m) (node_id m) (node_title m)
    (suggested_folder m) (origin m) (source m) (note m) (hf_repo m) v
    (nunchaku_precision m) (found_path m) (clean_path m) (alternatives m).
Definition set_nunchaku_precision (v : option string) (m : Model) : Model :=
  mkModel (filename m) (requested_path m) (url m) (node_id m) (node_title m)
    (suggested_folder m) (origin m) (source m) (note m) (hf_repo m) (hf_path m)
    v (found_path m) (clean_path m) (alternatives m).
Definition set_found (fp cp : option string) (m : Model) : Model :=
  mkModel (filename m) (requested_path m) (url m) (node_id m) (node_title m)
    (suggested_folder m) (origin m) (source m) (note m) (hf_repo m) (hf_path m)
    (nunchaku_precision m) fp cp (alternatives m).
Definition set_alternatives (v : list Alternative) (m : Model) : Model :=
  mkModel (filename m) (requested_path m) (url m) (node_id m) (node_title m)
    (suggested_folder m) (origin m) (source m) (note m) (hf_repo m) (hf_path m)
    (nunchaku_precision m) (found_path m) (clean_path m) v.

(** A freshly extracted reference. *)
Definition new_model (fn : string) (rp u : option string) (nid : NodeId)
  (title folder org : option string) : Model :=
  mkModel (Some fn) rp u nid title folder org None None None None None None None [].

(* ===================================================================== *)
(** ** 4. Reconciliation ([process_workflow_for_missing_models], first half) *)
(* ===================================================================== *)

(** *** Insertion-ordered dict of lists: [d.setdefault(k, []).append(x)] *)

Section Grouping.
Context {K A : Type} `{EqDecision K}.

Fixpoint group_insert (k : K) (x : A) (g : list (K * list A))
  : list (K * list A) :=
  match g with
  | [] => [(k, [x])]
  | (k', xs) :: g' =>
      if decide (k = k') then (k', xs ++ [x]) :: g'
      else (k', xs) :: group_insert k x g'
  end.

Definition group_by (key : A -> K) (l : list A) : list (K * list A) :=
  fold_left (fun g x => group_insert (key x) x g) l [].

(** [del d[k]] *)
Definition group_delete (k : K) (g : list (K * list A)) : list (K * list A) :=
  filter (fun kv => kv.1 ≠ k) g.

Definition has_key (k : K) (g : list (K * list A)) : bool :=
  bool_decide (k ∈ g.*1).
End Grouping.

(** [max(l, key=f)]: the first element with the greatest key. *)
Fixpoint max_by {A} (lt : A -> A -> bool) (best : A) (l : list A) : A :=
  match l with
  | [] => best
  | x :: r => max_by lt (if lt best x then x else best) r
  end.

Definition triple_lt (a b : nat * nat * nat) : bool :=
  let '(a1, a2, a3) := a in
  let '(b1, b2, b3) := b in
  (a1 <? b1) || ((a1 =? b1) && ((a2 <? b2) || ((a2 =? b2) && (a3 <? b3)))).

(** [sorted(l, key=f, reverse=True)]: stable, greatest key first. *)
Fixpoint insert_desc {A} (key : A -> nat) (x : A) (l : list A) : list A :=
  match l with
  | [] => [x]
  | y :: r => if key y <=? key x then x :: l else y :: insert_desc key x r
  end.

Definition sort_desc {A} (key : A -> nat) (l : list A) : list A :=
  foldr (insert_desc key) [] l.

Definition _normalize_dedupe_path (value : option string) : string :=
  match value with
  | Some v => if nonempty v then strip_slashes (norm_slashes v) else ""
  | None => ""
  end.

Definition _score_entry (entry : Model) : nat :=
  (if truthy (url entry) then 10 else 0)
  + (if truthy (node_title entry)
        && contains "hugging face download model"
                    (str_lower (or_empty (node_title entry)))
     then 5 else 0)
  + (if contains "/" (_normalize_dedupe_path (requested_path entry)) then 4 else 0)
  + (if truthy (suggested_folder entry) then 2 else 0)
  + (if bool_decide (origin entry = Some "proxy_widget") then 0 else 1).

Definition VariantKey : Type := NodeId * string * string.

Definition _variant_group_key (entry : Model) : option VariantKey :=
  let fname := str_strip (or_empty (filename entry)) in
  if nonempty fname then
    let normalized_name := str_lower (basename (norm_slashes fname)) in
    let '(stem, ext) := splitext normalized_name in
    let canon := canonicalize_model_base normalized_name in
    let canonical_stem := if nonempty canon then canon else stem in
    let folder_key := _normalize_dedupe_path (suggested_folder entry) in
    Some (node_id entry, folder_key, canonical_stem +:+ ext)
  else None.

Definition _prefer_entry_for_variant_group (entry : Model) : nat * nat * nat :=
  let fname := str_lower (or_empty (filename entry)) in
  let non_quant_bonus :=
    if nonempty fname && negb (is_quant_variant_filename fname) then 1 else 0 in
  (_score_entry entry, non_quant_bonus,
   str_len (_normalize_dedupe_path (requested_path entry))).

(** The first candidate of the group that has a truthy value for [get]. *)
Definition first_truthy (get : Model -> option string) (group : list Model)
  : option Model :=
  List.find (fun c => truthy (get c)) group.

(** The body of the loop over [variant_groups.values()] for a group of two
    or more entries. *)
Definition merge_variant_group (first : Model) (rest : list Model) : Model :=
  let group := first :: rest in
  let best :=
    max_by (fun a b => triple_lt (_prefer_entry_for_variant_group a)
                                 (_prefer_entry_for_variant_group b))
           first rest in
  let merged := best in
  let merged :=
    if truthy (url merged) then merged
    else match first_truthy url group with
         | Some c =>
             let m1 := set_url (url c) merged in
             if truthy (source c) then set_source (source c) m1 else m1
         | None => merged
         end in
  let merged :=
    if truthy (suggested_folder merged) then merged
    else match first_truthy suggested_folder group with
         | Some c => set_suggested_folder (suggested_folder c) merged
         | None => merged
         end in
  let requested_candidates :=
    omap (fun c =>
            let normalized := _normalize_dedupe_path (requested_path c) in
            if nonempty normalized
            then Some (or_empty (requested_path c), normalized) else None)
         group in
  match sort_desc (fun item => str_len item.2) requested_candidates with
  | [] => merged
  | (first_original, _) :: _ as sorted =>
      let target_name := str_lower (or_empty (filename merged)) in
      let preferred :=
        List.find (fun item =>
                     let b := str_lower (basename item.2) in
                     nonempty b && negb (bool_decide (b = target_name)))
                  sorted in
      let preferred_requested :=
        match preferred with
        | Some (original, _) =>
            if nonempty original then original else first_original
        | None => first_original
        end in
      set_requested_path (Some preferred_requested) merged
  end.

Definition coalesce_group (group : list Model) : list Model :=
  match group with
  | [] => []
  | [m] => [m]
  | m :: rest => [merge_variant_group m rest]
  end.

Definition is_passthrough (m : Model) : bool :=
  match _variant_group_key m with None => true | Some _ => false end.

Definition variant_key_or (m : Model) : VariantKey :=
  default (NidNone, "", "") (_variant_group_key m).

(** Variant coalescing: pass-through entries first, then one entry per
    variant group, in the order the groups were created. *)
Definition coalesce_variants (required_models : list Model) : list Model :=
  let passthrough_models := filter (fun m => is_passthrough m = true) required_models in
  let variant_groups :=
    group_by variant_key_or
             (filter (fun m => is_passthrough m = false) required_models) in
  passthrough_models ++ flat_map (fun kv => coalesce_group kv.2) variant_groups.

(** The choice of [best] inside one folder group. *)
Fixpoint pick_best (best : Model) (best_score : nat) (l : list Model) : Model :=
  match l with
  | [] => best
  | candidate :: r =>
      let cand_score := _score_entry candidate in
      if best_score <? cand_score then pick_best candidate cand_score r
      else if cand_score =? best_score then
        if str_len (_normalize_dedupe_path (requested_path best))
           <? str_len (_normalize_dedupe_path (requested_path candidate))
        then pick_best candidate cand_score r
        else pick_best best best_score r
      else pick_best best best_score r
  end.

Definition best_of_group (group : list Model) : list Model :=
  match group with
  | [] => []
  | b :: r => [pick_best b (_score_entry b) r]
  end.

Definition folder_key_of (m : Model) : string :=
  _normalize_dedupe_path (suggested_folder m).

(** One [(node_id, filename)] group: split by folder, drop the folder-less
    subgroup when another exists, keep the best of each subgroup. *)
Definition dedupe_name_group (models : list Model) : list Model :=
  let folder_groups := group_by folder_key_of models in
  let folder_groups :=
    if (1 <? length folder_groups) && has_key "" folder_groups
    then group_delete "" folder_groups else folder_groups in
  flat_map (fun kv => best_of_group kv.2) folder_groups.

Definition name_key_of (m : Model) : NodeId * string :=
  (node_id m, str_lower (or_empty (filename m))).

Definition dedupe_by_name (required_models : list Model) : list Model :=
  let grouped_by_name :=
    group_by name_key_of
      (filter (fun m => nonempty (str_lower (or_empty (filename m))) = true)
              required_models) in
  flat_map (fun kv => dedupe_name_group kv.2) grouped_by_name.

(** The body of the precision-normalization loop for one reference. *)
Definition normalize_precision (preferred : Precision) (model : Model) : Model :=
  let current_name := filename model in
  if _is_nunchaku_svdq_name current_name then
    let target_name := _swap_nunchaku_precision (or_empty current_name) preferred in
    if negb (nonempty target_name) || bool_decide (Some target_name = current_name)
    then model
    else
      let m1 := if truthy (requested_path model) then model
                else set_requested_path current_name model in
      let m2 := set_filename (Some target_name) m1 in
      let m3 := set_nunchaku_precision (Some (precision_name preferred)) m2 in
      let m4 := set_source (Some "nunchaku_precision_adjusted") m3 in
      set_hf_path None (set_hf_repo None (set_url None m4))
  else model.

Definition identity_key (m : Model) : option string * NodeId :=
  (filename m, node_id m).

(** Global identity dedup: the first of each [(filename, node_id)] pair. *)
Fixpoint unique_by_identity (seen : list (option string * NodeId))
  (l : list Model) : list Model :=
  match l with
  | [] => []
  | m :: r =>
      if bool_decide (identity_key m ∈ seen) then unique_by_identity seen r
      else m :: unique_by_identity (identity_key m :: seen) r
  end.

(** The references handed to the local check: [unique_required_models]. *)
Definition reconcile (preferred : Precision) (required_models : list Model)
  : list Model :=
  unique_by_identity []
    (map (normalize_precision preferred)
         (dedupe_by_name (coalesce_variants required_models))).

(* ===================================================================== *)
(** ** 5. Local-existence check ([check_model_files])                     *)
(* ===================================================================== *)

(** The storage collaborator: [folder_paths] and the parts of [os] that
    touch the disk.  [fs_get_folder_paths] answers [None] where the source
    catches [KeyError]; [fs_relpath] answers [None] where it catches
    [ValueError]. *)
Record FS := mkFS {
  fs_get_folder_paths : string -> option (list string);
  fs_base_path : string;
  fs_exists : string -> bool;
  fs_walk : string -> list (string * list string * list string);
  fs_relpath : string -> string -> option string
}.

(** [os.path.isabs] *)
Definition isabs (p : string) : bool := startswith p "/".

(** [os.path.join(a, b)] *)
Definition path_join (a b : string) : string :=
  if startswith b "/" then b
  else if negb (nonempty a) || endswith a "/" then a +:+ b
  else a +:+ "/" +:+ b.

Definition _is_path_like (value : string) : bool :=
  contains "/" value || contains (String ch_backslash "") value.

Section LocalCheck.
Variable fs : FS.

Definition recursive_find_file (fname root_dir : string) : option string :=
  match List.find (fun entry => str_in fname entry.2) (fs_walk fs root_dir) with
  | Some entry => Some (path_join entry.1.1 fname)
  | None => None
  end.

Definition stem_matches (stem_lower file : string) : bool :=
  let file_lower := str_lower file in
  bool_decide (file_lower = stem_lower) || startswith file_lower (stem_lower +:+ ".").

Fixpoint find_by_stem_in (stem_lower : string)
  (walk : list (string * list string * list string)) : option string :=
  match walk with
  | [] => None
  | entry :: rest =>
      match List.find (stem_matches stem_lower) entry.2 with
      | Some file => Some (path_join entry.1.1 file)
      | None => find_by_stem_in stem_lower rest
      end
  end.

Definition recursive_find_file_by_stem (stem root_dir : string) : option string :=
  let stem_lower := str_lower stem in
  if nonempty stem_lower then find_by_stem_in stem_lower (fs_walk fs root_dir)
  else None.

Definition recursive_find_dir (dirname root_dir : string) : option string :=
  match List.find (fun entry => str_in dirname entry.1.2) (fs_walk fs root_dir) with
  | Some entry => Some (path_join entry.1.1 dirname)
  | None => None
  end.

(** The storage roots searched for a folder type. *)
Definition search_paths_for (folder_type : string) : list string :=
  match default [] (fs_get_folder_paths fs folder_type) with
  | [] =>
      let comfy_root := fs_base_path fs in
      if nonempty folder_type && (isabs folder_type || _is_path_like folder_type)
      then [if isabs folder_type then folder_type
            else path_join comfy_root folder_type]
      else [path_join (path_join comfy_root "models") folder_type]
  | paths => paths
  end.

(** One iteration of the loop over [search_paths]: the hit under one
    root, if any. *)
Definition search_root (fname : string) (allow_nunchaku_fuzzy : bool)
  (root_path : string) : option string :=
  if negb (fs_exists fs root_path) then None
  else
    let exact_path := path_join root_path fname in
    if fs_exists fs exact_path then Some exact_path
    else
      match recursive_find_file fname root_path with
      | Some f => if nonempty f then Some f else
                    if allow_nunchaku_fuzzy then
                      match recursive_find_file_by_stem fname root_path with
                      | Some f2 => if nonempty f2 then Some f2
                                   else recursive_find_dir fname root_path
                      | None => recursive_find_dir fname root_path
                      end
                    else None
      | None =>
          if allow_nunchaku_fuzzy then
            match recursive_find_file_by_stem fname root_path with
            | Some f2 => if nonempty f2 then Some f2
                         else recursive_find_dir fname root_path
            | None => recursive_find_dir fname root_path
            end
          else None
      end.

(** The loop over [search_paths]: it stops at the first root with a hit. *)
Fixpoint search_roots (fname : string) (allow_nunchaku_fuzzy : bool)
  (roots : list string) : option (string * string) :=
  match roots with
  | [] => None
  | root_path :: rest =>
      match search_root fname allow_nunchaku_fuzzy root_path with
      | Some p => Some (p, root_path)
      | None => search_roots fname allow_nunchaku_fuzzy rest
      end
  end.

(** References the loop skips: a [None], empty or ["null"] file name. *)
Definition is_checkable (model : Model) : bool :=
  match filename model with
  | None => false
  | Some f => nonempty f && negb (bool_decide (f = "null"))
  end.

(** Where the file of a reference is, with the root it was found under
    ([if found_path:] after the loop). *)
Definition locate (model : Model) : option (string * string) :=
  let fname := or_empty (filename model) in
  let folder_type := default "checkpoints" (suggested_folder model) in
  match search_roots fname (_is_nunchaku_extensionless_identifier (filename model))
                     (search_paths_for folder_type) with
  | Some hit => if nonempty hit.1 then Some hit else None
  | None => None
  end.

(** The entry appended to [existing] for a hit. *)
Definition found_entry (model : Model) (hit : string * string) : Model :=
  let rel_path := default (basename hit.1) (fs_relpath fs hit.1 hit.2) in
  set_found (Some hit.1) (Some rel_path) model.

Definition is_mismatch (model : Model) (hit : string * string) : bool :=
  let fname := or_empty (filename model) in
  let requested := if truthy (requested_path model)
                   then or_empty (requested_path model) else fname in
  let rel_path := default (basename hit.1) (fs_relpath fs hit.1 hit.2) in
  negb (bool_decide (norm_slashes requested = norm_slashes rel_path)).

(** [check_model_files]: the three lists, each in input order. *)
Fixpoint check_model_files (found_models : list Model)
  : list Model * list Model * list Model :=
  match found_models with
  | [] => ([], [], [])
  | model :: rest =>
      let '(missing, existing, path_mismatches) := check_model_files rest in
      if negb (is_checkable model) then (missing, existing, path_mismatches)
      else
        match locate model with
        | Some hit =>
            let model_entry := found_entry model hit in
            (missing, model_entry :: existing,
             if is_mismatch model hit then model_entry :: path_mismatches
             else path_mismatches)
        | None => (model :: missing, existing, path_mismatches)
        end
  end.
End LocalCheck.

(* ===================================================================== *)
(** ** 6. The workflow document and reference extraction                  *)
(* ===================================================================== *)

(** A widget value: only strings carry references; of any other JSON
    value the extractor looks at the truth value at most. *)
Inductive JVal :=
  | JStr (s : string)
  | JOther (is_truthy : bool).

Record InputItem := mkInput {
  in_widget : bool;            (* ["widget" in input_item] *)
  in_link : option Z;          (* [input_item.get("link")] *)
  in_name : option string      (* [input_item.get("name")], when a string *)
}.

Record ModelInfo := mkModelInfo {
  mi_name : option string;
  mi_url : option string;
  mi_directory : option string
}.

(** [node["properties"]]: [p_models] is [None] when the key is absent;
    a proxy-widget row is [Some name] when it is a pair [[id, name]]. *)
Record Props := mkProps {
  p_cnr_id : option string;
  p_models : option (list ModelInfo);
  p_proxyWidgets : option (list (option string))
}.

(** [node["widgets_values"]]: absent, a list, or a dict (iterated by key). *)
Inductive Widgets :=
  | WAbsent
  | WList (values : list JVal)
  | WDict (keys : list string).

Record Node := mkNode {
  n_id : NodeId;
  n_mode : Z;                  (* [node.get("mode", 0)] *)
  n_type : option string;      (* [None]: no ["type"] key *)
  n_title : option string;
  n_properties : option Props;
  n_inputs : list InputItem;
  n_widgets : Widgets
}.

(** A link as stored in the document: the list form [[id, origin, ...]] or
    the dict form. *)
Inductive RawLink :=
  | LinkArr (id : Z) (origin : NodeId)
  | LinkObj (id : option Z) (origin : NodeId)
  | LinkOther.

Record Subgraph := mkSubgraph {
  sg_name : option string;
  sg_nodes : list Node;
  sg_links : list RawLink
}.

Record Workflow := mkWorkflow {
  wf_nodes : list Node;
  wf_links : list RawLink;
  wf_subgraphs : list Subgraph;
  wf_skip_hf_search : bool;
  wf_skip_filenames : list string
}.

(** What the source takes from [re] and [urllib]: the markdown-link
    pattern of the note scan, the resolve/blob pattern of
    [extract_huggingface_info], and the scheme and path of [urlparse]. *)
Record UrlLib := mkUrlLib {
  re_findall_md_links : string -> list (string * string);
  re_search_hf_url : string -> option (string * string);
  urlparse : string -> string * string
}.

Definition NODE_TYPE_MAPPING : list (string * string) :=
  [("UNETLoader", "diffusion_models"); ("UnetLoaderGGUF", "diffusion_models");
   ("LoraLoader", "loras"); ("LoraLoaderModelOnly", "loras");
   ("VAELoader", "vae"); ("CLIPLoader", "text_encoders");
   ("ControlNetLoader", "controlnet"); ("DiffControlNetLoader", "controlnet");
   ("CheckpointLoaderSimple", "checkpoints"); ("CheckpointLoader", "checkpoints");
   ("DualCLIPLoader", "text_encoders"); ("CLIPVisionLoader", "clip_vision");
   ("UpscaleModelLoader", "upscale_models"); ("ESAModelLoader", "upscale_models");
   ("StyleModelLoader", "style_models"); ("GligenLoader", "gligen");
   ("DiffusersLoader", "diffusion_models"); ("GLIGENLoader", "gligen");
   ("WanVideoLoraSelect", "loras"); ("WanVideoLoraSelectByName", "loras");
   ("WanVideoLoraSelectMulti", "loras");
   ("WanVideoVACEModelSelect", "diffusion_models");
   ("WanVideoExtraModelSelect", "diffusion_models");
   ("LoaderGGUF", "diffusion_models"); ("LoaderGGUFAdvanced", "diffusion_models");
   ("ClipLoaderGGUF", "text_encoders"); ("DualClipLoaderGGUF", "text_encoders");
   ("TripleClipLoaderGGUF", "text_encoders");
   ("QuadrupleClipLoaderGGUF", "text_encoders"); ("VAELoaderGGUF", "vae");
   ("VAELoaderKJ", "vae"); ("CLIPLoaderKJ", "text_encoders");
   ("DualCLIPLoaderKJ", "text_encoders"); ("UnetLoaderKJ", "diffusion_models");
   ("LoraLoaderKJ", "loras");
   ("NunchakuFluxDiTLoader", "diffusion_models");
   ("NunchakuQwenImageDiTLoader", "diffusion_models");
   ("NunchakuZImageDiTLoader", "diffusion_models");
   ("NunchakuTextEncoderLoader", "text_encoders");
   ("NunchakuTextEncoderLoaderV2", "text_encoders");
   ("NunchakuFluxLoraLoader", "loras"); ("NunchakuFluxLoraStack", "loras");
   ("NunchakuIPAdapterLoader", "ipadapter"); ("NunchakuPulidLoader", "pulid");
   ("NunchakuPuLIDLoaderV2", "pulid");
   ("IPAdapterPlus", "ipadapter"); ("IPAdapterUnifiedLoader", "ipadapter");
   ("ADE_AnimateDiffLoaderGen1", "animatediff_models");
   ("ADE_AnimateDiffLoaderWithContext", "animatediff_models");
   ("CheckpointLoaderNF4", "checkpoints"); ("LoadFluxControlNet", "xlabs_controlnets");
   ("MMAudioModelLoader", "mmaudio"); ("PulidModelLoader", "pulid");
   ("Florence2ModelLoader", "LLM"); ("DownloadAndLoadFlorence2Model", "LLM")].

Fixpoint assoc_get {V} (k : string) (l : list (string * V)) : option V :=
  match l with
  | [] => None
  | (k', v) :: r => if bool_decide (k = k') then Some v else assoc_get k r
  end.

Definition node_type_of (node : Node) : string := or_empty (n_type node).

Definition cnr_of (node : Node) : string :=
  match n_properties node with
  | Some p => or_empty (p_cnr_id p)
  | None => ""
  end.

Definition resolve_node_folder (node : Node) : option string :=
  let node_type := node_type_of node in
  match assoc_get node_type NODE_TYPE_MAPPING with
  | Some folder => Some folder
  | None =>
      let cnr_id := str_lower (cnr_of node) in
      let node_type_lower := str_lower node_type in
      if contains "gguf" node_type_lower || contains "gguf" cnr_id then
        if contains "clip" node_type_lower then Some "text_encoders"
        else if contains "vae" node_type_lower then Some "vae"
        else if contains "lora" node_type_lower then Some "loras"
        else Some "diffusion_models"
      else if contains "kjnodes" cnr_id then
        if contains "clip" node_type_lower then Some "text_encoders"
        else if contains "vae" node_type_lower then Some "vae"
        else if contains "lora" node_type_lower then Some "loras"
        else if contains "unet" node_type_lower || contains "model" node_type_lower
        then Some "diffusion_models"
        else None
      else None
  end.

Definition resolve_proxy_widget_folder (widget_name : option string) : option string :=
  if truthy widget_name then
    let name := str_lower (or_empty widget_name) in
    if contains "unet" name then Some "diffusion_models"
    else if contains "clip" name then Some "text_encoders"
    else if contains "vae" name then Some "vae"
    else if contains "lora" name then Some "loras"
    else if contains "checkpoint" name || contains "ckpt" name then Some "checkpoints"
    else None
  else None.

Definition is_http_url (s : string) : bool :=
  startswith s "http://" || startswith s "https://".

(** [value.split("?")[0].split("/")[-1]] *)
Definition url_tail (value : string) : string := after_last_slash (before_query value).

Definition is_hex (c : ascii) : bool :=
  is_digit c || ((97 <=? nat_of_ascii (lower_ascii c)) && (nat_of_ascii (lower_ascii c) <=? 102)).

(** [n] hexadecimal digits at the head of [l]; what follows them. *)
Fixpoint strip_hex (n : nat) (l : list ascii) : option (list ascii) :=
  match n with
  | O => Some l
  | S k => match l with
           | c :: r => if is_hex c then strip_hex k r else None
           | [] => None
           end
  end.

Definition strip_dash (l : list ascii) : option (list ascii) :=
  match l with
  | c :: r => if ascii_eqb c "-" then Some r else None
  | [] => None
  end.

Definition uuid_steps : list (list ascii -> option (list ascii)) :=
  [strip_hex 8; strip_dash; strip_hex 4; strip_dash; strip_hex 4; strip_dash;
   strip_hex 4; strip_dash; strip_hex 12].

(** [is_subgraph_node]: the node type is a UUID. *)
Definition is_subgraph_node (node_type : string) : bool :=
  match fold_left (fun acc step => match acc with Some l => step l | None => None end)
                  uuid_steps (Some (chars node_type)) with
  | Some [] => true
  | Some [c] => ascii_eqb c ch_newline
  | _ => false
  end.

(** *** URL helpers of the source *)

Section Urls.
Variable lib : UrlLib.

Definition extract_huggingface_info (u : string) : option (string * string) :=
  if negb (nonempty u) || negb (contains "huggingface.co" u) then None
  else re_search_hf_url lib u.

Record ParsedLink := mkParsedLink {
  pl_repo : string;
  pl_revision : option string;
  pl_subfolder : option string;
  pl_file : option string
}.

Fixpoint index_of (x : string) (l : list string) : option nat :=
  match l with
  | [] => None
  | y :: r => if bool_decide (x = y) then Some 0 else S <$> index_of x r
  end.

(** The [resolve] and [blob] branches of [parse_link]. *)
Definition parse_after (repo : string) (path_parts : list string) (idx : nat)
  : ParsedLink :=
  let revision := path_parts !! (idx + 1) in
  let remaining := drop (idx + 2) path_parts in
  match remaining with
  | [] => mkParsedLink repo revision None None
  | [f] => mkParsedLink repo revision None (Some f)
  | _ => mkParsedLink repo revision
           (Some (join "/" (removelast remaining)))
           (Some (List.last remaining ""))
  end.

(** [parse_link] of [parse_link.py]; [None] where it raises. *)
Definition parse_link (link : string) : option ParsedLink :=
  let '(scheme, path) := urlparse lib link in
  let path_parts :=
    split_on "/" (strip_slashes (if nonempty scheme then path else link)) in
  match path_parts with
  | p0 :: p1 :: _ =>
      let repo := p0 +:+ "/" +:+ p1 in
      Some
        match index_of "resolve" path_parts with
        | Some idx => parse_after repo path_parts idx
        | None =>
            match index_of "blob" path_parts with
            | Some idx => parse_after repo path_parts idx
            | None =>
                match index_of "tree" path_parts with
                | Some idx =>
                    mkParsedLink repo (path_parts !! (idx + 1))
                      (if idx + 2 <? length path_parts
                       then Some (join "/" (drop (idx + 2) path_parts)) else None)
                      None
                | None =>
                    if 2 <? length path_parts then
                      if contains "." (List.last path_parts "") then
                        mkParsedLink repo None
                          (Some (join "/" (removelast (drop 2 path_parts))))
                          (Some (List.last path_parts ""))
                      else mkParsedLink repo None
                             (Some (join "/" (drop 2 path_parts))) None
                    else mkParsedLink repo None None None
                end
            end
        end
  | _ => None
  end.

Definition repo_and_path_of_link (u : string) : option (string * string) :=
  match parse_link u with
  | Some parsed =>
      let repo := pl_repo parsed in
      if nonempty repo && truthy (pl_file parsed) then
        let fname := or_empty (pl_file parsed) in
        let subfolder := strip_slashes (or_empty (pl_subfolder parsed)) in
        if nonempty subfolder then Some (repo, subfolder +:+ "/" +:+ fname)
        else Some (repo, fname)
      else None
  | None => None
  end.

Definition extract_hf_repo_and_path (u : string) : option (string * string) :=
  match extract_huggingface_info u with
  | Some (hf_repo, hf_path) =>
      if nonempty hf_repo && nonempty hf_path then Some (hf_repo, hf_path)
      else repo_and_path_of_link u
  | None => repo_and_path_of_link u
  end.

Definition is_specific_model_file_url (u : string) (expected_filename : option string)
  : bool :=
  match extract_hf_repo_and_path u with
  | Some (hf_repo, hf_path) =>
      nonempty hf_repo && nonempty hf_path &&
      (let file_name := str_strip (basename (norm_slashes hf_path)) in
       nonempty file_name && has_model_ext (str_lower file_name) &&
       (if truthy expected_filename then
          let expected_base :=
            str_lower (str_strip (basename (norm_slashes (or_empty expected_filename)))) in
          negb (nonempty expected_base
                && negb (bool_decide (expected_base = str_lower file_name)))
        else true))
  | None => false
  end.
End Urls.

(** *** [_collect_models_from_nodes] *)

(** What the loop over the nodes carries: the references found so far and
    the two side indexes of note links. *)
Record Collected := mkCollected {
  found_models : list Model;
  note_links : gmap string string;
  note_links_normalized : gmap string string
}.

(** [d.setdefault(k, v)] *)
Definition setdefault (k v : string) (d : gmap string string) : gmap string string :=
  match d !! k with
  | Some _ => d
  | None => <[k := v]> d
  end.

(** [_build_links_map] *)
Definition _build_links_map (raw_links : list RawLink) : gmap Z NodeId :=
  fold_left (fun links_map link =>
               match link with
               | LinkArr id origin => <[id := origin]> links_map
               | LinkObj (Some id) origin =>
                   if bool_decide (origin = NidNone) then links_map
                   else <[id := origin]> links_map
               | _ => links_map
               end) raw_links ∅.

(** [{n.get("id"): n for n in nodes}.get(id)]: the last node with that id. *)
Fixpoint nodes_by_id_get (nodes : list Node) (id : NodeId) : option Node :=
  match nodes with
  | [] => None
  | n :: rest =>
      match nodes_by_id_get rest id with
      | Some n' => Some n'
      | None => if bool_decide (n_id n = id) then Some n else None
      end
  end.

(** The linked widget slots of a node: indices, names, and whether any
    widget input is linked. *)
Fixpoint linked_widgets (inputs : list InputItem) (widget_pos : nat)
  : list nat * list string * bool :=
  match inputs with
  | [] => ([], [], false)
  | input_item :: rest =>
      if in_widget input_item then
        let '(idxs, names, has) := linked_widgets rest (S widget_pos) in
        match in_link input_item with
        | Some _ =>
            (widget_pos :: idxs,
             (if truthy (in_name input_item)
              then or_empty (in_name input_item) :: names else names),
             true)
        | None => (idxs, names, has)
        end
      else linked_widgets rest widget_pos
  end.

Definition widget_list (node : Node) : option (list JVal) :=
  match n_widgets node with
  | WList l => Some l
  | _ => None
  end.

Definition nat_in (n : nat) (l : list nat) : bool := bool_decide (n ∈ l).

(** The normalized names the node's own widgets select. *)
Definition widget_model_keys_of (node : Node) (linked_idx : list nat) : list string :=
  match widget_list node with
  | None => []
  | Some widgets =>
      omap (fun '(idx, raw_val) =>
              if nat_in idx linked_idx then None
              else match raw_val with
                   | JOther _ => None
                   | JStr raw =>
                       let val := str_strip raw in
                       if negb (nonempty val) then None
                       else if is_http_url val then
                         let parsed_filename := url_tail val in
                         if has_model_ext (str_lower parsed_filename)
                         then Some (normalize_filename_key parsed_filename)
                         else None
                       else if _looks_like_model_widget_value val (node_type_of node)
                       then
                         let fname := (split_model_identifier val).1 in
                         if nonempty fname then Some (normalize_filename_key fname)
                         else None
                       else None
                   end)
           (imap pair widgets)
  end.

(** [collect_proxy_widget_models] followed by the caller's loop over its
    result: the references of a subgraph wrapper node. *)
Definition proxy_widget_models (node : Node) (node_title : string)
  (linked_idx : list nat) (linked_names : list string) : list Model :=
  match (n_properties node ≫= p_proxyWidgets), widget_list node with
  | Some proxy, Some widgets =>
      omap (fun '(idx, value) =>
              let widget_name : option string := mjoin (proxy !! idx) in
              if truthy widget_name && str_in (or_empty widget_name) linked_names
              then None
              else if nat_in idx linked_idx && negb (truthy widget_name) then None
              else match value with
                   | JOther _ => None
                   | JStr v =>
                       if is_http_url v then
                         let parsed_filename := url_tail v in
                         if has_model_ext parsed_filename then
                           Some (new_model parsed_filename None (Some v) (n_id node)
                                   (Some node_title)
                                   (resolve_proxy_widget_folder widget_name)
                                   (Some "proxy_widget"))
                         else None
                       else if has_model_ext v then
                         let '(fname, rp) := split_model_identifier v in
                         if nonempty fname then
                           Some (new_model fname rp None (n_id node) (Some node_title)
                                   (resolve_proxy_widget_folder widget_name)
                                   (Some "proxy_widget"))
                         else None
                       else None
                   end)
           (imap pair widgets)
  | _, _ => []
  end.

(** [any(m["filename"] == f and m["node_id"] == id for m in found_models)] *)
Definition already_found (fname : string) (id : NodeId) (found : list Model) : bool :=
  existsb (fun m => bool_decide (filename m = Some fname) && bool_decide (node_id m = id))
          found.

(** The special case of the download node: [Some] reference when the node
    is handled there (and the generic scan is skipped).  The folder widget
    is read as a string: a truthy folder of another JSON type, which the
    source would store as it is, has no place in the string-typed
    [suggested_folder] and is left out. *)
Definition download_node_model (node : Node) (node_title : string) : option Model :=
  if bool_decide (node_type_of node = "Hugging Face Download Model") then
    match widget_list node with
    | Some (folder :: u :: custom_path :: _) =>
        match u with
        | JStr url_s =>
            if nonempty url_s && contains "/" url_s then
              let fname := before_query (after_last_slash url_s) in
              if nonempty fname then
                let suggested :=
                  match custom_path with
                  | JStr cp =>
                      if nonempty cp && nonempty (str_strip cp) then Some (str_strip cp)
                      else match folder with
                           | JStr f =>
                               if nonempty f && negb (bool_decide (f = "custom"))
                               then Some f else None
                           | JOther _ => None
                           end
                  | JOther _ =>
                      match folder with
                      | JStr f =>
                          if nonempty f && negb (bool_decide (f = "custom"))
                          then Some f else None
                      | JOther _ => None
                      end
                  end in
                Some (new_model fname None (Some url_s) (n_id node) (Some node_title)
                        suggested None)
              else None
            else None
        | JOther _ => None
        end
    | _ => None
    end
  else None.

Definition is_note_type (node_type : string) : bool :=
  contains "Note" node_type || contains "PrimitiveString" node_type.

Section Extraction.
Variable lib : UrlLib.

(** The links of one note text, entered into the two side indexes. *)
Definition index_note_text (val : string) (st : Collected) : Collected :=
  fold_left
    (fun st '(label, u) =>
       if negb (is_specific_model_file_url lib u None) then st
       else
         let url_filename := url_tail u in
         let candidates :=
           (if has_model_ext (str_lower url_filename) then [url_filename] else [])
           ++ (if has_model_ext (str_lower label) then [label] else []) in
         fold_left
           (fun st fname =>
              mkCollected (found_models st)
                (setdefault (normalize_filename_key fname) u (note_links st))
                (setdefault (normalize_filename_compact fname) u
                            (note_links_normalized st)))
           candidates st)
    (re_findall_md_links lib val) st.

Definition note_strings (node : Node) : list string :=
  match n_widgets node with
  | WAbsent => []
  | WList values => omap (fun v => match v with JStr s => Some s | JOther _ => None end) values
  | WDict keys => keys
  end.

(** Step 2: the [properties.models] rows of a node. *)
Definition collect_property_models (node : Node) (node_title : string)
  (has_linked : bool) (widget_model_keys : list string) (found : list Model)
  : list Model :=
  match n_properties node ≫= p_models with
  | Some models =>
      if has_linked then found
      else
        fold_left
          (fun found model_info =>
             if truthy (mi_name model_info) then
               let '(fname, rp) := split_model_identifier (or_empty (mi_name model_info)) in
               if negb (nonempty fname) then found
               else
                 let filename_key := normalize_filename_key fname in
                 if match widget_model_keys with [] => false | _ => true end
                    && negb (str_in filename_key widget_model_keys)
                 then found
                 else if already_found fname (n_id node) found then found
                 else found ++ [new_model fname rp (mi_url model_info) (n_id node)
                                  (Some node_title) (mi_directory model_info) None]
             else found)
          models found
  | None => found
  end.

(** Step 3: the widget values of a node. *)
Definition collect_widget_models (node : Node) (node_title : string)
  (linked_idx : list nat) (found : list Model) : list Model :=
  match widget_list node with
  | None => found
  | Some widgets =>
      fold_left
        (fun found '(idx, val) =>
           if nat_in idx linked_idx then found
           else match val with
                | JOther _ => found
                | JStr v =>
                    let case_b (found : list Model) :=
                      if _looks_like_model_widget_value v (node_type_of node) then
                        let '(fname, rp) := split_model_identifier v in
                        if already_found fname (n_id node) found then found
                        else found ++ [new_model fname rp None (n_id node)
                                         (Some node_title) (resolve_node_folder node) None]
                      else found in
                    if is_http_url v
                       && (has_model_ext v || contains "blob" v || contains "resolve" v)
                       && has_model_ext (url_tail v)
                    then
                      if already_found (url_tail v) (n_id node) found then found
                      else found ++ [new_model (url_tail v) None (Some v) (n_id node)
                                       (Some node_title) (resolve_node_folder node) None]
                    else case_b found
                end)
        (imap pair widgets) found
  end.
Definition nid_text (id : NodeId) : string :=
  match id with
  | NidNone => "None"
  | NidInt z => pretty z
  | NidStr s => s
  end.

Definition looks_like_model_url (u : string) : bool :=
  has_model_ext u || contains "blob" u || contains "resolve" u.

(** The innermost loop of step 4: one upstream URL offered to the
    references of this node that have no URL yet. *)
Definition inject_url (id : NodeId) (upstream_label u_val : string)
  (found : list Model) : list Model :=
  map (fun m =>
         if bool_decide (node_id m = id) && negb (truthy (url m))
            && looks_like_model_url u_val
            && nonempty (url_tail u_val)
            && bool_decide (str_lower (url_tail u_val)
                            = str_lower (or_empty (filename m)))
         then set_note (Some ("Resolved from upstream node " +:+ upstream_label))
                       (set_url (Some u_val) m)
         else m)
      found.

(** Step 4: URLs carried by the upstream nodes of the node's inputs. *)
Definition inject_upstream (links_map : gmap Z NodeId) (nodes : list Node)
  (node : Node) (found : list Model) : list Model :=
  fold_left
    (fun found input_item =>
       match in_link input_item with
       | Some link_id =>
           if bool_decide (link_id = 0%Z) then found
           else
             match links_map !! link_id with
             | Some upstream_id =>
                 match nodes_by_id_get nodes upstream_id with
                 | Some upstream_node =>
                     match n_widgets upstream_node with
                     | WList u_widgets =>
                         if bool_decide (n_mode upstream_node = 2%Z)
                            || bool_decide (n_mode upstream_node = 4%Z)
                         then found
                         else
                           fold_left
                             (fun found u_val =>
                                match u_val with
                                | JStr u =>
                                    if is_http_url u then
                                      inject_url (n_id node)
                                        (default (nid_text upstream_id)
                                                 (n_title upstream_node))
                                        u found
                                    else found
                                | JOther _ => found
                                end)
                             u_widgets found
                     | _ => found
                     end
                 | None => found
                 end
             | None => found
             end
       | None => found
       end)
    (n_inputs node) found.

Definition with_found (st : Collected) (found : list Model) : Collected :=
  mkCollected found (note_links st) (note_links_normalized st).

(** The body of the loop of [_collect_models_from_nodes] for one node. *)
Definition collect_node (links_map : gmap Z NodeId) (nodes : list Node)
  (node_title_fallback : string) (st : Collected) (node : Node) : Collected :=
  if bool_decide (n_mode node = 2%Z) || bool_decide (n_mode node = 4%Z) then st
  else
    let node_title :=
      if truthy (n_title node) then or_empty (n_title node)
      else default node_title_fallback (n_type node) in
    let node_type := node_type_of node in
    if bool_decide (cnr_of node = "comfyui_controlnet_aux") then st
    else
      let '(linked_idx, linked_names, has_linked) := linked_widgets (n_inputs node) 0 in
      let widget_model_keys := widget_model_keys_of node linked_idx in
      if is_subgraph_node node_type then
        with_found st (found_models st
                       ++ proxy_widget_models node node_title linked_idx linked_names)
      else
        match download_node_model node node_title with
        | Some m => with_found st (found_models st ++ [m])
        | None =>
            if is_note_type node_type then
              fold_left (fun st val => index_note_text val st) (note_strings node) st
            else
              let found := collect_property_models node node_title has_linked
                             widget_model_keys (found_models st) in
              let found := collect_widget_models node node_title linked_idx found in
              with_found st (inject_upstream links_map nodes node found)
        end.

Definition _collect_models_from_nodes (nodes : list Node)
  (links_map : gmap Z NodeId) (nodes_by_id : list Node)
  (node_title_fallback : string) (st : Collected) : Collected :=
  fold_left (collect_node links_map nodes_by_id node_title_fallback) nodes st.

(** The loop over the subgraph definitions, then the top-level graph:
    everything [extract_models_from_workflow] collects before the note
    links are applied. *)
Definition collect_workflow (workflow : Workflow) : Collected :=
  let st :=
    fold_left
      (fun st subgraph =>
         _collect_models_from_nodes (sg_nodes subgraph)
           (_build_links_map (sg_links subgraph)) (sg_nodes subgraph)
           ("Subgraph Node (" +:+ default "Subgraph" (sg_name subgraph) +:+ ")") st)
      (wf_subgraphs workflow) (mkCollected [] ∅ ∅) in
  _collect_models_from_nodes (wf_nodes workflow)
    (_build_links_map (wf_links workflow)) (wf_nodes workflow) "Unknown Node" st.

(** The note URL found for a reference, if any. *)
Definition note_url_for (st : Collected) (model : Model) : option string :=
  let fname := or_empty (filename model) in
  match note_links st !! normalize_filename_key fname with
  | Some u => if nonempty u then Some u
              else note_links_normalized st !! normalize_filename_compact fname
  | None => note_links_normalized st !! normalize_filename_compact fname
  end.

(** The body of the enrichment loop for one reference. *)
Definition backfill_note_url (st : Collected) (model : Model) : Model :=
  match note_url_for st model with
  | Some u =>
      if negb (nonempty u) then model
      else if negb (is_specific_model_file_url lib u (filename model)) then model
      else if truthy (url model)
              && is_specific_model_file_url lib (or_empty (url model)) None
      then model
      else set_note (Some "URL from Note")
             (set_source (Some "note") (set_url (Some u) model))
  | None => model
  end.

Definition extract_models_from_workflow (workflow : Workflow) : list Model :=
  let st := collect_workflow workflow in
  map (backfill_note_url st) (found_models st).
End Extraction.

(* ===================================================================== *)
(** ** 7. Process-wide state, the remote collaborator and the monad       *)
(* ===================================================================== *)

(** A Python exception as the handlers of the source tell them apart: by
    class ([concurrent.futures.TimeoutError], [HFSearchBudgetError], any
    other [Exception]) and by its text. *)
Inductive ExnKind := FutureTimeout | BudgetError | OtherError.

Record Exn := mkExn { exn_kind : ExnKind; exn_text : string }.

Definition is_rate_limited_error (err : Exn) : bool :=
  let text := exn_text err in
  contains "429" text || contains "Too Many Requests" text
  || contains "rate limit" (str_lower text).

Definition is_timeout_error (err : Exn) : bool :=
  let text := str_lower (exn_text err) in
  contains "timeout" text || contains "timed out" text || contains "gateway" text
  || contains "504" text || contains "524" text.

(** What the remote search returns for a file. *)
Record SearchResult := mkResult {
  r_url : string;
  r_hf_repo : string;
  r_hf_path : string
}.

(** A request sent to the model hub. *)
Inductive Request :=
  | ListModels (search author : option string) (limit : nat)
  | ListRepoFiles (repo_id : string).

(** The observable history of a run, newest event first: budget resets,
    grants of [_hf_search_allowed] (with the time, the deadline and the
    rate-limit mark they were given under), and remote calls with the time
    they were issued at. *)
Inductive Event :=
  | EvReset
  | EvGrant (t deadline : Z) (limited_until : option Z)
  | EvCall (req : Request) (t : Z).

(** The module-level globals, the clock, the number of remote calls made
    so far, and the history. *)
Record World := mkWorld {
  _hf_api_calls : Z;
  _hf_rate_limited_until : option Z;
  _hf_search_deadline : Z;
  _hf_search_time_exhausted : bool;
  _hf_search_cache : gmap string (option SearchResult);
  _hf_repo_files_cache : gmap string (list string);
  clock : Z;
  remote_seq : nat;
  trace : list Event
}.

(** An entry of the curated registry or of the manager model list. *)
Record RegEntry := mkRegEntry {
  e_filename : string;
  e_url : option string;
  e_extra_urls : list string;   (* candidate_urls, priority_urls, urls *)
  e_source : option string;
  e_directory : option string
}.

(** A progress notification. *)
Record Payload := mkPayload {
  p_message : string;
  p_source : string;
  p_filename : option string;
  p_detail : option string
}.

(** Configuration and collaborators of a run.  The remote answers are
    indexed by the number of remote calls issued before. *)
Record Env := mkEnv {
  env_fs : FS;
  env_lib : UrlLib;
  env_is_blackwell : bool;
  HF_SEARCH_MAX_CALLS : Z;
  HF_SEARCH_RATE_LIMIT_SECONDS : Z;
  HF_SEARCH_MAX_SECONDS : Z;
  PRIORITY_REPO_SCAN_LIMIT : Z;
  env_popular_models : list (string * RegEntry);
  env_manager_models : list (string * RegEntry);
  env_url_probe : string -> bool;
  env_api_init_error : option Exn;   (* what [HfApi(token=token)] raises, if it does *)
  env_list_models : nat -> option string -> option string -> nat -> list string + Exn;
  env_list_repo_files : nat -> string -> list string + Exn;
  env_elapsed : nat -> Z
}.

(** Computations over the globals that may raise. *)
Definition M (A : Type) : Type := World -> (A + Exn) * World.

Definition ret {A} (a : A) : M A := fun w => (inl a, w).
Definition raise {A} (e : Exn) : M A := fun w => (inr e, w).
Definition bind {A B} (m : M A) (k : A -> M B) : M B :=
  fun w => match m w with
           | (inl a, w') => k a w'
           | (inr e, w') => (inr e, w')
           end.
(** [try: m  except ... as e: h e] *)
Definition try_catch {A} (m : M A) (h : Exn -> M A) : M A :=
  fun w => match m w with
           | (inr e, w') => h e w'
           | r => r
           end.
Definition gets {A} (f : World -> A) : M A := fun w => (inl (f w), w).
Definition modify (f : World -> World) : M unit := fun w => (inl tt, f w).

Declare Scope m_scope.
Delimit Scope m_scope with m.
Notation "x <- m ;; k" := (bind m (fun x => k))
  (at level 100, m at next level, right associativity) : m_scope.
Notation "m ;; k" := (bind m (fun _ => k))
  (at level 100, right associativity) : m_scope.
Open Scope m_scope.

(** How one round of a [for] loop ends. *)
Inductive Step (S R : Type) :=
  | Continue (s : S)
  | Break (s : S)
  | Return (r : R).
Arguments Continue {S R} s.
Arguments Break {S R} s.
Arguments Return {S R} r.

(** A [for] loop over [l] threading the local variables [s]: [inl] when
    the loop is left at its end or by [break], [inr] when the enclosing
    function returns from inside it. *)
Fixpoint for_loop {A S R} (l : list A) (s : S) (body : A -> S -> M (Step S R))
  : M (S + R) :=
  match l with
  | [] => ret (inl s)
  | x :: rest =>
      st <- body x s ;;
      match st with
      | Continue s' => for_loop rest s' body
      | Break s' => ret (inl s')
      | Return r => ret (inr r)
      end
  end.

(** *** Setters of the globals *)

Definition set_calls (v : Z) (w : World) : World :=
  mkWorld v (_hf_rate_limited_until w) (_hf_search_deadline w)
    (_hf_search_time_exhausted w) (_hf_search_cache w) (_hf_repo_files_cache w)
    (clock w) (remote_seq w) (trace w).
Definition set_rate_limited_until (v : option Z) (w : World) : World :=
  mkWorld (_hf_api_calls w) v (_hf_search_deadline w)
    (_hf_search_time_exhausted w) (_hf_search_cache w) (_hf_repo_files_cache w)
    (clock w) (remote_seq w) (trace w).
Definition set_deadline (v : Z) (w : World) : World :=
  mkWorld (_hf_api_calls w) (_hf_rate_limited_until w) v
    (_hf_search_time_exhausted w) (_hf_search_cache w) (_hf_repo_files_cache w)
    (clock w) (remote_seq w) (trace w).
Definition set_time_exhausted (v : bool) (w : World) : World :=
  mkWorld (_hf_api_calls w) (_hf_rate_limited_until w) (_hf_search_deadline w)
    v (_hf_search_cache w) (_hf_repo_files_cache w)
    (clock w) (remote_seq w) (trace w).
Definition set_search_cache (v : gmap string (option SearchResult)) (w : World) : World :=
  mkWorld (_hf_api_calls w) (_hf_rate_limited_until w) (_hf_search_deadline w)
    (_hf_search_time_exhausted w) v (_hf_repo_files_cache w)
    (clock w) (remote_seq w) (trace w).
Definition set_repo_files_cache (v : gmap string (list string)) (w : World) : World :=
  mkWorld (_hf_api_calls w) (_hf_rate_limited_until w) (_hf_search_deadline w)
    (_hf_search_time_exhausted w) (_hf_search_cache w) v
    (clock w) (remote_seq w) (trace w).
Definition log_event (ev : Event) (w : World) : World :=
  mkWorld (_hf_api_calls w) (_hf_rate_limited_until w) (_hf_search_deadline w)
    (_hf_search_time_exhausted w) (_hf_search_cache w) (_hf_repo_files_cache w)
    (clock w) (remote_seq w) (ev :: trace w).
Definition advance (dt : Z) (w : World) : World :=
  mkWorld (_hf_api_calls w) (_hf_rate_limited_until w) (_hf_search_deadline w)
    (_hf_search_time_exhausted w) (_hf_search_cache w) (_hf_repo_files_cache w)
    (clock w + dt) (S (remote_seq w)) (trace w).

(** [_hf_rate_limited_until and time.time() < _hf_rate_limited_until] *)
Definition rate_limited_now (w : World) : bool :=
  match _hf_rate_limited_until w with
  | Some u => negb (u =? 0)%Z && (clock w <? u)%Z
  | None => false
  end.

(** [_hf_search_deadline and time.time() >= _hf_search_deadline] *)
Definition deadline_passed (w : World) : bool :=
  negb (_hf_search_deadline w =? 0)%Z && (_hf_search_deadline w <=? clock w)%Z.

Section Budget.
Variable env : Env.

Definition _hf_search_allowed : M bool := fun w =>
  if rate_limited_now w then (inl false, w)
  else if deadline_passed w then (inl false, set_time_exhausted true w)
  else if (HF_SEARCH_MAX_CALLS env <=? _hf_api_calls w)%Z then (inl false, w)
  else (inl true,
        log_event (EvGrant (clock w) (_hf_search_deadline w) (_hf_rate_limited_until w))
                  (set_calls (_hf_api_calls w + 1) w)).

Definition _set_hf_rate_limited : M unit := fun w =>
  match _hf_rate_limited_until w with
  | Some u =>
      if negb (u =? 0)%Z then (inl tt, w)
      else (inl tt, set_rate_limited_until
                      (Some (clock w + HF_SEARCH_RATE_LIMIT_SECONDS env)%Z) w)
  | None =>
      (inl tt, set_rate_limited_until
                 (Some (clock w + HF_SEARCH_RATE_LIMIT_SECONDS env)%Z) w)
  end.

Definition _hf_search_budget_exhausted (w : World) : bool :=
  rate_limited_now w || (HF_SEARCH_MAX_CALLS env <=? _hf_api_calls w)%Z.

Definition _reset_hf_search_budget : M unit := fun w =>
  (inl tt,
   log_event EvReset
     (set_time_exhausted false
        (set_deadline
           (if (0 <? HF_SEARCH_MAX_SECONDS env)%Z
            then (clock w + HF_SEARCH_MAX_SECONDS env)%Z else 0%Z)
           (set_calls 0 w)))).

(** The reset at the head of [process_workflow_for_missing_models]. *)
Definition reset_at_run_start : M unit := fun w =>
  (inl tt,
   set_repo_files_cache ∅
     (set_rate_limited_until None
        (set_time_exhausted false (set_deadline 0 (set_calls 0 w))))).

(** [call_with_timeout(api.list_models, ...)] *)
Definition remote_list_models (search author : option string) (limit : nat)
  : M (list string) := fun w =>
  let w1 := log_event (EvCall (ListModels search author limit) (clock w)) w in
  let answer := env_list_models env (remote_seq w) search author limit in
  let w2 := advance (env_elapsed env (remote_seq w)) w1 in
  match answer with
  | inl ids => (inl ids, w2)
  | inr e => (inr e, w2)
  end.

(** [call_with_timeout(api.list_repo_files, ...)] *)
Definition remote_list_repo_files (repo_id : string) : M (list string) := fun w =>
  let w1 := log_event (EvCall (ListRepoFiles repo_id) (clock w)) w in
  let answer := env_list_repo_files env (remote_seq w) repo_id in
  let w2 := advance (env_elapsed env (remote_seq w)) w1 in
  match answer with
  | inl files => (inl files, w2)
  | inr e => (inr e, w2)
  end.

Definition _get_repo_files (repo_id : string) : M (list string) :=
  cached <- gets (fun w => _hf_repo_files_cache w !! repo_id) ;;
  match cached with
  | Some files => ret files
  | None =>
      allowed <- _hf_search_allowed ;;
      if negb allowed then raise (mkExn BudgetError "")
      else
        files <- try_catch (remote_list_repo_files repo_id)
                   (fun e =>
                      modify (fun w => set_repo_files_cache
                                         (<[repo_id := []]> (_hf_repo_files_cache w)) w) ;;
                      raise e) ;;
        modify (fun w => set_repo_files_cache
                           (<[repo_id := files]> (_hf_repo_files_cache w)) w) ;;
        ret files
  end.
End Budget.

(* ===================================================================== *)
(** ** 8. Remote search ([search_huggingface_model])                      *)
(* ===================================================================== *)

Definition _normalize_hf_search_key (fname : string) : string :=
  str_lower (basename fname).

(** Order-preserving removal of repeats ([list(dict.fromkeys(l))]). *)
Fixpoint dedupe_strings (seen : list string) (l : list string) : list string :=
  match l with
  | [] => []
  | x :: r => if str_in x seen then dedupe_strings seen r
              else x :: dedupe_strings (x :: seen) r
  end.

(** [sorted(l, key=...)] for a strict order [lt] on the keys: stable. *)
Fixpoint insert_sorted {A} (lt : A -> A -> bool) (x : A) (l : list A) : list A :=
  match l with
  | [] => [x]
  | y :: r => if lt y x then y :: insert_sorted lt x r else x :: l
  end.

Definition stable_sort {A} (lt : A -> A -> bool) (l : list A) : list A :=
  foldr (insert_sorted lt) [] l.

Definition add_term (terms : list string) (term : string) : list string :=
  if negb (nonempty term) then terms
  else
    let t := str_strip term in
    if (str_len t <? 4) || str_in t terms then terms else terms ++ [t].

(** [[t for t in re.split(r"[-_]", stem) if t]] *)
Definition name_tokens (stem : string) : list string :=
  filter (fun t => nonempty t = true) (split_chars is_sep [] (chars stem)).

Definition build_search_terms (name : string) : list string :=
  let stem := (splitext name).1 in
  let terms := add_term [] name in
  let terms := add_term terms stem in
  let terms := add_term terms (replace_char "_" "-" stem) in
  let terms := add_term terms (replace_char "-" "_" stem) in
  let tokens := name_tokens stem in
  let terms := if 2 <=? length tokens then add_term terms (join "-" (take 2 tokens))
               else terms in
  if 3 <=? length tokens then add_term terms (join "-" (take 3 tokens)) else terms.

Definition build_author_search_terms (name : string) : list string :=
  fold_left (fun terms t => add_term terms (str_lower (remove_chars is_digit t)))
            (name_tokens (splitext name).1) (build_search_terms name).

(** The token hints of a file name: each token of three characters or
    more, and its digit-free form when that is as long. *)
Definition token_hints_of (stem_lower : string) : list string :=
  dedupe_strings []
    (flat_map (fun t0 =>
                 let t := str_lower (str_strip t0) in
                 (if 3 <=? str_len t then [t] else [])
                 ++ (let alpha := remove_chars is_digit t in
                     if 3 <=? str_len alpha then [alpha] else []))
              (split_chars is_sep [] (chars stem_lower))).

Definition workflow_hints_of (workflow_keywords : list string) : list string :=
  dedupe_strings []
    (omap (fun t0 => let t := str_lower (str_strip t0) in
                     if 3 <=? str_len t then Some t else None)
          workflow_keywords).

Definition _repo_score (stem_lower : string) (token_hints workflow_hints : list string)
  (model_id : string) : nat :=
  let mid := str_lower model_id in
  (if nonempty stem_lower && contains stem_lower mid then 100 else 0)
  + 10 * length (filter (fun t => nonempty t && contains t mid = true) token_hints)
  + 6 * length (filter (fun t => nonempty t && contains t mid = true) workflow_hints).

Definition _workflow_match (workflow_hints : list string) (model_id : string) : bool :=
  existsb (fun t => contains t (str_lower model_id)) workflow_hints.

(** The sort key [(0 if match else 1, -score)], compared. *)
Definition priority_lt (wm : string -> bool) (score : string -> nat) (a b : string) : bool :=
  let fa := if wm a then 0 else 1 in
  let fb := if wm b then 0 else 1 in
  (fa <? fb) || ((fa =? fb) && (score b <? score a)).

Definition author_of (model_id : string) : string :=
  if contains "/" model_id then hd "" (split_on "/" model_id) else "".

Definition build_result (model_id file_path : string) : SearchResult :=
  mkResult ("https://huggingface.co/" +:+ model_id +:+ "/resolve/main/" +:+ file_path)
           model_id file_path.

(** [next((f for f in files if basename(f).lower() == name), default)] *)
Definition find_match_path (fname : string) (files : list string) : option string :=
  List.find (fun f => bool_decide (str_lower (basename f) = str_lower fname)) files.

(** The [mode] argument of [search_huggingface_model]. *)
Inductive Mode := ModeBasic | ModePriority | ModeFull | ModeOther.

Definition mode_runs_terms (m : Mode) : bool :=
  match m with ModeBasic | ModeFull => true | _ => false end.
Definition mode_runs_authors (m : Mode) : bool :=
  match m with ModePriority | ModeFull => true | _ => false end.
Definition mode_is_basic (m : Mode) : bool :=
  match m with ModeBasic => true | _ => false end.

(** [try: m  except Exception as e: ...] with the exception handed back
    as a value, so that the local variables of the caller survive it. *)
Definition attempt {A} (m : M A) : M (A + Exn) :=
  fun w => match m w with
           | (inl a, w') => (inl (inl a), w')
           | (inr e, w') => (inl (inr e), w')
           end.

Definition cache_result (key : string) (v : option SearchResult) : M unit :=
  modify (fun w => set_search_cache (<[key := v]> (_hf_search_cache w)) w).

(** [priority_author_repos]: [None], or the dict author -> repository ids. *)
Definition AuthorRepos : Type := option (list (string * list string)).

Definition repos_truthy (p : AuthorRepos) : bool :=
  match p with Some (_ :: _) => true | _ => false end.

Definition list_truthy {A} (l : list A) : bool :=
  match l with [] => false | _ => true end.

Section RemoteSearch.
Variable env : Env.
Variable notify : Payload -> M unit.

(** The return value of [search_huggingface_model]. *)
Definition Found : Type := option SearchResult.

Definition timeout_payload (src fname detail : string) : Payload :=
  mkPayload "Hugging Face search timeout" src (Some fname) (Some detail).

Definition rate_limit_payload (src fname : string) (e : Exn) : Payload :=
  mkPayload "Hugging Face rate limit hit" src (Some fname) (Some (exn_text e)).

(** One [list_models] call under the handlers the source puts around
    it: [inl] the models, [inr] when the handler says [return None]. *)
Definition guarded_list_models (src detail fname : string)
  (search author : option string) (limit : nat) : M (list string + unit) :=
  try_catch
    (ids <- remote_list_models env search author limit ;; ret (inl ids))
    (fun e =>
       match exn_kind e with
       | FutureTimeout => notify (timeout_payload src fname detail) ;; ret (inr tt)
       | _ =>
           if is_timeout_error e then
             notify (timeout_payload src fname detail) ;; ret (inr tt)
           else if is_rate_limited_error e then
             _set_hf_rate_limited env ;;
             notify (rate_limit_payload src fname e) ;; ret (inr tt)
           else raise e
       end).

(** The loop over the search terms (modes [basic] and [full]). *)
Definition term_search_loop (fname : string) (search_terms : list string)
  : M (list string + Found) :=
  for_loop search_terms []
    (fun term (models : list string) =>
       allowed <- _hf_search_allowed env ;;
       if negb allowed then ret (Return None)
       else
         r <- guarded_list_models "huggingface_search"
                ("list_models(" +:+ term +:+ ")") fname (Some term) None 20 ;;
         match r with
         | inr _ => ret (Return None)
         | inl ids => if list_truthy ids then ret (Break ids) else ret (Continue ids)
         end).

(** The local variables of the priority-author block: the models
    gathered so far and the function-local [author_models] ([None] while
    unbound). *)
Definition AuthorVars : Type := list string * option (list string).

(** The [try] body of one round of the loop over the priority authors;
    an exception raised inside ends the round ([except Exception:
    continue]). *)
Definition author_round (fname : string) (score : string -> nat)
  (author_search_terms : list string) (author : string) (vars : AuthorVars)
  : M (Step AuthorVars Found) :=
  let '(models, am) := vars in
  r0 <- attempt (notify (mkPayload ("Searching " +:+ author)
                           "huggingface_priority_authors" (Some fname) (Some author))) ;;
  match r0 with
  | inr _ => ret (Continue (models, am))
  | inl _ =>
      r1 <- for_loop author_search_terms (([] : list string), am)
              (fun term (st : list string * option (list string)) =>
                 let '(found, am) := st in
                 allowed <- _hf_search_allowed env ;;
                 if negb allowed then ret (Return (inl None))
                 else
                   r <- attempt (guarded_list_models "huggingface_priority_authors"
                                   ("list_models(" +:+ author +:+ ", " +:+ term +:+ ")")
                                   fname (Some term) (Some author) 15) ;;
                   match r with
                   | inr _ => ret (Return (inr am))
                   | inl (inr _) => ret (Return (inl None))
                   | inl (inl ids) =>
                       ret (Continue ((if list_truthy ids then found ++ ids else found),
                                      Some ids))
                   end) ;;
      match r1 with
      | inr (inl r) => ret (Return r)
      | inr (inr am') => ret (Continue (models, am'))
      | inl (found, am') =>
          allowed <- _hf_search_allowed env ;;
          if negb allowed then ret (Return None)
          else
            r <- attempt (guarded_list_models "huggingface_priority_authors"
                            ("list_models(" +:+ author +:+ ")")
                            fname None (Some author) 100) ;;
            match r with
            | inr _ => ret (Continue (models, am'))
            | inl (inr _) => ret (Return None)
            | inl (inl author_list) =>
                ret (Continue (models ++ found ++ sort_desc score author_list, am'))
            end
      end
  end.

(** One repository scanned for the file, under the handlers of the scan
    loops; the last loop alone reacts to a rate-limit error. *)
Definition scan_repo (fname key timeout_src : string) (handles_rate_limit : bool)
  (model_id : string) : M (Step unit Found) :=
  try_catch
    (files <- _get_repo_files env model_id ;;
     match find_match_path fname files with
     | Some match_path =>
         let result := build_result model_id match_path in
         cache_result key (Some result) ;;
         notify (mkPayload "Found on Hugging Face" "huggingface_search"
                           (Some fname) (Some model_id)) ;;
         ret (Return (Some result))
     | None => ret (Continue tt)
     end)
    (fun e =>
       match exn_kind e with
       | BudgetError => ret (Return None)
       | FutureTimeout =>
           notify (timeout_payload timeout_src fname
                     ("list_repo_files(" +:+ model_id +:+ ")")) ;;
           ret (Continue tt)
       | OtherError =>
           if is_timeout_error e then
             notify (timeout_payload timeout_src fname
                       ("list_repo_files(" +:+ model_id +:+ ")")) ;;
             ret (Continue tt)
           else if handles_rate_limit && is_rate_limited_error e then
             _set_hf_rate_limited env ;;
             notify (rate_limit_payload "huggingface_priority_authors" fname e) ;;
             ret (Return None)
           else ret (Continue tt)
       end).

Definition scan_repos (fname key timeout_src : string) (handles_rate_limit : bool)
  (model_ids : list string) : M (unit + Found) :=
  for_loop model_ids tt
    (fun model_id _ => scan_repo fname key timeout_src handles_rate_limit model_id).

(** One round of the final fallback over the priority authors. *)
Definition fallback_round (fname key author : string) (am : option (list string))
  : M (Step (option (list string)) Found) :=
  allowed <- _hf_search_allowed env ;;
  if negb allowed then ret (Return None)
  else
    r <- try_catch
           (ids <- remote_list_models env None (Some author) 100 ;;
            ret (inl (Some ids)))
           (fun e =>
              match exn_kind e with
              | FutureTimeout =>
                  notify (timeout_payload "huggingface_priority_authors" fname
                            ("list_models(" +:+ author +:+ ")")) ;;
                  ret (inr tt)
              | _ =>
                  if is_timeout_error e then
                    notify (timeout_payload "huggingface_priority_authors" fname
                              ("list_models(" +:+ author +:+ ")")) ;;
                    ret (inr tt)
                  else ret (inl am)
              end) ;;
    match r with
    | inr _ => ret (Return None)
    | inl None =>
        raise (mkExn OtherError
                 "local variable author_models referenced before assignment")
    | inl (Some author_models) =>
        r2 <- scan_repos fname key "huggingface_priority_authors" true author_models ;;
        match r2 with
        | inr res => ret (Return res)
        | inl _ => ret (Continue (Some author_models))
        end
    end.

(** The [try] block of [search_huggingface_model]: [Some r] when the
    function returns [r] from inside it, [None] when control reaches
    the statements after the block. *)
Definition search_body (fname key : string) (mode : Mode)
  (workflow_keywords : list string) (priority_author_repos : AuthorRepos)
  (skip_priority_repo_scan : bool) : M (option Found) :=
  let stem_lower := str_lower (splitext fname).1 in
  let token_hints := token_hints_of stem_lower in
  let workflow_hints := workflow_hints_of workflow_keywords in
  let score := _repo_score stem_lower token_hints workflow_hints in
  let wm := _workflow_match workflow_hints in
  let search_terms := build_search_terms fname in
  notify (mkPayload "Searching Hugging Face" "huggingface_search" (Some fname) None) ;;
  r1 <- (if mode_runs_terms mode then term_search_loop fname search_terms
         else ret (inl [])) ;;
  match r1 with
  | inr res => ret (Some res)
  | inl models =>
      r2 <- (if mode_runs_authors mode && negb (list_truthy models)
                && negb (repos_truthy priority_author_repos)
             then
               notify (mkPayload "Checking priority authors"
                         "huggingface_priority_authors" (Some fname) None) ;;
               for_loop PRIORITY_AUTHORS (models, None)
                 (author_round fname score (build_author_search_terms fname))
             else ret (inl (models, None))) ;;
      match r2 with
      | inr res => ret (Some res)
      | inl (models, am) =>
          let models := dedupe_strings [] models in
          let priority_repo_ids :=
            if repos_truthy priority_author_repos && negb skip_priority_repo_scan
            then dedupe_strings []
                   (flat_map (fun author =>
                                default [] (assoc_get author
                                              (default [] priority_author_repos)))
                             PRIORITY_AUTHORS)
            else [] in
          let priority_repo_ids :=
            if list_truthy priority_repo_ids then
              let sorted := stable_sort (priority_lt wm score) priority_repo_ids in
              if (0 <? PRIORITY_REPO_SCAN_LIMIT env)%Z
              then take (Z.to_nat (PRIORITY_REPO_SCAN_LIMIT env)) sorted else sorted
            else priority_repo_ids in
          let priority_models :=
            stable_sort (priority_lt wm score)
              (if list_truthy priority_repo_ids then priority_repo_ids
               else filter (fun m => str_in (author_of m) PRIORITY_AUTHORS = true) models) in
          r3 <- scan_repos fname key "huggingface_search" false priority_models ;;
          match r3 with
          | inr res => ret (Some res)
          | inl _ =>
              let other_models :=
                filter (fun m => str_in m priority_models = false) models in
              let other_workflow :=
                sort_desc score (filter (fun m => wm m = true) other_models) in
              let other_rest :=
                sort_desc score
                  (filter (fun m => str_in m other_workflow = false) other_models) in
              r4 <- scan_repos fname key "huggingface_search" false other_workflow ;;
              match r4 with
              | inr res => ret (Some res)
              | inl _ =>
                  r5 <- scan_repos fname key "huggingface_search" false other_rest ;;
                  match r5 with
                  | inr res => ret (Some res)
                  | inl _ =>
                      if mode_runs_authors mode
                         && negb (repos_truthy priority_author_repos)
                      then
                        r6 <- for_loop PRIORITY_AUTHORS am (fallback_round fname key) ;;
                        match r6 with
                        | inr res => ret (Some res)
                        | inl _ => ret None
                        end
                      else ret None
                  end
              end
          end
      end
  end.

Definition search_huggingface_model (fname : string) (mode : Mode)
  (workflow_keywords : list string) (priority_author_repos : AuthorRepos)
  (skip_priority_repo_scan : bool) : M Found :=
  match env_api_init_error env with   (* [api = HfApi(token=token)] *)
  | Some e => raise e
  | None =>
  let key := _normalize_hf_search_key fname in
  cached <- gets (fun w => _hf_search_cache w !! key) ;;
  match cached with
  | Some (Some hit) => ret (Some hit)
  | _ =>
      if match cached with Some None => mode_is_basic mode | _ => false end
      then ret None
      else if str_in key HF_SEARCH_SKIP_FILENAMES then
        cache_result key None ;; ret None
      else
        limited <- gets rate_limited_now ;;
        exhausted <- gets (fun w => (HF_SEARCH_MAX_CALLS env <=? _hf_api_calls w)%Z) ;;
        if limited then ret None
        else if exhausted then ret None
        else
          notify (mkPayload "Searching Hugging Face" "huggingface_search"
                            (Some fname) None) ;;
          r <- try_catch
                 (search_body fname key mode workflow_keywords
                    priority_author_repos skip_priority_repo_scan)
                 (fun e =>
                    (if is_rate_limited_error e then
                       _set_hf_rate_limited env ;;
                       notify (rate_limit_payload "huggingface_search" fname e)
                     else
                       notify (mkPayload "Hugging Face search error"
                                 "huggingface_search" (Some fname)
                                 (Some (exn_text e)))) ;;
                    ret None) ;;
          match r with
          | Some res => ret res
          | None =>
              limited <- gets rate_limited_now ;;
              if limited then ret None
              else
                (if mode_is_basic mode then ret tt else cache_result key None) ;;
                ret None
          end
  end
  end.
End RemoteSearch.

(* ===================================================================== *)
(** ** 9. The top-level run ([process_workflow_for_missing_models])       *)
(* ===================================================================== *)

(** What a run returns. *)
Record Report := mkReport {
  rep_missing : list Model;
  rep_found : list Model;
  rep_mismatches : list Model
}.

(** [d[k] = v] on an insertion-ordered dict. *)
Fixpoint assoc_set {V} (k : string) (v : V) (l : list (string * V)) : list (string * V) :=
  match l with
  | [] => [(k, v)]
  | (k', v') :: r => if bool_decide (k = k') then (k', v) :: r
                     else (k', v') :: assoc_set k v r
  end.

Definition assoc_remove {V} (k : string) (l : list (string * V)) : list (string * V) :=
  filter (fun kv => kv.1 ≠ k) l.

(** The tokens a file stem contributes to the keyword statistics. *)
Definition raw_token_hints (stem_lower : string) : list string :=
  flat_map (fun t0 =>
              let t := str_lower (str_strip t0) in
              (if 3 <=? str_len t then [t] else [])
              ++ (let alpha := remove_chars is_digit t in
                  if 3 <=? str_len alpha then [alpha] else []))
           (split_chars is_sep [] (chars stem_lower)).

(** [keyword_counts] and the ten most frequent keywords. *)
Definition count_keyword (counts : list (string * nat)) (k : string) : list (string * nat) :=
  assoc_set k (S (default 0 (assoc_get k counts))) counts.

Definition workflow_keywords_of (required_models : list Model) : list string :=
  let counts :=
    fold_left
      (fun counts model =>
         let name := str_lower (splitext (or_empty (filename model))).1 in
         if negb (nonempty name) then counts
         else
           fold_left
             (fun counts t0 =>
                let t := str_lower (str_strip t0) in
                if str_len t <? 3 then counts
                else
                  let counts := count_keyword counts t in
                  let alpha := remove_chars is_digit t in
                  if 3 <=? str_len alpha then count_keyword counts alpha else counts)
             (split_chars is_sep [] (chars name)) counts)
      required_models [] in
  map fst (take 10 (sort_desc snd counts)).

(** [s[:s.rfind("/")]] for a string with a slash: the sub-folder part. *)
Definition before_last_slash (s : string) : string :=
  str (rev (tail (drop_while (fun c => negb (is_slash c)) (rev (chars s))))).

Section Process.
Variable env : Env.
Variable notify : Payload -> M unit.

Let lib := env_lib env.

Definition enrich_model_with_url (model : Model) (u src : string)
  (directory : option string) : Model :=
  let m := set_source (Some src) (set_url (Some u) model) in
  let m := if truthy directory && negb (truthy (suggested_folder m))
           then set_suggested_folder directory m else m in
  match extract_huggingface_info lib u with
  | Some (hf_repo, hf_path) =>
      if nonempty hf_repo then set_hf_path (Some hf_path) (set_hf_repo (Some hf_repo) m)
      else m
  | None => m
  end.

(** Step 2: a URL that came with the workflow. *)
Definition enrich_workflow_url (model : Model) : Model :=
  let m :=
    if truthy (url model)
       && negb (is_specific_model_file_url lib (or_empty (url model)) None)
    then
      let m := set_hf_path None (set_hf_repo None (set_url None model)) in
      if bool_decide (source m = Some "note")
      then set_note (Some "Ignored non-file note URL") m else m
    else model in
  let m := if truthy (url m) && negb (truthy (source m))
           then set_source (Some "workflow_metadata") m else m in
  if truthy (url m) && negb (truthy (hf_repo m)) then
    match extract_hf_repo_and_path lib (or_empty (url m)) with
    | Some (hf_repo, hf_path) =>
        set_hf_path (Some hf_path) (set_hf_repo (Some hf_repo) m)
    | None => m
    end
  else m.

(** Step 2b: a requested path with sub-folders names the destination. *)
Definition adopt_requested_subfolder (model : Model) : Model :=
  if negb (truthy (requested_path model)) then model
  else
    let normalized := strip_slashes (norm_slashes (or_empty (requested_path model))) in
    if negb (contains "/" normalized) then model
    else
      let subfolder := before_last_slash normalized in
      if negb (nonempty subfolder) then model
      else
        let base_folder := if truthy (suggested_folder model)
                           then or_empty (suggested_folder model) else "checkpoints" in
        if endswith (norm_slashes base_folder) subfolder then model
        else set_suggested_folder (Some (base_folder +:+ "/" +:+ subfolder)) model.

Definition _lookup_popular_entry (popular_models : list (string * RegEntry))
  (fname : string) : option RegEntry :=
  let key := str_lower fname in
  if negb (nonempty key) then None
  else
    match assoc_get key popular_models with
    | Some entry => Some entry
    | None =>
        match assoc_get (basename key) popular_models with
        | Some entry => Some entry
        | None =>
            let base := basename key in
            if nonempty (splitext base).2 then None
            else
              let candidates :=
                filter (fun kv => bool_decide (kv.1 = base)
                                  || startswith kv.1 (base +:+ ".") = true)
                       popular_models in
              match stable_sort (fun a b => str_len a.1 <? str_len b.1) candidates with
              | kv :: _ => Some kv.2
              | [] => None
              end
        end
    end.

Definition _iter_registry_urls (entry : RegEntry) : list string :=
  dedupe_strings []
    ((if truthy (e_url entry) && nonempty (str_strip (or_empty (e_url entry)))
      then [str_strip (or_empty (e_url entry))] else [])
     ++ omap (fun u => if nonempty u && nonempty (str_strip u)
                       then Some (str_strip u) else None)
             (e_extra_urls entry)).

Definition _hf_url_exists (u : string) : bool :=
  nonempty u && contains "huggingface.co" u && env_url_probe env u.

(** A loop over the missing references that still lack a URL: each is
    announced, then replaced by [f]. *)
Fixpoint enrich_each (payload : Model -> Payload) (f : Model -> Model)
  (models : list Model) : M (list Model) :=
  match models with
  | [] => ret []
  | model :: rest =>
      if truthy (url model) then
        rest' <- enrich_each payload f rest ;; ret (model :: rest')
      else
        notify (payload model) ;;
        rest' <- enrich_each payload f rest ;; ret (f model :: rest')
  end.

(** Step 3: the curated registry, each candidate URL probed. *)
Definition enrich_from_popular (model : Model) : Model :=
  match _lookup_popular_entry (env_popular_models env) (or_empty (filename model)) with
  | Some entry =>
      match List.find _hf_url_exists (_iter_registry_urls entry) with
      | Some live_url =>
          enrich_model_with_url model live_url
            (if truthy (e_source entry) then or_empty (e_source entry)
             else "popular_models")
            (e_directory entry)
      | None => model
      end
  | None => model
  end.

(** Step 4: [load_comfyui_manager_cache]. *)
Definition enrich_from_manager (model : Model) : Model :=
  let filename_key := str_lower (or_empty (filename model)) in
  let entry :=
    match assoc_get filename_key (env_manager_models env) with
    | Some e => Some e
    | None => assoc_get (basename filename_key) (env_manager_models env)
    end in
  match entry with
  | Some e =>
      if truthy (e_url e)
      then enrich_model_with_url model (or_empty (e_url e)) "manager_model_list"
             (e_directory e)
      else model
  | None => model
  end.

Definition load_comfyui_manager_cache (missing_models : list Model) : M (list Model) :=
  enrich_each
    (fun model => mkPayload "Checking manager cache" "manager_cache" (filename model) None)
    enrich_from_manager missing_models.

Definition apply_result (src : string) (r : SearchResult) (m : Model) : Model :=
  set_source (Some src)
    (set_hf_path (Some (r_hf_path r))
       (set_hf_repo (Some (r_hf_repo r)) (set_url (Some (r_url r)) m))).

(** The replay of cached hits when the whole run skips the search. *)
Definition reuse_cached (cache : gmap string (option SearchResult)) (model : Model)
  : Model * nat :=
  if truthy (url model) then (model, 0)
  else
    match cache !! _normalize_hf_search_key (or_empty (filename model)) with
    | Some (Some cached) =>
        if nonempty (r_url cached) then (apply_result "huggingface_cache" cached model, 1)
        else (model, 0)
    | _ => (model, 0)
    end.

Definition _skip_hf_search (skip_all : bool) (skip_filenames : list string)
  (model : Model) : bool :=
  skip_all || str_in (str_lower (or_empty (filename model))) skip_filenames.

(** The pre-fetch of the repository lists of the priority authors. *)
Definition prefetch_author_repos : M AuthorRepos :=
  match env_api_init_error env with   (* [api = HfApi(token=token)] in its [try] *)
  | Some _ => ret None
  | None =>
    r <- for_loop PRIORITY_AUTHORS ([] : list (string * list string))
           (fun author acc =>
              r <- attempt (remote_list_models env None (Some author) 100) ;;
              match r with
              | inl repos =>
                  ret (Continue (assoc_set author
                                   (filter (fun m => nonempty m = true) repos) acc)
                       : Step (list (string * list string)) unit)
              | inr _ => ret (Continue (assoc_set author [] acc))
              end) ;;
    match r with
    | inl acc => ret (Some acc)
    | inr _ => ret None
    end
  end.

(** The tokens of the unresolved file names ([priority_tokens]). *)
Definition priority_tokens_of (missing_models : list Model) : list string :=
  dedupe_strings []
    (flat_map (fun model =>
                 if truthy (url model) || negb (truthy (filename model)) then []
                 else raw_token_hints
                        (str_lower (splitext (or_empty (filename model))).1))
              missing_models).

Definition _workflow_match_repo (workflow_keywords : list string) (repo_id : string)
  : bool :=
  existsb (fun k => contains k (str_lower repo_id)) workflow_keywords.

Definition _workflow_repo_score (workflow_keywords priority_tokens : list string)
  (repo_id : string) : nat :=
  let repo_lower := str_lower repo_id in
  5 * length (filter (fun k => nonempty k && contains k repo_lower = true)
                     workflow_keywords)
  + 4 * length (filter (fun t => nonempty t && contains t repo_lower = true)
                       priority_tokens)
  + (if _workflow_match_repo workflow_keywords repo_id then 50 else 0).

(** [remaining]: lower-cased file name -> position of the reference in
    [missing_models] (the dict holds the reference itself). *)
Definition remaining_of (skip_all : bool) (skip_filenames : list string)
  (missing_models : list Model) : list (string * nat) :=
  fold_left
    (fun remaining '(idx, model) =>
       if truthy (url model) then remaining
       else if _skip_hf_search skip_all skip_filenames model then remaining
       else if negb (truthy (filename model)) then remaining
       else assoc_set (str_lower (or_empty (filename model))) idx remaining)
    (imap pair missing_models) [].

(** [found_paths]: for each remaining name, the shortest matching path
    of the repository. *)
Definition found_paths_of (remaining : list (string * nat)) (files : list string)
  : list (string * string) :=
  fold_left
    (fun found_paths f =>
       let base := str_lower (basename f) in
       match assoc_get base remaining with
       | None => found_paths
       | Some _ =>
           match assoc_get base found_paths with
           | None => assoc_set base f found_paths
           | Some prev => if str_len f <? str_len prev
                          then assoc_set base f found_paths else found_paths
           end
       end)
    files [].

(** The state of the priority-repository scan: the references and the
    names still looked for. *)
Definition ScanState : Type := list Model * list (string * nat).

(** The hits of one repository applied to the references and recorded
    in the search cache. *)
Definition apply_found_paths (repo_id : string) (found_paths : list (string * string))
  (st : ScanState) : M ScanState :=
  r <- for_loop found_paths st
         (fun '(base, match_path) (st : ScanState) =>
            let '(missing, remaining) := st in
            match assoc_get base remaining with
            | None => ret (Continue st : Step ScanState unit)
            | Some idx =>
                let result := build_result repo_id match_path in
                cache_result base (Some result) ;;
                ret (Continue (alter (apply_result "priority_repo_scan" result) idx missing,
                               assoc_remove base remaining))
            end) ;;
  match r with
  | inl st' => ret st'
  | inr _ => ret st
  end.

Definition _scan_priority_repos_for_missing (skip_all : bool)
  (skip_filenames workflow_keywords priority_tokens : list string)
  (priority_author_repos : AuthorRepos) (missing_models : list Model)
  : M (list Model) :=
  if negb (repos_truthy priority_author_repos) then ret missing_models
  else
    let priority_repo_ids :=
      dedupe_strings []
        (flat_map (fun author =>
                     default [] (assoc_get author (default [] priority_author_repos)))
                  PRIORITY_AUTHORS) in
    if negb (list_truthy priority_repo_ids) then ret missing_models
    else
      let sorted :=
        stable_sort (priority_lt (_workflow_match_repo workflow_keywords)
                                 (_workflow_repo_score workflow_keywords priority_tokens))
                    priority_repo_ids in
      let priority_repo_ids :=
        if (0 <? PRIORITY_REPO_SCAN_LIMIT env)%Z
        then take (Z.to_nat (PRIORITY_REPO_SCAN_LIMIT env)) sorted else sorted in
      notify (mkPayload "Searching priority repos" "huggingface_priority_repos"
                        None None) ;;
      let remaining := remaining_of skip_all skip_filenames missing_models in
      if negb (list_truthy remaining) then ret missing_models
      else
        r <- for_loop priority_repo_ids (missing_models, remaining)
               (fun repo_id (st : ScanState) =>
                  let '(missing, remaining) := st in
                  match remaining with
                  | [] => ret (Break st)
                  | (_, cur_idx) :: _ =>
                      let current_filename :=
                        or_empty (missing !! cur_idx ≫= filename) in
                      let author := if contains "/" repo_id
                                    then hd "" (split_on "/" repo_id) else repo_id in
                      notify (mkPayload ("Searching " +:+ author)
                                "huggingface_priority_repos"
                                (Some current_filename) (Some author)) ;;
                      r <- attempt (_get_repo_files env repo_id) ;;
                      match r with
                      | inl files =>
                          st' <- apply_found_paths repo_id
                                   (found_paths_of remaining files) st ;;
                          ret (Continue st')
                      | inr e =>
                          match exn_kind e with
                          | BudgetError =>
                              notify (mkPayload "Hugging Face search budget exhausted"
                                        "huggingface_priority_repos"
                                        (Some current_filename) None) ;;
                              ret (Return st)
                          | FutureTimeout =>
                              notify (timeout_payload "huggingface_priority_repos"
                                        current_filename
                                        ("list_repo_files(" +:+ repo_id +:+ ")")) ;;
                              ret (Continue st)
                          | OtherError =>
                              if is_timeout_error e then
                                notify (timeout_payload "huggingface_priority_repos"
                                          current_filename
                                          ("list_repo_files(" +:+ repo_id +:+ ")")) ;;
                                ret (Continue st)
                              else if is_rate_limited_error e then
                                _set_hf_rate_limited env ;;
                                notify (rate_limit_payload "huggingface_priority_repos"
                                          current_filename e) ;;
                                ret (Return st)
                              else ret (Continue st)
                          end
                      end
                  end) ;;
        match r with
        | inl st' => ret st'.1
        | inr st' => ret st'.1
        end.

(** [_run_hf_stage]: the references without a URL at the start of the
    stage, searched one after the other under a fresh budget. *)
Definition stage_loop (label : string) (mode : Mode) (skip_all : bool)
  (skip_filenames workflow_keywords : list string)
  (priority_author_repos : AuthorRepos) (indices : list nat)
  (missing_models : list Model) : M (list Model + unit) :=
  for_loop indices missing_models
    (fun idx (missing : list Model) =>
       match missing !! idx with
       | None => ret (Continue missing)
       | Some m =>
           if _skip_hf_search skip_all skip_filenames m then ret (Continue missing)
           else
             exhausted <- gets (_hf_search_budget_exhausted env) ;;
             if exhausted then
               notify (mkPayload "Hugging Face search budget exhausted"
                         "huggingface_search" (filename m) None) ;;
               ret (Break missing)
             else
               notify (mkPayload ("Searching Hugging Face (" +:+ label +:+ ")")
                         "huggingface_search" (filename m) None) ;;
               result <- search_huggingface_model env notify (or_empty (filename m))
                           mode workflow_keywords priority_author_repos true ;;
               match result with
               | Some r =>
                   ret (Continue (alter (apply_result "huggingface_search" r) idx missing))
               | None => ret (Continue missing)
               end
       end).

Definition urlless_indices (missing_models : list Model) : list nat :=
  omap (fun '(idx, m) => if truthy (url m) then None else Some idx)
       (imap pair missing_models).

Definition _run_hf_stage (label : string) (mode : Mode) (skip_all : bool)
  (skip_filenames workflow_keywords : list string)
  (priority_author_repos : AuthorRepos) (missing_models : list Model)
  : M (list Model) :=
  _reset_hf_search_budget env ;;
  r <- stage_loop label mode skip_all skip_filenames workflow_keywords
         priority_author_repos (urlless_indices missing_models) missing_models ;;
  match r with
  | inl missing => ret missing
  | inr _ => ret missing_models
  end.

(** [find_quantized_alternatives] *)
Definition find_quantized_alternatives (fname : string)
  (registries : list (string * list (string * RegEntry))) : list Alternative :=
  let filename_lower := str_lower fname in
  if endswith filename_lower ".gguf" || contains "svdq" filename_lower then []
  else
    let base := canonicalize_model_base fname in
    if negb (nonempty base) then []
    else
      (fold_left
         (fun (acc : list Alternative * list string) '(src, entry) =>
            let '(alts, seen) := acc in
            let entry_name := e_filename entry in
            if negb (nonempty entry_name) then acc
            else
              let entry_lower := str_lower entry_name in
              if str_in entry_lower seen || bool_decide (entry_lower = filename_lower)
              then acc
              else if endswith entry_lower ".gguf" || contains "svdq" entry_lower
              then acc
              else if negb (bool_decide (canonicalize_model_base entry_name = base))
              then acc
              else if negb (is_quant_variant_filename entry_name) then acc
              else
                let info := extract_huggingface_info lib (or_empty (e_url entry)) in
                (alts ++ [mkAlternative entry_name (e_url entry) src (e_directory entry)
                            (match info with
                             | Some (r, _) => if nonempty r then Some r else None
                             | None => None end)
                            (match info with
                             | Some (r, p) => if nonempty r then Some p else None
                             | None => None end)],
                 entry_lower :: seen))
         (flat_map (fun '(src, model_map) => map (fun kv => (src, kv.2)) model_map)
                   registries)
         ([], [])).1.

Definition attach_alternatives (model : Model) : Model :=
  if truthy (url model) then model
  else
    match find_quantized_alternatives (or_empty (filename model))
            [("popular_models", env_popular_models env);
             ("manager_model_list", env_manager_models env)] with
    | [] => model
    | alts => set_alternatives alts model
    end.

(** Everything the run computes before the first notification: extraction,
    reconciliation, the local check and the enrichment of the URLs that
    came with the workflow (steps 1, 2 and 2b). *)
Definition local_phase (workflow : Workflow)
  : list string * (list Model * list Model * list Model) :=
  let required_models := extract_models_from_workflow lib workflow in
  let preferred := _preferred_nunchaku_precision (env_is_blackwell env) in
  let normalized :=
    map (normalize_precision preferred)
        (dedupe_by_name (coalesce_variants required_models)) in
  let unique_required_models := unique_by_identity [] normalized in
  let workflow_keywords := workflow_keywords_of normalized in
  let '(missing_models, existing_models, path_mismatches) :=
    check_model_files (env_fs env) unique_required_models in
  let missing_models :=
    map adopt_requested_subfolder (map enrich_workflow_url missing_models) in
  (workflow_keywords, (missing_models, existing_models, path_mismatches)).

Definition process_workflow (workflow : Workflow) : M Report :=
  reset_at_run_start ;;
  let '(workflow_keywords, (missing_models, existing_models, path_mismatches)) :=
    local_phase workflow in
  missing_models <-
    enrich_each
      (fun model => mkPayload "Checking popular models" "popular_models"
                              (filename model) None)
      enrich_from_popular missing_models ;;
  missing_models <- load_comfyui_manager_cache missing_models ;;
  let skip_all := wf_skip_hf_search workflow in
  let skip_filenames :=
    omap (fun f => if nonempty (str_strip f) then Some (str_lower f) else None)
         (wf_skip_filenames workflow) in
  missing_models <-
    (if list_truthy missing_models && skip_all then
       cache <- gets _hf_search_cache ;;
       let reused := map (reuse_cached cache) missing_models in
       notify (mkPayload "Skipping unresolved Hugging Face lookups" "huggingface_skip"
                 None
                 (Some ("Reused "
                        +:+ pretty (foldr (fun r n => r.2 + n) 0 reused)
                        +:+ " cached link(s)"))) ;;
       ret (map fst reused)
     else ret missing_models) ;;
  priority_author_repos <-
    (if list_truthy missing_models && negb skip_all then prefetch_author_repos
     else ret None) ;;
  let priority_tokens :=
    if list_truthy missing_models && negb skip_all
    then priority_tokens_of missing_models else [] in
  missing_models <-
    (if list_truthy missing_models && repos_truthy priority_author_repos
        && negb skip_all
     then
       _reset_hf_search_budget env ;;
       _scan_priority_repos_for_missing skip_all skip_filenames workflow_keywords
         priority_tokens priority_author_repos missing_models
     else ret missing_models) ;;
  missing_models <-
    (if list_truthy missing_models && negb skip_all then
       missing_models <- _run_hf_stage "basic" ModeBasic skip_all skip_filenames
                           workflow_keywords priority_author_repos missing_models ;;
       match priority_author_repos with
       | None => _run_hf_stage "priority" ModePriority skip_all skip_filenames
                   workflow_keywords priority_author_repos missing_models
       | Some _ => ret missing_models
       end
     else ret missing_models) ;;
  ret (mkReport (map attach_alternatives missing_models) existing_models path_mismatches).
End Process.

(** The progress callback as the run sees it: each notification either
    returns or raises.  [None] stands for a run without a callback. *)
Definition notify_with (status_cb : option (Payload -> option Exn)) (p : Payload) : M unit :=
  match status_cb with
  | Some cb => match cb p with
               | Some e => raise e
               | None => ret tt
               end
  | None => ret tt
  end.

Definition process_workflow_for_missing_models (env : Env)
  (status_cb : option (Payload -> option Exn)) (workflow_json : Workflow) : M Report :=
  process_workflow env (notify_with status_cb) workflow_json.

(** The state of a freshly started process. *)
Definition initial_world : World :=
  mkWorld 0 (Some 0%Z) 0 false ∅ ∅ 0 0 [].

(* ===================================================================== *)
(** ** 10. Specification vocabulary                                       *)
(* ===================================================================== *)

(** *** Reconciliation *)

(** Every group is non-empty, holds only elements of its key, and no key
    is listed twice. *)
Definition groups_wf {K A} (key : A -> K) (g : list (K * list A)) : Prop :=
  NoDup g.*1 ∧ Forall (fun kv => kv.2 ≠ [] ∧ Forall (fun x => key x = kv.1) kv.2) g.

Definition keyed (m : Model) : Prop := is_passthrough m = false.

(** Output shape of variant coalescing: blank-named entries first, then
    entries with pairwise different variant keys. *)
Definition CoalNF (l : list Model) : Prop :=
  exists P G, l = P ++ G ∧ Forall (fun m => is_passthrough m = true) P
              ∧ Forall keyed G ∧ NoDup (map variant_key_or G).

(** One [(node, name)] block of the per-name dedup. *)
Definition block_ok (b : list Model) : Prop :=
  NoDup (map folder_key_of b) ∧ (1 < length b -> "" ∉ map folder_key_of b).

(** Output shape of the per-name dedup: consecutive blocks, one per
    [(node, lower-cased name)], each with pairwise different folders. *)
Inductive NameNF : list Model -> Prop :=
  | NameNF_nil : NameNF []
  | NameNF_block k b r :
      Forall (fun m => name_key_of m = k) b ->
      Forall (fun m => name_key_of m ≠ k) r ->
      Forall (fun m => nonempty (str_lower (or_empty (filename m))) = true) b ->
      block_ok b -> NameNF r -> NameNF (b ++ r).

Definition keyed_groups (g : list (VariantKey * list Model)) : Prop :=
  NoDup g.*1 ∧
  Forall (fun kv => kv.2 ≠ [] ∧ Forall (fun m => _variant_group_key m = Some kv.1) kv.2) g.

(** Precision normalization leaves the name of the reference alone. *)
Definition precision_stable (pref : Precision) (m : Model) : Prop :=
  filename (normalize_precision pref m) = filename m.

Definition QUANT_FAMILIES : list (list string) :=
  [Q_FP8_E4M3FN; Q_FP; Q_BF16; Q_NF4; Q_INT].
Definition QUANT_TOKENS : list string := concat QUANT_FAMILIES.
Definition QUANT_SEPARATORS : list string := [""; "-"; "_"].

(** The name [_variant_group_key] works on: the file name stripped, cut
    down to its base name and lower-cased. *)
Definition normalized_name (f : string) : string :=
  str_lower (basename (norm_slashes (str_strip f))).

(** Each of the five substitutions of [canonicalize_model_base] leaves [s]
    as it is. *)
Definition quant_free (s : string) : bool :=
  forallb (fun fam => bool_decide (sub_quant_suffix fam s = s)) QUANT_FAMILIES.

(** [s] ends with a dash or an underscore. *)
Definition ends_with_sep (s : string) : bool :=
  match rev (chars s) with c :: _ => is_sep c | [] => false end.

(** [sub_quant_suffix] on the reversed characters. *)
Definition subq_rev (bodies : list string) (r : list ascii) : list ascii :=
  match strip_any (map rbody bodies) r with
  | Some r' => r'
  | None =>
      match r with
      | c :: r1 =>
          if ascii_eqb c ch_newline then
            match strip_any (map rbody bodies) r1 with
            | Some r1' => c :: r1'
            | None => r
            end
          else r
      | [] => r
      end
  end.

(** *** The history of a run *)

Definition is_reset (e : Event) : bool :=
  match e with EvReset => true | _ => false end.
Definition is_grant (e : Event) : bool :=
  match e with EvGrant _ _ _ => true | _ => false end.
Definition is_call (e : Event) : bool :=
  match e with EvCall _ _ => true | _ => false end.

Definition has_reset (tr : list Event) : bool := existsb is_reset tr.

(** The events since the last budget reset. *)
Fixpoint cur_window (tr : list Event) : list Event :=
  match tr with
  | [] => []
  | EvReset :: _ => []
  | e :: r => e :: cur_window r
  end.

Definition n_grants (tr : list Event) : nat := length (List.filter is_grant tr).
Definition n_calls (tr : list Event) : nat := length (List.filter is_call tr).

(** The history cut at the budget resets, newest window first; the last
    piece is what happened before the first reset. *)
Fixpoint windows (tr : list Event) : list (list Event) :=
  match tr with
  | [] => [[]]
  | EvReset :: r => [] :: windows r
  | e :: r =>
      match windows r with
      | h :: t => (e :: h) :: t
      | [] => [[e]]
      end
  end.

(** The budget windows of a run: the pieces that start with a reset. *)
Definition budget_windows (tr : list Event) : list (list Event) :=
  removelast (windows tr).

(** The conditions [_hf_search_allowed] grants a call under. *)
Definition grant_ok (t deadline : Z) (limited_until : option Z) : Prop :=
  (deadline = 0 ∨ t < deadline)%Z ∧
  match limited_until with
  | Some u => (u = 0 ∨ u <= t)%Z
  | None => True
  end.

(** What may follow the history [rest] once a budget window is open. *)
Definition event_ok (max_calls : Z) (e : Event) (rest : list Event) : Prop :=
  match e with
  | EvReset => True
  | EvGrant t d rl => grant_ok t d rl ∧ (Z.of_nat (n_grants (cur_window rest)) < max_calls)%Z
  | EvCall _ t => exists d rl rest', rest = EvGrant t d rl :: rest'
  end.

(** A history in which, from the first budget reset on, every remote call
    comes right after its grant, and every grant was given within the
    budget of its window. *)
Fixpoint trace_ok (max_calls : Z) (tr : list Event) : Prop :=
  match tr with
  | [] => True
  | e :: rest => trace_ok max_calls rest ∧ (has_reset rest = true -> event_ok max_calls e rest)
  end.

(** The invariant of the budget: the history is in order and, inside a
    budget window, the call counter is the number of grants of the window. *)
Definition budget_inv (env : Env) (w : World) : Prop :=
  trace_ok (HF_SEARCH_MAX_CALLS env) (trace w) ∧
  (has_reset (trace w) = true ->
   Z.of_nat (n_grants (cur_window (trace w))) = _hf_api_calls w).

(** A grant has just been given: the next remote call is covered. *)
Definition budget_ready (env : Env) (w : World) : Prop :=
  budget_inv env w ∧
  (has_reset (trace w) = true ->
   exists d rl rest, trace w = EvGrant (clock w) d rl :: rest).

(** No budget window has been opened yet. *)
Definition no_reset (w : World) : Prop := has_reset (trace w) = false.

(** From a state satisfying [P] the computation ends, normally or with an
    exception, in a state satisfying [Q]. *)
Definition leads {A} (P Q : World -> Prop) (m : M A) : Prop :=
  forall w, P w -> Q (m w).2.

(** What one budget window may hold: every call right after its grant,
    every grant within the budget. *)
Fixpoint window_ok (max_calls : Z) (win : list Event) : Prop :=
  match win with
  | [] => True
  | e :: rest =>
      window_ok max_calls rest ∧
      match e with
      | EvReset => True
      | EvGrant t d rl => grant_ok t d rl ∧ (Z.of_nat (n_grants rest) < max_calls)%Z
      | EvCall _ t => exists d rl rest', rest = EvGrant t d rl :: rest'
      end
  end.

(** The computation leaves the globals, the clock and the history alone. *)
Definition silent {A} (m : M A) : Prop := forall w, (m w).2 = w.

(** A character of a UUID, or the newline the pattern lets through at
    its end. *)
Definition uuid_char (c : ascii) : bool :=
  is_hex c || ascii_eqb c "-" || ascii_eqb c ch_newline.

(** A step of the UUID pattern eats characters of a UUID only. *)
Definition consumes (step : list ascii -> option (list ascii)) : Prop :=
  forall l r, step l = Some r ->
              exists pre, l = (pre ++ r)%list ∧ forallb uuid_char pre = true.

(** *** Note links *)

(** All the nodes of a workflow: those of its subgraphs, then its own. *)
Definition workflow_nodes (workflow : Workflow) : list Node :=
  (flat_map sg_nodes (wf_subgraphs workflow) ++ wf_nodes workflow)%list.

(** The entry [k -> u] of a note index comes from a markdown link of a
    note node: [u] is the target of the link, a specific file URL, and
    [k] is the normalized file name of the target or the normalized label. *)
Definition note_link_source (lib : UrlLib) (nodes : list Node)
  (norm : string -> string) (k u : string) : Prop :=
  exists node val label,
    node ∈ nodes ∧ is_note_type (node_type_of node) = true
    ∧ val ∈ note_strings node
    ∧ (label, u) ∈ re_findall_md_links lib val
    ∧ is_specific_model_file_url lib u None = true
    ∧ (k = norm (url_tail u) ∨ k = norm label).

Definition links_from_notes (lib : UrlLib) (nodes : list Node) (st : Collected) : Prop :=
  (forall k u, note_links st !! k = Some u ->
               note_link_source lib nodes normalize_filename_key k u)
  ∧ (forall k u, note_links_normalized st !! k = Some u ->
                 note_link_source lib nodes normalize_filename_compact k u).

(** The globals as a run finds them after its first statements. *)
Definition run_start_state (w : World) : World :=
  mkWorld 0 None 0 false (_hf_search_cache w) ∅ (clock w) (remote_seq w) (trace w).

(* ===================================================================== *)
(** ** 11. Sample inputs                                                  *)
(* ===================================================================== *)

(** A machine with no model on disk. *)
Definition sample_fs_empty : FS :=
  mkFS (fun _ => None) "/comfy" (fun _ => false) (fun _ => []) (fun _ _ => None).

(** A machine whose checkpoint folder holds [sub/x.safetensors]. *)
Definition sample_fs_nested : FS :=
  mkFS (fun t => if bool_decide (t = "checkpoints") then Some ["/m/checkpoints"] else None)
       "/comfy"
       (fun p => bool_decide (p = "/m/checkpoints")
                 || bool_decide (p = "/m/checkpoints/sub/x.safetensors"))
       (fun root => if bool_decide (root = "/m/checkpoints")
                    then [("/m/checkpoints", ["sub"], []);
                          ("/m/checkpoints/sub", [], ["x.safetensors"])]
                    else [])
       (fun p root => if bool_decide (p = "/m/checkpoints/sub/x.safetensors")
                         && bool_decide (root = "/m/checkpoints")
                      then Some "sub/x.safetensors" else None).

(** A reference as a loader widget yields it. *)
Definition widget_ref (fname : string) (id : Z) (folder : option string) : Model :=
  new_model fname (Some fname) None (NidInt id) (Some "Loader") folder None.

Definition sample_lib : UrlLib :=
  mkUrlLib (fun _ => []) (fun _ => None) (fun s => ("", s)).

(** A hub that knows no model and answers every call within a second. *)
Definition sample_env (max_calls : Z) : Env :=
  mkEnv sample_fs_empty sample_lib false max_calls 300 60 100 [] []
        (fun _ => false) None
        (fun _ _ _ _ => inl []) (fun _ _ => inl []) (fun _ => 1%Z).

(** A hub whose first answer is a rate-limit error and on which one
    priority author has a repository; the budget is one call. *)
Definition sample_env_limited : Env :=
  mkEnv sample_fs_empty sample_lib false 1 300 60 100 [] []
        (fun _ => false) None
        (fun n _ author _ =>
           if bool_decide (n = 0) then inr (mkExn OtherError "429 Too Many Requests")
           else if bool_decide (author = Some "city96") then inl ["city96/repo"]
           else inl [])
        (fun _ _ => inl []) (fun _ => 1%Z).

Definition sample_loader : Node :=
  mkNode (NidInt 5) 0 (Some "CheckpointLoaderSimple") None None []
         (WList [JStr "foo.safetensors"]).

(** A workflow with one checkpoint loader. *)
Definition sample_workflow : Workflow := mkWorkflow [sample_loader] [] [] false [].

Definition sample_link : string :=
  "https://huggingface.co/a/b/resolve/main/foo.safetensors".

(** A note with one markdown link. *)
Definition sample_note : Node :=
  mkNode (NidInt 9) 0 (Some "MarkdownNote") None None []
         (WList [JStr ("[the checkpoint](" +:+ sample_link +:+ ")")]).

(** The regular expressions of the source on the text of the sample note
    and on its link. *)
Definition sample_lib_links : UrlLib :=
  mkUrlLib (fun text => if bool_decide (text = "[the checkpoint](" +:+ sample_link +:+ ")")
                        then [("the checkpoint", sample_link)] else [])
           (fun u => if bool_decide (u = sample_link)
                     then Some ("a/b", "foo.safetensors") else None)
           (fun s => ("", s)).

(** A pre-processor node of the skipped package, with a model-like widget. *)
Definition sample_aux_node : Node :=
  mkNode (NidInt 7) 0 (Some "DepthAnythingPreprocessor") None
         (Some (mkProps (Some "comfyui_controlnet_aux") None None)) []
         (WList [JStr "depth_anything_vitl14.pth"]).

(** A progress callback that fails on every notification. *)
Definition failing_callback : Payload -> option Exn :=
  fun _ => Some (mkExn OtherError "boom").

(** A progress callback that returns normally. *)
Definition quiet_callback : Payload -> option Exn := fun _ => None.

(** The globals left by an earlier run that was rate-limited at time 40
    and had listed one repository. *)
Definition world_after_limited_run : World :=
  mkWorld 3 (Some 340%Z) 100 false ∅ {[ "city96/repo" := ["a.gguf"] ]} 50 4 [].

Definition sample_hit : SearchResult :=
  build_result "org/repo" "model.safetensors".

(** The globals after a priority-repository scan found a file of a
    generic name. *)
Definition world_with_cached_hit : World :=
  mkWorld 0 None 0 false {[ "model.safetensors" := Some sample_hit ]} ∅ 0 0 [].

(* ===================================================================== *)
(** ** 11a. The folder list of the download nodes ([file_manager.py])     *)
(* ===================================================================== *)

(** The part of [os] that [get_model_subfolders] uses. *)
Record Dirs := mkDirs {
  d_getcwd : string;
  d_exists : string -> bool;
  d_listdir : string -> list string;
  d_isdir : string -> bool
}.

(** [get_model_subfolders]: the directories under the models folder, the
    well-known ones first. *)
Definition get_model_subfolders (os : Dirs) (models_dir : option string) : list string :=
  let models_dir := default (path_join (d_getcwd os) "models") models_dir in
  if negb (d_exists os models_dir) then []
  else
    let subfolders :=
      stable_sort String.ltb
        (filter (fun name => d_isdir os (path_join models_dir name) = true)
                (d_listdir os models_dir)) in
    let priority :=
      ["checkpoints"; "clip"; "diffusion_models"; "vae"; "loras"; "controlnet"] in
    let prio_list := filter (fun p => str_in p subfolders = true) priority in
    let non_prio := filter (fun f => str_in f priority = false) subfolders in
    (prio_list ++ non_prio)%list.

(* ===================================================================== *)
(** ** 11b. Further vocabulary                                            *)
(* ===================================================================== *)

(** From a state satisfying [P], whenever the computation returns
    normally, its value and final state satisfy [Q]. *)
Definition hoare {A} (P : World -> Prop) (m : M A) (Q : A -> World -> Prop) : Prop :=
  forall w, P w -> forall a w', m w = (inl a, w') -> Q a w'.

(** Two records of one reference: resolution may fill in where the file
    is to be had ([url], [hf_repo], [hf_path], [source], [note], the
    folder, the alternatives) but not what is asked for. *)
Definition same_reference (a b : Model) : Prop :=
  filename a = filename b ∧ node_id a = node_id b
  ∧ requested_path a = requested_path b ∧ node_title a = node_title b
  ∧ origin a = origin b ∧ nunchaku_precision a = nunchaku_precision b.

(** A hit as the scan loops of the remote search build it: a file of the
    wanted name, letter case aside, in the listing of a repository. *)
Definition hit_from_listing (fname : string) (hit : SearchResult) (w : World) : Prop :=
  ∃ repo_id path files,
    hit = build_result repo_id path
    ∧ _hf_repo_files_cache w !! repo_id = Some files
    ∧ path ∈ files
    ∧ str_lower (basename path) = str_lower fname.

(** What the remote search promises of a hit it returns. *)
Definition found_ok (Q : SearchResult -> World -> Prop) (r : option SearchResult)
  (w : World) : Prop :=
  forall hit, r = Some hit -> Q hit w.

(** A hub on which every search names the repository [org/foo], whose
    listing holds [sub/foo.safetensors]. *)
Definition sample_env_hub : Env :=
  mkEnv sample_fs_empty sample_lib false 200 300 60 100 [] []
        (fun _ => false) None
        (fun _ _ _ _ => inl ["org/foo"])
        (fun _ _ => inl ["README.md"; "sub/foo.safetensors"]) (fun _ => 1%Z).

(** A computation that returns normally from every state. *)
Definition never_raises {A} (m : M A) : Prop :=
  forall w, exists a, (m w).1 = inl a.

(** The globals carry the rate-limit mark [u]. *)
Definition rate_mark_set (u : Z) (w : World) : Prop :=
  _hf_rate_limited_until w = Some u ∧ u ≠ 0%Z.

(** A reference that has a URL is past resolution: it stays as it is. *)
Definition kept_if_resolved (a b : Model) : Prop :=
  truthy (url a) = true -> b = a.

(** The places [remaining] points to hold references without a URL. *)
Definition points_at_unresolved (base : list Model) (remaining : list (string * nat))
  : Prop :=
  Forall (fun kv => forall m, base !! kv.2 = Some m -> truthy (url m) = false) remaining.

(** What makes a registry entry an alternative of the file [fname]:
    another name, a quantization variant of the same canonical base, and
    neither a GGUF nor an SVDQ file. *)
Definition alternative_of (fname : string) (a : Alternative) : Prop :=
  is_quant_variant_filename (alt_filename a) = true
  ∧ canonicalize_model_base (alt_filename a) = canonicalize_model_base fname
  ∧ str_lower (alt_filename a) ≠ str_lower fname
  ∧ endswith (str_lower (alt_filename a)) ".gguf" = false
  ∧ contains "svdq" (str_lower (alt_filename a)) = false.

(** The alternative is read off an entry of one of the registries. *)
Definition alternative_from (registries : list (string * list (string * RegEntry)))
  (a : Alternative) : Prop :=
  ∃ src model_map key entry,
    (src, model_map) ∈ registries ∧ (key, entry) ∈ model_map
    ∧ alt_filename a = e_filename entry ∧ alt_url a = e_url entry
    ∧ alt_source a = src ∧ alt_suggested_folder a = e_directory entry.

(** A list of search terms as [add_term] builds it: no repeat, each term
    stripped and at least [n] characters long. *)
Definition terms_wf (n : nat) (terms : list string) : Prop :=
  NoDup terms ∧ Forall (fun t => n <= str_len t ∧ str_strip t = t) terms.

(** A node the extractor reads references from: neither muted nor
    bypassed, not of the pre-processor package, and not a note. *)
Definition active_node (node : Node) : Prop :=
  n_mode node ≠ 2%Z ∧ n_mode node ≠ 4%Z
  ∧ cnr_of node ≠ "comfyui_controlnet_aux"
  ∧ is_note_type (node_type_of node) = false.

(** The reference bears a file name and the id of an active node. *)
Definition extracted_from (nodes : list Node) (m : Model) : Prop :=
  ∃ node, node ∈ nodes ∧ active_node node ∧ node_id m = n_id node
          ∧ is_Some (filename m).

(** A path component: no slash in it. *)
Definition slash_free (s : string) : Prop :=
  forallb (fun c => negb (is_slash c)) (chars s) = true.

(** The paths picked for the names still looked for, against the listing
    [seen] of a repository: no name twice, each path of the listing and of
    the name it is picked for, none of the listing with that name shorter,
    and a path picked for every wanted name the listing has. *)
Definition shortest_paths (remaining : list (string * nat)) (seen : list string)
  (found_paths : list (string * string)) : Prop :=
  NoDup found_paths.*1
  ∧ (forall base f, (base, f) ∈ found_paths ->
       f ∈ seen ∧ str_lower (basename f) = base ∧ is_Some (assoc_get base remaining)
       ∧ forall g, g ∈ seen -> str_lower (basename g) = base -> str_len f <= str_len g)
  ∧ (forall g, g ∈ seen -> is_Some (assoc_get (str_lower (basename g)) remaining) ->
       str_lower (basename g) ∈ found_paths.*1).

(** Whether the last character of [l] is alphanumeric; [prev] when [l]
    is empty. *)
Definition last_alnum (prev : bool) (l : list ascii) : bool :=
  fold_left (fun _ c => is_alnum c) l prev.

(** Equality of characters, letter case aside. *)
Definition ceq (a b : ascii) : bool := ascii_eqb (lower_ascii a) (lower_ascii b).

(** The folders listed first by [get_model_subfolders]. *)
Definition SUBFOLDER_PRIORITY : list string :=
  ["checkpoints"; "clip"; "diffusion_models"; "vae"; "loras"; "controlnet"].

(** A models folder with three directories and a file. *)
Definition sample_dirs : Dirs :=
  mkDirs "/comfy" (fun p => bool_decide (p = "/comfy/models"))
         (fun p => if bool_decide (p = "/comfy/models")
                   then ["vae"; "readme.txt"; "zoo"; "checkpoints"] else [])
         (fun p => negb (bool_decide (p = "/comfy/models/readme.txt"))).

(** A machine that has the file of the loader [x.safetensors], and a
    workflow of that loader alone. *)
Definition sample_env_local : Env :=
  mkEnv sample_fs_nested sample_lib false 200 300 60 100 [] []
        (fun _ => false) None
        (fun _ _ _ _ => inl []) (fun _ _ => inl []) (fun _ => 1%Z).

Definition sample_workflow_local : Workflow :=
  mkWorkflow [mkNode (NidInt 5) 0 (Some "CheckpointLoaderSimple") None None []
                     (WList [JStr "x.safetensors"])] [] [] false [].


(** A workflow whose note links the file of its loader, on a machine
    without the file. *)
Definition sample_env_links : Env :=
  mkEnv sample_fs_empty sample_lib_links false 200 300 60 100 [] []
        (fun _ => false) None
        (fun _ _ _ _ => inl []) (fun _ _ => inl []) (fun _ => 1%Z).

Definition sample_workflow_links : Workflow :=
  mkWorkflow [sample_note; sample_loader] [] [] false [].

(** The globals of a run whose rate-limit mark, set for time 340, has
    run out. *)
Definition world_with_expired_mark : World :=
  mkWorld 0 (Some 340%Z) 0 false ∅ ∅ 350 0 [].

(* ===================================================================== *)
(** ** 12. Properties                                                     *)
(* ===================================================================== *)

(** *** Properties of the insertion-ordered grouping *)

Section GroupingFacts.
Context {K A : Type} `{EqDecision K}.
Implicit Types (k : K) (x : A) (g : list (K * list A)) (l : list A) (key : A -> K).

Lemma map_is_fmap {B C} (f : B -> C) (l : list B) : map f l = f <$> l.
Proof. induction l; csimpl; congruence. Qed.

Lemma flat_map_app {B C} (f : B -> list C) (l1 l2 : list B) :
  flat_map f (l1 ++ l2) = flat_map f l1 ++ flat_map f l2.
Proof. induction l1; simpl; [done|]. by rewrite IHl1, app_assoc. Qed.

Lemma elem_of_concat {B} (x : B) (ls : list (list B)) :
  x ∈ concat ls <-> exists m : list B, m ∈ ls ∧ x ∈ m.
Proof.
  induction ls as [|m ls IH]; simpl.
  - split; [by intros ?%not_elem_of_nil|by intros (? & ?%not_elem_of_nil & _)].
  - rewrite elem_of_app, IH. split.
    + intros [Hx|(m2 & Hm2 & Hx)]; [exists m|exists m2]; split; try done;
        [by left|by right].
    + intros (m2 & [->|Hm2]%elem_of_cons & Hx); [by left|right; by exists m2].
Qed.

Lemma group_insert_keys k x g :
  (group_insert k x g).*1 = if decide (k ∈ g.*1) then g.*1 else g.*1 ++ [k].
Proof.
  induction g as [|[k' xs] g IH]; csimpl.
  - destruct (decide (k ∈ [])) as [Hin|]; [by apply not_elem_of_nil in Hin|done].
  - destruct (decide (k = k')) as [->|Hne]; csimpl.
    + rewrite decide_True; [done|]. by left.
    + rewrite IH. destruct (decide (k ∈ g.*1)) as [Hin|Hin].
      * rewrite decide_True; [done|]. by right.
      * rewrite decide_False; [done|]. by intros [?|?]%elem_of_cons.
Qed.

Lemma group_insert_wf key x g :
  groups_wf key g -> groups_wf key (group_insert (key x) x g).
Proof.
  intros [Hnd Hall]. split.
  - rewrite group_insert_keys. destruct (decide (key x ∈ g.*1)); [done|].
    apply NoDup_app. split_and!; [done| |apply NoDup_singleton].
    intros y Hy Hy'. apply list_elem_of_singleton in Hy'. by subst.
  - clear Hnd. induction g as [|[k' xs] g IH]; simpl.
    + repeat constructor; done.
    + apply Forall_cons in Hall as [[Hne Hxs] Hall].
      destruct (decide (key x = k')) as [Heq|Hne'].
      * constructor; [|done]. simpl in *. split.
        -- by destruct xs.
        -- apply Forall_app. split; [done|]. by constructor.
      * constructor; [done|]. by apply IH.
Qed.

Lemma group_by_snoc key l x :
  group_by key (l ++ [x]) = group_insert (key x) x (group_by key l).
Proof. unfold group_by. by rewrite fold_left_app. Qed.

Lemma group_by_wf key l : groups_wf key (group_by key l).
Proof.
  induction l as [|x l IH] using rev_ind.
  - split; simpl; constructor.
  - rewrite group_by_snoc. by apply group_insert_wf.
Qed.

(** Elements whose keys are new do not touch the groups already there. *)
Lemma group_insert_skip k x g0 g :
  k ∉ g0.*1 -> group_insert k x (g0 ++ g) = g0 ++ group_insert k x g.
Proof.
  induction g0 as [|[k' xs] g0 IH]; simpl; [done|]. intros Hk.
  apply not_elem_of_cons in Hk as [Hne Hk].
  destruct (decide (k = k')); [done|]. by rewrite IH.
Qed.

Lemma fold_group_skip key l g0 g :
  Forall (fun x => key x ∉ g0.*1) l ->
  fold_left (fun g x => group_insert (key x) x g) l (g0 ++ g)
  = g0 ++ fold_left (fun g x => group_insert (key x) x g) l g.
Proof.
  revert g. induction l as [|x l IH]; simpl; intros g Hl; [done|].
  apply Forall_cons in Hl as [Hx Hl].
  rewrite group_insert_skip by done. by apply IH.
Qed.

Lemma group_by_keys_subset key l k : k ∈ (group_by key l).*1 -> k ∈ map key l.
Proof.
  induction l as [|x l IH] using rev_ind; simpl.
  - inversion 1.
  - rewrite group_by_snoc, group_insert_keys, map_app. simpl. intros Hk.
    apply elem_of_app. destruct (decide (key x ∈ (group_by key l).*1)).
    + left. by apply IH.
    + apply elem_of_app in Hk as [Hk|Hk]; [left; by apply IH|by right].
Qed.

(** Two runs of elements with disjoint keys are grouped independently. *)
Lemma group_by_app_disjoint key l1 l2 :
  (forall x y, x ∈ l1 -> y ∈ l2 -> key x ≠ key y) ->
  group_by key (l1 ++ l2) = group_by key l1 ++ group_by key l2.
Proof.
  intros Hdis. unfold group_by at 1. rewrite fold_left_app.
  fold (group_by key l1).
  rewrite <- (app_nil_r (group_by key l1)) at 1.
  rewrite fold_group_skip; [done|].
  apply Forall_forall. intros y Hy Hin.
  apply group_by_keys_subset in Hin. rewrite map_is_fmap in Hin.
  apply list_elem_of_fmap in Hin as (x & Heq & Hx).
  by apply (Hdis x y).
Qed.

Lemma group_by_block key k x l :
  Forall (fun y => key y = k) (x :: l) -> group_by key (x :: l) = [(k, x :: l)].
Proof.
  induction l as [|y l IH] using rev_ind; intros Hall.
  - apply Forall_cons in Hall as [<- _]. done.
  - rewrite app_comm_cons in *. apply Forall_app in Hall as [Hl Hy].
    apply Forall_cons in Hy as [Hy _].
    rewrite group_by_snoc, IH by done. simpl. rewrite Hy.
    destruct (decide (k = k)); done.
Qed.

Lemma group_by_singletons key l :
  NoDup (map key l) -> group_by key l = map (fun x => (key x, [x])) l.
Proof.
  induction l as [|x l IH]; simpl; intros Hnd; [done|].
  apply NoDup_cons in Hnd as [Hx Hnd].
  change (x :: l) with ([x] ++ l). rewrite group_by_app_disjoint.
  - simpl. by rewrite IH.
  - intros a b Ha Hb Heq. apply list_elem_of_singleton in Ha as ->.
    apply Hx. rewrite Heq, map_is_fmap. by apply list_elem_of_fmap_2.
Qed.

(** Grouping only rearranges: the groups, concatenated, are a
    permutation of the input. *)
Lemma group_insert_perm k x g :
  concat (group_insert k x g).*2 ≡ₚ concat g.*2 ++ [x].
Proof.
  induction g as [|[k' xs] g IH]; simpl; [done|].
  destruct (decide (k = k')); simpl.
  - rewrite <- !app_assoc. apply Permutation_app_head, Permutation_app_comm.
  - rewrite IH. by rewrite app_assoc.
Qed.

Lemma group_by_perm key l : concat (group_by key l).*2 ≡ₚ l.
Proof.
  induction l as [|x l IH] using rev_ind; [done|].
  rewrite group_by_snoc, group_insert_perm. by rewrite IH.
Qed.

Lemma group_delete_wf key k g : groups_wf key g -> groups_wf key (group_delete k g).
Proof.
  intros [Hnd Hall]. split.
  - unfold group_delete. eapply sublist_NoDup; [exact Hnd|].
    apply fmap_sublist, sublist_filter.
  - unfold group_delete. eapply Forall_impl; [|by intros ? Hq; exact Hq].
    apply Forall_forall. intros kv [_ Hin]%list_elem_of_filter.
    by apply (proj1 (Forall_forall _ _) Hall).
Qed.
End GroupingFacts.

(** *** String facts *)

Lemma str_chars s : str (chars s) = s.
Proof. apply String.string_of_list_ascii_of_string. Qed.

Lemma chars_str l : chars (str l) = l.
Proof. apply String.list_ascii_of_string_of_list_ascii. Qed.

Lemma nonempty_str l : nonempty (str l) = match l with [] => false | _ => true end.
Proof. by destruct l. Qed.

Lemma chars_lower s : chars (str_lower s) = map lower_ascii (chars s).
Proof. induction s; simpl; [done|]. by f_equal. Qed.

Lemma is_space_lower c : is_space (lower_ascii c) = is_space c.
Proof. destruct c as [[] [] [] [] [] [] [] []]; reflexivity. Qed.

Lemma nonempty_lower s : nonempty (str_lower s) = nonempty s.
Proof. by destruct s. Qed.

Lemma drop_while_nil_iff {A} (p : A -> bool) l :
  drop_while p l = [] <-> forallb p l = true.
Proof.
  induction l as [|x l IH]; simpl; [done|].
  destruct (p x); simpl; [done|]. split; done.
Qed.

Lemma drop_while_app_stop {A} (p : A -> bool) l x :
  p x = false -> drop_while p (l ++ [x]) <> [].
Proof.
  intros Hx. induction l as [|y l IH]; simpl.
  - by rewrite Hx.
  - destruct (p y); [done|]. done.
Qed.

Lemma nonempty_strip_with p s :
  nonempty (strip_with p s) = negb (forallb p (chars s)).
Proof.
  unfold strip_with. rewrite nonempty_str.
  destruct (drop_while p (chars s)) as [|x r] eqn:Hd.
  - apply drop_while_nil_iff in Hd. by rewrite Hd.
  - assert (forallb p (chars s) = false) as ->.
    { destruct (forallb p (chars s)) eqn:Hf; [|done].
      apply drop_while_nil_iff in Hf. congruence. }
    assert (p x = false) as Hx.
    { clear -Hd. induction (chars s) as [|y l IH]; simpl in Hd; [done|].
      destruct (p y) eqn:Hy; [by apply IH|]. congruence. }
    simpl. destruct (drop_while p (rev r ++ [x])) eqn:Hd2.
    + by apply drop_while_app_stop in Hd2.
    + destruct (rev (a :: l)) eqn:Hr; [|done].
      apply (f_equal (@rev ascii)) in Hr. rewrite rev_involutive in Hr. done.
Qed.

Lemma forallb_space_lower s :
  forallb is_space (chars (str_lower s)) = forallb is_space (chars s).
Proof.
  rewrite chars_lower. induction (chars s) as [|c l IH]; simpl; [done|].
  by rewrite is_space_lower, IH.
Qed.

(** Whether a name is blank is decided by its lower-cased form. *)
Lemma strip_nonempty_lower s1 s2 :
  str_lower s1 = str_lower s2 ->
  nonempty (str_strip s1) = nonempty (str_strip s2).
Proof.
  intros Heq. unfold str_strip. rewrite !nonempty_strip_with.
  by rewrite <- (forallb_space_lower s1), <- (forallb_space_lower s2), Heq.
Qed.

(** *** Facts about the keys of a reference *)

Lemma is_passthrough_spec m :
  is_passthrough m = negb (nonempty (str_strip (or_empty (filename m)))).
Proof.
  unfold is_passthrough, _variant_group_key.
  destruct (nonempty _); [|done]. by destruct (splitext _).
Qed.

Lemma passthrough_name_key a b :
  name_key_of a = name_key_of b -> is_passthrough a = is_passthrough b.
Proof.
  unfold name_key_of. intros [= _ Hl]. rewrite !is_passthrough_spec.
  f_equal. by apply strip_nonempty_lower.
Qed.

Lemma variant_key_ext a b :
  filename a = filename b -> node_id a = node_id b ->
  folder_key_of a = folder_key_of b ->
  _variant_group_key a = _variant_group_key b.
Proof.
  unfold _variant_group_key, folder_key_of. by intros -> -> ->.
Qed.

Lemma max_by_in {A} (lt : A -> A -> bool) b l : max_by lt b l ∈ b :: l.
Proof.
  revert b. induction l as [|x l IH]; simpl; intros b; [by left|].
  specialize (IH (if lt b x then x else b)).
  apply elem_of_cons in IH as [->|IH].
  - destruct (lt b x); [right; left|left].
  - by do 2 right.
Qed.

Lemma pick_best_in b s l : pick_best b s l ∈ b :: l.
Proof.
  revert b s. induction l as [|x l IH]; simpl; intros b s; [by left|].
  repeat case_match;
    match goal with
    | |- pick_best ?b' ?s' l ∈ _ => generalize (IH b' s')
    end; rewrite !elem_of_cons; naive_solver.
Qed.

Lemma folder_key_falsy m : truthy (suggested_folder m) = false -> folder_key_of m = "".
Proof.
  unfold folder_key_of, _normalize_dedupe_path, truthy.
  destruct (suggested_folder m) as [s|]; [|done]. by intros ->.
Qed.

Lemma find_some_in {A} (p : A -> bool) l x : List.find p l = Some x -> x ∈ l ∧ p x = true.
Proof.
  intros [Hin Hp]%find_some. split; [|done]. by apply list_elem_of_In.
Qed.

(** The merged entry of a variant group keeps the name, the node and the
    folder key of the group. *)
Lemma merge_variant_group_key first rest k :
  Forall (fun m => _variant_group_key m = Some k) (first :: rest) ->
  _variant_group_key (merge_variant_group first rest) = Some k.
Proof.
  intros Hall. unfold merge_variant_group.
  set (best := max_by _ first rest).
  assert (Hbest : best ∈ first :: rest) by apply max_by_in.
  assert (Hk : forall m, m ∈ first :: rest -> _variant_group_key m = Some k).
  { by apply Forall_forall. }
  assert (Hfk : forall m, m ∈ first :: rest -> folder_key_of m = folder_key_of best).
  { intros m Hm. pose proof (Hk m Hm) as H1. pose proof (Hk best Hbest) as H2.
    unfold _variant_group_key in H1, H2. unfold folder_key_of.
    destruct (nonempty (str_strip (or_empty (filename m)))); [|done].
    destruct (nonempty (str_strip (or_empty (filename best)))); [|done].
    destruct (splitext _), (splitext _). congruence. }
  rewrite <- (Hk best Hbest).
  match goal with |- _variant_group_key (match ?s with _ => _ end) = _ =>
    set (sorted := s) end.
  match goal with |- _variant_group_key (match sorted with [] => ?m | _ => _ end) = _ =>
    set (merged := m) end.
  assert (Hm : filename merged = filename best ∧ node_id merged = node_id best
               ∧ folder_key_of merged = folder_key_of best).
  { subst merged. split_and!.
    - repeat case_match; done.
    - repeat case_match; done.
    - set (m1 := if truthy (url best) then best else _).
      assert (Hm1 : suggested_folder m1 = suggested_folder best).
      { subst m1. repeat case_match; done. }
      destruct (truthy (suggested_folder m1)) eqn:Ht.
      + unfold folder_key_of. by rewrite Hm1.
      + destruct (first_truthy suggested_folder (first :: rest)) as [c|] eqn:Hc.
        * apply find_some_in in Hc as [Hc _].
          transitivity (folder_key_of c); [done|]. by apply Hfk.
        * unfold folder_key_of. by rewrite Hm1. }
  destruct Hm as (Hf & Hn & Hfo).
  apply variant_key_ext.
  - destruct sorted as [|[? ?] ?]; simpl; done.
  - destruct sorted as [|[? ?] ?]; simpl; done.
  - destruct sorted as [|[? ?] ?]; simpl; done.
Qed.

Lemma merge_variant_group_filename first rest :
  exists b, b ∈ first :: rest ∧ filename (merge_variant_group first rest) = filename b.
Proof.
  unfold merge_variant_group. set (best := max_by _ first rest).
  exists best. split; [apply max_by_in|].
  repeat case_match; simpl; repeat case_match; done.
Qed.

(** *** Normal forms of the reconciliation steps *)

Lemma Forall_sublist {A} (P : A -> Prop) l1 l2 :
  l1 `sublist_of` l2 -> Forall P l2 -> Forall P l1.
Proof.
  intros Hs Hall. apply Forall_forall. intros x Hx.
  eapply (proj1 (Forall_forall _ _) Hall), elem_of_sublist; done.
Qed.

Lemma block_ok_sublist b' b : b' `sublist_of` b -> block_ok b -> block_ok b'.
Proof.
  intros Hs [Hnd Hlen]. split.
  - eapply sublist_NoDup; [exact Hnd|]. rewrite !map_is_fmap. by apply fmap_sublist.
  - intros Hl Hin. apply Hlen.
    + apply sublist_length in Hs. lia.
    + eapply elem_of_sublist; [exact Hin|]. rewrite !map_is_fmap. by apply fmap_sublist.
Qed.

Lemma NameNF_sublist l' l : l' `sublist_of` l -> NameNF l -> NameNF l'.
Proof.
  intros Hs Hnf. revert l' Hs.
  induction Hnf as [|k b r Hb Hr Hne Hok Hnf IH]; intros l' Hs.
  - apply sublist_nil_r in Hs as ->. constructor.
  - apply sublist_app_r in Hs as (b' & r' & -> & Hb' & Hr').
    apply (NameNF_block k); eauto using Forall_sublist, block_ok_sublist.
Qed.

Lemma NameNF_nonempty l :
  NameNF l -> Forall (fun m => nonempty (str_lower (or_empty (filename m))) = true) l.
Proof. induction 1; [constructor|]. by apply Forall_app. Qed.

Lemma filter_Forall_id {A} (P : A -> Prop) `{!forall x, Decision (P x)} l :
  Forall P l -> filter P l = l.
Proof.
  induction 1 as [|x l Hx Hl IH]; [done|].
  rewrite filter_cons_True by done. by rewrite IH.
Qed.

Lemma filter_Forall_nil {A} (P : A -> Prop) `{!forall x, Decision (P x)} l :
  Forall (fun x => ¬ P x) l -> filter P l = [].
Proof.
  induction 1 as [|x l Hx Hl IH]; [done|].
  rewrite filter_cons_False by done. done.
Qed.

(** *** The per-name dedup *)

Lemma best_of_group_folder kv :
  kv.2 ≠ [] -> Forall (fun x => folder_key_of x = kv.1) kv.2 ->
  exists m, best_of_group kv.2 = [m] ∧ m ∈ kv.2 ∧ folder_key_of m = kv.1.
Proof.
  destruct kv as [k [|b r]]; simpl; [done|]. intros _ Hall.
  eexists. split; [done|]. pose proof (pick_best_in b (_score_entry b) r) as Hin.
  split; [done|]. by apply (proj1 (Forall_forall _ _) Hall).
Qed.

Lemma best_of_groups_folders (g : list (string * list Model)) :
  groups_wf folder_key_of g ->
  map folder_key_of (flat_map (fun kv => best_of_group kv.2) g) = g.*1.
Proof.
  intros [_ Hall]. induction Hall as [|kv g [Hne Hk] Hall IH]; [done|].
  destruct (best_of_group_folder kv Hne Hk) as (m & Hm & _ & Hf).
  simpl. rewrite Hm. csimpl. by rewrite IH, Hf.
Qed.

Lemma best_of_groups_in (g : list (string * list Model)) m :
  m ∈ flat_map (fun kv => best_of_group kv.2) g -> m ∈ concat g.*2.
Proof.
  induction g as [|[k xs] g IH]; simpl; [done|]. csimpl.
  intros [Hm|Hm]%elem_of_app; apply elem_of_app; [left|right; by apply IH].
  destruct xs as [|b r]; simpl in Hm; [by apply not_elem_of_nil in Hm|].
  apply list_elem_of_singleton in Hm as ->. apply pick_best_in.
Qed.

Lemma dedupe_name_group_in models m :
  m ∈ dedupe_name_group models -> m ∈ models.
Proof.
  unfold dedupe_name_group. intros Hm. apply best_of_groups_in in Hm.
  rewrite <- (group_by_perm folder_key_of models).
  case_match; [|done].
  revert Hm. generalize (group_by folder_key_of models). intros g.
  unfold group_delete. induction g as [|[k xs] g IH]; [done|].
  rewrite filter_cons. csimpl. case_decide; csimpl; rewrite !elem_of_app; tauto.
Qed.

Lemma dedupe_name_group_block models : block_ok (dedupe_name_group models).
Proof.
  unfold dedupe_name_group.
  pose proof (group_by_wf folder_key_of models) as Hwf.
  set (g := group_by folder_key_of models) in *.
  assert (Hlen : forall g' : list (string * list Model), groups_wf folder_key_of g' ->
            length (flat_map (fun kv => best_of_group kv.2) g') = length g').
  { intros g' Hg'. rewrite <- (length_map folder_key_of), best_of_groups_folders by done.
    by rewrite length_fmap. }
  destruct ((1 <? length g) && has_key "" g) eqn:Hc.
  - pose proof (group_delete_wf folder_key_of "" g Hwf) as Hwf'. split.
    + rewrite best_of_groups_folders by done. apply Hwf'.
    + intros _. rewrite best_of_groups_folders by done.
      unfold group_delete. intros (kv & Heq & Hin)%list_elem_of_fmap.
      apply list_elem_of_filter in Hin as [Hne _]. done.
  - split.
    + rewrite best_of_groups_folders by done. apply Hwf.
    + rewrite Hlen, best_of_groups_folders by done. intros Hl Hin.
      apply andb_false_iff in Hc as [Hc|Hc].
      * apply Nat.ltb_ge in Hc. lia.
      * unfold has_key in Hc. by apply bool_decide_eq_false in Hc.
Qed.

Lemma dedupe_name_group_id b : block_ok b -> dedupe_name_group b = b.
Proof.
  intros [Hnd Hlen]. unfold dedupe_name_group.
  rewrite group_by_singletons by done.
  assert (Hc : (1 <? length (map (fun x => (folder_key_of x, [x])) b))
               && has_key "" (map (fun x => (folder_key_of x, [x])) b) = false).
  { rewrite length_map. destruct (1 <? length b) eqn:Hl; [|done]. simpl.
    apply Nat.ltb_lt in Hl. unfold has_key. apply bool_decide_eq_false.
    intros Hin. apply (Hlen Hl). rewrite map_is_fmap in *.
    by rewrite <- list_fmap_compose in Hin. }
  rewrite Hc. clear. induction b as [|x b IH]; simpl; [done|]. by rewrite IH.
Qed.

Lemma dedupe_groups_NameNF (g : list (NodeId * string * list Model)) :
  groups_wf name_key_of g ->
  Forall (fun kv => Forall (fun m => nonempty (str_lower (or_empty (filename m))) = true) kv.2) g ->
  NameNF (flat_map (fun kv => dedupe_name_group kv.2) g).
Proof.
  intros [Hnd Hall] Hne. induction g as [|[k xs] g IH]; simpl; [constructor|].
  csimpl in Hnd. apply NoDup_cons in Hnd as [Hk Hnd].
  apply Forall_cons in Hall as [[_ Hxs] Hall]. apply Forall_cons in Hne as [Hne1 Hne].
  simpl in *. apply (NameNF_block k).
  - apply Forall_forall. intros m Hm%dedupe_name_group_in.
    by apply (proj1 (Forall_forall _ _) Hxs).
  - apply Forall_forall. intros m Hm Heq. apply Hk.
    clear -Hm Heq Hall. induction Hall as [|[k' ys] g [_ Hys] Hall IH]; simpl in *.
    + by apply not_elem_of_nil in Hm.
    + csimpl. apply elem_of_app in Hm as [Hm%dedupe_name_group_in|Hm].
      * apply elem_of_cons. left. simpl in *. rewrite <- Heq.
        by apply (proj1 (Forall_forall _ _) Hys).
      * right. by apply IH.
  - apply Forall_forall. intros m Hm%dedupe_name_group_in.
    by apply (proj1 (Forall_forall _ _) Hne1).
  - apply dedupe_name_group_block.
  - by apply IH.
Qed.

Lemma group_by_members {K} `{EqDecision K} (key : Model -> K) (P : Model -> Prop) l :
  Forall P l -> Forall (fun kv => Forall P kv.2) (group_by key l).
Proof.
  intros Hl. apply Forall_forall. intros kv Hkv. apply Forall_forall. intros m Hm.
  apply (proj1 (Forall_forall _ _) Hl). rewrite <- (group_by_perm key l).
  apply elem_of_concat. exists kv.2. split; [by apply list_elem_of_fmap_2|done].
Qed.

Lemma dedupe_by_name_NameNF l : NameNF (dedupe_by_name l).
Proof.
  unfold dedupe_by_name. apply dedupe_groups_NameNF; [apply group_by_wf|].
  apply group_by_members. apply Forall_forall.
  by intros m [Hm _]%list_elem_of_filter.
Qed.

Lemma dedupe_by_name_id l : NameNF l -> dedupe_by_name l = l.
Proof.
  intros Hnf. unfold dedupe_by_name.
  rewrite filter_Forall_id by by apply NameNF_nonempty.
  induction Hnf as [|k b r Hb Hr Hne Hok Hnf IH]; [done|].
  destruct b as [|x b]; [done|].
  rewrite group_by_app_disjoint.
  - rewrite flat_map_app, IH. f_equal.
    rewrite (group_by_block _ k) by done. simpl.
    rewrite dedupe_name_group_id by done. by rewrite app_nil_r.
  - intros a c Ha Hc Heq.
    apply (proj1 (Forall_forall _ _) Hb) in Ha.
    apply (proj1 (Forall_forall _ _) Hr) in Hc. congruence.
Qed.

Lemma dedupe_groups_submseteq {K} (g : list (K * list Model)) :
  flat_map (fun kv => dedupe_name_group kv.2) g ⊆+ concat g.*2.
Proof.
  induction g as [|[k xs] g IH]; simpl; [done|]. csimpl.
  apply submseteq_app; [|done]. clear.
  trans (concat (group_by folder_key_of xs).*2); [|by rewrite group_by_perm].
  unfold dedupe_name_group.
  set (g := group_by folder_key_of xs).
  assert (Hb : forall g' : list (string * list Model),
             flat_map (fun kv => best_of_group kv.2) g' ⊆+ concat g'.*2).
  { induction g' as [|[k' ys] g' IH]; simpl; [done|]. csimpl.
    apply submseteq_app; [|done]. destruct ys as [|b r]; simpl; [done|].
    apply singleton_submseteq_l, pick_best_in. }
  case_match; [|apply Hb]. etrans; [apply Hb|].
  apply sublist_submseteq. unfold group_delete. clear.
  induction g as [|[k ys] g IH]; [done|]. rewrite filter_cons.
  case_decide; csimpl.
  - by apply sublist_app.
  - by apply sublist_inserts_l.
Qed.

Lemma dedupe_by_name_submseteq l : dedupe_by_name l ⊆+ l.
Proof.
  unfold dedupe_by_name. etrans; [apply dedupe_groups_submseteq|].
  rewrite group_by_perm. apply sublist_submseteq, sublist_filter.
Qed.

(** *** Variant coalescing *)

Lemma keyed_variant_key m k :
  is_passthrough m = false -> variant_key_or m = k -> _variant_group_key m = Some k.
Proof.
  unfold is_passthrough, variant_key_or.
  destruct (_variant_group_key m); simpl; [congruence|done].
Qed.

Lemma variant_key_keyed m k :
  _variant_group_key m = Some k -> is_passthrough m = false ∧ variant_key_or m = k.
Proof. unfold is_passthrough, variant_key_or. by intros ->. Qed.

Lemma coalesce_group_key (kv : VariantKey * list Model) :
  kv.2 ≠ [] -> Forall (fun m => _variant_group_key m = Some kv.1) kv.2 ->
  exists m, coalesce_group kv.2 = [m] ∧ _variant_group_key m = Some kv.1
            ∧ exists b, b ∈ kv.2 ∧ filename m = filename b.
Proof.
  destruct kv as [k [|x [|y r]]]; simpl; [done| |]; intros _ Hall.
  - exists x. split_and!; [done|by apply Forall_cons in Hall as [? _]|].
    exists x. split; [by left|done].
  - eexists. split_and!; [done|by apply merge_variant_group_key|].
    apply merge_variant_group_filename.
Qed.

Lemma keyed_groups_of l :
  Forall keyed l -> keyed_groups (group_by variant_key_or l).
Proof.
  intros Hl. destruct (group_by_wf variant_key_or l) as [Hnd Hall]. split; [done|].
  pose proof (group_by_members variant_key_or _ l Hl) as Hk.
  apply Forall_forall. intros kv Hkv.
  pose proof (proj1 (Forall_forall _ _) Hall kv Hkv) as [Hne Hkey].
  pose proof (proj1 (Forall_forall _ _) Hk kv Hkv) as Hkd.
  split; [done|]. apply Forall_forall. intros m Hm.
  apply keyed_variant_key.
  - by apply (proj1 (Forall_forall _ _) Hkd).
  - by apply (proj1 (Forall_forall _ _) Hkey).
Qed.

Lemma coalesce_groups_keys g :
  keyed_groups g ->
  map variant_key_or (flat_map (fun kv => coalesce_group kv.2) g) = g.*1
  ∧ Forall keyed (flat_map (fun kv => coalesce_group kv.2) g).
Proof.
  intros [_ Hall]. induction Hall as [|kv g [Hne Hk] Hall [IH1 IH2]]; [by split|].
  destruct (coalesce_group_key kv Hne Hk) as (m & Hm & Hkey & _).
  apply variant_key_keyed in Hkey as [Hp Hv].
  simpl. rewrite Hm. csimpl. split; [by rewrite IH1, Hv|by constructor].
Qed.

Lemma coalesce_variants_CoalNF l : CoalNF (coalesce_variants l).
Proof.
  unfold coalesce_variants.
  assert (Hk : keyed_groups (group_by variant_key_or
                 (filter (fun m => is_passthrough m = false) l))).
  { apply keyed_groups_of, Forall_forall. by intros m [Hm _]%list_elem_of_filter. }
  destruct (coalesce_groups_keys _ Hk) as [Hkeys Hkeyed].
  eexists _, _. split_and!; [done| |done|].
  - apply Forall_forall. by intros m [Hm _]%list_elem_of_filter.
  - rewrite Hkeys. apply Hk.
Qed.

Lemma coalesce_variants_id l : CoalNF l -> coalesce_variants l = l.
Proof.
  intros (P & G & -> & HP & HG & Hnd). unfold coalesce_variants.
  rewrite !filter_app.
  rewrite (filter_Forall_id _ P) by done.
  rewrite (filter_Forall_nil _ G).
  2:{ eapply Forall_impl; [exact HG|]. unfold keyed. intros m ->. done. }
  rewrite (filter_Forall_nil _ P).
  2:{ eapply Forall_impl; [exact HP|]. intros m ->. done. }
  rewrite (filter_Forall_id _ G) by done.
  rewrite app_nil_r. simpl. f_equal.
  rewrite group_by_singletons by done. clear.
  induction G as [|x G IH]; simpl; [done|]. by rewrite IH.
Qed.

Lemma CoalNF_sublist l' l : l' `sublist_of` l -> CoalNF l -> CoalNF l'.
Proof.
  intros Hs (P & G & -> & HP & HG & Hnd).
  apply sublist_app_r in Hs as (P' & G' & -> & HP' & HG').
  exists P', G'. split_and!; eauto using Forall_sublist.
  eapply sublist_NoDup; [exact Hnd|]. rewrite !map_is_fmap. by apply fmap_sublist.
Qed.

Lemma dedupe_by_name_in l m : m ∈ dedupe_by_name l -> m ∈ l.
Proof. intros Hm. eapply elem_of_submseteq; [exact Hm|apply dedupe_by_name_submseteq]. Qed.

Lemma dedupe_by_name_app P G :
  Forall (fun m => is_passthrough m = true) P -> Forall keyed G ->
  dedupe_by_name (P ++ G) = dedupe_by_name P ++ dedupe_by_name G.
Proof.
  intros HP HG. unfold dedupe_by_name.
  rewrite filter_app, group_by_app_disjoint; [by rewrite flat_map_app|].
  intros a b [_ Ha]%list_elem_of_filter [_ Hb]%list_elem_of_filter Heq.
  apply passthrough_name_key in Heq.
  apply (proj1 (Forall_forall _ _) HP) in Ha.
  apply (proj1 (Forall_forall _ _) HG) in Hb. unfold keyed in Hb. congruence.
Qed.

Lemma dedupe_by_name_CoalNF l : CoalNF l -> CoalNF (dedupe_by_name l).
Proof.
  intros (P & G & -> & HP & HG & Hnd).
  rewrite dedupe_by_name_app by done.
  exists (dedupe_by_name P), (dedupe_by_name G). split_and!; [done| | |].
  - apply Forall_forall. intros m Hm%dedupe_by_name_in.
    by apply (proj1 (Forall_forall _ _) HP).
  - apply Forall_forall. intros m Hm%dedupe_by_name_in.
    by apply (proj1 (Forall_forall _ _) HG).
  - assert (Hsub : map variant_key_or (dedupe_by_name G) ⊆+ map variant_key_or G).
    { rewrite !map_is_fmap. apply fmap_submseteq, dedupe_by_name_submseteq. }
    apply submseteq_Permutation in Hsub as [k Hk].
    rewrite Hk in Hnd. by apply NoDup_app in Hnd as [? _].
Qed.

(** *** Global identity dedup *)

Lemma unique_by_identity_sublist seen l : unique_by_identity seen l `sublist_of` l.
Proof.
  revert seen. induction l as [|m l IH]; simpl; intros seen; [done|].
  case_bool_decide; [by apply sublist_cons|by apply sublist_skip].
Qed.

Lemma unique_by_identity_keys seen l :
  NoDup (map identity_key (unique_by_identity seen l))
  ∧ forall k, k ∈ map identity_key (unique_by_identity seen l) -> k ∉ seen.
Proof.
  revert seen. induction l as [|m l IH]; simpl; intros seen.
  - split; [constructor|]. by intros k ?%not_elem_of_nil.
  - case_bool_decide as Hm; [apply IH|].
    destruct (IH (identity_key m :: seen)) as [Hnd Hk]. simpl. split.
    + apply NoDup_cons. split; [|done]. intros Hin. apply Hk in Hin.
      apply Hin. by left.
    + intros k [->|Hin]%elem_of_cons; [done|].
      apply Hk in Hin. by apply not_elem_of_cons in Hin as [_ ?].
Qed.

Lemma unique_by_identity_id seen l :
  NoDup (map identity_key l) ->
  (forall k, k ∈ map identity_key l -> k ∉ seen) ->
  unique_by_identity seen l = l.
Proof.
  revert seen. induction l as [|m l IH]; simpl; intros seen Hnd Hk; [done|].
  apply NoDup_cons in Hnd as [Hm Hnd].
  rewrite bool_decide_eq_false_2 by (apply Hk; by left).
  f_equal. apply IH; [done|]. intros k Hin.
  apply not_elem_of_cons. split; [|apply Hk; by right].
  by intros ->.
Qed.

Lemma unique_by_identity_idem l :
  unique_by_identity [] (unique_by_identity [] l) = unique_by_identity [] l.
Proof.
  destruct (unique_by_identity_keys [] l) as [Hnd Hk].
  by apply unique_by_identity_id.
Qed.

(** *** Precision normalization *)

Lemma normalize_precision_stable pref m :
  filename (normalize_precision pref m) = filename m ->
  normalize_precision pref m = m.
Proof.
  unfold normalize_precision.
  destruct (_is_nunchaku_svdq_name (filename m)); [|done].
  destruct (negb _ || bool_decide _) eqn:Hc; [done|].
  apply orb_false_iff in Hc as [_ Hc]. apply bool_decide_eq_false in Hc.
  simpl. intros Heq. by destruct Hc.
Qed.

Lemma normalize_precision_filename pref a b :
  filename a = filename b ->
  filename (normalize_precision pref a) = filename a ->
  filename (normalize_precision pref b) = filename b.
Proof.
  unfold normalize_precision. intros Hab. rewrite <- Hab.
  destruct (_is_nunchaku_svdq_name (filename a)); [|done].
  destruct (negb _ || bool_decide _); [done|].
  destruct (truthy (requested_path a)), (truthy (requested_path b)); simpl; congruence.
Qed.

Lemma map_normalize_id pref l :
  Forall (precision_stable pref) l -> map (normalize_precision pref) l = l.
Proof.
  induction 1 as [|m l Hm Hl IH]; simpl; [done|].
  by rewrite IH, normalize_precision_stable.
Qed.

Lemma coalesce_variants_stable pref l :
  Forall (precision_stable pref) l ->
  Forall (precision_stable pref) (coalesce_variants l).
Proof.
  intros Hl. unfold coalesce_variants. apply Forall_app. split.
  - apply Forall_forall. intros m [_ Hm]%list_elem_of_filter.
    by apply (proj1 (Forall_forall _ _) Hl).
  - set (l' := filter (fun m => is_passthrough m = false) l).
    assert (Hk : keyed_groups (group_by variant_key_or l')).
    { apply keyed_groups_of, Forall_forall. by intros m [Hm _]%list_elem_of_filter. }
    assert (Hmem : Forall (fun kv => Forall (precision_stable pref) kv.2)
                     (group_by variant_key_or l')).
    { apply group_by_members. apply Forall_forall.
      intros m [_ Hm]%list_elem_of_filter. by apply (proj1 (Forall_forall _ _) Hl). }
    destruct Hk as [_ Hall]. revert Hmem.
    induction Hall as [|kv g [Hne Hkey] Hall IH]; intros Hmem; simpl; [constructor|].
    apply Forall_cons in Hmem as [Hkv Hmem].
    destruct (coalesce_group_key kv Hne Hkey) as (m & -> & _ & b & Hb & Hf).
    simpl. constructor; [|by apply IH].
    unfold precision_stable. eapply normalize_precision_filename; [symmetry; exact Hf|].
    by apply (proj1 (Forall_forall _ _) Hkv).
Qed.

(** *** Idempotence of the pipeline *)

Lemma reconcile_fixpoint pref l :
  CoalNF l -> NameNF l -> Forall (precision_stable pref) l ->
  NoDup (map identity_key l) -> reconcile pref l = l.
Proof.
  intros Hc Hn Hs Hnd. unfold reconcile.
  rewrite coalesce_variants_id, dedupe_by_name_id, map_normalize_id by done.
  apply unique_by_identity_id; [done|]. intros k _. apply not_elem_of_nil.
Qed.

Lemma reconcile_idempotent_stable pref l :
  Forall (precision_stable pref) l ->
  reconcile pref (reconcile pref l) = reconcile pref l.
Proof.
  intros Hl.
  assert (Hs : Forall (precision_stable pref) (dedupe_by_name (coalesce_variants l))).
  { apply Forall_forall. intros m Hm%dedupe_by_name_in.
    by apply (proj1 (Forall_forall _ _) (coalesce_variants_stable pref l Hl)). }
  assert (Hr : reconcile pref l
               = unique_by_identity [] (dedupe_by_name (coalesce_variants l))).
  { unfold reconcile. by rewrite map_normalize_id. }
  rewrite Hr.
  pose proof (unique_by_identity_sublist [] (dedupe_by_name (coalesce_variants l))) as Hsub.
  apply reconcile_fixpoint.
  - eapply CoalNF_sublist; [exact Hsub|].
    apply dedupe_by_name_CoalNF, coalesce_variants_CoalNF.
  - eapply NameNF_sublist; [exact Hsub|]. apply dedupe_by_name_NameNF.
  - eapply Forall_sublist; [exact Hsub|done].
  - apply unique_by_identity_keys.
Qed.

Lemma chars_app a b : chars (a +:+ b) = chars a ++ chars b.
Proof. induction a; simpl; [done|]. by f_equal. Qed.

Lemma drop_while_head {A} (p : A -> bool) l :
  match l with x :: _ => p x = false | [] => True end -> drop_while p l = l.
Proof. destruct l; simpl; [done|]. by intros ->. Qed.

Lemma take_while_all {A} (p : A -> bool) l : forallb p l = true -> take_while p l = l.
Proof.
  induction l as [|x l IH]; simpl; [done|]. intros [-> Hl]%andb_true_iff.
  by rewrite IH.
Qed.

Lemma take_while_In {A} (p : A -> bool) l x : In x (take_while p l) -> In x l ∧ p x = true.
Proof.
  induction l as [|y l IH]; simpl; [done|]. destruct (p y) eqn:Hy; [|done].
  intros [<-|H]; [by auto|]. destruct (IH H). by auto.
Qed.

Lemma basename_In s c :
  In c (chars (basename s)) -> In c (chars s) ∧ is_slash c = false.
Proof.
  unfold basename, after_last_slash. rewrite chars_str. intros H%in_rev.
  apply take_while_In in H as [H Hc]. split; [by apply in_rev|].
  by apply negb_true_iff in Hc.
Qed.

Lemma lower_ascii_idem c : lower_ascii (lower_ascii c) = lower_ascii c.
Proof. destruct c as [[] [] [] [] [] [] [] []]; reflexivity. Qed.

Lemma is_slash_lower c : is_slash (lower_ascii c) = is_slash c.
Proof. destruct c as [[] [] [] [] [] [] [] []]; reflexivity. Qed.

Lemma str_lower_idem s : str_lower (str_lower s) = str_lower s.
Proof. induction s as [|c s IH]; simpl; [done|]. by rewrite lower_ascii_idem, IH. Qed.

Lemma take_drop_while_app {A} (p : A -> bool) l x r :
  forallb p l = true -> p x = false ->
  take_while p (l ++ x :: r) = l ∧ drop_while p (l ++ x :: r) = x :: r.
Proof.
  intros Hl Hx. induction l as [|y l IH]; simpl in *.
  - by rewrite Hx.
  - apply andb_true_iff in Hl as [-> Hl]. destruct (IH Hl) as [-> ->]. done.
Qed.

Lemma existsb_rev {A} (p : A -> bool) l : existsb p (rev l) = existsb p l.
Proof.
  induction l as [|x l IH]; simpl; [done|].
  rewrite existsb_app, IH. simpl. rewrite orb_false_r. apply orb_comm.
Qed.

Lemma model_ext_chars ext :
  ext ∈ MODEL_EXTENSIONS ->
  exists e, chars ext = "."%char :: e
            ∧ forallb (fun c => negb (is_dot c || is_slash c)) (rev e) = true.
Proof.
  unfold MODEL_EXTENSIONS. set_unfold.
  intros [->|[->|[->|[->|[->|[->|[]]]]]]]; eexists; split; reflexivity.
Qed.

(** [splitext] of a name without slashes that ends in a model extension:
    the extension is split off unless only dots come before it. *)
Lemma splitext_model_ext base ext :
  forallb (fun c => negb (is_slash c)) (chars base) = true ->
  ext ∈ MODEL_EXTENSIONS ->
  splitext (base +:+ ext)
  = if existsb (fun c => negb (is_dot c)) (chars base) then (base, ext)
    else (base +:+ ext, "").
Proof.
  intros Hslash Hext. destruct (model_ext_chars ext Hext) as (e & He & Hfree).
  unfold splitext. rewrite chars_app, He, rev_app_distr. simpl.
  rewrite <- app_assoc. simpl.
  destruct (take_drop_while_app (fun c => negb (is_dot c || is_slash c))
              (rev e) "."%char (rev (chars base)) Hfree eq_refl) as [-> ->].
  simpl. rewrite take_while_all.
  2:{ apply forallb_forall. intros c Hc%in_rev.
      by apply (proj1 (forallb_forall _ _) Hslash). }
  rewrite existsb_rev. destruct (existsb _ (chars base)); [|done].
  rewrite !rev_involutive, str_chars.
  f_equal. by rewrite <- (str_chars ext), He.
Qed.

(** *** Canonical stems *)

Lemma sub_quant_suffix_rev bodies r :
  sub_quant_suffix bodies (str (rev r)) = str (rev (subq_rev bodies r)).
Proof.
  unfold sub_quant_suffix, subq_rev. rewrite chars_str, rev_involutive.
  destruct (strip_any _ r); [done|]. destruct r as [|c r1]; [done|].
  destruct (ascii_eqb c ch_newline); [|done]. by destruct (strip_any _ r1).
Qed.

Lemma str_rev_inj r1 r2 : str (rev r1) = str (rev r2) -> r1 = r2.
Proof.
  intros Heq. apply (f_equal chars) in Heq. rewrite !chars_str in Heq.
  apply (f_equal (@rev ascii)) in Heq. by rewrite !rev_involutive in Heq.
Qed.

Lemma canonical_steps_rev r :
  sub_quant_suffix Q_INT (sub_quant_suffix Q_NF4 (sub_quant_suffix Q_BF16
    (sub_quant_suffix Q_FP (sub_quant_suffix Q_FP8_E4M3FN (str (rev r))))))
  = str (rev (subq_rev Q_INT (subq_rev Q_NF4 (subq_rev Q_BF16
      (subq_rev Q_FP (subq_rev Q_FP8_E4M3FN r)))))).
Proof. by rewrite !sub_quant_suffix_rev. Qed.

Section CanonicalStem.
Variable stem : string.
Hypothesis Hfree : quant_free stem = true.
Hypothesis Hend : ends_with_sep stem = false.

Let R := rev (chars stem).

Lemma stem_as_rev : stem = str (rev R).
Proof. unfold R. by rewrite rev_involutive, str_chars. Qed.

Lemma quant_free_step fam : fam ∈ QUANT_FAMILIES -> subq_rev fam R = R.
Proof.
  intros Hfam. apply str_rev_inj. rewrite <- sub_quant_suffix_rev, <- stem_as_rev.
  pose proof (proj1 (forallb_forall _ _) Hfree fam) as Hq.
  apply bool_decide_eq_true in Hq; [done|]. by apply list_elem_of_In.
Qed.

Lemma quant_free_no_sep : drop_opt_sep R = R.
Proof.
  pose proof Hend as Hf. unfold ends_with_sep in Hf. fold R in Hf.
  destruct R as [|c r]; [done|]. simpl. by rewrite Hf.
Qed.

Lemma canonical_steps_free :
  sub_quant_suffix Q_INT (sub_quant_suffix Q_NF4 (sub_quant_suffix Q_BF16
    (sub_quant_suffix Q_FP (sub_quant_suffix Q_FP8_E4M3FN stem)))) = stem.
Proof.
  transitivity (str (rev R)); [|symmetry; apply stem_as_rev].
  rewrite stem_as_rev at 1. rewrite canonical_steps_rev.
  by rewrite !quant_free_step by (unfold QUANT_FAMILIES; by repeat constructor).
Qed.

Lemma canonical_steps_suffix sep q :
  sep ∈ QUANT_SEPARATORS -> q ∈ QUANT_TOKENS ->
  sub_quant_suffix Q_INT (sub_quant_suffix Q_NF4 (sub_quant_suffix Q_BF16
    (sub_quant_suffix Q_FP (sub_quant_suffix Q_FP8_E4M3FN (stem +:+ sep +:+ q)))))
  = stem.
Proof.
  intros Hsep Hq.
  assert (Hs : stem +:+ sep +:+ q = str (rev (rev (chars q) ++ rev (chars sep) ++ R))).
  { unfold R. rewrite <- !rev_app_distr, rev_involutive, <- app_assoc, <- !chars_app.
    by rewrite str_chars. }
  rewrite Hs, canonical_steps_rev.
  transitivity (str (rev R)); [|symmetry; apply stem_as_rev]. do 2 f_equal.
  pose proof (quant_free_step Q_FP8_E4M3FN) as H1.
  pose proof (quant_free_step Q_FP) as H2.
  pose proof (quant_free_step Q_BF16) as H3.
  pose proof (quant_free_step Q_NF4) as H4.
  pose proof (quant_free_step Q_INT) as H5.
  pose proof quant_free_no_sep as H6.
  unfold QUANT_FAMILIES in *.
  specialize (H1 ltac:(by repeat constructor)). specialize (H2 ltac:(by repeat constructor)).
  specialize (H3 ltac:(by repeat constructor)). specialize (H4 ltac:(by repeat constructor)).
  specialize (H5 ltac:(by repeat constructor)).
  clear Hs. revert H1 H2 H3 H4 H5 H6. generalize R. intros r H1 H2 H3 H4 H5 H6.
  unfold QUANT_SEPARATORS in Hsep. unfold QUANT_TOKENS, QUANT_FAMILIES in Hq.
  simpl in Hq. set_unfold.
  destruct Hsep as [->|[->|[->|[]]]];
    destruct Hq as [->|[->|[->|[->|[->|[->|[->|[->|[->|[->|[->|[]]]]]]]]]]]];
    cbn -[subq_rev];
    repeat first
      [ match goal with
        | |- context [subq_rev ?F (?c :: ?l)] =>
            let t := eval cbn -[drop_opt_sep] in (subq_rev F (c :: l)) in
            change (subq_rev F (c :: l)) with t
        end
      | match goal with
        | |- context [drop_opt_sep (?c :: ?l)] =>
            let t := eval cbn in (drop_opt_sep (c :: l)) in
            change (drop_opt_sep (c :: l)) with t
        end
      | rewrite H6 | rewrite H1 | rewrite H2 | rewrite H3 | rewrite H4
      | rewrite H5 ];
    reflexivity.
Qed.
End CanonicalStem.

Lemma str_append_assoc a b c : (a +:+ b) +:+ c = a +:+ (b +:+ c).
Proof.
  induction a as [|x a IH]; [done|].
  change (String x ((a +:+ b) +:+ c) = String x (a +:+ (b +:+ c))). by rewrite IH.
Qed.

Lemma model_ext_nonempty ext : ext ∈ MODEL_EXTENSIONS -> nonempty ext = true.
Proof.
  unfold MODEL_EXTENSIONS. set_unfold.
  intros [->|[->|[->|[->|[->|[->|[]]]]]]]; reflexivity.
Qed.

Lemma nonempty_app_r a b : nonempty b = true -> nonempty (a +:+ b) = true.
Proof. destruct a; simpl; done. Qed.

Lemma lower_nonempty s : nonempty (str_lower s) = true -> nonempty s = true.
Proof. by destruct s. Qed.

Lemma str_append_empty s : s +:+ EmptyString = s.
Proof.
  induction s as [|c s IH]; [done|].
  change (String c (s +:+ EmptyString) = String c s). by rewrite IH.
Qed.

(** A name that ends in a model extension has no quantization suffix for
    [canonicalize_model_base] to strip. *)
Lemma canonical_steps_model_ext x ext :
  ext ∈ MODEL_EXTENSIONS ->
  sub_quant_suffix Q_INT (sub_quant_suffix Q_NF4 (sub_quant_suffix Q_BF16
    (sub_quant_suffix Q_FP (sub_quant_suffix Q_FP8_E4M3FN (x +:+ ext)))))
  = x +:+ ext.
Proof.
  intros Hext.
  assert (Hs : x +:+ ext = str (rev (rev (chars ext) ++ rev (chars x)))).
  { by rewrite <- rev_app_distr, rev_involutive, <- chars_app, str_chars. }
  rewrite Hs, canonical_steps_rev. do 2 f_equal.
  generalize (rev (chars x)). intros r.
  unfold MODEL_EXTENSIONS in Hext. set_unfold.
  destruct Hext as [->|[->|[->|[->|[->|[->|[]]]]]]];
    cbn -[subq_rev];
    repeat match goal with
           | |- context [subq_rev ?F (?c :: ?l)] =>
               let t := eval cbn in (subq_rev F (c :: l)) in
               change (subq_rev F (c :: l)) with t
           end;
    reflexivity.
Qed.

Lemma quant_token_nondot q :
  q ∈ QUANT_TOKENS -> existsb (fun c => negb (is_dot c)) (chars q) = true.
Proof.
  unfold QUANT_TOKENS, QUANT_FAMILIES. simpl. set_unfold.
  intros [->|[->|[->|[->|[->|[->|[->|[->|[->|[->|[->|[]]]]]]]]]]]]; reflexivity.
Qed.

(** *** Normalized names *)

Lemma normalized_name_lower f : str_lower (normalized_name f) = normalized_name f.
Proof. apply str_lower_idem. Qed.

Lemma normalized_name_slash_free f :
  forallb (fun c => negb (is_slash c)) (chars (normalized_name f)) = true.
Proof.
  apply forallb_forall. intros c. unfold normalized_name. rewrite chars_lower.
  intros (d & <- & Hd)%in_map_iff. rewrite is_slash_lower.
  apply basename_In in Hd as [_ ->]. done.
Qed.

Lemma normalized_name_nonempty f :
  nonempty (normalized_name f) = true -> nonempty (str_strip f) = true.
Proof.
  unfold normalized_name. rewrite nonempty_lower.
  destruct (str_strip f); [|done]. intros H. exact H.
Qed.

Lemma normalized_base_slash_free f base ext :
  normalized_name f = base +:+ ext ->
  forallb (fun c => negb (is_slash c)) (chars base) = true.
Proof.
  intros Hnorm. pose proof (normalized_name_slash_free f) as Hsl.
  rewrite Hnorm, chars_app, forallb_app in Hsl.
  by apply andb_true_iff in Hsl as [? _].
Qed.

Lemma normalized_ext_nonempty f base ext :
  normalized_name f = base +:+ ext -> ext ∈ MODEL_EXTENSIONS ->
  nonempty (str_strip f) = true.
Proof.
  intros Hnorm Hext. apply normalized_name_nonempty. rewrite Hnorm.
  by apply nonempty_app_r, model_ext_nonempty.
Qed.

(** The variant key of a reference whose normalized name is [base ++ ext]
    with more than dots in [base]: node, folder key, and the canonical
    stem followed by the extension. *)
Lemma variant_key_stem m f base ext stem :
  filename m = Some f ->
  normalized_name f = base +:+ ext ->
  existsb (fun c => negb (is_dot c)) (chars base) = true ->
  ext ∈ MODEL_EXTENSIONS ->
  sub_quant_suffix Q_INT (sub_quant_suffix Q_NF4 (sub_quant_suffix Q_BF16
    (sub_quant_suffix Q_FP (sub_quant_suffix Q_FP8_E4M3FN base)))) = stem ->
  nonempty stem = true ->
  _variant_group_key m = Some (node_id m, folder_key_of m, stem +:+ ext).
Proof.
  intros Hf Hnorm Hdot Hext Hcanon Hne.
  pose proof (normalized_base_slash_free f base ext Hnorm) as Hsl.
  unfold _variant_group_key. rewrite Hf.
  change (or_empty (Some f)) with f.
  rewrite (normalized_ext_nonempty f base ext Hnorm Hext).
  change (str_lower (basename (norm_slashes (str_strip f)))) with (normalized_name f).
  unfold canonicalize_model_base. rewrite normalized_name_lower, Hnorm.
  rewrite (splitext_model_ext _ _ Hsl Hext), Hdot.
  cbv beta iota zeta. change (fst (base, ext)) with base.
  rewrite Hcanon, Hne. done.
Qed.

(** With dots alone before the extension, [splitext] splits nothing off
    and the whole name is the key. *)
Lemma variant_key_dotted m f base ext :
  filename m = Some f ->
  normalized_name f = base +:+ ext ->
  existsb (fun c => negb (is_dot c)) (chars base) = false ->
  ext ∈ MODEL_EXTENSIONS ->
  _variant_group_key m = Some (node_id m, folder_key_of m, base +:+ ext).
Proof.
  intros Hf Hnorm Hdot Hext.
  pose proof (normalized_base_slash_free f base ext Hnorm) as Hsl.
  unfold _variant_group_key. rewrite Hf.
  change (or_empty (Some f)) with f.
  rewrite (normalized_ext_nonempty f base ext Hnorm Hext).
  change (str_lower (basename (norm_slashes (str_strip f)))) with (normalized_name f).
  unfold canonicalize_model_base. rewrite normalized_name_lower, Hnorm.
  rewrite (splitext_model_ext _ _ Hsl Hext), Hdot.
  cbv beta iota zeta. change (fst (base +:+ ext, EmptyString)) with (base +:+ ext).
  rewrite (canonical_steps_model_ext _ _ Hext).
  rewrite (nonempty_app_r base ext (model_ext_nonempty ext Hext)).
  by rewrite str_append_empty.
Qed.

(** Two names that, normalized, differ by one quantization suffix on a
    suffix-free stem have the same variant key, up to node and folder. *)
Lemma quant_pair_keys stem sep q ext f1 f2 m1 m2 :
  nonempty stem = true -> ends_with_sep stem = false -> quant_free stem = true ->
  sep ∈ QUANT_SEPARATORS -> q ∈ QUANT_TOKENS -> ext ∈ MODEL_EXTENSIONS ->
  normalized_name f1 = stem +:+ sep +:+ q +:+ ext ->
  normalized_name f2 = stem +:+ ext ->
  filename m1 = Some f1 -> filename m2 = Some f2 ->
  _variant_group_key m1 = Some (node_id m1, folder_key_of m1, stem +:+ ext)
  ∧ _variant_group_key m2 = Some (node_id m2, folder_key_of m2, stem +:+ ext).
Proof.
  intros Hne Hend Hfree Hsep Hq Hext Hl1 Hl2 Hf1 Hf2. split.
  - apply (variant_key_stem m1 f1 (stem +:+ sep +:+ q)); try done.
    + by rewrite !str_append_assoc.
    + rewrite !chars_app, !existsb_app, (quant_token_nondot q Hq).
      by rewrite !orb_true_r.
    + by apply canonical_steps_suffix.
  - destruct (existsb (fun c => negb (is_dot c)) (chars stem)) eqn:Hdot.
    + apply (variant_key_stem m2 f2 stem); try done. by apply canonical_steps_free.
    + by apply (variant_key_dotted m2 f2).
Qed.

Lemma nonempty_strip_nonempty s : nonempty (str_strip s) = true -> nonempty s = true.
Proof. destruct s; [intros H; exact H|reflexivity]. Qed.

Lemma normalize_precision_node_id pref m : node_id (normalize_precision pref m) = node_id m.
Proof.
  unfold normalize_precision.
  destruct (_is_nunchaku_svdq_name _); [|done].
  destruct (negb _ || bool_decide _); [done|]. by destruct (truthy _).
Qed.

Lemma variant_key_node_id m k : _variant_group_key m = Some k -> k.1.1 = node_id m.
Proof.
  unfold _variant_group_key.
  destruct (nonempty (str_strip (or_empty (filename m)))); [|intros [=]].
  destruct (splitext _). intros Heq.
  apply (f_equal (fun o => match o with Some k' => k'.1.1 | None => node_id m end)) in Heq.
  symmetry. exact Heq.
Qed.

(** Two references with the same variant key leave reconciliation as one. *)
Lemma unique_by_identity_single m : unique_by_identity [] [m] = [m].
Proof.
  unfold unique_by_identity. rewrite bool_decide_eq_false_2; [done|].
  apply not_elem_of_nil.
Qed.

Lemma coalesce_pair a b k :
  _variant_group_key a = Some k -> _variant_group_key b = Some k ->
  coalesce_variants [a; b] = [merge_variant_group a [b]].
Proof.
  intros Ha Hb.
  destruct (variant_key_keyed _ _ Ha) as [Hpa Hva].
  destruct (variant_key_keyed _ _ Hb) as [Hpb Hvb].
  unfold coalesce_variants.
  rewrite (filter_Forall_nil (fun m => is_passthrough m = true)).
  2:{ repeat constructor; congruence. }
  rewrite (filter_Forall_id (fun m => is_passthrough m = false)) by by repeat constructor.
  rewrite (group_by_block variant_key_or k) by by repeat constructor. done.
Qed.

Lemma dedupe_by_name_single m :
  is_passthrough m = false -> dedupe_by_name [m] = [m].
Proof.
  intros Hp. apply dedupe_by_name_id. change [m] with ([m] ++ []).
  apply (NameNF_block (name_key_of m)); repeat constructor; try done.
  - rewrite is_passthrough_spec in Hp.
    apply negb_false_iff, nonempty_strip_nonempty in Hp. by rewrite nonempty_lower.
  - by intros ?%not_elem_of_nil.
  - simpl. lia.
Qed.

Lemma reconcile_pair_same_key pref a b k :
  _variant_group_key a = Some k -> _variant_group_key b = Some k ->
  exists m, reconcile pref [a; b] = [m] ∧ node_id m = node_id a.
Proof.
  intros Ha Hb.
  assert (Hm0 : _variant_group_key (merge_variant_group a [b]) = Some k).
  { apply merge_variant_group_key. by repeat constructor. }
  pose proof (coalesce_pair a b k Ha Hb) as Hc.
  remember (merge_variant_group a [b]) as m0 eqn:Em0. clear Em0.
  exists (normalize_precision pref m0). split.
  - unfold reconcile. rewrite Hc, dedupe_by_name_single.
    + apply unique_by_identity_single.
    + by apply variant_key_keyed in Hm0 as [? _].
  - rewrite normalize_precision_node_id.
    by rewrite <- (variant_key_node_id _ _ Hm0), <- (variant_key_node_id _ _ Ha).
Qed.

Local Open Scope string_scope.

(** *** The local-existence check *)

(** What [check_model_files] does with one reference. *)
Lemma check_model_files_cons fs m l :
  check_model_files fs (m :: l) =
  let '(missing, existing, path_mismatches) := check_model_files fs l in
  if negb (is_checkable m) then (missing, existing, path_mismatches)
  else match locate fs m with
       | Some hit =>
           (missing, found_entry fs m hit :: existing,
            if is_mismatch fs m hit then found_entry fs m hit :: path_mismatches
            else path_mismatches)
       | None => (m :: missing, existing, path_mismatches)
       end.
Proof. reflexivity. Qed.

Lemma found_entry_filename fs m hit : filename (found_entry fs m hit) = filename m.
Proof. reflexivity. Qed.

(** C1 (amended).  [check_model_files] puts every reference whose file
    name is neither [None], empty nor ["null"] into exactly one of
    [missing] and [existing]: [missing] holds, in input order, those
    without a local hit, [existing] the entries of those with one, so
    together they are as many as the checkable references.
    [path_mismatches] is a sub-list of [existing]: a hit whose relative
    path differs from the requested one is listed in both.  A reference
    with another file name is listed nowhere. *)
Theorem check_model_files_partition fs l :
  let '(missing, existing, path_mismatches) := check_model_files fs l in
  missing = filter (fun m => is_checkable m = true ∧ locate fs m = None) l
  ∧ existing = omap (fun m => if is_checkable m then found_entry fs m <$> locate fs m
                              else None) l
  ∧ path_mismatches =
      omap (fun m => if is_checkable m
                     then hit ← locate fs m;
                          if is_mismatch fs m hit then Some (found_entry fs m hit) else None
                     else None) l
  ∧ path_mismatches `sublist_of` existing
  ∧ length missing + length existing = length (filter (fun m => is_checkable m = true) l).
Proof.
  induction l as [|m l IH].
  - cbn. repeat split; constructor.
  - rewrite check_model_files_cons.
    destruct (check_model_files fs l) as [[missing existing] mism].
    destruct IH as (Hm & He & Hp & Hsub & Hlen).
    rewrite !filter_cons. csimpl.
    destruct (is_checkable m) eqn:Hc; cbn [negb];
      [destruct (locate fs m) as [hit|] eqn:Hloc; csimpl;
       [destruct (is_mismatch fs m hit); csimpl|]|];
      repeat case_decide; try (exfalso; intuition congruence);
      repeat split; first [done | congruence | by constructor | simpl; lia].
Qed.

Local Open Scope list_scope.

(** *** Extraction: note nodes and skipped packages *)

Lemma is_prefix_head c p l : is_prefix (c :: p) l = true -> c ∈ l.
Proof.
  destruct l as [|d l]; simpl; [done|].
  destruct (ascii_eqb c d) eqn:E; [|done].
  intros _. apply Ascii.eqb_eq in E as ->. by left.
Qed.

Lemma contains_chars_head c p l : contains_chars (c :: p) l = true -> c ∈ l.
Proof.
  induction l as [|d l IH].
  - simpl. done.
  - cbn [contains_chars]. intros [H|H]%orb_true_iff.
    + by apply is_prefix_head in H.
    + right. by apply IH.
Qed.

Lemma strip_hex_consumes n : consumes (strip_hex n).
Proof.
  induction n as [|n IH]; intros l r; simpl.
  - intros [= ->]. by exists [].
  - destruct l as [|c l]; [done|]. destruct (is_hex c) eqn:Hc; [|done].
    intros (pre & -> & Hpre)%IH. exists (c :: pre). split; [done|].
    simpl. unfold uuid_char at 1. by rewrite Hc, Hpre.
Qed.

Lemma strip_dash_consumes : consumes strip_dash.
Proof.
  intros [|c l] r; simpl; [done|]. destruct (ascii_eqb c "-") eqn:Hc; [|done].
  intros [= ->]. exists [c]. split; [done|]. simpl. unfold uuid_char.
  by rewrite Hc, orb_true_r.
Qed.

Lemma steps_consume steps l r :
  Forall consumes steps ->
  fold_left (fun acc step => match acc with Some l => step l | None => None end)
            steps (Some l) = Some r ->
  exists pre, l = pre ++ r ∧ forallb uuid_char pre = true.
Proof.
  intros Hs. revert l. induction Hs as [|s steps Hs _ IH]; intros l; simpl.
  - intros [= ->]. by exists [].
  - destruct (s l) as [l1|] eqn:E.
    + intros (pre2 & -> & H2)%IH. apply Hs in E as (pre1 & -> & H1).
      exists (pre1 ++ pre2). split; [by rewrite <- app_assoc|].
      by rewrite forallb_app, H1, H2.
    + intros H. exfalso. clear -H. induction steps; simpl in H; [done|auto].
Qed.

Lemma uuid_steps_consume : Forall consumes uuid_steps.
Proof.
  unfold uuid_steps.
  repeat (constructor; [first [apply strip_hex_consumes | apply strip_dash_consumes]|]).
  constructor.
Qed.

Lemma subgraph_type_chars t :
  is_subgraph_node t = true -> forallb uuid_char (chars t) = true.
Proof.
  unfold is_subgraph_node.
  destruct (fold_left _ uuid_steps (Some (chars t))) as [r|] eqn:E; [|done].
  apply steps_consume in E as (pre & -> & Hpre); [|apply uuid_steps_consume].
  rewrite forallb_app, Hpre. destruct r as [|c [|]]; [done| |done].
  intros Hc. simpl. unfold uuid_char. by rewrite Hc, !orb_true_r.
Qed.

Lemma uuid_chars_not_contains c p t :
  uuid_char c = false -> forallb uuid_char (chars t) = true ->
  contains (String c p) t = false.
Proof.
  intros Hc Ht. destruct (contains (String c p) t) eqn:E; [|done].
  apply contains_chars_head in E.
  rewrite forallb_forall in Ht.
  assert (uuid_char c = true) by (apply Ht; by apply list_elem_of_In).
  congruence.
Qed.

(** A UUID is not the type of a note. *)
Lemma subgraph_not_note t : is_subgraph_node t = true -> is_note_type t = false.
Proof.
  intros H%subgraph_type_chars. unfold is_note_type.
  rewrite (uuid_chars_not_contains "N" "ote") by done.
  by rewrite (uuid_chars_not_contains "P" "rimitiveString").
Qed.

Lemma download_node_not_note node title m :
  download_node_model node title = Some m -> is_note_type (node_type_of node) = false.
Proof.
  unfold download_node_model. case_bool_decide as Ht; [|done].
  intros _. by rewrite Ht.
Qed.

Lemma index_note_text_found lib val st :
  found_models (index_note_text lib val st) = found_models st.
Proof.
  unfold index_note_text. generalize (re_findall_md_links lib val). intros links.
  revert st. induction links as [|[label u] links IH]; intros st; [done|].
  simpl. rewrite IH. destruct (is_specific_model_file_url lib u None); [|done].
  simpl. generalize ((if has_model_ext (str_lower (url_tail u)) then [url_tail u] else [])
                     ++ (if has_model_ext (str_lower label) then [label] else [])).
  intros cands. revert st. induction cands as [|c cands IHc]; intros st; [done|].
  simpl. by rewrite IHc.
Qed.

Lemma index_notes_found lib vals st :
  found_models (fold_left (fun st val => index_note_text lib val st) vals st)
  = found_models st.
Proof.
  revert st. induction vals as [|v vals IH]; intros st; [done|].
  simpl. by rewrite IH, index_note_text_found.
Qed.

(** A note node adds no reference. *)
Lemma collect_note_node lib links nodes fb st node :
  is_note_type (node_type_of node) = true ->
  found_models (collect_node lib links nodes fb st node) = found_models st.
Proof.
  intros Hnote. unfold collect_node.
  destruct (_ || _); [done|]. case_bool_decide; [done|].
  destruct (linked_widgets _ _) as [[idx names] has].
  destruct (is_subgraph_node _) eqn:Hsub.
  { apply subgraph_not_note in Hsub. congruence. }
  destruct (download_node_model _ _) as [m|] eqn:Hd.
  { apply download_node_not_note in Hd. congruence. }
  rewrite Hnote. apply index_notes_found.
Qed.

(** What a node adds depends on the references found so far only. *)
Lemma collect_node_found_ext lib links nodes fb st1 st2 node :
  found_models st1 = found_models st2 ->
  found_models (collect_node lib links nodes fb st1 node)
  = found_models (collect_node lib links nodes fb st2 node).
Proof.
  intros Heq. unfold collect_node.
  destruct (_ || _); [done|]. case_bool_decide; [done|].
  destruct (linked_widgets _ _) as [[idx names] has].
  destruct (is_subgraph_node _); [simpl; by rewrite Heq|].
  destruct (download_node_model _ _); [simpl; by rewrite Heq|].
  destruct (is_note_type _); [by rewrite !index_notes_found|].
  simpl. by rewrite Heq.
Qed.

Lemma collect_nodes_found_ext lib links nbi fb nodes st1 st2 :
  found_models st1 = found_models st2 ->
  found_models (_collect_models_from_nodes lib nodes links nbi fb st1)
  = found_models (_collect_models_from_nodes lib nodes links nbi fb st2).
Proof.
  unfold _collect_models_from_nodes. revert st1 st2.
  induction nodes as [|n nodes IH]; intros st1 st2 Heq; [done|].
  simpl. apply IH. by apply collect_node_found_ext.
Qed.

(** The references collected from a list of nodes are those collected
    with the note nodes left out of the iteration. *)
Lemma collect_nodes_skip_notes lib links nbi fb nodes st :
  found_models (_collect_models_from_nodes lib nodes links nbi fb st)
  = found_models (_collect_models_from_nodes lib
       (filter (fun n => is_note_type (node_type_of n) = false) nodes) links nbi fb st).
Proof.
  revert st. induction nodes as [|n nodes IH]; intros st; [done|].
  rewrite filter_cons. case_decide as Hn.
  - unfold _collect_models_from_nodes in *. simpl. apply IH.
  - apply not_false_is_true in Hn.
    unfold _collect_models_from_nodes in *. simpl. rewrite <- IH.
    apply collect_nodes_found_ext. by apply collect_note_node.
Qed.

Lemma backfill_note_url_cases lib st model :
  backfill_note_url lib st model = model
  ∨ exists u,
      note_url_for st model = Some u
      ∧ is_specific_model_file_url lib u (filename model) = true
      ∧ truthy (url model) && is_specific_model_file_url lib (or_empty (url model)) None
        = false
      ∧ backfill_note_url lib st model
        = set_note (Some "URL from Note") (set_source (Some "note") (set_url (Some u) model)).
Proof.
  unfold backfill_note_url. destruct (note_url_for st model) as [u|]; [|by left].
  destruct (nonempty u); [|by left]. cbn [negb].
  destruct (is_specific_model_file_url lib u (filename model)) eqn:H1; [|by left].
  cbn [negb].
  destruct (truthy (url model) && _) eqn:H2; [by left|].
  right. by exists u.
Qed.

Lemma setdefault_lookup k v d k' u :
  setdefault k v d !! k' = Some u -> d !! k' = Some u ∨ (k' = k ∧ u = v).
Proof.
  unfold setdefault. destruct (d !! k) eqn:Hk; [by left|].
  destruct (decide (k' = k)) as [->|Hne].
  - rewrite lookup_insert_eq. intros [= <-]. by right.
  - rewrite lookup_insert_ne by done. by left.
Qed.

Lemma links_from_notes_found lib nodes st found :
  links_from_notes lib nodes st -> links_from_notes lib nodes (with_found st found).
Proof. by intros [H1 H2]. Qed.

(** One link of a note entered into the two indexes. *)
Lemma index_candidates_from_notes lib nodes u cands st :
  (forall fname, fname ∈ cands ->
                 note_link_source lib nodes normalize_filename_key
                   (normalize_filename_key fname) u
                 ∧ note_link_source lib nodes normalize_filename_compact
                     (normalize_filename_compact fname) u) ->
  links_from_notes lib nodes st ->
  links_from_notes lib nodes
    (fold_left (fun st fname =>
                  mkCollected (found_models st)
                    (setdefault (normalize_filename_key fname) u (note_links st))
                    (setdefault (normalize_filename_compact fname) u
                                (note_links_normalized st)))
               cands st).
Proof.
  revert st. induction cands as [|c cands IH]; intros st Hc Hst; [done|].
  simpl. apply IH.
  - intros fname Hf. apply Hc. by right.
  - destruct Hst as [H1 H2]. destruct (Hc c) as [Hc1 Hc2]; [by left|].
    split; simpl; intros k v [Hold|[-> ->]]%setdefault_lookup; auto.
Qed.

Lemma index_note_text_from_notes lib nodes node val st :
  node ∈ nodes -> is_note_type (node_type_of node) = true ->
  val ∈ note_strings node ->
  links_from_notes lib nodes st ->
  links_from_notes lib nodes (index_note_text lib val st).
Proof.
  intros Hnode Hnote Hval. unfold index_note_text.
  assert (Hsub : forall lu, lu ∈ re_findall_md_links lib val ->
                            lu ∈ re_findall_md_links lib val) by done.
  revert Hsub. generalize (re_findall_md_links lib val) at 1 3. intros links.
  revert st. induction links as [|[label u] links IH]; intros st Hsub Hst; [done|].
  simpl. apply IH; [intros lu Hlu; apply Hsub; by right|].
  destruct (is_specific_model_file_url lib u None) eqn:Hspec; [|done].
  cbn [negb]. apply index_candidates_from_notes; [|done].
  assert (Hin : (label, u) ∈ re_findall_md_links lib val) by (apply Hsub; by left).
  intros fname Hf. apply elem_of_app in Hf as [Hf|Hf].
  - destruct (has_model_ext (str_lower (url_tail u))); [|by apply not_elem_of_nil in Hf].
    apply list_elem_of_singleton in Hf as ->.
    split; exists node, val, label; split_and!; auto.
  - destruct (has_model_ext (str_lower label)); [|by apply not_elem_of_nil in Hf].
    apply list_elem_of_singleton in Hf as ->.
    split; exists node, val, label; split_and!; auto.
Qed.

Lemma collect_node_from_notes lib links nbi fb nodes st node :
  node ∈ nodes -> links_from_notes lib nodes st ->
  links_from_notes lib nodes (collect_node lib links nbi fb st node).
Proof.
  intros Hnode Hst. unfold collect_node.
  destruct (_ || _); [done|]. case_bool_decide; [done|].
  destruct (linked_widgets _ _) as [[idx names] has].
  destruct (is_subgraph_node _); [by apply links_from_notes_found|].
  destruct (download_node_model _ _); [by apply links_from_notes_found|].
  destruct (is_note_type _) eqn:Hnote; [|by apply links_from_notes_found].
  assert (Hsub : forall v, v ∈ note_strings node -> v ∈ note_strings node) by done.
  revert Hsub. generalize (note_strings node) at 1 3. intros vals.
  revert st Hst. induction vals as [|v vals IH]; intros st Hst Hsub; [done|].
  simpl. apply IH; [|intros v' Hv'; apply Hsub; by right].
  apply (index_note_text_from_notes lib nodes node); auto. apply Hsub. by left.
Qed.

Lemma collect_nodes_from_notes lib links nbi fb nodes l st :
  (forall n, n ∈ l -> n ∈ nodes) -> links_from_notes lib nodes st ->
  links_from_notes lib nodes (_collect_models_from_nodes lib l links nbi fb st).
Proof.
  unfold _collect_models_from_nodes. revert st.
  induction l as [|n l IH]; intros st Hl Hst; [done|].
  simpl. apply IH; [intros n' Hn'; apply Hl; by right|].
  apply collect_node_from_notes; [apply Hl; by left|done].
Qed.

(** Every entry of the note indexes of a workflow comes from a link of
    one of its note nodes. *)
Lemma collect_workflow_from_notes lib workflow :
  links_from_notes lib (workflow_nodes workflow) (collect_workflow lib workflow).
Proof.
  unfold collect_workflow, workflow_nodes.
  apply collect_nodes_from_notes.
  { intros n Hn. apply elem_of_app. by right. }
  assert (Hsg : forall sg, sg ∈ wf_subgraphs workflow -> sg ∈ wf_subgraphs workflow)
    by done.
  revert Hsg. generalize (wf_subgraphs workflow) at 1 4. intros sgs.
  assert (H0 : links_from_notes lib
                 (flat_map sg_nodes (wf_subgraphs workflow) ++ wf_nodes workflow)
                 (mkCollected [] ∅ ∅)).
  { split; intros k u Hk; cbn [note_links note_links_normalized] in Hk;
      by rewrite lookup_empty in Hk. }
  revert H0. generalize (mkCollected [] ∅ ∅). intros st.
  revert st. induction sgs as [|sg sgs IH]; intros st Hst Hsg; [done|].
  simpl. apply IH; [|intros sg' Hsg'; apply Hsg; by right].
  apply collect_nodes_from_notes; [|done].
  intros n Hn. apply elem_of_app. left.
  apply list_elem_of_In, in_flat_map. exists sg. split.
  - apply list_elem_of_In, Hsg. by left.
  - by apply list_elem_of_In.
Qed.

(** C7.  A node whose type contains [Note] or [PrimitiveString] adds no
    reference: neither alone nor inside a list of nodes.  What extraction
    returns is the references collected, each passed through
    [backfill_note_url], which leaves a reference alone or sets its URL
    (and source and note) to the note link stored under its normalized
    name; the latter only when the link is a specific file URL for the
    file name of the reference, and the reference has no URL that is a
    specific file URL already.  File name and node stay as they are.
    Every link stored is the target of a markdown link of a note node,
    filed under the normalized file name of the target or the normalized
    label. *)
Theorem note_links_only_backfill lib node :
  is_note_type (node_type_of node) = true ->
  (forall links nodes fb st,
     found_models (collect_node lib links nodes fb st node) = found_models st)
  ∧ (forall links nbi fb l1 l2 st,
       found_models (_collect_models_from_nodes lib (l1 ++ node :: l2) links nbi fb st)
       = found_models (_collect_models_from_nodes lib (l1 ++ l2) links nbi fb st))
  ∧ (forall workflow,
       extract_models_from_workflow lib workflow
       = map (backfill_note_url lib (collect_workflow lib workflow))
             (found_models (collect_workflow lib workflow)))
  ∧ (forall st model,
       let model' := backfill_note_url lib st model in
       model' = model
       ∨ exists u,
           note_url_for st model = Some u
           ∧ is_specific_model_file_url lib u (filename model) = true
           ∧ truthy (url model)
             && is_specific_model_file_url lib (or_empty (url model)) None = false
           ∧ model' = set_note (Some "URL from Note")
                        (set_source (Some "note") (set_url (Some u) model))
           ∧ filename model' = filename model ∧ node_id model' = node_id model)
  ∧ (forall workflow,
       links_from_notes lib (workflow_nodes workflow) (collect_workflow lib workflow)).
Proof.
  intros Hnote. split_and!.
  - intros. by apply collect_note_node.
  - intros links nbi fb l1 l2 st. unfold _collect_models_from_nodes.
    rewrite !fold_left_app. simpl.
    apply (collect_nodes_found_ext lib links nbi fb l2). by apply collect_note_node.
  - done.
  - intros st model. simpl.
    destruct (backfill_note_url_cases lib st model) as [H|(u & H1 & H2 & H3 & H4)];
      [by left|right].
    exists u. rewrite H4. done.
  - apply collect_workflow_from_notes.
Qed.

Lemma collect_aux_node lib links nodes fb st node :
  cnr_of node = "comfyui_controlnet_aux" ->
  collect_node lib links nodes fb st node = st.
Proof.
  intros H. unfold collect_node. destruct (_ || _); [done|].
  by rewrite bool_decide_true.
Qed.

(** C10.  A node whose [properties.cnr_id] is [comfyui_controlnet_aux] is
    passed over: the collector state after it is the state before it,
    whatever its widgets, [properties.models] rows or URLs; a list of
    nodes collects what it collects without that node; and a workflow
    made of such nodes only yields no reference. *)
Theorem controlnet_aux_nodes_emit_nothing lib node :
  cnr_of node = "comfyui_controlnet_aux" ->
  (forall links nodes fb st, collect_node lib links nodes fb st node = st)
  ∧ (forall links nbi fb l1 l2 st,
       _collect_models_from_nodes lib (l1 ++ node :: l2) links nbi fb st
       = _collect_models_from_nodes lib (l1 ++ l2) links nbi fb st)
  ∧ (forall workflow,
       Forall (fun n => cnr_of n = "comfyui_controlnet_aux") (wf_nodes workflow) ->
       Forall (fun sg => Forall (fun n => cnr_of n = "comfyui_controlnet_aux")
                                (sg_nodes sg)) (wf_subgraphs workflow) ->
       extract_models_from_workflow lib workflow = []).
Proof.
  intros Haux. split_and!.
  - intros. by apply collect_aux_node.
  - intros. unfold _collect_models_from_nodes. rewrite !fold_left_app. simpl.
    by rewrite collect_aux_node.
  - intros wf Hn Hs.
    assert (Hall : forall nodes links nbi fb st,
               Forall (fun n => cnr_of n = "comfyui_controlnet_aux") nodes ->
               _collect_models_from_nodes lib nodes links nbi fb st = st).
    { intros nodes links nbi fb st Hf. revert st.
      unfold _collect_models_from_nodes.
      induction Hf as [|n nodes Hc _ IH]; intros st; [done|].
      simpl. by rewrite collect_aux_node. }
    unfold extract_models_from_workflow, collect_workflow.
    rewrite Hall by done.
    assert (Hsg : forall st,
      fold_left (fun st subgraph =>
           _collect_models_from_nodes lib (sg_nodes subgraph)
             (_build_links_map (sg_links subgraph)) (sg_nodes subgraph)
             ("Subgraph Node (" +:+ default "Subgraph" (sg_name subgraph) +:+ ")") st)
        (wf_subgraphs wf) st = st).
    { induction Hs as [|sg sgs Hsg _ IH]; intros st; [done|].
      simpl. rewrite Hall by done. apply IH. }
    by rewrite Hsg.
Qed.

(** *** The start of a run *)

Lemma reset_at_run_start_spec w : reset_at_run_start w = (inl tt, run_start_state w).
Proof. reflexivity. Qed.

Lemma process_workflow_start env notify workflow w :
  process_workflow env notify workflow w
  = process_workflow env notify workflow (run_start_state w).
Proof. unfold process_workflow, bind. by rewrite !reset_at_run_start_spec. Qed.

(** C8 (amended).  The first statements of a run set the call counter and
    the deadline to zero, clear the time-exhausted flag, the rate-limit
    mark and the memoized repository listings, and leave the search cache
    as it is; so a run does not depend on the values those globals had
    before. *)
Theorem run_start_resets_all_but_search_cache env status_cb workflow w :
  let w' := (reset_at_run_start w).2 in
  _hf_api_calls w' = 0%Z
  ∧ _hf_search_deadline w' = 0%Z
  ∧ _hf_search_time_exhausted w' = false
  ∧ _hf_rate_limited_until w' = None
  ∧ _hf_repo_files_cache w' = ∅
  ∧ _hf_search_cache w' = _hf_search_cache w
  ∧ process_workflow_for_missing_models env status_cb workflow w
    = process_workflow_for_missing_models env status_cb workflow w'.
Proof.
  cbv zeta. rewrite reset_at_run_start_spec.
  split_and!; [reflexivity..|].
  apply process_workflow_start.
Qed.

(** *** The generic file names *)

Lemma search_skip_listed env notify fname mode kw repos skip w :
  str_in (_normalize_hf_search_key fname) HF_SEARCH_SKIP_FILENAMES = true ->
  search_huggingface_model env notify fname mode kw repos skip w
  = let key := _normalize_hf_search_key fname in
    match env_api_init_error env with
    | Some e => (inr e, w)
    | None =>
        match _hf_search_cache w !! key with
        | Some (Some hit) => (inl (Some hit), w)
        | Some None =>
            if mode_is_basic mode then (inl None, w)
            else (inl None, set_search_cache (<[key := None]> (_hf_search_cache w)) w)
        | None => (inl None, set_search_cache (<[key := None]> (_hf_search_cache w)) w)
        end
    end.
Proof.
  intros Hskip. cbv zeta. unfold search_huggingface_model.
  destruct (env_api_init_error env) as [e|]; [reflexivity|].
  unfold bind at 1. unfold gets at 1. cbv beta iota.
  destruct (_hf_search_cache w !! _normalize_hf_search_key fname) as [[hit|]|].
  - reflexivity.
  - destruct (mode_is_basic mode); [reflexivity|]. by rewrite Hskip.
  - by rewrite Hskip.
Qed.

(** C9 (amended).  For a file name whose lower-cased base name is in
    [HF_SEARCH_SKIP_FILENAMES], [search_huggingface_model] issues no
    remote call.  When the search cache holds a hit for the name, that hit
    is returned and the globals stay as they are; otherwise no result is
    returned and the cache then holds the not-found mark for the name.
    (When the hub client cannot be built, its error is raised before the
    name is looked at.) *)
Theorem skip_list_search env notify fname mode kw repos skip w :
  str_in (_normalize_hf_search_key fname) HF_SEARCH_SKIP_FILENAMES = true ->
  let key := _normalize_hf_search_key fname in
  let out := search_huggingface_model env notify fname mode kw repos skip w in
  trace out.2 = trace w
  ∧ remote_seq out.2 = remote_seq w
  ∧ match env_api_init_error env, _hf_search_cache w !! key with
    | Some e, _ => out = (inr e, w)
    | None, Some (Some hit) => out = (inl (Some hit), w)
    | None, _ => out.1 = inl None
                 ∧ _hf_search_cache out.2 = <[key := None]> (_hf_search_cache w)
                 ∧ _hf_search_cache out.2 !! key = Some None
    end.
Proof.
  intros Hskip key out. subst out. rewrite search_skip_listed by done.
  cbv zeta. fold key.
  destruct (env_api_init_error env) as [e|]; [done|].
  destruct (_hf_search_cache w !! key) as [[hit|]|] eqn:Hc.
  - done.
  - destruct (mode_is_basic mode); simpl.
    + split_and!; try done. by rewrite insert_id.
    + split_and!; try done. by rewrite lookup_insert_eq.
  - simpl. split_and!; try done. by rewrite lookup_insert_eq.
Qed.

(** *** The progress callback *)





(** *** The call budget *)

(** *** Rules for [leads] *)

Section LeadsRules.
Context {A B : Type}.
Implicit Types (P Q R : World -> Prop).

Lemma leads_ret P Q (a : A) : (forall w, P w -> Q w) -> leads P Q (ret a).
Proof. intros H w Hw. by apply H. Qed.

Lemma leads_raise P Q e : (forall w, P w -> Q w) -> leads P Q (raise e : M A).
Proof. intros H w Hw. by apply H. Qed.

Lemma leads_gets P Q (f : World -> A) : (forall w, P w -> Q w) -> leads P Q (gets f).
Proof. intros H w Hw. by apply H. Qed.

Lemma leads_bind3 P R Q (m : M A) (k : A -> M B) :
  leads P R m -> (forall w, R w -> Q w) -> (forall a, leads R Q (k a)) ->
  leads P Q (bind m k).
Proof.
  intros Hm HRQ Hk w Hw. unfold bind. specialize (Hm w Hw).
  destruct (m w) as [[a|e] w1]; simpl in *; [by apply Hk|by apply HRQ].
Qed.

Lemma leads_bind P Q (m : M A) (k : A -> M B) :
  leads P Q m -> (forall a, leads Q Q (k a)) -> leads P Q (bind m k).
Proof. intros Hm Hk. by apply (leads_bind3 P Q Q). Qed.

Lemma leads_try_catch P Q (m : M A) (h : Exn -> M A) :
  leads P Q m -> (forall e, leads Q Q (h e)) -> leads P Q (try_catch m h).
Proof.
  intros Hm Hh w Hw. unfold try_catch. specialize (Hm w Hw).
  destruct (m w) as [[a|e] w1]; simpl in *; [done|by apply Hh].
Qed.

Lemma leads_attempt P Q (m : M A) : leads P Q m -> leads P Q (attempt m).
Proof.
  intros Hm w Hw. unfold attempt. specialize (Hm w Hw).
  by destruct (m w) as [[a|e] w1].
Qed.

Lemma leads_silent P (m : M A) : silent m -> leads P P m.
Proof. intros Hm w Hw. by rewrite Hm. Qed.

Lemma leads_weaken P P' Q (m : M A) :
  (forall w, P' w -> P w) -> leads P Q m -> leads P' Q m.
Proof. intros H Hm w Hw. by apply Hm, H. Qed.
End LeadsRules.

Lemma leads_modify P Q (f : World -> World) :
  (forall w, P w -> Q (f w)) -> leads P Q (modify f).
Proof. intros H w Hw. by apply H. Qed.

Lemma leads_for_loop {A S R} (I : World -> Prop) (l : list A) (s : S)
  (body : A -> S -> M (Step S R)) :
  (forall x s, leads I I (body x s)) -> leads I I (for_loop l s body).
Proof.
  intros Hbody. revert s. induction l as [|x l IH]; intros s.
  - by apply leads_ret.
  - cbn [for_loop]. apply leads_bind; [apply Hbody|].
    intros [s'|s'|r]; [apply IH|by apply leads_ret..].
Qed.

(** *** The history *)

Lemma has_reset_cons e tr : has_reset (e :: tr) = is_reset e || has_reset tr.
Proof. reflexivity. Qed.

Lemma n_grants_cons e tr :
  n_grants (e :: tr) = (if is_grant e then 1 else 0) + n_grants tr.
Proof. unfold n_grants. simpl. by destruct (is_grant e). Qed.

Lemma n_calls_cons e tr :
  n_calls (e :: tr) = (if is_call e then 1 else 0) + n_calls tr.
Proof. unfold n_calls. simpl. by destruct (is_call e). Qed.

(** The invariant looks at the history and the call counter only. *)
Lemma budget_inv_ext env w w' :
  trace w' = trace w -> _hf_api_calls w' = _hf_api_calls w ->
  budget_inv env w -> budget_inv env w'.
Proof. unfold budget_inv. by intros -> ->. Qed.

Lemma budget_ready_inv env w : budget_ready env w -> budget_inv env w.
Proof. by intros [? _]. Qed.

Lemma no_reset_inv env w : no_reset w -> budget_inv env w.
Proof.
  unfold no_reset, budget_inv. intros H. split; [|by rewrite H].
  induction (trace w) as [|e tr IH]; [done|].
  rewrite has_reset_cons in H. apply orb_false_iff in H as [_ H].
  simpl. split; [by apply IH|by rewrite H].
Qed.

Section BudgetRules.
Variable env : Env.

(** A granted call: [_hf_search_allowed] opens a slot that the next call
    fills. *)
Lemma leads_gated {A} (denied granted : M A) :
  leads (budget_inv env) (budget_inv env) denied ->
  leads (budget_ready env) (budget_inv env) granted ->
  leads (budget_inv env) (budget_inv env)
    (allowed <- _hf_search_allowed env ;;
     if negb allowed then denied else granted).
Proof.
  intros Hd Hg w Hw. unfold bind, _hf_search_allowed.
  destruct (rate_limited_now w) eqn:Hrl; [by apply Hd|].
  destruct (deadline_passed w) eqn:Hdl.
  { apply Hd. by apply (budget_inv_ext env w). }
  destruct (HF_SEARCH_MAX_CALLS env <=? _hf_api_calls w)%Z eqn:Hmax; [by apply Hd|].
  apply Hg. destruct Hw as [Hok Hcount].
  apply Z.leb_gt in Hmax.
  split; [split|].
  - change (trace_ok (HF_SEARCH_MAX_CALLS env)
              (EvGrant (clock w) (_hf_search_deadline w) (_hf_rate_limited_until w)
               :: trace w)).
    split; [done|]. intros Hr. split; [split|].
    + unfold deadline_passed in Hdl.
      apply andb_false_iff in Hdl as [H|H].
      * left. by apply negb_false_iff, Z.eqb_eq in H.
      * right. by apply Z.leb_gt in H.
    + unfold rate_limited_now in Hrl.
      destruct (_hf_rate_limited_until w) as [u|]; [|done].
      apply andb_false_iff in Hrl as [H|H].
      * left. by apply negb_false_iff, Z.eqb_eq in H.
      * right. by apply Z.ltb_ge in H.
    + by rewrite (Hcount Hr).
  - change (has_reset (trace w) = true ->
            Z.of_nat (n_grants (EvGrant (clock w) (_hf_search_deadline w)
                                  (_hf_rate_limited_until w)
                                :: cur_window (trace w)))
            = (_hf_api_calls w + 1)%Z).
    intros Hr. rewrite n_grants_cons. cbn [is_grant]. rewrite <- (Hcount Hr). lia.
  - intros _. by eexists _, _, _.
Qed.

Lemma leads_remote_list_models search author limit :
  leads (budget_ready env) (budget_inv env)
    (remote_list_models env search author limit).
Proof.
  intros w [[Hok Hcount] Hready].
  assert (Hw' : budget_inv env
            (advance (env_elapsed env (remote_seq w))
               (log_event (EvCall (ListModels search author limit) (clock w)) w))).
  { split.
    - change (trace_ok (HF_SEARCH_MAX_CALLS env)
                (EvCall (ListModels search author limit) (clock w) :: trace w)).
      split; [done|]. intros Hr. by apply Hready.
    - exact Hcount. }
  unfold remote_list_models. cbv zeta.
  by destruct (env_list_models env _ _ _ _).
Qed.

Lemma leads_remote_list_repo_files repo_id :
  leads (budget_ready env) (budget_inv env) (remote_list_repo_files env repo_id).
Proof.
  intros w [[Hok Hcount] Hready].
  assert (Hw' : budget_inv env
            (advance (env_elapsed env (remote_seq w))
               (log_event (EvCall (ListRepoFiles repo_id) (clock w)) w))).
  { split.
    - change (trace_ok (HF_SEARCH_MAX_CALLS env)
                (EvCall (ListRepoFiles repo_id) (clock w) :: trace w)).
      split; [done|]. intros Hr. by apply Hready.
    - exact Hcount. }
  unfold remote_list_repo_files. cbv zeta.
  by destruct (env_list_repo_files env _ _).
Qed.

Lemma keeps_set_rate_limited :
  leads (budget_inv env) (budget_inv env) (_set_hf_rate_limited env).
Proof.
  intros w Hw. unfold _set_hf_rate_limited.
  destruct (_hf_rate_limited_until w) as [u|]; [destruct (negb _)|]; done.
Qed.

Lemma keeps_cache_result key v :
  leads (budget_inv env) (budget_inv env) (cache_result key v).
Proof. by intros w Hw. Qed.

Lemma keeps_reset_budget :
  leads (budget_inv env) (budget_inv env) (_reset_hf_search_budget env).
Proof.
  intros w [Hok _]. split.
  - change (trace_ok (HF_SEARCH_MAX_CALLS env) (EvReset :: trace w)). by split.
  - done.
Qed.

Lemma keeps_get_repo_files repo_id :
  leads (budget_inv env) (budget_inv env) (_get_repo_files env repo_id).
Proof.
  unfold _get_repo_files. apply leads_bind; [by apply leads_gets|].
  intros [files|]; [by apply leads_ret|].
  apply leads_gated; [by apply leads_raise|].
  apply leads_bind.
  - apply leads_try_catch; [apply leads_remote_list_repo_files|].
    intros e. apply leads_bind; [by apply leads_modify|].
    intros _. by apply leads_raise.
  - intros files. apply leads_bind; [by apply leads_modify|].
    intros _. by apply leads_ret.
Qed.
End BudgetRules.

Create HintDb budget.

(** One step through a computation that keeps the budget invariant. *)
Ltac budget_step :=
  lazymatch goal with
  | |- leads _ _ (bind (_hf_search_allowed _) _) => apply leads_gated
  | |- leads _ _ (bind _ _) => apply leads_bind; [|intros ?]
  | |- leads _ _ (try_catch _ _) => apply leads_try_catch; [|intros ?]
  | |- leads _ _ (attempt _) => apply leads_attempt
  | |- leads _ _ (ret _) => apply leads_ret; auto using budget_ready_inv
  | |- leads _ _ (raise _) => apply leads_raise; auto using budget_ready_inv
  | |- leads _ _ (gets _) => apply leads_gets; auto
  | |- leads _ _ (for_loop _ _ _) => apply leads_for_loop; intros ? ?
  | |- leads _ _ (if ?b then _ else _) => destruct b
  | |- leads _ _ (match ?x with _ => _ end) => destruct x
  | |- leads _ _ ((match ?x with _ => _ end) _) => destruct x
  end.

Ltac budget_auto :=
  repeat first [ solve [auto 2 with budget nocore] | budget_step | progress cbv beta ].

#[export] Hint Resolve leads_remote_list_models leads_remote_list_repo_files
  keeps_get_repo_files keeps_set_rate_limited keeps_reset_budget keeps_cache_result
  : budget.

Section RemoteRules.
Variable env : Env.
Variable notify : Payload -> M unit.
Hypothesis notify_silent : forall p, silent (notify p).

Lemma keeps_notify P p : leads P P (notify p).
Proof. apply leads_silent, notify_silent. Qed.
#[local] Hint Resolve keeps_notify : budget.

Lemma leads_guarded_list_models src detail fname search author limit :
  leads (budget_ready env) (budget_inv env)
    (guarded_list_models env notify src detail fname search author limit).
Proof. unfold guarded_list_models. budget_auto. Qed.
#[local] Hint Resolve leads_guarded_list_models : budget.

Lemma keeps_term_search_loop fname terms :
  leads (budget_inv env) (budget_inv env) (term_search_loop env notify fname terms).
Proof. unfold term_search_loop. budget_auto. Qed.
#[local] Hint Resolve keeps_term_search_loop : budget.

Lemma keeps_scan_repo fname key src h model_id :
  leads (budget_inv env) (budget_inv env)
    (scan_repo env notify fname key src h model_id).
Proof. unfold scan_repo. budget_auto. Qed.
#[local] Hint Resolve keeps_scan_repo : budget.

Lemma keeps_scan_repos fname key src h ids :
  leads (budget_inv env) (budget_inv env)
    (scan_repos env notify fname key src h ids).
Proof. unfold scan_repos. budget_auto. Qed.
#[local] Hint Resolve keeps_scan_repos : budget.

Lemma keeps_author_round fname score terms author vars :
  leads (budget_inv env) (budget_inv env)
    (author_round env notify fname score terms author vars).
Proof. unfold author_round. destruct vars as [models am]. budget_auto. Qed.
#[local] Hint Resolve keeps_author_round : budget.

Lemma keeps_fallback_round fname key author am :
  leads (budget_inv env) (budget_inv env)
    (fallback_round env notify fname key author am).
Proof. unfold fallback_round. budget_auto. Qed.
#[local] Hint Resolve keeps_fallback_round : budget.

Lemma keeps_search_body fname key mode kw repos skip :
  leads (budget_inv env) (budget_inv env)
    (search_body env notify fname key mode kw repos skip).
Proof. unfold search_body. cbv zeta. budget_auto. Qed.
#[local] Hint Resolve keeps_search_body : budget.

Lemma keeps_search_huggingface_model fname mode kw repos skip :
  leads (budget_inv env) (budget_inv env)
    (search_huggingface_model env notify fname mode kw repos skip).
Proof. unfold search_huggingface_model. cbv zeta. budget_auto. Qed.
End RemoteRules.

Lemma notify_with_silent cb p : silent (notify_with cb p).
Proof.
  intros w. unfold notify_with. destruct cb as [cb|]; [|done].
  by destruct (cb p).
Qed.

Section ProcessRules.
Variable env : Env.
Variable notify : Payload -> M unit.
Hypothesis notify_silent : forall p, silent (notify p).

#[local] Hint Resolve keeps_notify keeps_search_huggingface_model : budget.

Lemma keeps_enrich_each P payload f models :
  leads P P (enrich_each notify payload f models).
Proof.
  induction models as [|m models IH]; cbn [enrich_each].
  - by apply leads_ret.
  - destruct (truthy (url m)).
    + apply leads_bind; [done|]. intros ?. by apply leads_ret.
    + apply leads_bind; [by apply keeps_notify|]. intros _.
      apply leads_bind; [done|]. intros ?. by apply leads_ret.
Qed.

Lemma keeps_apply_found_paths repo_id found_paths st :
  leads (budget_inv env) (budget_inv env) (apply_found_paths repo_id found_paths st).
Proof.
  unfold apply_found_paths. budget_auto.
Qed.
#[local] Hint Resolve keeps_apply_found_paths : budget.

Lemma keeps_scan_priority_repos skip_all skip_filenames kw tokens repos missing :
  leads (budget_inv env) (budget_inv env)
    (_scan_priority_repos_for_missing env notify skip_all skip_filenames kw tokens
       repos missing).
Proof.
  unfold _scan_priority_repos_for_missing. cbv zeta. budget_auto.
Qed.

Lemma keeps_stage_loop label mode skip_all skip_filenames kw repos indices missing :
  leads (budget_inv env) (budget_inv env)
    (stage_loop env notify label mode skip_all skip_filenames kw repos indices missing).
Proof. unfold stage_loop. budget_auto. Qed.

Lemma keeps_run_hf_stage label mode skip_all skip_filenames kw repos missing :
  leads (budget_inv env) (budget_inv env)
    (_run_hf_stage env notify label mode skip_all skip_filenames kw repos missing).
Proof.
  unfold _run_hf_stage. pose proof keeps_stage_loop. budget_auto.
Qed.

(** The pre-fetch runs before the first budget window is opened. *)
Lemma prefetch_no_reset :
  leads no_reset no_reset (prefetch_author_repos env).
Proof.
  assert (Hcall : forall search author limit,
             leads no_reset no_reset (remote_list_models env search author limit)).
  { intros search author limit w Hw. unfold remote_list_models. cbv zeta.
    by destruct (env_list_models env _ _ _ _). }
  unfold prefetch_author_repos. destruct (env_api_init_error env).
  - by apply leads_ret.
  - apply leads_bind.
    + apply leads_for_loop. intros author acc.
      apply leads_bind; [apply leads_attempt, Hcall|].
      intros [repos|e]; by apply leads_ret.
    + intros [acc|[]]; by apply leads_ret.
Qed.

Lemma process_workflow_budget workflow :
  leads no_reset (budget_inv env) (process_workflow env notify workflow).
Proof.
  unfold process_workflow.
  apply (leads_bind3 _ no_reset); [by intros w0 Hw0|apply no_reset_inv|]. intros _.
  destruct (local_phase env workflow) as [kw [[missing existing] mismatches]].
  apply (leads_bind3 _ no_reset);
    [apply keeps_enrich_each|apply no_reset_inv|]. intros missing1.
  apply (leads_bind3 _ no_reset);
    [apply keeps_enrich_each|apply no_reset_inv|]. intros missing2.
  apply (leads_bind3 _ no_reset); [|apply no_reset_inv|].
  { destruct (_ && _); [|by apply leads_ret].
    apply leads_bind; [by apply leads_gets|]. intros cache.
    apply leads_bind; [by apply keeps_notify|]. intros _. by apply leads_ret. }
  intros missing3.
  apply (leads_bind3 _ no_reset); [|apply no_reset_inv|].
  { destruct (_ && _); [apply prefetch_no_reset|by apply leads_ret]. }
  intros repos. cbv zeta.
  apply (leads_weaken (budget_inv env)); [apply no_reset_inv|].
  pose proof keeps_scan_priority_repos. pose proof keeps_run_hf_stage.
  budget_auto.
Qed.

(** A stage that starts with its budget used up, or rate-limited,
    touches neither the globals nor the hub. *)
Lemma stage_loop_exhausted label mode skip_all skip_filenames kw repos indices
      missing w :
  _hf_search_budget_exhausted env w = true ->
  (stage_loop env notify label mode skip_all skip_filenames kw repos indices
     missing w).2 = w.
Proof.
  intros Hex. unfold stage_loop.
  induction indices as [|idx indices IH]; [done|].
  cbn [for_loop]. unfold bind at 1.
  destruct (missing !! idx) as [m|]; [|apply IH].
  destruct (_skip_hf_search skip_all skip_filenames m); [apply IH|].
  unfold bind at 1. unfold gets at 1. cbv beta iota. rewrite Hex.
  unfold bind at 1.
  pose proof (notify_silent
    (mkPayload "Hugging Face search budget exhausted" "huggingface_search"
       (filename m) None) w) as Hn.
  destruct (notify _ w) as [[[]|e] w1]; simpl in Hn; by subst.
Qed.
End ProcessRules.

(** *** Budget windows *)

Lemma windows_cur tr : exists older, windows tr = cur_window tr :: older
                                     ∧ (has_reset tr = true <-> older ≠ []).
Proof.
  induction tr as [|e tr (older & IH & Hr)].
  - exists []. by split.
  - destruct e.
    + exists (windows tr). split; [done|]. rewrite IH. by split.
    + exists older. cbn [windows cur_window]. rewrite IH. split; [done|].
      by rewrite has_reset_cons.
    + exists older. cbn [windows cur_window]. rewrite IH. split; [done|].
      by rewrite has_reset_cons.
Qed.

Lemma budget_windows_cons e tr :
  budget_windows (e :: tr) =
  if is_reset e then [] :: budget_windows tr
  else if has_reset tr then (e :: cur_window tr) :: tail (budget_windows tr)
       else [].
Proof.
  unfold budget_windows.
  destruct (windows_cur tr) as (older & Hw & Hr).
  assert (Hcons : forall x : list Event,
            removelast (x :: older) = if has_reset tr then x :: removelast older else []).
  { intros x. destruct older as [|o older].
    - destruct (has_reset tr); [|done]. by destruct (proj1 Hr eq_refl).
    - destruct (has_reset tr); [done|]. by discriminate (proj2 Hr ltac:(done)). }
  destruct e; cbn [windows is_reset]; rewrite Hw.
  - reflexivity.
  - rewrite !Hcons. by destruct (has_reset tr).
  - rewrite !Hcons. by destruct (has_reset tr).
Qed.

Lemma budget_windows_head tr :
  has_reset tr = true ->
  budget_windows tr = cur_window tr :: tail (budget_windows tr).
Proof.
  intros Hr. unfold budget_windows.
  destruct (windows_cur tr) as (older & Hw & Hr').
  rewrite Hw. destruct older as [|o older]; [by destruct (proj1 Hr' Hr)|done].
Qed.

(** In an orderly history every budget window is in order. *)
Lemma trace_ok_windows max_calls tr :
  trace_ok max_calls tr -> Forall (window_ok max_calls) (budget_windows tr).
Proof.
  induction tr as [|e tr IH]; [by constructor|].
  intros [Hok He]. specialize (IH Hok).
  rewrite budget_windows_cons.
  destruct (is_reset e) eqn:Hre.
  - by constructor.
  - destruct (has_reset tr) eqn:Hr; [|by constructor].
    rewrite budget_windows_head in IH by done.
    apply Forall_cons in IH as [Hcur Hrest].
    constructor; [|done].
    split; [done|]. specialize (He eq_refl).
    destruct e as [|t d rl|req t]; [done|done|].
    destruct He as (d & rl & rest' & ->).
    by eexists _, _, _.
Qed.

Lemma window_ok_grants max_calls win :
  window_ok max_calls win -> (Z.of_nat (n_grants win) <= Z.max 0 max_calls)%Z.
Proof.
  induction win as [|e win IH]; [intros _; cbn; lia|].
  intros [Hok He]. specialize (IH Hok). rewrite n_grants_cons.
  destruct e as [|t d rl|req t]; cbn [is_grant]; [lia| |lia].
  destruct He as [_ He]. lia.
Qed.

Lemma window_ok_calls max_calls win :
  window_ok max_calls win ->
  n_calls win <= n_grants win
  ∧ (match win with EvGrant _ _ _ :: _ => n_calls win < n_grants win | _ => True end).
Proof.
  induction win as [|e win IH]; [by cbn|].
  intros [Hok He]. specialize (IH Hok). destruct IH as [IH1 IH2].
  rewrite n_grants_cons, n_calls_cons.
  destruct e as [|t d rl|req t]; cbn [is_grant is_call]; [lia|lia|].
  destruct He as (d & rl & rest' & ->). lia.
Qed.

(** A window in order holds no more calls than the budget allows. *)
Lemma window_ok_bound max_calls win :
  window_ok max_calls win -> (Z.of_nat (n_calls win) <= Z.max 0 max_calls)%Z.
Proof.
  intros H. pose proof (window_ok_grants _ _ H).
  pose proof (window_ok_calls _ _ H) as [? _]. lia.
Qed.

(** C2 (amended).  In a run started with an empty history, from the first
    budget reset on (there is one per remote stage) every remote call
    comes right after a grant of [_hf_search_allowed] given at the same
    time, and every grant was given while the deadline had not passed, no
    rate-limit pause was on, and fewer than [HF_SEARCH_MAX_CALLS] grants
    had been given since the last reset.  So each budget window holds at
    most [max 0 HF_SEARCH_MAX_CALLS] remote calls.  A stage loop entered
    with the budget used up or the pause on leaves the globals and the
    history as they are.  Nothing is said of the calls made before the
    first reset. *)
Theorem budget_respected_per_window env status_cb workflow w :
  trace w = [] ->
  let w' := (process_workflow_for_missing_models env status_cb workflow w).2 in
  trace_ok (HF_SEARCH_MAX_CALLS env) (trace w')
  ∧ Forall (fun win => window_ok (HF_SEARCH_MAX_CALLS env) win
                       ∧ (Z.of_nat (n_calls win) <= Z.max 0 (HF_SEARCH_MAX_CALLS env))%Z)
           (budget_windows (trace w'))
  ∧ (forall label mode skip_all skip_filenames kw repos indices missing w0,
       _hf_search_budget_exhausted env w0 = true ->
       (stage_loop env (notify_with status_cb) label mode skip_all skip_filenames kw
          repos indices missing w0).2 = w0).
Proof.
  intros Htr. cbv zeta.
  assert (Hinv : budget_inv env
            (process_workflow_for_missing_models env status_cb workflow w).2).
  { apply process_workflow_budget; [apply notify_with_silent|].
    unfold no_reset. by rewrite Htr. }
  destruct Hinv as [Hok _]. split_and!.
  - done.
  - apply trace_ok_windows in Hok. eapply Forall_impl; [exact Hok|].
    intros win Hwin. split; [done|]. by apply window_ok_bound.
  - intros. apply stage_loop_exhausted; [apply notify_with_silent|done].
Qed.

(** *** Variant pairs in a longer list *)

Lemma elem_of_group_by_key {K A} `{EqDecision K} (key : A -> K) l x :
  x ∈ l -> key x ∈ (group_by key l).*1.
Proof.
  intros Hx. rewrite <- (group_by_perm key l) in Hx.
  apply elem_of_concat in Hx as (xs & Hxs & Hin).
  apply list_elem_of_fmap in Hxs as ([k xs'] & -> & Hkv).
  destruct (group_by_wf key l) as [_ Hall].
  pose proof (proj1 (Forall_forall _ _) Hall _ Hkv) as [_ Hk].
  simpl in *. rewrite (proj1 (Forall_forall _ _) Hk x Hin).
  apply list_elem_of_fmap. by exists (k, xs').
Qed.

Lemma filter_key_once {A K} (f : A -> K) (P : A -> Prop) `{!forall x, Decision (P x)}
      k l :
  Forall (fun x => P x <-> f x = k) l ->
  NoDup (map f l) -> k ∈ map f l -> length (filter P l) = 1.
Proof.
  induction l as [|x l IH]; simpl; [by intros _ _ ?%not_elem_of_nil|].
  intros [HPx HP]%Forall_cons [Hx Hnd]%NoDup_cons Hk. rewrite filter_cons.
  case_decide as Hfx.
  - apply HPx in Hfx. subst k. simpl. f_equal.
    rewrite (filter_Forall_nil _ l); [done|].
    apply Forall_forall. intros y Hy HPy. apply Hx.
    apply (proj1 (Forall_forall _ _) HP y Hy) in HPy. rewrite <- HPy.
    rewrite map_is_fmap. by apply list_elem_of_fmap_2.
  - apply IH; [done..|]. apply elem_of_cons in Hk as [Hk|Hk]; [|done].
    destruct Hfx. by apply HPx.
Qed.

(** Variant coalescing leaves exactly one entry for the key of any keyed
    input. *)
Lemma coalesce_variants_one l m k :
  m ∈ l -> _variant_group_key m = Some k ->
  length (filter (fun x => _variant_group_key x = Some k) (coalesce_variants l)) = 1.
Proof.
  intros Hm Hk. unfold coalesce_variants.
  assert (Hkg : keyed_groups (group_by variant_key_or
                  (filter (fun m => is_passthrough m = false) l))).
  { apply keyed_groups_of, Forall_forall. by intros x [Hx _]%list_elem_of_filter. }
  destruct (coalesce_groups_keys _ Hkg) as [Hkeys Hkeyed].
  destruct Hkg as [Hnd _].
  rewrite filter_app, length_app.
  rewrite (filter_Forall_nil _ (filter _ l)).
  2:{ apply Forall_forall. intros x [Hx _]%list_elem_of_filter.
      unfold is_passthrough in Hx. by destruct (_variant_group_key x). }
  simpl. apply (filter_key_once variant_key_or _ k).
  - eapply Forall_impl; [exact Hkeyed|]. intros x Hx. split.
    + by intros [_ ?]%variant_key_keyed.
    + by apply keyed_variant_key.
  - by rewrite Hkeys.
  - rewrite Hkeys. apply variant_key_keyed in Hk as [Hp <-].
    apply elem_of_group_by_key. by apply list_elem_of_filter.
Qed.

(** C5 (amended).  On references whose names the precision normalization
    leaves alone, the reconciliation pipeline (variant coalescing, dedup
    per node and name, precision normalization, dedup by identity) is
    idempotent. *)
Theorem reconcile_idempotent_on_stable_names pref l :
  Forall (precision_stable pref) l ->
  reconcile pref (reconcile pref l) = reconcile pref l.
Proof. apply reconcile_idempotent_stable. Qed.

(** C6 (amended).  Take two references of one node and one suggested
    folder whose names, as [_variant_group_key] normalizes them (stripped
    of surrounding white space, cut down to what follows the last slash
    or backslash, lower-cased), are [stem ++ sep ++ q ++ ext] and
    [stem ++ ext], for a model extension [ext], a separator [sep] (none,
    a dash or an underscore), a quantization token [q], and a stem that
    is not empty, does not end with a dash or an underscore, and is left
    as it is by each substitution of [canonicalize_model_base].  They have
    the same variant key [(node, folder, stem ++ ext)]; variant coalescing
    leaves exactly one entry for that key in any list that holds them; and
    reconciling the pair, in either order, gives exactly one reference, of
    that node. *)
Theorem quantized_pair_coalesced pref stem sep q ext f1 f2 m1 m2 :
  nonempty stem = true -> ends_with_sep stem = false -> quant_free stem = true ->
  sep ∈ QUANT_SEPARATORS -> q ∈ QUANT_TOKENS -> ext ∈ MODEL_EXTENSIONS ->
  normalized_name f1 = stem +:+ sep +:+ q +:+ ext ->
  normalized_name f2 = stem +:+ ext ->
  filename m1 = Some f1 -> filename m2 = Some f2 ->
  node_id m1 = node_id m2 -> suggested_folder m1 = suggested_folder m2 ->
  let k := (node_id m1, _normalize_dedupe_path (suggested_folder m1), stem +:+ ext) in
  _variant_group_key m1 = Some k ∧ _variant_group_key m2 = Some k
  ∧ (forall l, m1 ∈ l -> m2 ∈ l ->
       length (filter (fun x => _variant_group_key x = Some k) (coalesce_variants l)) = 1)
  ∧ (exists m, reconcile pref [m1; m2] = [m] ∧ node_id m = node_id m1)
  ∧ (exists m, reconcile pref [m2; m1] = [m] ∧ node_id m = node_id m1).
Proof.
  intros Hne Hend Hfree Hsep Hq Hext Hl1 Hl2 Hf1 Hf2 Hn Hs k.
  destruct (quant_pair_keys stem sep q ext f1 f2 m1 m2) as [Hk1 Hk2]; try done.
  assert (Hk2' : _variant_group_key m2 = Some k).
  { rewrite Hk2. subst k. unfold folder_key_of. by rewrite Hn, Hs. }
  change (_variant_group_key m1 = Some k) in Hk1.
  split_and!; [done|done| | |].
  - intros l Hin1 _. by apply (coalesce_variants_one l m1).
  - by apply (reconcile_pair_same_key pref m1 m2 k).
  - destruct (reconcile_pair_same_key pref m2 m1 k Hk2' Hk1) as (m & Hm & Hid).
    exists m. split; [done|]. by rewrite Hn.
Qed.

(** *** The claims on sample inputs *)

(** C1, as stated, fails: a file found under a sub-folder is listed as
    found and as mismatched, and a reference named ["null"] is listed
    nowhere. *)
Lemma mismatched_hit_listed_twice :
  exists e,
    check_model_files sample_fs_nested
      [widget_ref "x.safetensors" 1 (Some "checkpoints"); widget_ref "null" 2 None]
    = ([], [e], [e])
    ∧ filename e = Some "x.safetensors" ∧ clean_path e = Some "sub/x.safetensors".
Proof. eexists. vm_compute. repeat split. Qed.

(** C2, as stated, fails: with a budget of one call the run issues eleven,
    two of them granted by [_hf_search_allowed], all after the first
    answer was a
    rate-limit error. *)
Lemma budget_exceeded_across_stages :
  let w' := (process_workflow_for_missing_models sample_env_limited None
               sample_workflow initial_world).2 in
  HF_SEARCH_MAX_CALLS sample_env_limited = 1%Z
  ∧ env_list_models sample_env_limited 0 None (Some "Kijai") 100
    = inr (mkExn OtherError "429 Too Many Requests")
  ∧ List.last (trace w') EvReset = EvCall (ListModels None (Some "Kijai") 100) 0
  ∧ n_calls (trace w') = 11
  ∧ n_grants (trace w') = 2.
Proof. vm_compute. repeat split. Qed.

(** The budget theorem on the run of the sample workflow against the
    rate-limiting hub. *)
Lemma budget_respected_per_window_witness :
  let w' := (process_workflow_for_missing_models sample_env_limited None
               sample_workflow initial_world).2 in
  trace initial_world = []
  ∧ Forall (fun win => window_ok 1 win ∧ (Z.of_nat (n_calls win) <= 1)%Z)
           (budget_windows (trace w')).
Proof.
  split; [reflexivity|].
  apply (budget_respected_per_window sample_env_limited None sample_workflow
           initial_world).
  reflexivity.
Defined.



(** C4 at its failing input: with a budget of zero calls the run still
    asks the hub for the repository list of each priority author. *)
Theorem prefetch_ignores_zero_budget :
  let out := process_workflow_for_missing_models (sample_env 0) None
               sample_workflow initial_world in
  HF_SEARCH_MAX_CALLS (sample_env 0) = 0%Z
  ∧ omap (fun e => match e with EvCall req _ => Some req | _ => None end)
         (rev (trace out.2))
    = map (fun author => ListModels None (Some author) 100) PRIORITY_AUTHORS
  ∧ n_calls (trace out.2) = 9
  ∧ n_grants (trace out.2) = 0
  ∧ exists report, out.1 = inl report
                   ∧ map filename (rep_missing report) = [Some "foo.safetensors"].
Proof. vm_compute. repeat split. eexists. split; reflexivity. Qed.

(** C5, as stated, fails: a second pass merges what the precision
    normalization of the first pass made equal. *)
Lemma reconcile_not_idempotent :
  reconcile INT4 (reconcile INT4 [widget_ref "svdq-INT4-x.safetensors" 1 None;
                                  widget_ref "svdq-fp4-x.safetensors" 1 None])
  ≠ reconcile INT4 [widget_ref "svdq-INT4-x.safetensors" 1 None;
                    widget_ref "svdq-fp4-x.safetensors" 1 None].
Proof. intros H. apply (f_equal length) in H. vm_compute in H. discriminate. Qed.

(** Idempotence on three references of one node without precision token. *)
Lemma reconcile_idempotent_on_stable_names_witness :
  let l := [widget_ref "a_fp16.safetensors" 5 (Some "loras");
            widget_ref "b.safetensors" 5 (Some "loras");
            widget_ref "a.safetensors" 5 (Some "loras")] in
  Forall (precision_stable INT4) l
  ∧ reconcile INT4 (reconcile INT4 l) = reconcile INT4 l.
Proof.
  assert (H : Forall (precision_stable INT4)
                [widget_ref "a_fp16.safetensors" 5 (Some "loras");
                 widget_ref "b.safetensors" 5 (Some "loras");
                 widget_ref "a.safetensors" 5 (Some "loras")]).
  { repeat constructor. }
  split; [exact H|].
  exact (reconcile_idempotent_on_stable_names INT4 _ H).
Defined.

(** C6, as stated, fails, and each condition on the stem is needed: two
    names that differ by one quantization suffix stay two references when
    the shorter one ends in a suffix itself ([a_fp16] before [_int8]),
    when the stem ends with a separator ([a_] before [fp16]), and when the
    stem is empty.  Each of the three stems meets the other two
    conditions. *)
Lemma quantized_pairs_not_coalesced :
  (nonempty "a_fp16", ends_with_sep "a_fp16", quant_free "a_fp16") = (true, false, false)
  ∧ length (reconcile INT4 [widget_ref "a_fp16.safetensors" 5 (Some "loras");
                            widget_ref "a_fp16_int8.safetensors" 5 (Some "loras")]) = 2
  ∧ (nonempty "a_", ends_with_sep "a_", quant_free "a_") = (true, true, true)
  ∧ length (reconcile INT4 [widget_ref "a_.safetensors" 5 (Some "loras");
                            widget_ref "a_fp16.safetensors" 5 (Some "loras")]) = 2
  ∧ (nonempty "", ends_with_sep "", quant_free "") = (false, false, true)
  ∧ length (reconcile INT4 [widget_ref ".safetensors" 5 (Some "loras");
                            widget_ref "fp16.safetensors" 5 (Some "loras")]) = 2.
Proof. split_and!; vm_compute; reflexivity. Qed.

(** The pair [a_fp16.safetensors], [a.safetensors] on node 5. *)
Lemma quantized_pair_coalesced_witness :
  let m1 := widget_ref "a_fp16.safetensors" 5 (Some "loras") in
  let m2 := widget_ref "a.safetensors" 5 (Some "loras") in
  _variant_group_key m1 = Some (NidInt 5, "loras", "a.safetensors")
  ∧ _variant_group_key m2 = Some (NidInt 5, "loras", "a.safetensors")
  ∧ (exists m, reconcile INT4 [m1; m2] = [m] ∧ node_id m = NidInt 5).
Proof.
  pose proof (quantized_pair_coalesced INT4 "a" "_" "fp16" ".safetensors"
                "a_fp16.safetensors" "a.safetensors"
                (widget_ref "a_fp16.safetensors" 5 (Some "loras"))
                (widget_ref "a.safetensors" 5 (Some "loras"))
                eq_refl eq_refl eq_refl) as H.
  cbv zeta in *.
  destruct H as (H1 & H2 & _ & H3 & _); try reflexivity.
  - apply (bool_decide_unpack _). vm_compute. exact I.
  - apply (bool_decide_unpack _). vm_compute. exact I.
  - apply (bool_decide_unpack _). vm_compute. exact I.
  - repeat split; assumption.
Defined.

(** The sample note adds no reference of its own; next to the sample
    loader it gives the loader's reference its link. *)
Lemma note_links_only_backfill_witness :
  is_note_type (node_type_of sample_note) = true
  ∧ (forall links nodes fb st,
       found_models (collect_node sample_lib_links links nodes fb st sample_note)
       = found_models st)
  ∧ map (fun m => (node_id m, filename m, url m, source m))
        (extract_models_from_workflow sample_lib_links
           (mkWorkflow [sample_note; sample_loader] [] [] false []))
    = [(NidInt 5, Some "foo.safetensors", Some sample_link, Some "note")].
Proof.
  split; [reflexivity|]. split.
  - apply (proj1 (note_links_only_backfill sample_lib_links sample_note eq_refl)).
  - vm_compute. reflexivity.
Defined.

(** C8, as stated, fails: the run forgets the rate-limit mark and the
    repository listings of the run before. *)
Lemma rate_limit_mark_cleared_at_run_start :
  let w' := (process_workflow_for_missing_models (sample_env 200) None
               (mkWorkflow [] [] [] false []) world_after_limited_run).2 in
  _hf_rate_limited_until world_after_limited_run = Some 340%Z
  ∧ _hf_rate_limited_until w' = None
  ∧ _hf_repo_files_cache world_after_limited_run !! "city96/repo" = Some ["a.gguf"]
  ∧ _hf_repo_files_cache w' !! "city96/repo" = None.
Proof. vm_compute. repeat split. Qed.

(** C9, as stated, fails: a hit cached for a generic name is returned. *)
Lemma cached_hit_returned_for_generic_name :
  str_in (_normalize_hf_search_key "model.safetensors") HF_SEARCH_SKIP_FILENAMES = true
  ∧ (search_huggingface_model (sample_env 200) (notify_with None) "model.safetensors"
       ModeFull [] None false world_with_cached_hit).1 = inl (Some sample_hit).
Proof. vm_compute. split; reflexivity. Qed.

(** A generic name searched in a fresh process. *)
Lemma skip_list_search_witness :
  let out := search_huggingface_model (sample_env 200) (notify_with None)
               "sub/Model.safetensors" ModeFull [] None false initial_world in
  str_in (_normalize_hf_search_key "sub/Model.safetensors") HF_SEARCH_SKIP_FILENAMES
  = true
  ∧ trace out.2 = []
  ∧ out.1 = inl None
  ∧ _hf_search_cache out.2 !! "model.safetensors" = Some None.
Proof.
  pose proof (skip_list_search (sample_env 200) (notify_with None)
                "sub/Model.safetensors" ModeFull [] None false initial_world eq_refl)
    as (H1 & _ & H3).
  split; [reflexivity|]. split; [exact H1|].
  exact (conj (proj1 H3) (proj2 (proj2 H3))).
Defined.

(** The sample pre-processor node yields no reference. *)
Lemma controlnet_aux_nodes_emit_nothing_witness :
  cnr_of sample_aux_node = "comfyui_controlnet_aux"
  ∧ extract_models_from_workflow sample_lib
      (mkWorkflow [sample_aux_node] [] [] false []) = [].
Proof.
  split; [reflexivity|].
  apply (proj2 (proj2 (controlnet_aux_nodes_emit_nothing sample_lib sample_aux_node
                         eq_refl))).
  - by repeat constructor.
  - constructor.
Defined.

(** *** Runs that stay local *)

Lemma run_start_state_idem w : run_start_state (run_start_state w) = run_start_state w.
Proof. reflexivity. Qed.


(** X2.  When the local check finds every reference, the run returns the
    report of the local check at once: nothing is sent to the hub and the
    callback is not called, so also a callback that would raise does no
    harm. *)
Theorem nothing_missing_run_stays_local env status_cb workflow w existing mismatches :
  check_model_files (env_fs env)
    (reconcile (_preferred_nunchaku_precision (env_is_blackwell env))
       (extract_models_from_workflow (env_lib env) workflow))
  = ([], existing, mismatches) ->
  process_workflow_for_missing_models env status_cb workflow w
  = (inl (mkReport [] existing mismatches), run_start_state w).
Proof.
  intros Hcheck.
  unfold process_workflow_for_missing_models, process_workflow.
  unfold bind at 1. rewrite reset_at_run_start_spec. cbv beta iota.
  unfold local_phase. unfold reconcile in Hcheck. cbv zeta. rewrite Hcheck.
  reflexivity.
Qed.

(** *** Rules for [hoare] *)

Section HoareRules.
Context {A B : Type}.
Implicit Types (P : World -> Prop).

Lemma hoare_ret P (a : A) (Q : A -> World -> Prop) :
  (forall w, P w -> Q a w) -> hoare P (ret a) Q.
Proof. intros H w Hw a' w' [= <- <-]. by apply H. Qed.

Lemma hoare_raise P e (Q : A -> World -> Prop) : hoare P (raise e) Q.
Proof. by intros w Hw a' w' [=]. Qed.

Lemma hoare_gets P (f : World -> A) (Q : A -> World -> Prop) :
  (forall w, P w -> Q (f w) w) -> hoare P (gets f) Q.
Proof. intros H w Hw a' w' [= <- <-]. by apply H. Qed.

Lemma hoare_bind P (R : A -> World -> Prop) (Q : B -> World -> Prop)
      (m : M A) (k : A -> M B) :
  hoare P m R -> (forall a, hoare (R a) (k a) Q) -> hoare P (bind m k) Q.
Proof.
  intros Hm Hk w Hw b w'. unfold bind. specialize (Hm w Hw).
  destruct (m w) as [[a|e] w1]; [|done].
  intros Hkb. eapply Hk; [|exact Hkb]. by apply Hm.
Qed.

Lemma hoare_try_catch P (Q : A -> World -> Prop) (m : M A) (h : Exn -> M A) :
  hoare P m Q -> (forall e, hoare (fun _ => True) (h e) Q) ->
  hoare P (try_catch m h) Q.
Proof.
  intros Hm Hh w Hw a w'. unfold try_catch. specialize (Hm w Hw).
  destruct (m w) as [[a1|e] w1].
  - intros [= <- <-]. by apply Hm.
  - intros Hhe. by eapply Hh.
Qed.

Lemma hoare_attempt P (Q : A + Exn -> World -> Prop) (m : M A) :
  hoare P m (fun a => Q (inl a)) -> (forall e w, Q (inr e) w) ->
  hoare P (attempt m) Q.
Proof.
  intros Hm He w Hw r w'. unfold attempt. specialize (Hm w Hw).
  destruct (m w) as [[a1|e] w1]; intros [= <- <-]; [by apply Hm|apply He].
Qed.

Lemma hoare_weaken P P' (Q Q' : A -> World -> Prop) (m : M A) :
  (forall w, P' w -> P w) -> (forall a w, Q a w -> Q' a w) ->
  hoare P m Q -> hoare P' m Q'.
Proof. intros HP HQ Hm w Hw a w' Hr. eapply HQ, Hm; [by apply HP|done]. Qed.
End HoareRules.

(** A first part whose value and effect do not matter. *)
Lemma hoare_bind_any {A B} (Q : B -> World -> Prop) (m : M A) (k : A -> M B) :
  (forall a, hoare (fun _ => True) (k a) Q) -> hoare (fun _ => True) (bind m k) Q.
Proof.
  intros Hk. apply (hoare_bind _ (fun _ _ => True)); [by intros w _ a w' _|exact Hk].
Qed.

Lemma hoare_modify P (f : World -> World) (Q : unit -> World -> Prop) :
  (forall w, P w -> Q tt (f w)) -> hoare P (modify f) Q.
Proof. intros H w Hw a w' [= <- <-]. by apply H. Qed.

(** The rule of the [for] loop: [I] holds of the local variables between
    rounds, [QR] of a value returned from inside the loop. *)
Lemma hoare_for_loop {A S R} (I : S -> World -> Prop) (QR : R -> World -> Prop)
      (l : list A) (s : S) (body : A -> S -> M (Step S R)) :
  (forall x s, hoare (I s) (body x s)
                 (fun st w => match st with
                              | Continue s' | Break s' => I s' w
                              | Return r => QR r w
                              end)) ->
  hoare (I s) (for_loop l s body)
    (fun r w => match r with inl s' => I s' w | inr r => QR r w end).
Proof.
  intros Hbody. revert s. induction l as [|x l IH]; intros s.
  - by apply hoare_ret.
  - cbn [for_loop]. eapply hoare_bind; [apply Hbody|].
    intros [s'|s'|r]; [apply IH|by apply hoare_ret..].
Qed.

(** *** What resolution leaves alone *)

Lemma same_reference_refl m : same_reference m m.
Proof. by repeat split. Qed.

Lemma same_reference_trans a b c :
  same_reference a b -> same_reference b c -> same_reference a c.
Proof. unfold same_reference. intros (?&?&?&?&?&?) (?&?&?&?&?&?). split_and!; congruence. Qed.

Lemma same_refs_refl l : Forall2 same_reference l l.
Proof. induction l; constructor; auto using same_reference_refl. Qed.

Lemma same_refs_trans l1 l2 l3 :
  Forall2 same_reference l1 l2 -> Forall2 same_reference l2 l3 ->
  Forall2 same_reference l1 l3.
Proof.
  intros H. revert l3. induction H as [|a b l1 l2 Hab _ IH]; intros l3 H3.
  - by inversion H3.
  - inversion H3 as [|? c ? l3' Hbc H3']; subst. constructor; [|by apply IH].
    by eapply same_reference_trans.
Qed.

Lemma same_refs_map f l :
  (forall m, same_reference m (f m)) -> Forall2 same_reference l (map f l).
Proof. intros Hf. induction l; simpl; constructor; auto. Qed.

Lemma same_refs_alter f i l0 l :
  (forall m, same_reference m (f m)) ->
  Forall2 same_reference l0 l -> Forall2 same_reference l0 (alter f i l).
Proof.
  intros Hf H. revert i. induction H as [|a b l0 l Hab Hl IH]; intros i.
  - constructor.
  - destruct i as [|i]; csimpl.
    + constructor; [|exact Hl]. eapply same_reference_trans; [exact Hab|apply Hf].
    + constructor; [exact Hab|apply IH].
Qed.

Lemma apply_result_same src r m : same_reference m (apply_result src r m).
Proof. by repeat split. Qed.

Lemma enrich_model_with_url_same env m u src dir :
  same_reference m (enrich_model_with_url env m u src dir).
Proof.
  unfold enrich_model_with_url. cbv zeta.
  destruct (truthy dir && _); destruct (extract_huggingface_info _ u) as [[r p]|];
    try destruct (nonempty r); by repeat split.
Qed.

Lemma enrich_from_popular_same env m : same_reference m (enrich_from_popular env m).
Proof.
  unfold enrich_from_popular.
  destruct (_lookup_popular_entry _ _) as [entry|]; [|apply same_reference_refl].
  destruct (List.find _ _); [apply enrich_model_with_url_same|apply same_reference_refl].
Qed.

Lemma enrich_from_manager_same env m : same_reference m (enrich_from_manager env m).
Proof.
  unfold enrich_from_manager. cbv zeta.
  destruct (match assoc_get _ _ with Some e => Some e | None => _ end) as [e|];
    [|apply same_reference_refl].
  destruct (truthy (e_url e)); [apply enrich_model_with_url_same|apply same_reference_refl].
Qed.

Lemma enrich_workflow_url_same env m : same_reference m (enrich_workflow_url env m).
Proof.
  unfold enrich_workflow_url. cbv zeta.
  repeat match goal with
         | |- context [if ?b then _ else _] => destruct b
         | |- context [match ?x with Some _ => _ | None => _ end] => destruct x
         | |- context [let '(_, _) := ?x in _] => destruct x
         end; by repeat split.
Qed.

Lemma adopt_requested_subfolder_same m : same_reference m (adopt_requested_subfolder m).
Proof.
  unfold adopt_requested_subfolder. cbv zeta.
  repeat match goal with
         | |- context [if ?b then _ else _] => destruct b
         end; by repeat split.
Qed.

Lemma attach_alternatives_same env m : same_reference m (attach_alternatives env m).
Proof.
  unfold attach_alternatives. destruct (truthy (url m)); [apply same_reference_refl|].
  destruct (find_quantized_alternatives _ _ _); by repeat split.
Qed.

Lemma reuse_cached_same cache m : same_reference m (reuse_cached cache m).1.
Proof.
  unfold reuse_cached. destruct (truthy (url m)); [apply same_reference_refl|].
  destruct (cache !! _) as [[c|]|]; try apply same_reference_refl.
  destruct (nonempty (r_url c)); [apply apply_result_same|apply same_reference_refl].
Qed.

Section FrameOfTheRun.
Variable env : Env.
Variable notify : Payload -> M unit.

Lemma enrich_each_same payload f models :
  (forall m, same_reference m (f m)) ->
  hoare (fun _ => True) (enrich_each notify payload f models)
        (fun r _ => Forall2 same_reference models r).
Proof.
  intros Hf. induction models as [|m models IH]; cbn [enrich_each].
  - apply hoare_ret. constructor.
  - destruct (truthy (url m)).
    + eapply hoare_bind; [exact IH|]. intros rest. apply hoare_ret.
      intros w H. constructor; [apply same_reference_refl|exact H].
    + eapply hoare_bind with (R := fun _ _ => True); [by intros ? ? ? ? ?|].
      intros _. eapply hoare_bind.
      * eapply hoare_weaken; [| |exact IH]; [done|intros a w H; exact H].
      * intros rest. apply hoare_ret. intros w H. by constructor.
Qed.

Lemma apply_found_paths_same base repo_id found_paths (st : ScanState) :
  Forall2 same_reference base st.1 ->
  hoare (fun _ => True) (apply_found_paths repo_id found_paths st)
        (fun st' _ => Forall2 same_reference base st'.1).
Proof.
  intros Hst. unfold apply_found_paths.
  eapply hoare_bind.
  - eapply hoare_weaken;
      [| |apply (hoare_for_loop (fun (s : ScanState) _ => Forall2 same_reference base s.1)
                   (fun (_ : unit) _ => True))].
    + intros w _. exact Hst.
    + intros a w H. exact H.
    + intros [b mp] [missing remaining]. cbv beta iota.
      destruct (assoc_get b remaining) as [idx|].
      * eapply hoare_bind with (R := fun _ w => Forall2 same_reference base missing).
        { intros w H a w' _. exact H. }
        intros _. apply hoare_ret. intros w H. simpl.
        apply same_refs_alter; [apply apply_result_same|exact H].
      * apply hoare_ret. intros w H. exact H.
  - intros [st'|[]]; apply hoare_ret; [intros w H; exact H|intros w _; exact Hst].
Qed.

Lemma scan_priority_repos_same skip_all skip_filenames kw tokens repos missing :
  hoare (fun _ => True)
        (_scan_priority_repos_for_missing env notify skip_all skip_filenames kw tokens
           repos missing)
        (fun r _ => Forall2 same_reference missing r).
Proof.
  unfold _scan_priority_repos_for_missing. cbv zeta.
  destruct (negb (repos_truthy repos));
    [apply hoare_ret; intros; apply same_refs_refl|].
  destruct (negb (list_truthy _));
    [apply hoare_ret; intros; apply same_refs_refl|].
  apply hoare_bind_any. intros _.
  destruct (negb (list_truthy _));
    [apply hoare_ret; intros; apply same_refs_refl|].
  eapply hoare_bind.
  - eapply hoare_weaken;
      [| |apply (hoare_for_loop
                   (fun (s : ScanState) _ => Forall2 same_reference missing s.1)
                   (fun (s : ScanState) _ => Forall2 same_reference missing s.1))].
    + intros w _. apply same_refs_refl.
    + intros a w H. exact H.
    + intros repo_id [cur remaining]. cbv beta iota.
      destruct remaining as [|[name cur_idx] remaining'].
      { apply hoare_ret. intros w H. exact H. }
      cbv zeta.
      apply (hoare_bind _ (fun _ _ => Forall2 same_reference missing cur)).
      { intros w H a w' _. exact H. }
      intros _.
      apply (hoare_bind _ (fun _ _ => Forall2 same_reference missing cur)).
      { intros w H a w' _. exact H. }
      intros [files|e].
      * eapply hoare_bind.
        -- intros w H. apply (apply_found_paths_same missing); [exact H|done].
        -- intros st'. apply hoare_ret. intros w H. exact H.
      * assert (Hn : forall p (st : Step ScanState ScanState),
                  match st with
                  | Continue s' | Break s' | Return s' => s' = (cur, (name, cur_idx) :: remaining')
                  end ->
                  hoare (fun _ => Forall2 same_reference missing cur)
                    (notify p ;; ret st)
                    (fun st w => match st with
                                 | Continue s' | Break s' | Return s' =>
                                     Forall2 same_reference missing s'.1
                                 end)).
        { intros p st Hst.
          apply (hoare_bind _ (fun _ _ => Forall2 same_reference missing cur)).
          { intros w H a w' _. exact H. }
          intros _. apply hoare_ret. intros w H.
          destruct st; simpl in Hst; subst; exact H. }
        destruct (exn_kind e).
        -- by apply Hn.
        -- by apply Hn.
        -- destruct (is_timeout_error e); [by apply Hn|].
           destruct (is_rate_limited_error e).
           ++ apply (hoare_bind _ (fun _ _ => Forall2 same_reference missing cur)).
              { intros w H a w' _. exact H. }
              intros _. by apply Hn.
           ++ apply hoare_ret. intros w H. exact H.
  - intros [st'|st']; apply hoare_ret; intros w H; exact H.
Qed.

Lemma stage_loop_same base label mode skip_all skip_filenames kw repos indices missing :
  Forall2 same_reference base missing ->
  hoare (fun _ => True)
        (stage_loop env notify label mode skip_all skip_filenames kw repos indices missing)
        (fun r _ => match r with
                    | inl missing' => Forall2 same_reference base missing'
                    | inr _ => True
                    end).
Proof.
  intros Hm. unfold stage_loop.
  eapply hoare_weaken;
    [| |apply (hoare_for_loop (fun (s : list Model) _ => Forall2 same_reference base s)
                 (fun (_ : unit) _ => True))].
  - intros w _. exact Hm.
  - intros a w H. exact H.
  - intros idx cur. cbv beta.
    destruct (cur !! idx) as [m|]; [|apply hoare_ret; intros w H; exact H].
    destruct (_skip_hf_search _ _ m); [apply hoare_ret; intros w H; exact H|].
    apply (hoare_bind _ (fun _ _ => Forall2 same_reference base cur)).
    { intros w H a w' _. exact H. }
    intros exhausted. destruct exhausted.
    + apply (hoare_bind _ (fun _ _ => Forall2 same_reference base cur)).
      { intros w H a w' _. exact H. }
      intros _. apply hoare_ret. intros w H. exact H.
    + apply (hoare_bind _ (fun _ _ => Forall2 same_reference base cur)).
      { intros w H a w' _. exact H. }
      intros _.
      apply (hoare_bind _ (fun _ _ => Forall2 same_reference base cur)).
      { intros w H a w' _. exact H. }
      intros [r|]; apply hoare_ret; intros w H; [|exact H].
      apply same_refs_alter; [apply apply_result_same|exact H].
Qed.

Lemma run_hf_stage_same label mode skip_all skip_filenames kw repos missing :
  hoare (fun _ => True)
        (_run_hf_stage env notify label mode skip_all skip_filenames kw repos missing)
        (fun r _ => Forall2 same_reference missing r).
Proof.
  unfold _run_hf_stage. apply hoare_bind_any. intros _.
  eapply hoare_bind; [apply (stage_loop_same missing), same_refs_refl|].
  intros [missing'|[]]; apply hoare_ret.
  - intros w H. exact H.
  - intros w _. apply same_refs_refl.
Qed.
End FrameOfTheRun.

Lemma process_workflow_same env notify workflow :
  hoare (fun _ => True) (process_workflow env notify workflow)
    (fun report _ =>
       let '(missing, existing, mismatches) :=
         check_model_files (env_fs env)
           (reconcile (_preferred_nunchaku_precision (env_is_blackwell env))
              (extract_models_from_workflow (env_lib env) workflow)) in
       rep_found report = existing ∧ rep_mismatches report = mismatches
       ∧ Forall2 same_reference missing (rep_missing report)).
Proof.
  unfold process_workflow. apply hoare_bind_any. intros _.
  unfold local_phase, reconcile. cbv zeta.
  destruct (check_model_files _ _) as [[missing0 existing] mismatches].
  assert (H0 : Forall2 same_reference missing0
                 (map adopt_requested_subfolder (map (enrich_workflow_url env) missing0))).
  { eapply same_refs_trans; apply same_refs_map;
      [apply enrich_workflow_url_same|apply adopt_requested_subfolder_same]. }
  revert H0. generalize (map adopt_requested_subfolder
                           (map (enrich_workflow_url env) missing0)).
  intros missing H0.
  eapply hoare_bind; [apply enrich_each_same, enrich_from_popular_same|].
  intros m1. apply (hoare_bind _ (fun m2 _ => Forall2 same_reference missing0 m2)).
  { intros w H1 a w' Ha. eapply same_refs_trans; [exact H0|].
    eapply same_refs_trans; [exact H1|].
    revert Ha. apply (enrich_each_same notify); [apply enrich_from_manager_same|done]. }
  intros m2. apply (hoare_bind _ (fun m3 _ => Forall2 same_reference missing0 m3)).
  { destruct (_ && _).
    - apply (hoare_bind _ (fun _ _ => Forall2 same_reference missing0 m2)).
      { intros w H a w' _. exact H. }
      intros cache.
      apply (hoare_bind _ (fun _ _ => Forall2 same_reference missing0 m2)).
      { intros w H a w' _. exact H. }
      intros _. apply hoare_ret. intros w H.
      eapply same_refs_trans; [exact H|]. rewrite map_map.
      apply same_refs_map. intros m. apply reuse_cached_same.
    - apply hoare_ret. intros w H. exact H. }
  intros m3. apply (hoare_bind _ (fun _ _ => Forall2 same_reference missing0 m3)).
  { intros w H a w' _. exact H. }
  intros repos. apply (hoare_bind _ (fun m4 _ => Forall2 same_reference missing0 m4)).
  { destruct (_ && _).
    - apply (hoare_bind _ (fun _ _ => Forall2 same_reference missing0 m3)).
      { intros w H a w' _. exact H. }
      intros _. intros w H a w' Ha. eapply same_refs_trans; [exact H|].
      revert Ha. by apply scan_priority_repos_same.
    - apply hoare_ret. intros w H. exact H. }
  intros m4. apply (hoare_bind _ (fun m5 _ => Forall2 same_reference missing0 m5)).
  { destruct (_ && _).
    - apply (hoare_bind _ (fun m _ => Forall2 same_reference missing0 m)).
      { intros w H a w' Ha. eapply same_refs_trans; [exact H|].
        revert Ha. by apply run_hf_stage_same. }
      intros m. destruct repos.
      + apply hoare_ret. intros w H. exact H.
      + intros w H a w' Ha. eapply same_refs_trans; [exact H|].
        revert Ha. by apply run_hf_stage_same.
    - apply hoare_ret. intros w H. exact H. }
  intros m5. apply hoare_ret. intros w H. split_and!; [done|done|].
  simpl. eapply same_refs_trans; [exact H|].
  apply same_refs_map, attach_alternatives_same.
Qed.

(** X3.  A report that a run returns holds, as found and as mismatched,
    the lists of the local check, and as missing the missing references of
    the local check, one for one and in their order: registry, manager
    cache and hub search fill in where a file is to be had, they neither
    add nor drop nor rename a reference. *)
Theorem resolution_fills_in_only env status_cb workflow w report :
  (process_workflow_for_missing_models env status_cb workflow w).1 = inl report ->
  let '(missing, existing, mismatches) :=
    check_model_files (env_fs env)
      (reconcile (_preferred_nunchaku_precision (env_is_blackwell env))
         (extract_models_from_workflow (env_lib env) workflow)) in
  rep_found report = existing ∧ rep_mismatches report = mismatches
  ∧ Forall2 same_reference missing (rep_missing report).
Proof.
  intros Hrun.
  destruct (process_workflow_for_missing_models env status_cb workflow w)
    as [r w'] eqn:Hout.
  simpl in Hrun. subst r.
  by apply (process_workflow_same env (notify_with status_cb) workflow w I report w').
Qed.

(** *** The memo of repository listings *)

Lemma get_repo_files_cached env repo_id files w :
  _hf_repo_files_cache w !! repo_id = Some files ->
  _get_repo_files env repo_id w = (inl files, w).
Proof.
  intros H. unfold _get_repo_files. unfold bind at 1, gets at 1. cbv beta iota.
  by rewrite H.
Qed.

Lemma get_repo_files_miss env repo_id w :
  _hf_repo_files_cache w !! repo_id = None ->
  _get_repo_files env repo_id w =
  match _hf_search_allowed env w with
  | (inl true, w1) =>
      let w2 := advance (env_elapsed env (remote_seq w1))
                  (log_event (EvCall (ListRepoFiles repo_id) (clock w1)) w1) in
      match env_list_repo_files env (remote_seq w1) repo_id with
      | inl files =>
          (inl files,
           set_repo_files_cache (<[repo_id := files]> (_hf_repo_files_cache w2)) w2)
      | inr e =>
          (inr e, set_repo_files_cache (<[repo_id := []]> (_hf_repo_files_cache w2)) w2)
      end
  | (inl false, w1) => (inr (mkExn BudgetError ""), w1)
  | (inr e, w1) => (inr e, w1)
  end.
Proof.
  intros H. unfold _get_repo_files. unfold bind at 1, gets at 1. cbv beta iota.
  rewrite H. unfold bind at 1.
  destruct (_hf_search_allowed env w) as [[[]|e] w1]; cbn [negb]; [|done..].
  unfold bind at 1, try_catch, remote_list_repo_files. cbv zeta.
  by destruct (env_list_repo_files env (remote_seq w1) repo_id).
Qed.

(** X4.  A repository is listed from the memo when the memo has it.
    Otherwise the gate is asked: when it refuses, the budget error is
    raised and neither the hub nor the memo is touched; when it grants,
    exactly one request is sent, and its answer (the empty list when the
    request failed) is in the memo afterwards, so that asking again gives
    that answer without a request. *)
Theorem repo_files_memoized env repo_id w :
  let out := _get_repo_files env repo_id w in
  match _hf_repo_files_cache w !! repo_id with
  | Some files => out = (inl files, w)
  | None =>
      match (_hf_search_allowed env w).1 with
      | inl true =>
          let files := match out.1 with inl f => f | inr _ => [] end in
          n_calls (trace out.2) = S (n_calls (trace w))
          ∧ _hf_repo_files_cache out.2 !! repo_id = Some files
          ∧ _get_repo_files env repo_id out.2 = (inl files, out.2)
      | _ =>
          out.1 = inr (mkExn BudgetError "")
          ∧ trace out.2 = trace w
          ∧ _hf_repo_files_cache out.2 = _hf_repo_files_cache w
      end
  end.
Proof.
  cbv zeta.
  destruct (_hf_repo_files_cache w !! repo_id) as [files|] eqn:Hc.
  { by apply get_repo_files_cached. }
  rewrite (get_repo_files_miss env repo_id w Hc).
  unfold _hf_search_allowed.
  destruct (rate_limited_now w); [done|].
  destruct (deadline_passed w); [done|].
  destruct (_ <=? _)%Z; [done|].
  cbv zeta. cbn [fst].
  destruct (env_list_repo_files env _ repo_id) as [files|e]; cbn [fst snd].
  - split_and!.
    + reflexivity.
    + apply lookup_insert_eq.
    + apply get_repo_files_cached. apply lookup_insert_eq.
  - split_and!.
    + reflexivity.
    + apply lookup_insert_eq.
    + apply get_repo_files_cached. apply lookup_insert_eq.
Qed.

(** *** Hits of the remote search *)

Lemma hoare_silent {A} (P : World -> Prop) (m : M A) :
  silent m -> hoare P m (fun _ w => P w).
Proof.
  intros Hs w Hw a w' Hr. specialize (Hs w). rewrite Hr in Hs. simpl in Hs. by subst.
Qed.

Lemma hoare_get_repo_files env repo_id :
  hoare (fun _ => True) (_get_repo_files env repo_id)
    (fun files w => _hf_repo_files_cache w !! repo_id = Some files).
Proof.
  intros w _ files w' Hr.
  destruct (_hf_repo_files_cache w !! repo_id) as [cached|] eqn:Hc.
  - rewrite (get_repo_files_cached env repo_id cached w Hc) in Hr.
    by injection Hr as <- <-.
  - rewrite (get_repo_files_miss env repo_id w Hc) in Hr.
    destruct (_hf_search_allowed env w) as [[[]|e] w1]; [|done..].
    cbv zeta in Hr. destruct (env_list_repo_files _ _ _); [|done].
    injection Hr as <- <-. apply lookup_insert_eq.
Qed.

Lemma find_match_path_spec fname files path :
  find_match_path fname files = Some path ->
  path ∈ files ∧ str_lower (basename path) = str_lower fname.
Proof.
  unfold find_match_path. intros H. apply find_some in H as [Hin Hb].
  split; [by apply list_elem_of_In|]. by apply bool_decide_eq_true in Hb.
Qed.

(** A step of a loop that returns no hit. *)
Ltac no_hit :=
  lazymatch goal with
  | |- hoare _ (bind (try_catch (search_body _ _ _ _ _ _ _ _) _) _) _ => fail
  | |- hoare _ (bind _ _) _ => apply hoare_bind_any; intros ?
  | |- hoare _ (try_catch _ _) _ => apply hoare_try_catch; [|intros ?]
  | |- hoare _ (ret _) _ => apply hoare_ret; intros ? _; first [exact I | by intros ? [=] | by hnf]
  | |- hoare _ (raise _) _ => apply hoare_raise
  | |- hoare _ (if ?b then _ else _) _ => destruct b
  | |- hoare _ (match ?x with _ => _ end) _ => destruct x
  end.

Section SearchHits.
Variable env : Env.
Variable notify : Payload -> M unit.
Hypothesis notify_silent : forall p, silent (notify p).
Variables fname key : string.

Let Q (hit : SearchResult) (w : World) : Prop :=
  _hf_search_cache w !! key = Some (Some hit) ∧ hit_from_listing fname hit w.

Let step_ok {S} (st : Step S Found) (w : World) : Prop :=
  match st with
  | Continue _ | Break _ => True
  | Return r => found_ok Q r w
  end.

Let loop_ok {S} (r : S + Found) (w : World) : Prop :=
  match r with inl _ => True | inr r => found_ok Q r w end.

Lemma scan_repo_hit src h model_id :
  hoare (fun _ => True) (scan_repo env notify fname key src h model_id) step_ok.
Proof.
  unfold scan_repo. apply hoare_try_catch.
  - eapply hoare_bind; [apply hoare_get_repo_files|]. intros files.
    destruct (find_match_path fname files) as [path|] eqn:Hf; [|by apply hoare_ret].
    apply find_match_path_spec in Hf as [Hin Hb]. cbv zeta.
    eapply hoare_bind; [apply hoare_modify|intros []].
    { intros w Hw.
      instantiate (1 := fun _ w => Q (build_result model_id path) w).
      split; [apply lookup_insert_eq|]. by exists model_id, path, files. }
    eapply hoare_bind; [apply hoare_silent, notify_silent|intros []].
    apply hoare_ret. by intros w Hw hit [= <-].
  - intros e. repeat no_hit.
Qed.

Lemma scan_repos_hit src h ids :
  hoare (fun _ => True) (scan_repos env notify fname key src h ids) loop_ok.
Proof.
  unfold scan_repos.
  apply (hoare_for_loop (fun _ _ => True) (found_ok Q)). intros. apply scan_repo_hit.
Qed.

Lemma term_search_loop_hit terms :
  hoare (fun _ => True) (term_search_loop env notify fname terms) loop_ok.
Proof.
  unfold term_search_loop.
  apply (hoare_for_loop (fun _ _ => True) (found_ok Q)). intros. repeat no_hit.
Qed.

Lemma author_round_hit score terms author vars :
  hoare (fun _ => True) (author_round env notify fname score terms author vars) step_ok.
Proof.
  unfold author_round. destruct vars as [models am].
  no_hit. no_hit; [|by repeat no_hit].
  eapply hoare_bind.
  - apply (hoare_for_loop (fun _ _ => True)
             (fun (r : Found + option (list string)) w =>
                match r with inl f => f = None | inr _ => True end)).
    intros term [found am']. repeat no_hit.
  - intros [[found am']|[r|am']]; cbv beta iota.
    + repeat no_hit.
    + apply hoare_ret. by intros w -> hit [=].
    + by apply hoare_ret.
Qed.

Lemma fallback_round_hit author am :
  hoare (fun _ => True) (fallback_round env notify fname key author am) step_ok.
Proof.
  unfold fallback_round. no_hit. no_hit; [by repeat no_hit|].
  no_hit. no_hit; [|by repeat no_hit]. no_hit; [|by repeat no_hit].
  eapply hoare_bind; [apply scan_repos_hit|].
  intros [?|res]; apply hoare_ret; [done|]. by intros w Hw.
Qed.

Lemma search_body_hit mode kw repos skip :
  hoare (fun _ => True) (search_body env notify fname key mode kw repos skip)
    (fun r w => match r with Some f => found_ok Q f w | None => True end).
Proof.
  unfold search_body. cbv zeta. no_hit.
  eapply hoare_bind.
  { instantiate (1 := loop_ok).
    destruct (mode_runs_terms mode); [apply term_search_loop_hit|by apply hoare_ret]. }
  intros [models|res]; [|apply hoare_ret; by intros w Hw].
  eapply hoare_bind.
  { instantiate (1 := loop_ok).
    destruct (_ && _); [|by apply hoare_ret].
    no_hit. apply (hoare_for_loop (fun _ _ => True) (found_ok Q)).
    intros. apply author_round_hit. }
  intros [[models' am]|res]; [|apply hoare_ret; by intros w Hw].
  eapply hoare_bind; [apply scan_repos_hit|].
  intros [?|res]; [|apply hoare_ret; by intros w Hw].
  eapply hoare_bind; [apply scan_repos_hit|].
  intros [?|res]; [|apply hoare_ret; by intros w Hw].
  eapply hoare_bind; [apply scan_repos_hit|].
  intros [?|res]; [|apply hoare_ret; by intros w Hw].
  destruct (_ && _); [|by apply hoare_ret].
  eapply hoare_bind.
  { apply (hoare_for_loop (fun _ _ => True) (found_ok Q)).
    intros. apply fallback_round_hit. }
  intros [?|res]; apply hoare_ret; [done|]. by intros w Hw.
Qed.
End SearchHits.

Lemma search_uncached_hit env notify fname mode kw repos skip :
  (forall p, silent (notify p)) ->
  hoare (fun w => forall hit,
           _hf_search_cache w !! _normalize_hf_search_key fname ≠ Some (Some hit))
    (search_huggingface_model env notify fname mode kw repos skip)
    (found_ok (fun hit w =>
       _hf_search_cache w !! _normalize_hf_search_key fname = Some (Some hit)
       ∧ hit_from_listing fname hit w)).
Proof.
  intros Hn. unfold search_huggingface_model.
  destruct (env_api_init_error env); [apply hoare_raise|]. cbv zeta.
  set (key := _normalize_hf_search_key fname).
  eapply hoare_bind.
  { apply hoare_gets. intros w Hw.
    instantiate (1 := fun c w => forall hit, c ≠ Some (Some hit)). exact Hw. }
  intros c. destruct c as [[cached|]|].
  { intros w Hw. by destruct (Hw cached). }
  all: eapply hoare_weaken; [intros w _; exact I|intros a w H; exact H|].
  all: repeat no_hit.
  all: (eapply hoare_bind; [apply hoare_try_catch;
          [apply (search_body_hit env notify Hn fname key)|intros e; repeat no_hit]|]).
  all: intros [res|]; [apply hoare_ret; by intros w Hw|repeat no_hit].
Qed.

(** X5.  A hit returned by the remote search is in the search cache
    under the lower-cased base name it was asked for.  Either it was there
    before, and then nothing else happened, or it names a file of a listed
    repository whose base name is the wanted one, letter case aside. *)
Theorem search_hit_provenance env notify fname mode kw repos skip w hit w' :
  (forall p, silent (notify p)) ->
  search_huggingface_model env notify fname mode kw repos skip w = (inl (Some hit), w') ->
  _hf_search_cache w' !! _normalize_hf_search_key fname = Some (Some hit)
  ∧ (_hf_search_cache w !! _normalize_hf_search_key fname = Some (Some hit) ∧ w' = w
     ∨ hit_from_listing fname hit w').
Proof.
  intros Hn Hr.
  destruct (_hf_search_cache w !! _normalize_hf_search_key fname) as [[cached|]|] eqn:Hc.
  - revert Hr. unfold search_huggingface_model.
    destruct (env_api_init_error env); [done|]. cbv zeta.
    unfold bind at 1, gets at 1. cbv beta iota. rewrite Hc.
    intros [= -> <-]. auto.
  - destruct (search_uncached_hit env notify fname mode kw repos skip Hn w
                ltac:(by intros h; rewrite Hc) _ _ Hr hit eq_refl); auto.
  - destruct (search_uncached_hit env notify fname mode kw repos skip Hn w
                ltac:(by intros h; rewrite Hc) _ _ Hr hit eq_refl); auto.
Qed.




(** *** Failures of the hub do not end a run *)

Lemma nr_ret {A} (a : A) : never_raises (ret a).
Proof. intros w. by exists a. Qed.

Lemma nr_gets {A} (f : World -> A) : never_raises (gets f).
Proof. intros w. by exists (f w). Qed.

Lemma nr_modify f : never_raises (modify f).
Proof. intros w. by exists tt. Qed.

Lemma nr_bind {A B} (m : M A) (k : A -> M B) :
  never_raises m -> (forall a, never_raises (k a)) -> never_raises (bind m k).
Proof.
  intros Hm Hk w. unfold bind. destruct (Hm w) as [a Ha].
  destruct (m w) as [[a'|e] w1]; [|done]. apply Hk.
Qed.

Lemma nr_try_catch {A} (m : M A) (h : Exn -> M A) :
  (forall e, never_raises (h e)) -> never_raises (try_catch m h).
Proof.
  intros Hh w. unfold try_catch. destruct (m w) as [[a|e] w1]; [by exists a|apply Hh].
Qed.

Lemma nr_attempt {A} (m : M A) : never_raises (attempt m).
Proof. intros w. unfold attempt. destruct (m w) as [[a|e] w1]; by eexists. Qed.

Lemma nr_for_loop {A S R} (l : list A) (s : S) (body : A -> S -> M (Step S R)) :
  (forall x s, never_raises (body x s)) -> never_raises (for_loop l s body).
Proof.
  intros Hb. revert s. induction l as [|x l IH]; intros s; cbn [for_loop].
  - apply nr_ret.
  - apply nr_bind; [apply Hb|]. intros [s'|s'|r]; [apply IH|apply nr_ret..].
Qed.

Lemma nr_gate env : never_raises (_hf_search_allowed env).
Proof.
  intros w. unfold _hf_search_allowed.
  destruct (rate_limited_now w); [by eexists|].
  destruct (deadline_passed w); [by eexists|].
  destruct (_ <=? _)%Z; by eexists.
Qed.

Lemma nr_set_rate_limited env : never_raises (_set_hf_rate_limited env).
Proof.
  intros w. unfold _set_hf_rate_limited.
  destruct (_hf_rate_limited_until w) as [u|]; [destruct (negb _)|]; by eexists.
Qed.

Lemma nr_reset_budget env : never_raises (_reset_hf_search_budget env).
Proof. intros w. by eexists. Qed.

Lemma nr_reset_at_run_start : never_raises reset_at_run_start.
Proof. intros w. by eexists. Qed.

Create HintDb nr.
#[export] Hint Resolve nr_ret nr_gets nr_modify nr_attempt nr_gate nr_set_rate_limited
  nr_reset_budget nr_reset_at_run_start : nr.

Ltac nr_step :=
  lazymatch goal with
  | |- never_raises (bind _ _) => apply nr_bind; [|intros ?]
  | |- never_raises (try_catch _ _) => apply nr_try_catch; intros ?
  | |- never_raises (for_loop _ _ _) => apply nr_for_loop; intros ? ?
  | |- never_raises (if ?b then _ else _) => destruct b
  | |- never_raises (match ?x with _ => _ end) => destruct x
  | |- never_raises ((match ?x with _ => _ end) _) => destruct x
  end.

Ltac nr_auto := repeat first [ solve [auto 2 with nr nocore] | nr_step | progress cbv beta ].

Section QuietRun.
Variable env : Env.
Variable notify : Payload -> M unit.
Hypothesis api_built : env_api_init_error env = None.
Hypothesis notify_returns : forall p, never_raises (notify p).

#[local] Hint Resolve notify_returns : nr.

Lemma nr_cache_result key v : never_raises (cache_result key v).
Proof. apply nr_modify. Qed.
#[local] Hint Resolve nr_cache_result : nr.

Lemma nr_search fname mode kw repos skip :
  never_raises (search_huggingface_model env notify fname mode kw repos skip).
Proof. unfold search_huggingface_model. rewrite api_built. cbv zeta. nr_auto. Qed.
#[local] Hint Resolve nr_search : nr.

Lemma nr_enrich_each payload f models :
  never_raises (enrich_each notify payload f models).
Proof. induction models as [|m models IH]; cbn [enrich_each]; nr_auto. Qed.
#[local] Hint Resolve nr_enrich_each : nr.

Lemma nr_apply_found_paths repo_id found st :
  never_raises (apply_found_paths repo_id found st).
Proof. unfold apply_found_paths. nr_auto. Qed.
#[local] Hint Resolve nr_apply_found_paths : nr.

Lemma nr_scan_priority_repos skip_all skips kw tokens repos missing :
  never_raises (_scan_priority_repos_for_missing env notify skip_all skips kw tokens
                  repos missing).
Proof. unfold _scan_priority_repos_for_missing. cbv zeta. nr_auto. Qed.
#[local] Hint Resolve nr_scan_priority_repos : nr.

Lemma nr_run_hf_stage label mode skip_all skips kw repos missing :
  never_raises (_run_hf_stage env notify label mode skip_all skips kw repos missing).
Proof. unfold _run_hf_stage, stage_loop. nr_auto. Qed.
#[local] Hint Resolve nr_run_hf_stage : nr.

Lemma nr_prefetch : never_raises (prefetch_author_repos env).
Proof. unfold prefetch_author_repos. rewrite api_built. nr_auto. Qed.
#[local] Hint Resolve nr_prefetch : nr.

Lemma nr_process_workflow workflow : never_raises (process_workflow env notify workflow).
Proof.
  unfold process_workflow, load_comfyui_manager_cache.
  destruct (local_phase env workflow) as [kw [[missing existing] mismatches]].
  nr_auto.
Qed.
End QuietRun.

Lemma nr_notify_with status_cb p :
  (forall cb q, status_cb = Some cb -> cb q = None) ->
  never_raises (notify_with status_cb p).
Proof.
  intros Hq w. unfold notify_with. destruct status_cb as [cb|]; [|by eexists].
  rewrite (Hq cb p eq_refl). by eexists.
Qed.

(** X7.  When the client of the hub can be built and the progress
    callback, if there is one, does not raise, a run returns a report
    whatever the hub answers: its errors, timeouts and rate limits are
    all handled inside the run. *)
Theorem run_survives_hub_failures env status_cb workflow w :
  env_api_init_error env = None ->
  (forall cb p, status_cb = Some cb -> cb p = None) ->
  exists report,
    (process_workflow_for_missing_models env status_cb workflow w).1 = inl report.
Proof.
  intros He Hq. apply nr_process_workflow; [exact He|].
  intros p. by apply nr_notify_with.
Qed.

(** *** The rate-limit mark *)

(** X8.  With the budget spent or a rate-limit mark still ahead, the
    remote search sends nothing and asks the gate for nothing: it returns
    the cached hit of the name if there is one, and no hit otherwise. *)
Theorem exhausted_search_stays_local env notify fname mode kw repos skip w :
  env_api_init_error env = None ->
  _hf_search_budget_exhausted env w = true ->
  let out := search_huggingface_model env notify fname mode kw repos skip w in
  out.1 = inl (match _hf_search_cache w !! _normalize_hf_search_key fname with
               | Some (Some hit) => Some hit
               | _ => None
               end)
  ∧ trace out.2 = trace w
  ∧ _hf_api_calls out.2 = _hf_api_calls w.
Proof.
  intros He Hx. cbv zeta.
  cut (exists w',
         search_huggingface_model env notify fname mode kw repos skip w
         = (inl (match _hf_search_cache w !! _normalize_hf_search_key fname with
                 | Some (Some hit) => Some hit
                 | _ => None
                 end), w')
         ∧ trace w' = trace w ∧ _hf_api_calls w' = _hf_api_calls w).
  { by intros (w' & -> & ? & ?). }
  unfold search_huggingface_model. rewrite He. cbv zeta.
  unfold bind at 1, gets at 1. cbv beta iota.
  set (key := _normalize_hf_search_key fname).
  unfold _hf_search_budget_exhausted in Hx.
  destruct (_hf_search_cache w !! key) as [[hit|]|]; [by eexists| |];
    [destruct (mode_is_basic mode); [by eexists|]|].
  all: destruct (str_in key HF_SEARCH_SKIP_FILENAMES); [by eexists|].
  all: unfold bind at 1, gets at 1; cbv beta iota.
  all: unfold bind at 1, gets at 1; cbv beta iota.
  all: destruct (rate_limited_now w); [by eexists|]; simpl in Hx; rewrite Hx; by eexists.
Qed.

Lemma mark_gate env u :
  leads (rate_mark_set u) (rate_mark_set u) (_hf_search_allowed env).
Proof.
  intros w Hw. unfold _hf_search_allowed.
  destruct (rate_limited_now w); [done|].
  destruct (deadline_passed w); [done|]. by destruct (_ <=? _)%Z.
Qed.

Lemma mark_set_rate_limited env u :
  leads (rate_mark_set u) (rate_mark_set u) (_set_hf_rate_limited env).
Proof.
  intros w [Hw Hu]. unfold _set_hf_rate_limited. rewrite Hw.
  apply Z.eqb_neq in Hu as Hu'. rewrite Hu'. by split.
Qed.

Lemma mark_reset_budget env u :
  leads (rate_mark_set u) (rate_mark_set u) (_reset_hf_search_budget env).
Proof. by intros w Hw. Qed.

Lemma mark_remote_list_models env u search author limit :
  leads (rate_mark_set u) (rate_mark_set u) (remote_list_models env search author limit).
Proof.
  intros w Hw. unfold remote_list_models. cbv zeta.
  by destruct (env_list_models env _ _ _ _).
Qed.

Lemma mark_remote_list_repo_files env u repo_id :
  leads (rate_mark_set u) (rate_mark_set u) (remote_list_repo_files env repo_id).
Proof.
  intros w Hw. unfold remote_list_repo_files. cbv zeta.
  by destruct (env_list_repo_files env _ _).
Qed.

Lemma mark_cache_result u key v :
  leads (rate_mark_set u) (rate_mark_set u) (cache_result key v).
Proof. by intros w Hw. Qed.

Create HintDb mark.
#[export] Hint Resolve mark_gate mark_set_rate_limited mark_reset_budget
  mark_remote_list_models mark_remote_list_repo_files mark_cache_result : mark.

Ltac mark_step :=
  lazymatch goal with
  | |- leads _ _ (bind _ _) => apply leads_bind; [|intros ?]
  | |- leads _ _ (try_catch _ _) => apply leads_try_catch; [|intros ?]
  | |- leads _ _ (attempt _) => apply leads_attempt
  | |- leads _ _ (ret _) => by apply leads_ret
  | |- leads _ _ (raise _) => by apply leads_raise
  | |- leads _ _ (gets _) => by apply leads_gets
  | |- leads _ _ (modify _) => by apply leads_modify
  | |- leads _ _ (for_loop _ _ _) => apply leads_for_loop; intros ? ?
  | |- leads _ _ (if ?b then _ else _) => destruct b
  | |- leads _ _ (match ?x with _ => _ end) => destruct x
  | |- leads _ _ ((match ?x with _ => _ end) _) => destruct x
  end.

Ltac mark_auto :=
  repeat first [ solve [auto 2 with mark nocore] | mark_step | progress cbv beta ].

Section MarkKept.
Variable env : Env.
Variable notify : Payload -> M unit.
Hypothesis notify_silent : forall p, silent (notify p).
Variable u : Z.

Lemma mark_notify p : leads (rate_mark_set u) (rate_mark_set u) (notify p).
Proof. apply leads_silent, notify_silent. Qed.
#[local] Hint Resolve mark_notify : mark.

Lemma mark_get_repo_files repo_id :
  leads (rate_mark_set u) (rate_mark_set u) (_get_repo_files env repo_id).
Proof. unfold _get_repo_files. mark_auto. Qed.
#[local] Hint Resolve mark_get_repo_files : mark.

Lemma mark_search fname mode kw repos skip :
  leads (rate_mark_set u) (rate_mark_set u)
    (search_huggingface_model env notify fname mode kw repos skip).
Proof.
  unfold search_huggingface_model, search_body, term_search_loop, author_round,
    fallback_round, scan_repos, scan_repo, guarded_list_models.
  cbv zeta. mark_auto.
Qed.
#[local] Hint Resolve mark_search : mark.

Lemma mark_run_hf_stage label mode skip_all skips kw repos missing :
  leads (rate_mark_set u) (rate_mark_set u)
    (_run_hf_stage env notify label mode skip_all skips kw repos missing).
Proof. unfold _run_hf_stage, stage_loop. mark_auto. Qed.
End MarkKept.

(** X9.  A rate-limit mark is set once: a search stage entered with a
    mark leaves with the same mark, whatever the hub answers meanwhile,
    also when the mark has run out and the hub reports the rate limit
    again. *)
Theorem rate_limit_mark_never_renewed env status_cb label mode skip_all skips kw repos
    missing u w :
  _hf_rate_limited_until w = Some u -> u ≠ 0%Z ->
  _hf_rate_limited_until
    (_run_hf_stage env (notify_with status_cb) label mode skip_all skips kw repos
       missing w).2 = Some u.
Proof.
  intros Hw Hu.
  by apply (mark_run_hf_stage env (notify_with status_cb) (notify_with_silent status_cb) u
              label mode skip_all skips kw repos missing w).
Qed.

(** *** References the user told the search to skip *)

Lemma hoare_pure {A} (φ : Prop) (m : M A) (Q : A -> World -> Prop) :
  (φ -> hoare (fun _ => True) m Q) -> hoare (fun _ => φ) m Q.
Proof. intros H w Hw. by apply H. Qed.

Lemma stage_loop_skipped env notify label mode skip_all skips kw repos indices missing i m :
  missing !! i = Some m ->
  _skip_hf_search skip_all skips m = true ->
  hoare (fun _ => True)
    (stage_loop env notify label mode skip_all skips kw repos indices missing)
    (fun r _ => match r with inl missing' => missing' !! i = Some m | inr _ => True end).
Proof.
  intros Hi Hs. unfold stage_loop.
  eapply hoare_weaken; [intros w _; exact Hi|intros a w H; exact H|].
  apply (hoare_for_loop (fun (s : list Model) _ => s !! i = Some m) (fun _ _ => True)).
  intros idx s. apply hoare_pure. intros Hsi.
  destruct (s !! idx) as [m0|] eqn:Hidx; [|by apply hoare_ret].
  destruct (_skip_hf_search skip_all skips m0) eqn:Hs0; [by apply hoare_ret|].
  assert (idx ≠ i) as Hne by (intros ->; congruence).
  apply hoare_bind_any. intros exhausted.
  destruct exhausted.
  { apply hoare_bind_any. intros _. by apply hoare_ret. }
  apply hoare_bind_any. intros _. apply hoare_bind_any. intros [r|].
  - apply hoare_ret. intros w _. by rewrite list_lookup_alter_ne.
  - by apply hoare_ret.
Qed.

(** X10.  A search stage leaves a reference alone that the user told it
    to skip, be it by the switch for the whole run or by its file name:
    after the stage the list holds it unchanged at its place. *)
Theorem skipped_reference_untouched env status_cb label mode skip_all skips kw repos
    missing w out w' i m :
  _run_hf_stage env (notify_with status_cb) label mode skip_all skips kw repos missing w
  = (inl out, w') ->
  missing !! i = Some m ->
  _skip_hf_search skip_all skips m = true ->
  out !! i = Some m.
Proof.
  intros Hr Hi Hs. revert Hr. unfold _run_hf_stage.
  unfold bind at 1. cbn [_reset_hf_search_budget]. cbv beta iota.
  unfold bind at 1.
  pose proof (stage_loop_skipped env (notify_with status_cb) label mode skip_all skips kw
                repos (urlless_indices missing) missing i m Hi Hs) as H.
  match goal with |- context [stage_loop ?a1 ?a2 ?a3 ?a4 ?a5 ?a6 ?a7 ?a8 ?a9 ?a10 ?w0] =>
    specialize (H w0 I);
    destruct (stage_loop a1 a2 a3 a4 a5 a6 a7 a8 a9 a10 w0) as [[[s|?]|e] w1] end.
  - intros [= <- <-]. by apply (H (inl s) w1).
  - by intros [= <- <-].
  - done.
Qed.

(** *** The first source of a URL wins *)

(** The rule of the [for] loop, with the round knowing that its item is
    one of the list. *)
Lemma hoare_for_loop_in {A S R} (I : S -> World -> Prop) (QR : R -> World -> Prop)
      (l : list A) (s : S) (body : A -> S -> M (Step S R)) :
  (forall x s, x ∈ l ->
     hoare (I s) (body x s)
       (fun st w => match st with
                    | Continue s' | Break s' => I s' w
                    | Return r => QR r w
                    end)) ->
  hoare (I s) (for_loop l s body)
    (fun r w => match r with inl s' => I s' w | inr r => QR r w end).
Proof.
  revert s. induction l as [|x l IH]; intros s Hbody.
  - by apply hoare_ret.
  - cbn [for_loop]. eapply hoare_bind; [apply Hbody; by left|].
    intros [s'|s'|r]; [|by apply hoare_ret..].
    apply IH. intros y s0 Hy. apply Hbody. by right.
Qed.

Lemma kept_refl m : kept_if_resolved m m.
Proof. by intros _. Qed.

Lemma kept_trans a b c :
  kept_if_resolved a b -> kept_if_resolved b c -> kept_if_resolved a c.
Proof. intros Hab Hbc Ha. pose proof (Hab Ha) as ->. by apply Hbc. Qed.

Lemma kept_all_refl l : Forall2 kept_if_resolved l l.
Proof. induction l; constructor; auto using kept_refl. Qed.

Lemma kept_all_trans l1 l2 l3 :
  Forall2 kept_if_resolved l1 l2 -> Forall2 kept_if_resolved l2 l3 ->
  Forall2 kept_if_resolved l1 l3.
Proof.
  intros H. revert l3. induction H as [|a b l1 l2 Hab _ IH]; intros l3 H3.
  - by inversion H3.
  - inversion H3 as [|? c ? l3' Hbc H3']; subst. constructor; [|by apply IH].
    by eapply kept_trans.
Qed.

Lemma kept_all_map f l :
  (forall m, kept_if_resolved m (f m)) -> Forall2 kept_if_resolved l (map f l).
Proof. intros Hf. induction l; simpl; constructor; auto. Qed.

(** A change at the place of a reference that had no URL at the base. *)
Lemma kept_all_alter f i base l :
  (forall m, base !! i = Some m -> truthy (url m) = false) ->
  Forall2 kept_if_resolved base l -> Forall2 kept_if_resolved base (alter f i l).
Proof.
  intros Hi H. revert i Hi. induction H as [|a b base l Hab Hl IH]; intros i Hi.
  - constructor.
  - destruct i as [|i]; csimpl.
    + constructor; [|exact Hl]. intros Ha. by rewrite (Hi a eq_refl) in Ha.
    + constructor; [exact Hab|]. apply IH. intros m Hm. by apply Hi.
Qed.

Lemma reuse_cached_kept cache m : kept_if_resolved m (reuse_cached cache m).1.
Proof. intros Hu. unfold reuse_cached. by rewrite Hu. Qed.

Lemma attach_alternatives_kept env m : kept_if_resolved m (attach_alternatives env m).
Proof. intros Hu. unfold attach_alternatives. by rewrite Hu. Qed.

Lemma assoc_set_Forall {V} (P : string * V -> Prop) k v l :
  (forall k', P (k', v)) -> Forall P l -> Forall P (assoc_set k v l).
Proof.
  intros Hv H. induction H as [|[k' v'] l Hkv Hl IH]; simpl.
  - by repeat constructor.
  - destruct (bool_decide (k = k')); constructor; auto.
Qed.

Lemma assoc_get_In {V} k (v : V) l : assoc_get k l = Some v -> exists k', (k', v) ∈ l.
Proof.
  induction l as [|[k' v'] l IH]; simpl; [done|].
  destruct (bool_decide _).
  - intros [= ->]. exists k'. by left.
  - intros H. destruct (IH H) as [k'' Hk]. exists k''. by right.
Qed.

Lemma remaining_of_unresolved skip_all skips missing :
  points_at_unresolved missing (remaining_of skip_all skips missing).
Proof.
  unfold remaining_of, points_at_unresolved.
  assert (Hall : Forall (fun im => missing !! im.1 = Some im.2) (imap pair missing)).
  { apply Forall_forall. intros [i m] Hin.
    apply elem_of_lookup_imap in Hin as (i' & m' & [= -> ->] & Hl). exact Hl. }
  revert Hall. generalize (imap pair missing).
  assert (Hnil : Forall (fun kv : string * nat =>
                           forall m, missing !! kv.2 = Some m -> truthy (url m) = false) [])
    by constructor.
  revert Hnil. generalize ([] : list (string * nat)).
  intros acc Hacc l Hl. revert acc Hacc.
  induction Hl as [|[i m] l Him _ IH]; intros acc Hacc; [exact Hacc|].
  cbn [fold_left]. apply IH.
  destruct (truthy (url m)) eqn:Hu; [exact Hacc|].
  destruct (_skip_hf_search _ _ _); [exact Hacc|].
  destruct (negb _); [exact Hacc|].
  apply assoc_set_Forall; [|exact Hacc].
  intros k' m' Hm'. simpl in *. congruence.
Qed.

Lemma urlless_indices_unresolved missing idx :
  idx ∈ urlless_indices missing ->
  forall m, missing !! idx = Some m -> truthy (url m) = false.
Proof.
  unfold urlless_indices. intros Hin m Hm.
  apply list_elem_of_omap in Hin as ([i m'] & Hin & Hsome).
  apply elem_of_lookup_imap in Hin as (i' & m'' & [= -> ->] & Hl).
  destruct (truthy (url m'')) eqn:Hu; [done|]. injection Hsome as ->. congruence.
Qed.

Section FirstSourceWins.
Variable env : Env.
Variable notify : Payload -> M unit.

Lemma enrich_each_kept payload f models :
  hoare (fun _ => True) (enrich_each notify payload f models)
        (fun r _ => Forall2 kept_if_resolved models r).
Proof.
  induction models as [|m models IH]; cbn [enrich_each].
  - apply hoare_ret. constructor.
  - destruct (truthy (url m)) eqn:Hu.
    + eapply hoare_bind; [exact IH|]. intros rest. apply hoare_ret.
      intros w H. constructor; [apply kept_refl|exact H].
    + apply hoare_bind_any. intros _. eapply hoare_bind; [exact IH|].
      intros rest. apply hoare_ret. intros w H. constructor; [|exact H].
      intros Ha. by rewrite Hu in Ha.
Qed.

Lemma apply_found_paths_kept base repo_id found_paths (st : ScanState) :
  Forall2 kept_if_resolved base st.1 -> points_at_unresolved base st.2 ->
  hoare (fun _ => True) (apply_found_paths repo_id found_paths st)
        (fun st' _ => Forall2 kept_if_resolved base st'.1
                      ∧ points_at_unresolved base st'.2).
Proof.
  intros Hst Hrem. unfold apply_found_paths.
  eapply hoare_bind.
  - eapply hoare_weaken;
      [| |apply (hoare_for_loop
                   (fun (s : ScanState) _ => Forall2 kept_if_resolved base s.1
                                             ∧ points_at_unresolved base s.2)
                   (fun (_ : unit) _ => True))].
    + intros w _. by split.
    + intros a w H. exact H.
    + intros [b mp] [missing remaining]. cbv beta iota.
      destruct (assoc_get b remaining) as [idx|] eqn:Hget.
      * apply hoare_pure. intros [Hm Hr]. apply hoare_bind_any. intros _.
        apply hoare_ret. intros w _. simpl in *. split.
        -- apply kept_all_alter; [|exact Hm].
           apply assoc_get_In in Hget as [k' Hk'].
           unfold points_at_unresolved in Hr. rewrite Forall_forall in Hr.
           apply (Hr _ Hk').
        -- unfold assoc_remove, points_at_unresolved in *.
           rewrite Forall_forall in Hr. apply Forall_forall. intros x Hx.
           apply list_elem_of_filter in Hx as [_ Hx]. by apply Hr.
      * apply hoare_ret. intros w H. exact H.
  - intros [st'|[]]; apply hoare_ret; [intros w H; exact H|intros w _; by split].
Qed.

Lemma scan_priority_repos_kept skip_all skip_filenames kw tokens repos missing :
  hoare (fun _ => True)
        (_scan_priority_repos_for_missing env notify skip_all skip_filenames kw tokens
           repos missing)
        (fun r _ => Forall2 kept_if_resolved missing r).
Proof.
  unfold _scan_priority_repos_for_missing. cbv zeta.
  destruct (negb (repos_truthy repos));
    [apply hoare_ret; intros; apply kept_all_refl|].
  destruct (negb (list_truthy _));
    [apply hoare_ret; intros; apply kept_all_refl|].
  apply hoare_bind_any. intros _.
  destruct (negb (list_truthy _));
    [apply hoare_ret; intros; apply kept_all_refl|].
  set (I := fun (s : ScanState) (_ : World) =>
              Forall2 kept_if_resolved missing s.1 ∧ points_at_unresolved missing s.2).
  eapply hoare_bind.
  - eapply hoare_weaken; [| |apply (hoare_for_loop I I)].
    + intros w _. split; [apply kept_all_refl|apply remaining_of_unresolved].
    + intros a w H. exact H.
    + intros repo_id [cur remaining]. cbv beta iota.
      destruct remaining as [|[name cur_idx] remaining'].
      { apply hoare_ret. intros w H. exact H. }
      cbv zeta. apply hoare_pure. intros [Hc Hr].
      assert (Hst : forall w, I (cur, (name, cur_idx) :: remaining') w) by (by split).
      apply hoare_bind_any. intros _. apply hoare_bind_any.
      intros [files|e].
      * eapply hoare_bind; [by apply (apply_found_paths_kept missing)|].
        intros st'. apply hoare_ret. intros w H. exact H.
      * repeat first
          [ apply hoare_ret; intros w _; apply Hst
          | apply hoare_bind_any; intros _
          | match goal with
            | |- hoare _ (match ?x with _ => _ end) _ => destruct x
            | |- hoare _ (if ?b then _ else _) _ => destruct b
            end ].
  - intros [st'|st']; apply hoare_ret; intros w H; apply H.
Qed.

Lemma stage_loop_kept label mode skip_all skip_filenames kw repos missing :
  hoare (fun _ => True)
        (stage_loop env notify label mode skip_all skip_filenames kw repos
           (urlless_indices missing) missing)
        (fun r _ => match r with
                    | inl missing' => Forall2 kept_if_resolved missing missing'
                    | inr _ => True
                    end).
Proof.
  unfold stage_loop.
  eapply hoare_weaken;
    [| |apply (hoare_for_loop_in
                 (fun (s : list Model) _ => Forall2 kept_if_resolved missing s)
                 (fun (_ : unit) _ => True))].
  - intros w _. apply kept_all_refl.
  - intros a w H. exact H.
  - intros idx cur Hidx. cbv beta. apply hoare_pure. intros Hc.
    destruct (cur !! idx) as [m|]; [|by apply hoare_ret].
    destruct (_skip_hf_search _ _ m); [by apply hoare_ret|].
    apply hoare_bind_any. intros exhausted. destruct exhausted.
    + apply hoare_bind_any. intros _. by apply hoare_ret.
    + apply hoare_bind_any. intros _. apply hoare_bind_any.
      intros [r|]; apply hoare_ret; intros w _; [|exact Hc].
      apply kept_all_alter; [|exact Hc]. by apply urlless_indices_unresolved.
Qed.

Lemma run_hf_stage_kept label mode skip_all skip_filenames kw repos missing :
  hoare (fun _ => True)
        (_run_hf_stage env notify label mode skip_all skip_filenames kw repos missing)
        (fun r _ => Forall2 kept_if_resolved missing r).
Proof.
  unfold _run_hf_stage. apply hoare_bind_any. intros _.
  eapply hoare_bind; [apply stage_loop_kept|].
  intros [missing'|[]]; apply hoare_ret.
  - intros w H. exact H.
  - intros w _. apply kept_all_refl.
Qed.
End FirstSourceWins.

Lemma process_workflow_kept env notify workflow :
  hoare (fun _ => True) (process_workflow env notify workflow)
    (fun report _ =>
       Forall2 kept_if_resolved (local_phase env workflow).2.1.1 (rep_missing report)).
Proof.
  unfold process_workflow. apply hoare_bind_any. intros _.
  destruct (local_phase env workflow) as [kw [[missing0 existing] mismatches]].
  cbn [fst snd].
  eapply hoare_bind; [apply enrich_each_kept|].
  intros m1. apply (hoare_bind _ (fun m2 _ => Forall2 kept_if_resolved missing0 m2)).
  { intros w H1 a w' Ha. eapply kept_all_trans; [exact H1|].
    revert Ha. by apply (enrich_each_kept notify). }
  intros m2. apply (hoare_bind _ (fun m3 _ => Forall2 kept_if_resolved missing0 m3)).
  { destruct (_ && _).
    - apply hoare_pure. intros H. apply hoare_bind_any. intros cache.
      apply hoare_bind_any. intros _. apply hoare_ret. intros w _.
      eapply kept_all_trans; [exact H|]. rewrite map_map.
      apply kept_all_map. intros m. apply reuse_cached_kept.
    - apply hoare_ret. intros w H. exact H. }
  intros m3. apply (hoare_bind _ (fun _ _ => Forall2 kept_if_resolved missing0 m3)).
  { intros w H a w' _. exact H. }
  intros repos. apply (hoare_bind _ (fun m4 _ => Forall2 kept_if_resolved missing0 m4)).
  { destruct (_ && _).
    - apply hoare_pure. intros H. apply hoare_bind_any. intros _.
      intros w _ a w' Ha. eapply kept_all_trans; [exact H|].
      revert Ha. by apply scan_priority_repos_kept.
    - apply hoare_ret. intros w H. exact H. }
  intros m4. apply (hoare_bind _ (fun m5 _ => Forall2 kept_if_resolved missing0 m5)).
  { destruct (_ && _).
    - apply (hoare_bind _ (fun m _ => Forall2 kept_if_resolved missing0 m)).
      { intros w H a w' Ha. eapply kept_all_trans; [exact H|].
        revert Ha. by apply run_hf_stage_kept. }
      intros m. destruct repos.
      + apply hoare_ret. intros w H. exact H.
      + intros w H a w' Ha. eapply kept_all_trans; [exact H|].
        revert Ha. by apply run_hf_stage_kept.
    - apply hoare_ret. intros w H. exact H. }
  intros m5. apply hoare_ret. intros w H.
  simpl. eapply kept_all_trans; [exact H|].
  apply kept_all_map, attach_alternatives_kept.
Qed.

(** X11.  The first source of a URL wins.  A missing reference that
    leaves the local phase with a URL (one that came with the workflow)
    is in the report exactly as it left that phase: neither the registry,
    the manager list, the cache, the hub search nor the search for
    alternatives touches it. *)
Theorem resolved_references_kept env status_cb workflow w report :
  (process_workflow_for_missing_models env status_cb workflow w).1 = inl report ->
  Forall2 kept_if_resolved (local_phase env workflow).2.1.1 (rep_missing report).
Proof.
  intros Hr. unfold process_workflow_for_missing_models in Hr.
  destruct (process_workflow env (notify_with status_cb) workflow w) as [r w'] eqn:Hp.
  simpl in Hr. subst r.
  exact (process_workflow_kept env (notify_with status_cb) workflow w I report w' Hp).
Qed.

(** *** What reconciliation hands to the local check *)

Lemma merge_variant_group_origin first rest :
  exists b, b ∈ first :: rest
            ∧ filename (merge_variant_group first rest) = filename b
            ∧ node_id (merge_variant_group first rest) = node_id b.
Proof.
  unfold merge_variant_group. set (best := max_by _ first rest).
  exists best. split; [apply max_by_in|].
  repeat case_match; simpl; repeat case_match; done.
Qed.

Lemma coalesce_group_origin group m :
  m ∈ coalesce_group group ->
  exists b, b ∈ group ∧ filename m = filename b ∧ node_id m = node_id b.
Proof.
  destruct group as [|x [|y r]]; simpl.
  - by intros ?%not_elem_of_nil.
  - intros ->%list_elem_of_singleton. exists x. split; [by left|done].
  - intros ->%list_elem_of_singleton. apply merge_variant_group_origin.
Qed.

Lemma coalesce_variants_origin l m :
  m ∈ coalesce_variants l ->
  exists b, b ∈ l ∧ filename m = filename b ∧ node_id m = node_id b.
Proof.
  unfold coalesce_variants. cbv zeta. intros [Hm|Hm]%elem_of_app.
  - apply list_elem_of_filter in Hm as [_ Hm]. by exists m.
  - apply list_elem_of_In, in_flat_map in Hm as (kv & Hkv & Hm).
    apply list_elem_of_In in Hkv, Hm.
    apply coalesce_group_origin in Hm as (b & Hb & Hf & Hn).
    exists b. split; [|done].
    assert (b ∈ concat (group_by variant_key_or
                          (filter (fun m => is_passthrough m = false) l)).*2) as Hc.
    { apply elem_of_concat. exists kv.2. split; [|done].
      apply list_elem_of_fmap. by exists kv. }
    rewrite group_by_perm in Hc. by apply list_elem_of_filter in Hc as [_ Hc].
Qed.

Lemma dedupe_by_name_named l m :
  m ∈ dedupe_by_name l -> m ∈ l ∧ truthy (filename m) = true.
Proof.
  intros Hm. unfold dedupe_by_name in Hm. cbv zeta in Hm.
  eapply elem_of_submseteq in Hm; [|apply dedupe_groups_submseteq].
  rewrite group_by_perm in Hm. apply list_elem_of_filter in Hm as [Hn Hm].
  split; [done|]. apply lower_nonempty in Hn. by destruct (filename m).
Qed.

Lemma normalize_precision_name pref m :
  truthy (filename m) = true ->
  node_id (normalize_precision pref m) = node_id m
  ∧ truthy (filename (normalize_precision pref m)) = true
  ∧ (filename (normalize_precision pref m) = filename m
     ∨ filename (normalize_precision pref m)
       = Some (_swap_nunchaku_precision (or_empty (filename m)) pref)).
Proof.
  intros Hn. split; [apply normalize_precision_node_id|].
  unfold normalize_precision. cbv zeta.
  destruct (_is_nunchaku_svdq_name _); [|by auto].
  destruct (nonempty (_swap_nunchaku_precision _ _)) eqn:Ht; simpl; [|by auto].
  destruct (bool_decide _); [by auto|].
  destruct (truthy (requested_path m)); simpl; auto.
Qed.

(** X12.  Reconciliation invents no reference: each one it hands to the
    local check has a non-empty file name and stems from an extracted
    reference of the same node, whose file name it bears, as it stands or
    with the precision token swapped for the preferred one. *)
Theorem reconcile_invents_nothing pref l m :
  m ∈ reconcile pref l ->
  truthy (filename m) = true
  ∧ exists b, b ∈ l ∧ node_id m = node_id b
              ∧ (filename m = filename b
                 ∨ filename m = Some (_swap_nunchaku_precision (or_empty (filename b))
                                        pref)).
Proof.
  unfold reconcile. intros Hm.
  eapply elem_of_submseteq in Hm;
    [|apply sublist_submseteq, unique_by_identity_sublist].
  apply list_elem_of_fmap in Hm as (d & -> & Hd).
  apply dedupe_by_name_named in Hd as [Hd Hname].
  apply coalesce_variants_origin in Hd as (b & Hb & Hf & Hn).
  destruct (normalize_precision_name pref d Hname) as (Hid & Ht & Hfn).
  split; [exact Ht|]. exists b. split_and!; [done|congruence|].
  rewrite <- Hf. exact Hfn.
Qed.

Lemma coalesce_groups_length {K} (g : list (K * list Model)) :
  length (flat_map (fun kv => coalesce_group kv.2) g) <= length (concat g.*2).
Proof.
  induction g as [|[k xs] g IH]; simpl; [done|]. csimpl.
  rewrite !length_app. change (list_fmap _ _ snd g) with (g.*2).
  destruct xs as [|x [|y r]]; simpl; change (list_fmap _ _ snd g) with (g.*2); lia.
Qed.

Lemma filter_split_length {A} (p : A -> bool) (l : list A) :
  length (filter (fun x => p x = true) l) + length (filter (fun x => p x = false) l)
  = length l.
Proof.
  induction l as [|x l IH]; [done|].
  destruct (p x) eqn:Hp.
  - rewrite filter_cons_True, filter_cons_False by (by rewrite ?Hp). simpl. lia.
  - rewrite filter_cons_False, filter_cons_True by (by rewrite ?Hp). simpl. lia.
Qed.

Lemma coalesce_variants_length l : length (coalesce_variants l) <= length l.
Proof.
  unfold coalesce_variants. cbv zeta. rewrite length_app.
  pose proof (coalesce_groups_length
                (group_by variant_key_or (filter (fun m => is_passthrough m = false) l))).
  rewrite group_by_perm in H.
  pose proof (filter_split_length is_passthrough l). lia.
Qed.

(** X13.  No two references handed to the local check agree in file
    name and node, and reconciliation never hands on more references than
    were extracted. *)
Theorem reconcile_distinct pref l :
  NoDup (map identity_key (reconcile pref l))
  ∧ length (reconcile pref l) <= length l.
Proof.
  unfold reconcile. split; [apply unique_by_identity_keys|].
  etrans; [apply sublist_length, unique_by_identity_sublist|].
  rewrite length_map.
  etrans; [apply submseteq_length, dedupe_by_name_submseteq|].
  apply coalesce_variants_length.
Qed.

(** *** Lists without repeats *)

Lemma dedupe_strings_spec seen l :
  NoDup (dedupe_strings seen l)
  ∧ forall x, x ∈ dedupe_strings seen l <-> x ∈ l ∧ x ∉ seen.
Proof.
  revert seen. induction l as [|y l IH]; intros seen; simpl.
  - split; [constructor|]. intros x. split; [by intros ?%not_elem_of_nil|].
    by intros [?%not_elem_of_nil _].
  - unfold str_in. case_bool_decide as Hy.
    + destruct (IH seen) as [Hnd Hin]. split; [done|]. intros x. rewrite Hin.
      rewrite elem_of_cons. split; [naive_solver|].
      intros [[->|Hx] Hs]; [done|by split].
    + destruct (IH (y :: seen)) as [Hnd Hin]. split.
      * apply NoDup_cons. split; [|done]. rewrite Hin. intros [_ Hn].
        apply Hn. by left.
      * intros x. rewrite !elem_of_cons, Hin, elem_of_cons.
        split; [intros [->|[Hx Hs]]; [by auto|]; split; [by auto|tauto]|].
        intros [[->|Hx] Hs]; [by left|].
        destruct (decide (x = y)) as [->|Hne]; [by left|right].
        split; [done|]. intros [?|?]; done.
Qed.

Lemma drop_while_suffix {A} (p : A -> bool) l :
  exists k, l = k ++ drop_while p l.
Proof.
  induction l as [|x l [k IH]]; simpl; [by exists []|].
  destruct (p x); [|by exists []]. exists (x :: k). simpl. by f_equal.
Qed.

Lemma drop_while_stops {A} (p : A -> bool) l :
  match drop_while p l with x :: _ => p x = false | [] => True end.
Proof.
  induction l as [|x l IH]; simpl; [done|]. by destruct (p x) eqn:Hp.
Qed.

(** [strip] of a stripped string changes nothing. *)
Lemma strip_with_idem p s : strip_with p (strip_with p s) = strip_with p s.
Proof.
  unfold strip_with. rewrite chars_str.
  set (d := drop_while p (chars s)).
  set (e := drop_while p (rev d)).
  destruct (drop_while_suffix p (rev d)) as [k Hk]. fold e in Hk.
  assert (Hd : d = rev e ++ rev k).
  { rewrite <- (rev_involutive d), Hk, rev_app_distr. done. }
  pose proof (drop_while_stops p (chars s)) as Hhead. fold d in Hhead.
  pose proof (drop_while_stops p (rev d)) as Hlast. fold e in Hlast.
  assert (drop_while p (rev e) = rev e) as ->.
  { apply drop_while_head. rewrite Hd in Hhead.
    destruct (rev e) as [|x r]; [done|]. exact Hhead. }
  rewrite rev_involutive. by rewrite (drop_while_head p e Hlast).
Qed.

Lemma elem_of_iter_registry_urls entry u :
  u ∈ _iter_registry_urls entry <->
  nonempty u = true
  ∧ (exists raw, (e_url entry = Some raw ∨ raw ∈ e_extra_urls entry)
                 ∧ u = str_strip raw).
Proof.
  unfold _iter_registry_urls.
  rewrite (proj2 (dedupe_strings_spec [] _)), elem_of_app, list_elem_of_omap.
  split.
  - intros [[Hu|(raw & Hraw & Hsome)] _].
    + destruct (truthy (e_url entry) && _) eqn:Hc; [|by apply not_elem_of_nil in Hu].
      apply list_elem_of_singleton in Hu as ->.
      apply andb_true_iff in Hc as [Ht Hn]. split; [done|].
      destruct (e_url entry) as [raw|]; [|done]. exists raw. split; [by left|done].
    + destruct (nonempty raw && nonempty (str_strip raw)) eqn:Hc; [|done].
      injection Hsome as <-. apply andb_true_iff in Hc as [_ Hn].
      split; [done|]. exists raw. split; [by right|done].
  - intros (Hn & raw & [He|Hin] & ->); (split; [|by intros ?%not_elem_of_nil]).
    + left. rewrite He. simpl. rewrite (nonempty_strip_nonempty _ Hn), Hn. simpl.
      by left.
    + right. exists raw. split; [done|].
      by rewrite (nonempty_strip_nonempty _ Hn), Hn.
Qed.

(** X14.  The candidate URLs of a registry entry hold no repeat, and
    they are exactly the non-blank ones among the URL of the entry and its
    further URLs, each with the white space around it removed; stripping
    one again changes nothing. *)
Theorem registry_urls_distinct_and_stripped entry :
  NoDup (_iter_registry_urls entry)
  ∧ (forall u, u ∈ _iter_registry_urls entry <->
       nonempty u = true
       ∧ exists raw, (e_url entry = Some raw ∨ raw ∈ e_extra_urls entry)
                     ∧ u = str_strip raw)
  ∧ Forall (fun u => str_strip u = u) (_iter_registry_urls entry).
Proof.
  split_and!.
  - apply dedupe_strings_spec.
  - apply elem_of_iter_registry_urls.
  - apply Forall_forall. intros u Hu.
    apply elem_of_iter_registry_urls in Hu as (_ & raw & _ & ->).
    apply strip_with_idem.
Qed.

(** *** Quantized alternatives *)

Lemma fold_left_inv {A B} (f : B -> A -> B) (I : B -> Prop) l b :
  I b -> (forall b x, x ∈ l -> I b -> I (f b x)) -> I (fold_left f l b).
Proof.
  revert b. induction l as [|x l IH]; intros b Hb Hf; simpl; [done|].
  apply IH.
  - apply Hf; [by left|done].
  - intros b' y Hy. apply Hf. by right.
Qed.

(** X15.  The alternatives offered for a missing file.  None is offered
    for a GGUF or an SVDQ file.  Each one offered is read off an entry of
    one of the registries; it is a quantization variant with the canonical
    base of the missing file, bears another name, and is itself neither a
    GGUF nor an SVDQ file.  No name is offered twice, letter case aside. *)
Theorem quantized_alternatives_sound env fname registries :
  let alts := find_quantized_alternatives env fname registries in
  (endswith (str_lower fname) ".gguf" || contains "svdq" (str_lower fname) = true ->
   alts = [])
  ∧ NoDup (map (fun a => str_lower (alt_filename a)) alts)
  ∧ Forall (fun a => alternative_of fname a ∧ alternative_from registries a) alts.
Proof.
  cbv zeta. unfold find_quantized_alternatives. cbv zeta.
  destruct (endswith (str_lower fname) ".gguf" || contains "svdq" (str_lower fname))
    eqn:Hskip.
  { split_and!; [done|constructor|constructor]. }
  split; [done|].
  destruct (negb (nonempty (canonicalize_model_base fname))).
  { split; constructor. }
  set (items := flat_map _ registries).
  assert (Hitems : forall src entry, (src, entry) ∈ items ->
            exists model_map key, (src, model_map) ∈ registries
                                  ∧ (key, entry) ∈ model_map).
  { intros src entry Hin. subst items.
    apply list_elem_of_In, in_flat_map in Hin as ([src' model_map] & Hreg & Hin).
    apply in_map_iff in Hin as ([key entry'] & [= <- <-] & Hin).
    exists model_map, key. split; by apply list_elem_of_In. }
  match goal with |- context [fold_left ?f items ?b] =>
    apply (fold_left_inv f
             (fun acc => (NoDup (map (fun a => str_lower (alt_filename a)) acc.1)
                          ∧ Forall (fun a => alternative_of fname a
                                             ∧ alternative_from registries a) acc.1)
                         ∧ forall x, x ∈ acc.2 <->
                                     x ∈ map (fun a => str_lower (alt_filename a)) acc.1)
             items b) end.
  { split; [split; constructor|done]. }
  intros [alts seen] [src entry] Hin [[Hnd Hall] Hseen]. cbn [fst snd] in *.
  destruct (negb (nonempty (e_filename entry))); [done|].
  unfold str_in.
  destruct (bool_decide (str_lower (e_filename entry) ∈ seen)) eqn:Hs; [done|].
  apply bool_decide_eq_false in Hs.
  destruct (bool_decide (str_lower (e_filename entry) = str_lower fname)) eqn:Hsame;
    [done|].
  apply bool_decide_eq_false in Hsame. cbn [orb].
  destruct (endswith (str_lower (e_filename entry)) ".gguf") eqn:Hg; [done|].
  destruct (contains "svdq" (str_lower (e_filename entry))) eqn:Hq; [done|].
  cbn [orb].
  destruct (bool_decide (canonicalize_model_base (e_filename entry)
                         = canonicalize_model_base fname)) eqn:Hc; [|done].
  apply bool_decide_eq_true in Hc. cbn [negb].
  destruct (is_quant_variant_filename (e_filename entry)) eqn:Hv; [|done].
  cbn [negb fst snd]. split; [split|].
  - rewrite map_app. cbn [map alt_filename]. apply NoDup_app. split_and!; [done| |].
    + intros x Hx ->%list_elem_of_singleton. by apply Hs, Hseen.
    + apply NoDup_singleton.
  - apply Forall_app. split; [done|]. constructor; [|constructor].
    split; [by repeat split|].
    destruct (Hitems src entry Hin) as (model_map & key & Hreg & Hkey).
    by exists src, model_map, key, entry.
  - intros x. rewrite map_app, elem_of_cons, elem_of_app, Hseen. cbn [map alt_filename].
    rewrite list_elem_of_singleton. tauto.
Qed.

(** *** Search terms and workflow keywords *)

Lemma add_term_wf terms term :
  terms_wf 4 terms -> terms_wf 4 (add_term terms term) ∧ terms `prefix_of` add_term terms term.
Proof.
  intros [Hnd Hall]. unfold add_term.
  destruct (negb (nonempty term)); [by split|]. cbv zeta.
  destruct (str_len (str_strip term) <? 4)%nat eqn:Hlen; [by split|].
  unfold str_in. case_bool_decide as Hin; [by split|]. cbn [orb].
  apply Nat.ltb_ge in Hlen. split; [split|by eexists].
  - apply NoDup_app. split_and!; [done| |apply NoDup_singleton].
    by intros x Hx ->%list_elem_of_singleton.
  - apply Forall_app. split; [done|]. constructor; [|constructor].
    split; [done|apply strip_with_idem].
Qed.

Lemma build_search_terms_wf name : terms_wf 4 (build_search_terms name).
Proof.
  unfold build_search_terms. cbv zeta.
  assert (H0 : terms_wf 4 []) by (split; constructor).
  pose proof (proj1 (add_term_wf [] name H0)) as H1.
  pose proof (proj1 (add_term_wf _ (splitext name).1 H1)) as H2.
  pose proof (proj1 (add_term_wf _ (replace_char "_" "-" (splitext name).1) H2)) as H3.
  pose proof (proj1 (add_term_wf _ (replace_char "-" "_" (splitext name).1) H3)) as H4.
  set (t4 := add_term _ (replace_char "-" "_" (splitext name).1)) in *.
  set (tokens := name_tokens (splitext name).1).
  assert (H5 : terms_wf 4 (if (2 <=? length tokens)%nat
                           then add_term t4 (join "-" (take 2 tokens)) else t4)).
  { destruct (2 <=? length tokens)%nat; [by apply add_term_wf|done]. }
  destruct (3 <=? length tokens)%nat; [by apply add_term_wf|done].
Qed.

Lemma fold_add_term_wf (f : string -> string) tokens terms :
  terms_wf 4 terms ->
  terms_wf 4 (fold_left (fun terms t => add_term terms (f t)) tokens terms)
  ∧ terms `prefix_of` fold_left (fun terms t => add_term terms (f t)) tokens terms.
Proof.
  revert terms. induction tokens as [|t tokens IH]; intros terms Hwf; simpl.
  - by split.
  - destruct (add_term_wf terms (f t) Hwf) as [Hwf' Hpre].
    destruct (IH _ Hwf') as [Hwf'' Hpre']. split; [done|]. by etrans.
Qed.

(** X16.  The terms sent to the hub for a file name: no term is sent
    twice, each is at least four characters long and has no white space
    around it.  The terms tried under a priority author start with the
    general ones. *)
Theorem search_terms_wf name :
  terms_wf 4 (build_search_terms name)
  ∧ terms_wf 4 (build_author_search_terms name)
  ∧ build_search_terms name `prefix_of` build_author_search_terms name.
Proof.
  split; [apply build_search_terms_wf|].
  unfold build_author_search_terms.
  apply (fold_add_term_wf (fun t => str_lower (remove_chars is_digit t))).
  apply build_search_terms_wf.
Qed.

Lemma insert_desc_perm {A} (key : A -> nat) x l : insert_desc key x l ≡ₚ x :: l.
Proof.
  induction l as [|y l IH]; simpl; [done|].
  destruct (key y <=? key x)%nat; [done|]. rewrite IH. apply Permutation_swap.
Qed.

Lemma sort_desc_perm {A} (key : A -> nat) l : sort_desc key l ≡ₚ l.
Proof.
  unfold sort_desc. induction l as [|x l IH]; simpl; [done|].
  by rewrite insert_desc_perm, IH.
Qed.

Lemma assoc_set_keys {V} k (v : V) l :
  (assoc_set k v l).*1 = if bool_decide (k ∈ l.*1) then l.*1 else l.*1 ++ [k].
Proof.
  induction l as [|[k' v'] l IH].
  - case_bool_decide as Hin; [by apply not_elem_of_nil in Hin|done].
  - cbn [assoc_set]. destruct (bool_decide (k = k')) eqn:Hk.
    + apply bool_decide_eq_true in Hk as ->. rewrite !fmap_cons. cbn [fst].
      clear IH. case_bool_decide as Hin; [done|]. exfalso. apply Hin. by left.
    + apply bool_decide_eq_false in Hk. rewrite !fmap_cons, IH. cbn [fst]. clear IH.
      repeat case_bool_decide; try done.
      * exfalso. match goal with H : k ∉ _ :: _ |- _ => apply H end. by right.
      * exfalso. match goal with H : k ∈ _ :: _ |- _ =>
                   apply elem_of_cons in H as [?|?] end; done.
Qed.

Lemma count_keyword_wf counts k :
  3 <= str_len k ->
  NoDup counts.*1 ∧ Forall (fun t => 3 <= str_len t) counts.*1 ->
  NoDup (count_keyword counts k).*1
  ∧ Forall (fun t => 3 <= str_len t) (count_keyword counts k).*1.
Proof.
  intros Hk [Hnd Hall]. unfold count_keyword. rewrite assoc_set_keys.
  case_bool_decide as Hin; [done|]. split.
  - apply NoDup_app. split_and!; [done| |apply NoDup_singleton].
    by intros x Hx ->%list_elem_of_singleton.
  - apply Forall_app. split; [done|]. by repeat constructor.
Qed.

(** X17.  The workflow keywords that bias the order of the repositories:
    at most ten, no keyword twice, each at least three characters long. *)
Theorem workflow_keywords_bounded required_models :
  length (workflow_keywords_of required_models) <= 10
  ∧ NoDup (workflow_keywords_of required_models)
  ∧ Forall (fun k => 3 <= str_len k) (workflow_keywords_of required_models).
Proof.
  unfold workflow_keywords_of. cbv zeta.
  match goal with |- context [fold_left ?f required_models ?b] =>
    pose proof (fold_left_inv f
      (fun counts => NoDup counts.*1 ∧ Forall (fun t => 3 <= str_len t) counts.*1)
      required_models b) as Hinv; set (counts := fold_left f required_models b) in * end.
  assert (Hc : NoDup counts.*1 ∧ Forall (fun t => 3 <= str_len t) counts.*1).
  { apply Hinv; [split; constructor|].
    intros acc model _ Hacc. cbv zeta.
    destruct (negb (nonempty _)); [done|].
    apply fold_left_inv; [done|].
    intros acc' t0 _ Hacc'. cbv zeta.
    destruct (str_len (str_lower (str_strip t0)) <? 3)%nat eqn:Hlen; [done|].
    apply Nat.ltb_ge in Hlen.
    pose proof (count_keyword_wf acc' _ Hlen Hacc') as H1.
    destruct (3 <=? str_len (remove_chars is_digit (str_lower (str_strip t0))))%nat eqn:Ha;
      [|done].
    apply Nat.leb_le in Ha. by apply count_keyword_wf. }
  clearbody counts. clear Hinv. destruct Hc as [Hnd Hall].
  assert (Hperm : (sort_desc snd counts).*1 ≡ₚ counts.*1).
  { apply fmap_Permutation, sort_desc_perm. }
  change (map fst (take 10 (sort_desc snd counts)))
    with ((take 10 (sort_desc snd counts)).*1).
  rewrite fmap_take. split_and!.
  - rewrite length_take. lia.
  - eapply sublist_NoDup; [|apply sublist_take]. by rewrite Hperm.
  - apply Forall_take. by rewrite Hperm.
Qed.

(** *** Where extracted references come from *)


Lemma extracted_from_mono nodes nodes' m :
  (forall n, n ∈ nodes -> n ∈ nodes') -> extracted_from nodes m -> extracted_from nodes' m.
Proof. intros Hsub (node & Hin & H). exists node. split; [by apply Hsub|done]. Qed.

Section Provenance.
Variable lib : UrlLib.
Variable nodes : list Node.
Variable node : Node.
Hypothesis node_in : node ∈ nodes.
Hypothesis node_active : active_node node.




End Provenance.







(** *** URLs that come with the workflow *)

Lemma specific_url_has_repo lib u expected :
  is_specific_model_file_url lib u expected = true ->
  exists hf_repo hf_path,
    extract_hf_repo_and_path lib u = Some (hf_repo, hf_path)
    ∧ nonempty hf_repo = true ∧ nonempty hf_path = true.
Proof.
  unfold is_specific_model_file_url.
  destruct (extract_hf_repo_and_path lib u) as [[r p]|]; [|done].
  intros H. exists r, p.
  apply andb_true_iff in H as [H _]. apply andb_true_iff in H as [Hr Hp]. done.
Qed.

(** X19.  After the step that looks at the URL a reference came with, a
    reference that still has a URL has the one it came with, and this URL
    names a model file of a repository: the reference then has a source
    and a repository.  A URL that names no model file is dropped, together
    with the repository and the path that went with it. *)
Theorem workflow_url_kept_only_if_specific env m :
  let m' := enrich_workflow_url env m in
  (truthy (url m') = true ->
   url m' = url m
   ∧ is_specific_model_file_url (env_lib env) (or_empty (url m)) None = true
   ∧ truthy (source m') = true ∧ truthy (hf_repo m') = true)
  ∧ (truthy (url m) = true ->
     is_specific_model_file_url (env_lib env) (or_empty (url m)) None = false ->
     url m' = None ∧ hf_repo m' = None ∧ hf_path m' = None).
Proof.
  cbv zeta. unfold enrich_workflow_url. cbv zeta.
  destruct (truthy (url m)) eqn:Hu.
  - destruct (is_specific_model_file_url (env_lib env) (or_empty (url m)) None) eqn:Hs.
    + cbn [andb negb]. rewrite Hu. cbn [andb].
      destruct (specific_url_has_repo _ _ _ Hs) as (r & p & He & Hr & Hp).
      split; [|done]. intros _.
      destruct (truthy (source m)) eqn:Hsrc; cbn [negb];
        destruct (truthy (hf_repo m)) eqn:Hrepo;
        cbn [url source hf_repo set_source]; rewrite ?Hu, ?Hrepo; cbn [andb negb];
        rewrite ?He; cbn [url source hf_repo set_source set_hf_path set_hf_repo];
        rewrite ?Hr, ?Hsrc, ?Hrepo; done.
    + cbn [andb negb]. split; [|intros _ _].
      * destruct (bool_decide _); cbn; by intros [=].
      * destruct (bool_decide _); cbn; done.
  - cbn [andb]. rewrite Hu. cbn [andb]. rewrite Hu. cbn [andb]. rewrite Hu.
    split; by intros [=].
Qed.

(** *** The destination folder of a requested path *)

Lemma norm_slashes_app a b : norm_slashes (a +:+ b) = norm_slashes a +:+ norm_slashes b.
Proof. induction a as [|c a IH]; simpl; [done|]. by rewrite IH. Qed.

Lemma norm_slashes_no_backslash s c :
  In c (chars (norm_slashes s)) -> ascii_eqb c ch_backslash = false.
Proof.
  induction s as [|d s IH]; simpl; [done|]. intros [<-|Hin]; [|by apply IH].
  destruct (ascii_eqb d ch_backslash) eqn:Hd; [reflexivity|exact Hd].
Qed.

Lemma norm_slashes_id s :
  (forall c, In c (chars s) -> ascii_eqb c ch_backslash = false) -> norm_slashes s = s.
Proof.
  induction s as [|d s IH]; simpl; [done|]. intros H.
  rewrite (H d (or_introl eq_refl)). f_equal. apply IH. intros c Hc. apply H. by right.
Qed.

Lemma drop_while_In {A} (p : A -> bool) l x : In x (drop_while p l) -> In x l.
Proof.
  induction l as [|y l IH]; simpl; [done|]. destruct (p y); [|done].
  intros H. right. by apply IH.
Qed.

Lemma strip_with_In p s c : In c (chars (strip_with p s)) -> In c (chars s).
Proof.
  unfold strip_with. rewrite chars_str. intros H%in_rev.
  apply drop_while_In in H. apply in_rev in H. by apply drop_while_In in H.
Qed.

Lemma before_last_slash_In s c : In c (chars (before_last_slash s)) -> In c (chars s).
Proof.
  unfold before_last_slash. rewrite chars_str. intros H%in_rev.
  apply in_rev. destruct (drop_while _ _) as [|x r] eqn:Hd; [done|].
  apply (drop_while_In (fun c => negb (is_slash c))). rewrite Hd. by right.
Qed.

Lemma is_prefix_app l r : is_prefix l (l ++ r) = true.
Proof.
  induction l as [|c l IH]; simpl; [done|]. rewrite IH.
  unfold ascii_eqb. by rewrite Ascii.eqb_refl.
Qed.

Lemma endswith_app a b : endswith (a +:+ b) b = true.
Proof. unfold endswith. rewrite chars_app, rev_app_distr. apply is_prefix_app. Qed.

Lemma adopt_requested_subfolder_cases m :
  adopt_requested_subfolder m = m
  ∨ exists base,
      let normalized := strip_slashes (norm_slashes (or_empty (requested_path m))) in
      let subfolder := before_last_slash normalized in
      negb (truthy (requested_path m)) = false
      ∧ negb (contains "/" normalized) = false
      ∧ negb (nonempty subfolder) = false
      ∧ adopt_requested_subfolder m
        = set_suggested_folder (Some (base +:+ "/" +:+ subfolder)) m.
Proof.
  unfold adopt_requested_subfolder. cbv zeta.
  destruct (negb (truthy (requested_path m))); [by left|].
  destruct (negb (contains "/" _)); [by left|].
  destruct (negb (nonempty _)); [by left|].
  destruct (endswith _ _); [by left|]. right. by eexists.
Qed.

(** X20.  Adopting the sub-folders of a requested path is done once:
    the step applied to its own result changes nothing, so the folder does
    not grow when the step is run again. *)
Theorem adopt_requested_subfolder_idem m :
  adopt_requested_subfolder (adopt_requested_subfolder m) = adopt_requested_subfolder m.
Proof.
  destruct (adopt_requested_subfolder_cases m) as [Heq|(base & Hrp & Hc & Hs & Heq)].
  { by rewrite !Heq. }
  cbv zeta in *. rewrite Heq.
  set (normalized := strip_slashes (norm_slashes (or_empty (requested_path m)))) in *.
  set (subfolder := before_last_slash normalized) in *.
  unfold adopt_requested_subfolder.
  change (requested_path (set_suggested_folder _ m)) with (requested_path m).
  rewrite Hrp. cbv zeta. fold normalized. rewrite Hc. fold subfolder. rewrite Hs.
  change (suggested_folder (set_suggested_folder ?v m)) with v.
  assert (Hne : nonempty (base +:+ "/" +:+ subfolder) = true).
  { apply nonempty_app_r. reflexivity. }
  assert (Hsub : norm_slashes subfolder = subfolder).
  { apply norm_slashes_id. intros c Hin.
    apply before_last_slash_In in Hin. unfold normalized, strip_slashes in Hin.
    apply strip_with_In in Hin. by apply norm_slashes_no_backslash in Hin. }
  cbn [truthy or_empty default id]. rewrite Hne.
  rewrite !norm_slashes_app, Hsub.
  replace (norm_slashes base +:+ norm_slashes "/" +:+ subfolder)
    with ((norm_slashes base +:+ norm_slashes "/") +:+ subfolder)
    by (by rewrite str_append_assoc).
  by rewrite endswith_app.
Qed.

(** *** Links in the shorthand form *)

Lemma split_chars_piece p cur piece rest :
  forallb (fun c => negb (p c)) piece = true ->
  split_chars p cur (piece ++ rest) = split_chars p (rev piece ++ cur) rest.
Proof.
  revert cur. induction piece as [|c piece IH]; intros cur H; simpl in *; [done|].
  apply andb_true_iff in H as [Hc H]. apply negb_true_iff in Hc. rewrite Hc.
  rewrite IH by done. by rewrite <- app_assoc.
Qed.

Lemma chars_join_cons sep x y r :
  chars (join sep (x :: y :: r)) = chars x ++ chars sep ++ chars (join sep (y :: r)).
Proof. cbn [join]. by rewrite !chars_app. Qed.

Lemma split_join parts :
  parts ≠ [] -> Forall slash_free parts -> split_on "/" (join "/" parts) = parts.
Proof.
  unfold split_on. intros Hne Hall. induction Hall as [|x r Hx Hr IH]; [done|].
  destruct r as [|y r].
  - cbn [join]. rewrite <- (app_nil_r (chars x)).
    rewrite split_chars_piece by exact Hx. simpl.
    by rewrite app_nil_r, rev_involutive, str_chars.
  - rewrite chars_join_cons, split_chars_piece by exact Hx.
    change (chars "/") with ["/"%char]. cbn [app split_chars].
    change (ascii_eqb "/" "/") with true. cbv iota.
    rewrite app_nil_r, rev_involutive, str_chars. f_equal. by apply IH.
Qed.

Lemma join_snoc sep pre x :
  pre ≠ [] -> join sep (pre ++ [x]) = join sep pre +:+ sep +:+ x.
Proof.
  induction pre as [|a pre IH]; [done|]. intros _.
  destruct pre as [|b pre]; [done|].
  change ((a :: b :: pre) ++ [x]) with (a :: (b :: pre) ++ [x]).
  change (join sep (a :: (b :: pre) ++ [x]))
    with (a +:+ sep +:+ join sep ((b :: pre) ++ [x])).
  rewrite IH by done. cbn [join]. by rewrite !str_append_assoc.
Qed.

Lemma strip_slashes_id s :
  match chars s with c :: _ => is_slash c = false | [] => True end ->
  match rev (chars s) with c :: _ => is_slash c = false | [] => True end ->
  strip_slashes s = s.
Proof.
  intros Hhead Hlast. unfold strip_slashes, strip_with.
  rewrite (drop_while_head _ (chars s) Hhead), (drop_while_head _ _ Hlast).
  by rewrite rev_involutive, str_chars.
Qed.

Lemma forallb_rev_eq {A} (p : A -> bool) l : forallb p (rev l) = forallb p l.
Proof.
  induction l as [|x l IH]; simpl; [done|].
  rewrite forallb_app, IH. simpl. rewrite andb_true_r. apply andb_comm.
Qed.

(** X21.  A link in the shorthand form [user/repo/resolve/revision/...]
    is taken apart into what it was put together from: the repository is
    [user/repo], the revision is the component after [resolve], the file
    is the last component and the sub-folder what lies between, absent
    when nothing does. *)
Theorem parse_link_resolve_round_trip lib user repo revision dirs file :
  let parts := [user; repo; "resolve"; revision] ++ dirs ++ [file] in
  Forall slash_free parts ->
  nonempty user = true -> nonempty file = true ->
  user ≠ "resolve" -> repo ≠ "resolve" ->
  (urlparse lib (join "/" parts)).1 = "" ->
  parse_link lib (join "/" parts)
  = Some (mkParsedLink (user +:+ "/" +:+ repo) (Some revision)
            (match dirs with [] => None | _ => Some (join "/" dirs) end)
            (Some file)).
Proof.
  cbv zeta. intros Hall Hu Hf Hur Hrr Hscheme.
  set (parts := [user; repo; "resolve"; revision] ++ dirs ++ [file]) in *.
  assert (Hstrip : strip_slashes (join "/" parts) = join "/" parts).
  { apply strip_slashes_id.
    - subst parts. change ([user; repo; "resolve"; revision] ++ dirs ++ [file])
        with (user :: repo :: ("resolve" :: revision :: dirs ++ [file])).
      rewrite chars_join_cons.
      apply Forall_cons in Hall as [Hus _]. unfold slash_free in Hus.
      destruct user as [|c user]; [done|]. simpl in *.
      apply andb_true_iff in Hus as [Hc _]. by apply negb_true_iff in Hc.
    - subst parts. rewrite app_assoc, join_snoc by (cbn [app]; by intros [=]).
      rewrite !chars_app, !rev_app_distr.
      assert (slash_free file) as Hfs.
      { rewrite Forall_forall in Hall. apply Hall.
        rewrite !elem_of_app. right. right. by left. }
      unfold slash_free in Hfs. rewrite <- forallb_rev_eq in Hfs.
      destruct (rev (chars file)) as [|c r] eqn:Hr.
      { apply (f_equal (@rev _)) in Hr. rewrite rev_involutive in Hr.
        destruct file; [done|]. simpl in Hr. discriminate. }
      simpl in *. apply andb_true_iff in Hfs as [Hc _]. by apply negb_true_iff in Hc. }
  unfold parse_link. destruct (urlparse lib (join "/" parts)) as [scheme path].
  simpl in Hscheme. subst scheme. cbn [nonempty]. rewrite Hstrip.
  rewrite split_join by (done || by subst parts).
  subst parts. cbn [app]. cbn [index_of].
  rewrite (bool_decide_eq_false_2 ("resolve" = user)) by done.
  rewrite (bool_decide_eq_false_2 ("resolve" = repo)) by done.
  rewrite bool_decide_eq_true_2 by done.
  cbn [fmap option_fmap option_map]. unfold parse_after. cbv zeta.
  cbn [Nat.add drop lookup list_lookup].
  change (drop 0 (dirs ++ [file])) with (dirs ++ [file]).
  destruct dirs as [|d dirs]; [done|].
  change ((d :: dirs) ++ [file]) with (d :: (dirs ++ [file])).
  destruct (dirs ++ [file]) as [|x r] eqn:Hd; [by destruct dirs|].
  cbv beta iota. rewrite <- Hd.
  change (d :: dirs ++ [file]) with ((d :: dirs) ++ [file]).
  by rewrite removelast_last, last_last.
Qed.

(** *** Where the local check finds a file *)

Lemma search_roots_hit fs fname fuzzy roots p root :
  search_roots fs fname fuzzy roots = Some (p, root) ->
  root ∈ roots ∧ search_root fs fname fuzzy root = Some p.
Proof.
  induction roots as [|r roots IH]; simpl; [done|].
  destruct (search_root fs fname fuzzy r) as [q|] eqn:Hr.
  - intros [= <- <-]. split; [by left|done].
  - intros H. destruct (IH H) as [Hin Hs]. split; [by right|done].
Qed.

Lemma search_root_exact fs fname root p :
  search_root fs fname false root = Some p ->
  fs_exists fs root = true
  ∧ (p = path_join root fname ∧ fs_exists fs p = true
     ∨ exists entry, entry ∈ fs_walk fs root ∧ fname ∈ entry.2
                     ∧ p = path_join entry.1.1 fname).
Proof.
  unfold search_root. destruct (fs_exists fs root); [|done]. cbn [negb]. cbv zeta.
  destruct (fs_exists fs (path_join root fname)) eqn:He.
  { intros [= <-]. split; [done|]. by left. }
  unfold recursive_find_file.
  destruct (List.find _ (fs_walk fs root)) as [entry|] eqn:Hf; [|done].
  destruct (nonempty _); [|done]. intros [= <-]. split; [done|]. right.
  apply find_some in Hf as [Hin Hb]. exists entry.
  split_and!; [by apply list_elem_of_In| |done].
  unfold str_in in Hb. by apply bool_decide_eq_true in Hb.
Qed.

Lemma search_root_exists fs fname fuzzy root p :
  search_root fs fname fuzzy root = Some p -> fs_exists fs root = true.
Proof. unfold search_root. by destruct (fs_exists fs root). Qed.

(** X22.  A file the local check locates lies under a storage root of
    the folder type of the reference that exists on disk, and its path is
    not empty.  Unless the name is an extension-less SVDQ identifier, the
    path ends in the file name asked for: it is that name joined to the
    root, and exists, or joined to a directory of the walk of the root that
    lists the name. *)
Theorem located_under_existing_root fs m p root :
  locate fs m = Some (p, root) ->
  root ∈ search_paths_for fs (default "checkpoints" (suggested_folder m))
  ∧ fs_exists fs root = true ∧ nonempty p = true
  ∧ (_is_nunchaku_extensionless_identifier (filename m) = false ->
     p = path_join root (or_empty (filename m)) ∧ fs_exists fs p = true
     ∨ exists entry, entry ∈ fs_walk fs root ∧ or_empty (filename m) ∈ entry.2
                     ∧ p = path_join entry.1.1 (or_empty (filename m))).
Proof.
  unfold locate. cbv zeta.
  destruct (search_roots _ _ _ _) as [[q r]|] eqn:Hs; [|done].
  cbn [fst]. destruct (nonempty q) eqn:Hq; [|done]. intros [= -> ->].
  apply search_roots_hit in Hs as [Hin Hr].
  split_and!; [done|by eapply search_root_exists|done|].
  intros Hfuzzy. rewrite Hfuzzy in Hr. by apply search_root_exact in Hr as [_ Hr].
Qed.

(** *** The key of a file name *)

Lemma backslash_lower c :
  ascii_eqb (lower_ascii c) ch_backslash = ascii_eqb c ch_backslash.
Proof. destruct c as [[] [] [] [] [] [] [] []]; reflexivity. Qed.

Lemma str_lower_str l : str_lower (str l) = str (map lower_ascii l).
Proof. induction l as [|c l IH]; simpl; [done|]. by rewrite IH. Qed.

Lemma drop_while_map_lower p l :
  (forall c, p (lower_ascii c) = p c) ->
  drop_while p (map lower_ascii l) = map lower_ascii (drop_while p l).
Proof.
  intros Hp. induction l as [|c l IH]; simpl; [done|]. rewrite Hp.
  by destruct (p c).
Qed.

Lemma strip_lower s : str_strip (str_lower s) = str_lower (str_strip s).
Proof.
  unfold str_strip, strip_with. rewrite chars_lower, str_lower_str.
  rewrite drop_while_map_lower by apply is_space_lower.
  rewrite <- map_rev, drop_while_map_lower by apply is_space_lower.
  by rewrite map_rev.
Qed.

Lemma take_while_all_id {A} (p : A -> bool) l :
  (forall x, In x l -> p x = true) -> take_while p l = l.
Proof.
  induction l as [|x l IH]; simpl; [done|]. intros H.
  rewrite (H x (or_introl eq_refl)). f_equal. apply IH. intros y Hy. apply H. by right.
Qed.

Lemma basename_id s :
  (forall c, In c (chars s) -> is_slash c = false) -> basename s = s.
Proof.
  intros H. unfold basename, after_last_slash. rewrite take_while_all_id.
  - by rewrite rev_involutive, str_chars.
  - intros c Hc%in_rev. by rewrite (H c Hc).
Qed.

(** The characters of a key: none is a slash or a backslash. *)
Lemma normalize_filename_key_chars name c :
  In c (chars (normalize_filename_key name)) ->
  is_slash c = false ∧ ascii_eqb c ch_backslash = false.
Proof.
  unfold normalize_filename_key. rewrite chars_lower. intros H.
  apply in_map_iff in H as (d & <- & Hd).
  rewrite is_slash_lower, backslash_lower.
  apply strip_with_In, basename_In in Hd as [Hd Hs]. split; [done|].
  by apply norm_slashes_no_backslash in Hd.
Qed.

(** X23.  The key of a file name is a normal form: lower-case, without
    white space around it and without a path in front.  Taking the key of
    a key changes nothing, and the compact key of a name is that of its
    key. *)
Theorem normalize_filename_key_idem name :
  normalize_filename_key (normalize_filename_key name) = normalize_filename_key name
  ∧ normalize_filename_compact (normalize_filename_key name)
    = normalize_filename_compact name
  ∧ str_lower (normalize_filename_key name) = normalize_filename_key name
  ∧ str_strip (normalize_filename_key name) = normalize_filename_key name
  ∧ basename (normalize_filename_key name) = normalize_filename_key name.
Proof.
  assert (Hlow : str_lower (normalize_filename_key name) = normalize_filename_key name).
  { unfold normalize_filename_key. apply str_lower_idem. }
  assert (Hstrip : str_strip (normalize_filename_key name) = normalize_filename_key name).
  { unfold normalize_filename_key. rewrite strip_lower. f_equal. apply strip_with_idem. }
  assert (Hbase : basename (normalize_filename_key name) = normalize_filename_key name).
  { apply basename_id. intros c Hc. by destruct (normalize_filename_key_chars _ _ Hc). }
  assert (Hnorm : norm_slashes (normalize_filename_key name) = normalize_filename_key name).
  { apply norm_slashes_id. intros c Hc.
    by destruct (normalize_filename_key_chars _ _ Hc). }
  assert (Hidem : normalize_filename_key (normalize_filename_key name)
                  = normalize_filename_key name).
  { unfold normalize_filename_key at 1. by rewrite Hnorm, Hbase, Hstrip, Hlow. }
  split_and!; [done| |done..].
  unfold normalize_filename_compact. by rewrite Hidem.
Qed.

(** *** The pre-fetch of the priority authors *)

Lemma assoc_set_fresh {V} k (v : V) l : k ∉ l.*1 -> assoc_set k v l = l ++ [(k, v)].
Proof.
  induction l as [|[k' v'] l IH]; intros Hk; [done|].
  rewrite fmap_cons in Hk. apply not_elem_of_cons in Hk as [Hne Hk].
  cbn [assoc_set]. rewrite bool_decide_eq_false_2 by done. by rewrite IH.
Qed.

Lemma imap_keys {V} (g : nat -> string -> V) l : (imap (fun i a => (a, g i a)) l).*1 = l.
Proof.
  revert g. induction l as [|a l IH]; intros g; [done|].
  rewrite imap_cons, fmap_cons. cbn [fst]. f_equal. apply (IH (fun i => g (S i))).
Qed.

Lemma n_calls_app tr1 tr2 : n_calls (tr1 ++ tr2) = n_calls tr1 + n_calls tr2.
Proof. unfold n_calls. by rewrite List.filter_app, length_app. Qed.

Lemma n_grants_app tr1 tr2 : n_grants (tr1 ++ tr2) = n_grants tr1 + n_grants tr2.
Proof. unfold n_grants. by rewrite List.filter_app, length_app. Qed.

(** A history made of one request for each author. *)
Lemma author_calls_counts new authors :
  Forall2 (fun e a => exists t, e = EvCall (ListModels None (Some a) 100) t) new authors ->
  n_calls (rev new) = length authors ∧ n_grants (rev new) = 0.
Proof.
  induction 1 as [|e a new authors (t & ->) _ [IHc IHg]]; [done|].
  cbn [rev]. rewrite n_calls_app, n_grants_app, IHc, IHg. cbn. split; lia.
Qed.

(** The loop of the pre-fetch: the [i]-th author gets the ids of the
    [i]-th answer from here on, or no id where that answer is an error. *)
Lemma prefetch_loop env authors acc w :
  NoDup authors -> (forall a, a ∈ authors -> a ∉ acc.*1) ->
  exists w' new,
    for_loop authors acc
      (fun author acc =>
         r <- attempt (remote_list_models env None (Some author) 100) ;;
         match r with
         | inl repos =>
             ret (Continue (assoc_set author
                              (filter (fun m => nonempty m = true) repos) acc)
                  : Step (list (string * list string)) unit)
         | inr _ => ret (Continue (assoc_set author [] acc))
         end) w
    = (inl (inl (acc ++ imap (fun i a =>
                   (a, match env_list_models env (remote_seq w + i) None (Some a) 100 with
                       | inl ids => filter (fun m => nonempty m = true) ids
                       | inr _ => []
                       end)) authors)), w')
    ∧ trace w' = rev new ++ trace w
    ∧ Forall2 (fun e a => exists t, e = EvCall (ListModels None (Some a) 100) t) new authors
    ∧ _hf_api_calls w' = _hf_api_calls w.
Proof.
  intros Hnd. revert acc w. induction Hnd as [|a authors Ha Hnd IH]; intros acc w Hdis.
  { exists w, []. cbn [for_loop imap]. rewrite app_nil_r. by split_and!. }
  cbn [for_loop]. unfold bind at 1. unfold bind at 1, attempt, remote_list_models.
  cbv zeta.
  set (w1 := advance _ (log_event _ w)).
  assert (Hw1 : trace w1 = EvCall (ListModels None (Some a) 100) (clock w) :: trace w
                ∧ remote_seq w1 = S (remote_seq w)
                ∧ _hf_api_calls w1 = _hf_api_calls w) by done.
  destruct Hw1 as (Ht1 & Hs1 & Ha1).
  rewrite imap_cons, Nat.add_0_r.
  set (v := match env_list_models env (remote_seq w) None (Some a) 100 with
            | inl ids => filter (fun m => nonempty m = true) ids
            | inr _ => []
            end).
  assert (Hstep : exists w' new,
            for_loop authors (assoc_set a v acc)
              (fun author acc =>
                 r <- attempt (remote_list_models env None (Some author) 100) ;;
                 match r with
                 | inl repos =>
                     ret (Continue (assoc_set author
                                      (filter (fun m => nonempty m = true) repos) acc)
                          : Step (list (string * list string)) unit)
                 | inr _ => ret (Continue (assoc_set author [] acc))
                 end) w1
            = (inl (inl (acc ++ (a, v) :: imap (fun i a =>
                   (a, match env_list_models env (remote_seq w + S i) None (Some a) 100 with
                       | inl ids => filter (fun m => nonempty m = true) ids
                       | inr _ => []
                       end)) authors)), w')
            ∧ trace w' = rev new ++ trace w
            ∧ Forall2 (fun e a => exists t, e = EvCall (ListModels None (Some a) 100) t)
                new (a :: authors)
            ∧ _hf_api_calls w' = _hf_api_calls w).
  { rewrite assoc_set_fresh by (apply Hdis; by left).
    destruct (IH (acc ++ [(a, v)]) w1) as (w' & new & Hrun & Ht & Hnew & Hcalls).
    - intros b Hb. rewrite fmap_app. intros [Hin|Hin]%elem_of_app.
      + revert Hin. apply Hdis. by right.
      + apply list_elem_of_singleton in Hin. cbn in Hin. by subst b.
    - exists w', (EvCall (ListModels None (Some a) 100) (clock w) :: new).
      split_and!.
      + rewrite Hrun, <- app_assoc. cbn [app]. do 5 f_equal.
        apply imap_ext. intros i b _. cbv beta. rewrite Hs1, Nat.add_succ_r. reflexivity.
      + rewrite Ht, Ht1. cbn [rev]. by rewrite <- app_assoc.
      + constructor; [by eexists|done].
      + congruence. }
  subst v.
  destruct (env_list_models env (remote_seq w) None (Some a) 100) as [ids|e];
    cbv beta iota; unfold bind at 1, ret at 1; cbv beta iota; exact Hstep.
Qed.

(** X24.  When the client of the hub can be built, the pre-fetch adds to
    the history one request for each priority author, in their order
    ([list_models] with that author and limit 100), and nothing else: it
    asks the gate for none of them and leaves the call counter as it is.
    It returns an entry for every priority author, in their order: the
    [i]-th author gets the non-empty ids of the hub's answer to the [i]-th
    request, and the empty list where that request failed. *)
Theorem prefetch_covers_every_author env w :
  env_api_init_error env = None ->
  exists repos w' new,
    prefetch_author_repos env w = (inl (Some repos), w')
    ∧ repos.*1 = PRIORITY_AUTHORS
    ∧ (forall i a, PRIORITY_AUTHORS !! i = Some a ->
         repos !! i
         = Some (a, match env_list_models env (remote_seq w + i) None (Some a) 100 with
                    | inl ids => filter (fun m => nonempty m = true) ids
                    | inr _ => []
                    end))
    ∧ Forall (Forall (fun m => nonempty m = true)) repos.*2
    ∧ trace w' = rev new ++ trace w
    ∧ Forall2 (fun e a => exists t, e = EvCall (ListModels None (Some a) 100) t)
        new PRIORITY_AUTHORS
    ∧ n_calls (trace w') = n_calls (trace w) + length PRIORITY_AUTHORS
    ∧ n_grants (trace w') = n_grants (trace w)
    ∧ _hf_api_calls w' = _hf_api_calls w.
Proof.
  intros He. unfold prefetch_author_repos. rewrite He.
  destruct (prefetch_loop env PRIORITY_AUTHORS [] w)
    as (w' & new & Hrun & Ht & Hnew & Hcalls).
  - apply (bool_decide_unpack _). vm_compute. exact I.
  - intros a _. apply not_elem_of_nil.
  - destruct (author_calls_counts _ _ Hnew) as [Hc Hg].
    eexists _, w', new. unfold bind at 1. rewrite Hrun. cbn [app].
    split_and!; [done| | | |done|done| | |done].
    + apply imap_keys.
    + intros i a Hi. by rewrite list_lookup_imap, Hi.
    + apply Forall_forall. intros ids Hids.
      apply list_elem_of_fmap in Hids as ([a ids'] & -> & Hin).
      apply list_elem_of_lookup in Hin as [i Hi].
      rewrite list_lookup_imap in Hi.
      destruct (PRIORITY_AUTHORS !! i) as [b|]; [|done]. cbn in Hi.
      injection Hi as _ <-. destruct (env_list_models _ _ _ _ _); [|constructor].
      apply Forall_forall. by intros m [Hm _]%list_elem_of_filter.
    + rewrite Ht, n_calls_app, Hc. lia.
    + rewrite Ht, n_grants_app, Hg. lia.
Qed.

(** *** The curated registry *)

Lemma insert_sorted_perm {A} (lt : A -> A -> bool) x l : insert_sorted lt x l ≡ₚ x :: l.
Proof.
  induction l as [|y l IH]; simpl; [done|].
  destruct (lt y x); [|done]. rewrite IH. apply Permutation_swap.
Qed.

Lemma stable_sort_perm {A} (lt : A -> A -> bool) l : stable_sort lt l ≡ₚ l.
Proof.
  unfold stable_sort. induction l as [|x l IH]; simpl; [done|].
  by rewrite insert_sorted_perm, IH.
Qed.

Lemma assoc_get_elem {V} k (v : V) l : assoc_get k l = Some v -> (k, v) ∈ l.
Proof.
  induction l as [|[k' v'] l IH]; simpl; [done|].
  case_bool_decide as Hk.
  - intros [= ->]. subst. by left.
  - intros H. right. by apply IH.
Qed.

Lemma lookup_popular_entry_in reg fname entry :
  _lookup_popular_entry reg fname = Some entry -> exists key, (key, entry) ∈ reg.
Proof.
  unfold _lookup_popular_entry. cbv zeta.
  destruct (negb (nonempty (str_lower fname))); [done|].
  destruct (assoc_get (str_lower fname) reg) as [e|] eqn:H1.
  { intros [= <-]. eexists. by apply assoc_get_elem. }
  destruct (assoc_get (basename (str_lower fname)) reg) as [e|] eqn:H2.
  { intros [= <-]. eexists. by apply assoc_get_elem. }
  destruct (nonempty _); [done|].
  destruct (stable_sort _ _) as [|kv sorted] eqn:Hs; [done|].
  intros [= <-]. exists kv.1.
  assert (kv ∈ stable_sort (fun a b : string * RegEntry => (str_len a.1 <? str_len b.1)%nat)
                  (filter (fun kv : string * RegEntry =>
                             bool_decide (kv.1 = basename (str_lower fname))
                             || startswith kv.1 (basename (str_lower fname) +:+ ".") = true)
                          reg)) as Hin.
  { rewrite Hs. by left. }
  rewrite stable_sort_perm in Hin. apply list_elem_of_filter in Hin as [_ Hin].
  by destruct kv.
Qed.

Lemma find_first {A} (p : A -> bool) l x :
  List.find p l = Some x ->
  exists l1 l2, l = l1 ++ x :: l2 ∧ p x = true ∧ Forall (fun y => p y = false) l1.
Proof.
  induction l as [|y l IH]; simpl; [done|].
  destruct (p y) eqn:Hy.
  - intros [= ->]. exists [], l. by split_and!.
  - intros H. destruct (IH H) as (l1 & l2 & -> & Hx & Hl1).
    exists (y :: l1), l2. split_and!; [done|done|by constructor].
Qed.

(** X25.  The curated registry gives a reference a URL only when a
    probe found the URL alive.  The reference is left as it is, or it gets
    the first candidate URL of an entry of the registry that is on the hub
    and answers the probe, every candidate before it having failed; it
    then has a source. *)
Theorem registry_url_adopted_only_if_live env m :
  let m' := enrich_from_popular env m in
  m' = m
  ∨ exists key entry u dead later,
      (key, entry) ∈ env_popular_models env
      ∧ _iter_registry_urls entry = dead ++ u :: later
      ∧ Forall (fun v => _hf_url_exists env v = false) dead
      ∧ contains "huggingface.co" u = true ∧ env_url_probe env u = true
      ∧ url m' = Some u ∧ truthy (source m') = true.
Proof.
  cbv zeta. unfold enrich_from_popular.
  destruct (_lookup_popular_entry _ _) as [entry|] eqn:Hl; [|by left].
  destruct (List.find _ _) as [u|] eqn:Hf; [|by left]. right.
  apply lookup_popular_entry_in in Hl as [key Hkey].
  apply find_first in Hf as (dead & later & Hsplit & Hlive & Hdead).
  unfold _hf_url_exists in Hlive.
  apply andb_true_iff in Hlive as [Hlive Hprobe].
  apply andb_true_iff in Hlive as [Hne Hhub].
  exists key, entry, u, dead, later. split_and!; try done.
  - unfold enrich_model_with_url. cbv zeta.
    destruct (truthy (e_directory entry) && _);
      destruct (extract_huggingface_info _ u) as [[r p]|]; try destruct (nonempty r); done.
  - unfold enrich_model_with_url. cbv zeta.
    assert (Hsrc : nonempty (if truthy (e_source entry) then or_empty (e_source entry)
                             else "popular_models") = true).
    { destruct (e_source entry) as [[|c s]|]; done. }
    destruct (truthy (e_directory entry) && _);
      destruct (extract_huggingface_info _ u) as [[r p]|]; try destruct (nonempty r);
      exact Hsrc.
Qed.

(** *** The paths picked in a repository listing *)

Lemma assoc_get_None {V} k (l : list (string * V)) : assoc_get k l = None <-> k ∉ l.*1.
Proof.
  induction l as [|[k' v'] l IH]; cbn [assoc_get].
  - split; [intros _; apply not_elem_of_nil|done].
  - rewrite fmap_cons, not_elem_of_cons. cbn [fst]. case_bool_decide as Hk.
    + split; [done|]. by intros [? _].
    + rewrite IH. naive_solver.
Qed.

Lemma assoc_get_Some {V} k (v : V) l :
  NoDup l.*1 -> assoc_get k l = Some v <-> (k, v) ∈ l.
Proof.
  intros Hnd. split; [apply assoc_get_elem|].
  induction l as [|[k' v'] l IH]; [by intros ?%not_elem_of_nil|].
  rewrite fmap_cons in Hnd. apply NoDup_cons in Hnd as [Hk' Hnd]. cbn [fst] in Hk'.
  intros [[= -> ->]|Hin]%elem_of_cons; simpl.
  - by rewrite bool_decide_eq_true_2.
  - rewrite bool_decide_eq_false_2; [by apply IH|].
    intros ->. apply Hk'. apply list_elem_of_fmap. by exists (k', v).
Qed.

Lemma elem_of_assoc_set {V} k (v : V) l k' v' :
  NoDup l.*1 ->
  (k', v') ∈ assoc_set k v l <-> (k' = k ∧ v' = v) ∨ (k' ≠ k ∧ (k', v') ∈ l).
Proof.
  intros Hnd. induction l as [|[k0 v0] l IH].
  - simpl. rewrite list_elem_of_singleton. split.
    + intros [= -> ->]. by left.
    + intros [[-> ->]|[_ ?%not_elem_of_nil]]; done.
  - rewrite fmap_cons in Hnd. apply NoDup_cons in Hnd as [Hk0 Hnd]. cbn [fst] in Hk0.
    cbn [assoc_set]. case_bool_decide as Hk.
    + subst k0. rewrite !elem_of_cons. split.
      * intros [[= -> ->]|Hin]; [by left|]. right. split; [|by right].
        intros ->. apply Hk0. apply list_elem_of_fmap. by exists (k, v').
      * intros [[-> ->]|[Hne [[= ? ?]|Hin]]]; [by left|done|by right].
    + rewrite !elem_of_cons, (IH Hnd). split.
      * intros [[= -> ->]|[[-> ->]|[Hne Hin]]]; [right; by auto|by left|right; by auto].
      * intros [[-> ->]|[Hne [[= -> ->]|Hin]]]; [right; by left|by left|right; right; by auto].
Qed.

Lemma assoc_set_NoDup {V} k (v : V) l : NoDup l.*1 -> NoDup (assoc_set k v l).*1.
Proof.
  intros Hnd. rewrite assoc_set_keys. case_bool_decide as Hin; [done|].
  apply NoDup_app. split_and!; [done| |apply NoDup_singleton].
  by intros x Hx ->%list_elem_of_singleton.
Qed.

Lemma assoc_set_keys_incl {V} k (v : V) l x :
  x ∈ (assoc_set k v l).*1 <-> x = k ∨ x ∈ l.*1.
Proof.
  rewrite assoc_set_keys. case_bool_decide as Hin.
  - split; [by right|]. by intros [->|?].
  - rewrite elem_of_app, list_elem_of_singleton. tauto.
Qed.

Lemma found_paths_step remaining seen acc f :
  shortest_paths remaining seen acc ->
  shortest_paths remaining (seen ++ [f])
    (let base := str_lower (basename f) in
     match assoc_get base remaining with
     | None => acc
     | Some _ =>
         match assoc_get base acc with
         | None => assoc_set base f acc
         | Some prev => if (str_len f <? str_len prev)%nat
                        then assoc_set base f acc else acc
         end
     end).
Proof.
  intros (Hnd & Hsound & Hcompl). cbv zeta.
  set (base := str_lower (basename f)).
  assert (Hold : forall b x, (b, x) ∈ acc -> b ≠ base \/ str_len x <= str_len f ->
            x ∈ seen ++ [f] ∧ str_lower (basename x) = b ∧ is_Some (assoc_get b remaining)
            ∧ forall g, g ∈ seen ++ [f] -> str_lower (basename g) = b ->
                        str_len x <= str_len g).
  { intros b x Hin Hcase. destruct (Hsound b x Hin) as (Hx & Hb & Hrem & Hmin).
    split_and!; [apply elem_of_app; by left|done|done|].
    intros g [Hg| ->%list_elem_of_singleton]%elem_of_app Hgb; [by apply Hmin|].
    destruct Hcase as [Hne|Hle]; [done|exact Hle]. }
  destruct (assoc_get base remaining) as [idx|] eqn:Hrem.
  2:{ split_and!; [done| |].
      - intros b x Hin. apply Hold; [done|]. left. intros ->.
        destruct (Hsound base x Hin) as (_ & _ & [? Hs] & _). congruence.
      - intros g [Hg| ->%list_elem_of_singleton]%elem_of_app Hs; [by apply Hcompl|].
        fold base in Hs. rewrite Hrem in Hs. by destruct Hs. }
  assert (Hnew : (forall g, g ∈ seen -> str_lower (basename g) = base ->
                            str_len f <= str_len g) ->
                 shortest_paths remaining (seen ++ [f]) (assoc_set base f acc)).
  { intros Hmin. split_and!.
    - by apply assoc_set_NoDup.
    - intros b x [[-> ->]|[Hne Hin]]%elem_of_assoc_set; [|by auto|done].
      split_and!; [apply elem_of_app; right; by left|done|by eexists|].
      intros g [Hg| ->%list_elem_of_singleton]%elem_of_app Hgb; [by apply Hmin|done].
    - intros g Hg Hs. apply assoc_set_keys_incl.
      apply elem_of_app in Hg as [Hg| ->%list_elem_of_singleton]; [|by left].
      right. by apply Hcompl. }
  destruct (assoc_get base acc) as [prev|] eqn:Hacc.
  - apply assoc_get_Some in Hacc; [|done].
    destruct (Hsound base prev Hacc) as (_ & _ & _ & Hmin).
    destruct (str_len f <? str_len prev)%nat eqn:Hlt.
    + apply Nat.ltb_lt in Hlt. apply Hnew. intros g Hg Hgb.
      specialize (Hmin g Hg Hgb). lia.
    + apply Nat.ltb_ge in Hlt. split_and!; [done| |].
      * intros b x Hin. apply Hold; [done|].
        destruct (decide (b = base)) as [->|Hne]; [right|by left].
        apply assoc_get_Some in Hin, Hacc; [|done..]. congruence.
      * intros g [Hg| ->%list_elem_of_singleton]%elem_of_app Hs; [by apply Hcompl|].
        apply list_elem_of_fmap. by exists (base, prev).
  - apply Hnew. intros g Hg Hgb. apply assoc_get_None in Hacc.
    exfalso. apply Hacc. rewrite <- Hgb. apply Hcompl; [done|].
    rewrite Hgb, Hrem. by eexists.
Qed.

(** X26.  From the listing of a repository the scan picks, for each
    file name still looked for that the listing has, one path of that
    name, letter case aside, and none for any other name; of the paths of
    a name it picks a shortest one. *)
Theorem found_paths_are_shortest remaining files :
  shortest_paths remaining files (found_paths_of remaining files).
Proof.
  unfold found_paths_of.
  assert (H0 : shortest_paths remaining [] []).
  { split_and!; [constructor|by intros ? ? ?%not_elem_of_nil|by intros ? ?%not_elem_of_nil]. }
  change files with ([] ++ files) at 1. revert H0.
  generalize ([] : list (string * string)) ([] : list string).
  induction files as [|f files IH]; intros acc seen Hinv; cbn [fold_left].
  - by rewrite app_nil_r.
  - replace (seen ++ f :: files) with ((seen ++ [f]) ++ files) by (by rewrite <- app_assoc).
    apply IH. by apply found_paths_step.
Qed.

(** *** The swap of the precision token *)

Lemma is_alnum_lower c : is_alnum (lower_ascii c) = is_alnum c.
Proof. destruct c as [[] [] [] [] [] [] [] []]; reflexivity. Qed.

Lemma ceq_alnum a b : ceq a b = true -> is_alnum a = is_alnum b.
Proof.
  unfold ceq, ascii_eqb. intros H%Ascii.eqb_eq.
  by rewrite <- (is_alnum_lower a), <- (is_alnum_lower b), H.
Qed.

Lemma is_prefix_ci_length G x : is_prefix_ci G x = true -> length G <= length x.
Proof.
  revert x. induction G as [|g G IH]; intros [|d x]; simpl; try done; try lia.
  intros [_ H]%andb_true_iff. apply IH in H. lia.
Qed.

Lemma is_prefix_ci_last_alnum G x p :
  is_prefix_ci G x = true -> last_alnum p (take (length G) x) = last_alnum p G.
Proof.
  revert x p. induction G as [|g G IH]; intros [|d x] p; simpl; try done.
  intros [Hg H]%andb_true_iff. unfold last_alnum in *. simpl.
  rewrite (ceq_alnum g d Hg). by apply IH.
Qed.

Section Swap.
Variables (f0 t0 : ascii) (F' T' : list ascii).
Let F := f0 :: F'.
Let T := t0 :: T'.
Hypothesis pattern_misses_head : Forall (fun g => ceq g t0 = false) F.
Hypothesis head_misses_token : Forall (fun t => ceq f0 t = false) T.
Hypothesis token_ends_alnum : forall p, last_alnum p T = true.
Hypothesis pattern_ends_alnum : forall p, last_alnum p F = true.

Lemma swap_scan_skip k p x :
  swap_scan F T k p x = swap_scan F T 0 (last_alnum p (take k x)) (drop k x).
Proof.
  revert k p. induction x as [|c r IH]; intros k p.
  - by destruct k.
  - destruct k as [|k]; [done|]. cbn [swap_scan take drop]. rewrite IH.
    by unfold last_alnum.
Qed.

Lemma swap_scan_cons p c r :
  swap_scan F T 0 p (c :: r)
  = if negb p && is_prefix_ci F (c :: r) && not_alnum_next (drop (length F) (c :: r))
    then T ++ swap_scan F T 0 true (drop (length F') r)
    else c :: swap_scan F T 0 (is_alnum c) r.
Proof.
  cbn [swap_scan].
  destruct (negb p && is_prefix_ci F (c :: r) && _) eqn:Hchk; [|done].
  f_equal. unfold F at 2. cbn [length Nat.sub]. rewrite Nat.sub_0_r, swap_scan_skip.
  f_equal. apply andb_true_iff in Hchk as [Hchk _].
  apply andb_true_iff in Hchk as [_ Hpre]. unfold F in Hpre. cbn [is_prefix_ci] in Hpre.
  apply andb_true_iff in Hpre as [Hc Hpre].
  rewrite (is_prefix_ci_last_alnum _ _ _ Hpre).
  rewrite <- (ceq_alnum _ _ Hc). apply (pattern_ends_alnum false).
Qed.

(** The token goes through a second scan as it is. *)
Lemma swap_scan_token T1 p Y :
  Forall (fun t => ceq f0 t = false) T1 ->
  swap_scan F T 0 p (T1 ++ Y) = T1 ++ swap_scan F T 0 (last_alnum p T1) Y.
Proof.
  intros H. revert p. induction H as [|t T1 Ht _ IH]; intros p; [done|].
  cbn [app]. rewrite swap_scan_cons. unfold F at 1. cbn [is_prefix_ci].
  fold (ceq f0 t). rewrite Ht. rewrite andb_false_r. cbn [andb]. by rewrite IH.
Qed.

(** A stretch of the output that matches part of the pattern was copied. *)
Lemma swap_scan_copied G q x :
  Forall (fun g => ceq g t0 = false) G ->
  is_prefix_ci G (swap_scan F T 0 q x) = true ->
  is_prefix_ci G x = true
  ∧ drop (length G) (swap_scan F T 0 q x)
    = swap_scan F T 0 (last_alnum q (take (length G) x)) (drop (length G) x).
Proof.
  intros H. revert q x. induction H as [|g G Hg _ IH]; intros q x Hpre; [done|].
  destruct x as [|d x]; [done|]. rewrite swap_scan_cons in Hpre |- *.
  destruct (negb q && _ && _).
  - unfold T in Hpre. cbn [app is_prefix_ci] in Hpre. fold (ceq g t0) in Hpre.
    by rewrite Hg in Hpre.
  - cbn [is_prefix_ci] in Hpre |- *. apply andb_true_iff in Hpre as [Hd Hpre].
    rewrite Hd. destruct (IH _ _ Hpre) as [Hx Hdrop]. split; [done|].
    cbn [length drop take]. rewrite Hdrop. by unfold last_alnum.
Qed.

Lemma not_alnum_next_scan y :
  not_alnum_next (swap_scan F T 0 true y) = not_alnum_next y.
Proof. destruct y as [|d y]; [done|]. by rewrite swap_scan_cons. Qed.

Lemma swap_scan_idem_upto n l p :
  length l <= n ->
  swap_scan F T 0 p (swap_scan F T 0 p l) = swap_scan F T 0 p l.
Proof.
  revert l p. induction n as [|n IH]; intros l p Hlen.
  { destruct l; [done|simpl in Hlen; lia]. }
  destruct l as [|c r]; [done|]. simpl in Hlen.
  rewrite (swap_scan_cons p c r).
  destruct (negb p && is_prefix_ci F (c :: r) && not_alnum_next (drop (length F) (c :: r)))
    eqn:Hchk.
  - rewrite swap_scan_token by exact head_misses_token.
    rewrite token_ends_alnum. f_equal. apply IH. rewrite length_drop. lia.
  - rewrite swap_scan_cons.
    destruct (negb p && is_prefix_ci F (c :: swap_scan F T 0 (is_alnum c) r)
              && not_alnum_next (drop (length F) (c :: swap_scan F T 0 (is_alnum c) r)))
      eqn:Hchk2.
    + exfalso. apply andb_true_iff in Hchk2 as [Hchk2 Hnext].
      apply andb_true_iff in Hchk2 as [Hp Hpre].
      unfold F in Hpre at 1. cbn [is_prefix_ci] in Hpre.
      apply andb_true_iff in Hpre as [Hc Hpre].
      pose proof pattern_misses_head as HF. unfold F in HF.
      apply Forall_cons in HF as [_ HF'].
      destruct (swap_scan_copied F' (is_alnum c) r HF' Hpre) as [Hr Hdrop].
      unfold F in Hnext at 1. cbn [length drop] in Hnext. rewrite Hdrop in Hnext.
      rewrite (is_prefix_ci_last_alnum _ _ _ Hr), <- (ceq_alnum _ _ Hc) in Hnext.
      change (last_alnum (is_alnum f0) F') with (last_alnum false F) in Hnext.
      rewrite (pattern_ends_alnum false), not_alnum_next_scan in Hnext.
      unfold F in Hchk. cbn [is_prefix_ci length drop] in Hchk. unfold ceq in Hc.
      by rewrite Hp, Hc, Hr, Hnext in Hchk.
    + f_equal. apply IH. lia.
Qed.
End Swap.

Lemma swap_nunchaku_precision_idem value pref :
  _swap_nunchaku_precision (_swap_nunchaku_precision value pref) pref
  = _swap_nunchaku_precision value pref.
Proof.
  unfold _swap_nunchaku_precision. destruct pref; rewrite chars_str; f_equal.
  - apply (swap_scan_idem_upto "i" "f" (chars "nt4") (chars "p4")) with (n := length (chars value));
      [by apply (bool_decide_unpack _)..|by intros []|by intros []|done].
  - apply (swap_scan_idem_upto "f" "i" (chars "p4") (chars "nt4")) with (n := length (chars value));
      [by apply (bool_decide_unpack _)..|by intros []|by intros []|done].
Qed.

(** X27.  Normalizing the precision of a reference is done once: the
    swap of the precision token leaves no token of the other precision
    behind, so the swap applied to its result, and the normalization
    applied to a normalized reference, change nothing. *)
Theorem normalize_precision_idem pref m :
  normalize_precision pref (normalize_precision pref m) = normalize_precision pref m
  ∧ forall value,
      _swap_nunchaku_precision (_swap_nunchaku_precision value pref) pref
      = _swap_nunchaku_precision value pref.
Proof.
  split; [|intros value; apply swap_nunchaku_precision_idem].
  destruct (_is_nunchaku_svdq_name (filename m)) eqn:Hsvdq.
  2:{ assert (normalize_precision pref m = m) as Hid.
      { unfold normalize_precision. by rewrite Hsvdq. }
      by rewrite !Hid. }
  set (target := _swap_nunchaku_precision (or_empty (filename m)) pref).
  destruct (negb (nonempty target) || bool_decide (Some target = filename m)) eqn:Hsame.
  { assert (normalize_precision pref m = m) as Hid.
    { unfold normalize_precision. cbv zeta. fold target. by rewrite Hsvdq, Hsame. }
    by rewrite !Hid. }
  assert (exists m', normalize_precision pref m = m' ∧ filename m' = Some target)
    as (m' & Hfirst & Hname).
  { eexists. split.
    - unfold normalize_precision. cbv zeta. fold target. rewrite Hsvdq, Hsame.
      reflexivity.
    - reflexivity. }
  rewrite Hfirst. unfold normalize_precision. cbv zeta. rewrite Hname.
  destruct (_is_nunchaku_svdq_name (Some target)); [|done].
  change (or_empty (Some target)) with target.
  assert (_swap_nunchaku_precision target pref = target) as ->.
  { apply swap_nunchaku_precision_idem. }
  rewrite (bool_decide_eq_true_2 (Some target = Some target)) by done.
  by rewrite orb_true_r.
Qed.

(** *** The folder list *)

(** X28.  The folder list names each directory of the models folder
    once, and nothing else, provided the directory listing names no entry
    twice; it is empty when the models folder does not exist.  The
    well-known folders come first, in their fixed order, and none of them
    comes later. *)
Theorem subfolders_listed_once os models_dir :
  let dir := default (path_join (d_getcwd os) "models") models_dir in
  let result := get_model_subfolders os models_dir in
  NoDup (d_listdir os dir) ->
  NoDup result
  ∧ (forall name, name ∈ result <->
       d_exists os dir = true ∧ name ∈ d_listdir os dir
       ∧ d_isdir os (path_join dir name) = true)
  ∧ exists prio rest,
      result = prio ++ rest ∧ prio `sublist_of` SUBFOLDER_PRIORITY
      ∧ Forall (fun f => f ∉ SUBFOLDER_PRIORITY) rest.
Proof.
  cbv zeta. intros Hnd. unfold get_model_subfolders. cbv zeta.
  set (dir := default (path_join (d_getcwd os) "models") models_dir) in *.
  destruct (d_exists os dir) eqn:Hex; cbn [negb].
  2:{ split_and!; [constructor| |].
      - intros name. split; [by intros ?%not_elem_of_nil|by intros [? _]].
      - exists [], []. split_and!; [done|apply sublist_nil_l|constructor]. }
  set (dirs := filter (fun name => d_isdir os (path_join dir name) = true)
                      (d_listdir os dir)).
  set (subfolders := stable_sort String.ltb dirs).
  fold SUBFOLDER_PRIORITY.
  assert (Hperm : subfolders ≡ₚ dirs) by apply stable_sort_perm.
  assert (Hsub : NoDup subfolders).
  { rewrite Hperm. by apply NoDup_filter. }
  assert (Hprio : NoDup SUBFOLDER_PRIORITY).
  { apply (bool_decide_unpack _). vm_compute. exact I. }
  split_and!.
  - apply NoDup_app. split_and!; [by apply NoDup_filter| |by apply NoDup_filter].
    intros x [_ Hp]%list_elem_of_filter [Hn _]%list_elem_of_filter.
    unfold str_in in Hn. by apply bool_decide_eq_false in Hn.
  - intros name. rewrite elem_of_app, !list_elem_of_filter.
    unfold str_in. rewrite bool_decide_eq_true, bool_decide_eq_false.
    assert (name ∈ subfolders <->
            name ∈ d_listdir os dir ∧ d_isdir os (path_join dir name) = true) as Hin.
    { rewrite Hperm. unfold dirs. rewrite list_elem_of_filter. tauto. }
    rewrite Hin. destruct (decide (name ∈ SUBFOLDER_PRIORITY)); tauto.
  - eexists _, _. split_and!; [done|apply sublist_filter|].
    apply Forall_forall. intros f [Hf _]%list_elem_of_filter.
    unfold str_in in Hf. by apply bool_decide_eq_false in Hf.
Qed.

(** *** The properties at sample inputs *)


(** A machine that has the file of the loader: the run returns the local report, and a callback that fails on every notification is never called. *)
Lemma nothing_missing_run_stays_local_witness :
  let checked :=
    check_model_files (env_fs sample_env_local)
      (reconcile (_preferred_nunchaku_precision (env_is_blackwell sample_env_local))
         (extract_models_from_workflow (env_lib sample_env_local) sample_workflow_local)) in
  checked.1.1 = [] ∧ length checked.1.2 = 1
  ∧ process_workflow_for_missing_models sample_env_local (Some failing_callback)
      sample_workflow_local initial_world
    = (inl (mkReport [] checked.1.2 checked.2), run_start_state initial_world).
Proof.
  cbv zeta. split; [vm_compute; reflexivity|]. split; [vm_compute; reflexivity|].
  apply (nothing_missing_run_stays_local sample_env_local (Some failing_callback)
           sample_workflow_local initial_world).
  vm_compute. reflexivity.
Defined.

(** The sample workflow on a hub that knows no model: the report keeps the missing reference. *)
Lemma resolution_fills_in_only_witness :
  exists report,
    (process_workflow_for_missing_models (sample_env 200) None sample_workflow
       initial_world).1 = inl report
    ∧ let '(missing, existing, mismatches) :=
        check_model_files (env_fs (sample_env 200))
          (reconcile (_preferred_nunchaku_precision (env_is_blackwell (sample_env 200)))
             (extract_models_from_workflow (env_lib (sample_env 200)) sample_workflow)) in
      rep_found report = existing ∧ rep_mismatches report = mismatches
      ∧ Forall2 same_reference missing (rep_missing report).
Proof.
  eexists. split; [vm_compute; reflexivity|].
  apply (resolution_fills_in_only (sample_env 200) None sample_workflow initial_world).
  vm_compute. reflexivity.
Defined.

(** A basic search on the sample hub finds the file in the listing of [org/foo]. *)
Lemma search_hit_provenance_witness :
  exists hit w',
    search_huggingface_model sample_env_hub (notify_with None) "foo.safetensors"
      ModeBasic [] None true initial_world = (inl (Some hit), w')
    ∧ hit = build_result "org/foo" "sub/foo.safetensors"
    ∧ _hf_search_cache w' !! _normalize_hf_search_key "foo.safetensors" = Some (Some hit)
    ∧ (_hf_search_cache initial_world !! _normalize_hf_search_key "foo.safetensors"
       = Some (Some hit) ∧ w' = initial_world
       ∨ hit_from_listing "foo.safetensors" hit w').
Proof.
  eexists _, _. split; [vm_compute; reflexivity|]. split; [reflexivity|].
  apply (search_hit_provenance sample_env_hub (notify_with None) "foo.safetensors"
           ModeBasic [] None true initial_world).
  - intros p. apply notify_with_silent.
  - vm_compute. reflexivity.
Defined.


(** A run against a hub whose first answer is a rate-limit error returns a report. *)
Lemma run_survives_hub_failures_witness :
  env_api_init_error sample_env_limited = None
  ∧ exists report,
      (process_workflow_for_missing_models sample_env_limited (Some quiet_callback)
         sample_workflow initial_world).1 = inl report.
Proof.
  split; [reflexivity|].
  apply (run_survives_hub_failures sample_env_limited (Some quiet_callback)
           sample_workflow initial_world).
  - reflexivity.
  - intros cb p [= <-]. reflexivity.
Defined.

(** A search under a rate-limit mark that is still ahead. *)
Lemma exhausted_search_stays_local_witness :
  env_api_init_error (sample_env 200) = None
  ∧ _hf_search_budget_exhausted (sample_env 200) world_after_limited_run = true
  ∧ let out := search_huggingface_model (sample_env 200) (notify_with None)
                 "foo.safetensors" ModeFull [] None true world_after_limited_run in
    out.1 = inl (match _hf_search_cache world_after_limited_run
                         !! _normalize_hf_search_key "foo.safetensors" with
                 | Some (Some hit) => Some hit
                 | _ => None
                 end)
    ∧ trace out.2 = trace world_after_limited_run
    ∧ _hf_api_calls out.2 = _hf_api_calls world_after_limited_run.
Proof.
  split; [reflexivity|]. split; [reflexivity|].
  apply (exhausted_search_stays_local (sample_env 200) (notify_with None)
           "foo.safetensors" ModeFull [] None true world_after_limited_run);
    reflexivity.
Defined.

(** A stage entered after the mark has run out: the hub answers the one request with a rate-limit error, and the mark stays. *)
Lemma rate_limit_mark_never_renewed_witness :
  _hf_rate_limited_until world_with_expired_mark = Some 340%Z
  ∧ rate_limited_now world_with_expired_mark = false
  ∧ n_calls (trace (_run_hf_stage sample_env_limited (notify_with None) "basic"
                      ModeBasic false [] [] None
                      [widget_ref "foo.safetensors" 5 None] world_with_expired_mark).2)
    = 1
  ∧ _hf_rate_limited_until
      (_run_hf_stage sample_env_limited (notify_with None) "basic" ModeBasic false [] []
         None [widget_ref "foo.safetensors" 5 None] world_with_expired_mark).2
    = Some 340%Z.
Proof.
  split; [reflexivity|]. split; [reflexivity|]. split; [vm_compute; reflexivity|].
  apply (rate_limit_mark_never_renewed sample_env_limited None "basic" ModeBasic false
           [] [] None [widget_ref "foo.safetensors" 5 None] 340 world_with_expired_mark).
  - reflexivity.
  - lia.
Defined.

(** A stage over two references, the first skipped by its file name. *)
Lemma skipped_reference_untouched_witness :
  exists out w',
    _run_hf_stage sample_env_hub (notify_with None) "basic" ModeBasic false
      ["foo.safetensors"] [] None
      [widget_ref "foo.safetensors" 5 None; widget_ref "bar.safetensors" 6 None]
      initial_world = (inl out, w')
    ∧ _skip_hf_search false ["foo.safetensors"] (widget_ref "foo.safetensors" 5 None)
      = true
    ∧ out !! 0 = Some (widget_ref "foo.safetensors" 5 None).
Proof.
  eexists _, _. split; [vm_compute; reflexivity|]. split; [vm_compute; reflexivity|].
  eapply (skipped_reference_untouched sample_env_hub None "basic" ModeBasic false
           ["foo.safetensors"] [] None
           [widget_ref "foo.safetensors" 5 None; widget_ref "bar.safetensors" 6 None]
           initial_world _ _ 0 (widget_ref "foo.safetensors" 5 None)).
  - vm_compute. reflexivity.
  - reflexivity.
  - vm_compute. reflexivity.
Defined.

(** A loader whose file a note links: the reference leaves the local phase with the URL of the note and reaches the report unchanged. *)
Lemma resolved_references_kept_witness :
  exists report,
    (process_workflow_for_missing_models sample_env_links None sample_workflow_links
       initial_world).1 = inl report
    ∧ map url (local_phase sample_env_links sample_workflow_links).2.1.1
      = [Some sample_link]
    ∧ Forall2 kept_if_resolved
        (local_phase sample_env_links sample_workflow_links).2.1.1 (rep_missing report).
Proof.
  eexists. split; [vm_compute; reflexivity|]. split; [vm_compute; reflexivity|].
  apply (resolved_references_kept sample_env_links None sample_workflow_links
           initial_world).
  vm_compute. reflexivity.
Defined.

(** A reference whose precision token is swapped for the preferred one. *)
Lemma reconcile_invents_nothing_witness :
  let l := [widget_ref "svdq-fp4-x.safetensors" 1 None] in
  let m := normalize_precision INT4 (widget_ref "svdq-fp4-x.safetensors" 1 None) in
  m ∈ reconcile INT4 l
  ∧ filename m = Some "svdq-int4-x.safetensors"
  ∧ truthy (filename m) = true
  ∧ exists b, b ∈ l ∧ node_id m = node_id b
              ∧ (filename m = filename b
                 ∨ filename m = Some (_swap_nunchaku_precision (or_empty (filename b))
                                        INT4)).
Proof.
  cbv zeta.
  assert (normalize_precision INT4 (widget_ref "svdq-fp4-x.safetensors" 1 None)
          ∈ reconcile INT4 [widget_ref "svdq-fp4-x.safetensors" 1 None]) as Hin.
  { assert (reconcile INT4 [widget_ref "svdq-fp4-x.safetensors" 1 None]
            = [normalize_precision INT4 (widget_ref "svdq-fp4-x.safetensors" 1 None)])
      as -> by (vm_compute; reflexivity).
    by left. }
  split; [exact Hin|]. split; [vm_compute; reflexivity|].
  exact (reconcile_invents_nothing INT4 _ _ Hin).
Defined.

(** A shorthand link with two sub-folders. *)
Lemma parse_link_resolve_round_trip_witness :
  parse_link sample_lib "org/foo/resolve/main/sub/dir/x.safetensors"
  = Some (mkParsedLink "org/foo" (Some "main") (Some "sub/dir") (Some "x.safetensors")).
Proof.
  apply (parse_link_resolve_round_trip sample_lib "org" "foo" "main" ["sub"; "dir"]
           "x.safetensors").
  - repeat constructor.
  - reflexivity.
  - reflexivity.
  - discriminate.
  - discriminate.
  - reflexivity.
Defined.

(** The file of the sample machine, found in a sub-folder of the checkpoint root. *)
Lemma located_under_existing_root_witness :
  let m := widget_ref "x.safetensors" 5 None in
  locate sample_fs_nested m
  = Some ("/m/checkpoints/sub/x.safetensors", "/m/checkpoints")
  ∧ "/m/checkpoints"
    ∈ search_paths_for sample_fs_nested (default "checkpoints" (suggested_folder m))
  ∧ fs_exists sample_fs_nested "/m/checkpoints" = true
  ∧ nonempty "/m/checkpoints/sub/x.safetensors" = true.
Proof.
  cbv zeta.
  assert (locate sample_fs_nested (widget_ref "x.safetensors" 5 None)
          = Some ("/m/checkpoints/sub/x.safetensors", "/m/checkpoints")) as Hloc
    by (vm_compute; reflexivity).
  split; [exact Hloc|].
  destruct (located_under_existing_root sample_fs_nested _ _ _ Hloc)
    as (Hroot & Hex & Hne & _).
  by split_and!.
Defined.

(** The pre-fetch against a hub whose first answer is an error. *)
Lemma prefetch_covers_every_author_witness :
  env_api_init_error sample_env_limited = None
  ∧ exists repos w' new,
      prefetch_author_repos sample_env_limited initial_world = (inl (Some repos), w')
      ∧ repos.*1 = PRIORITY_AUTHORS
      ∧ (forall i a, PRIORITY_AUTHORS !! i = Some a ->
           repos !! i
           = Some (a, match env_list_models sample_env_limited
                              (remote_seq initial_world + i) None (Some a) 100 with
                      | inl ids => filter (fun m => nonempty m = true) ids
                      | inr _ => []
                      end))
      ∧ Forall (Forall (fun m => nonempty m = true)) repos.*2
      ∧ trace w' = rev new ++ trace initial_world
      ∧ Forall2 (fun e a => exists t, e = EvCall (ListModels None (Some a) 100) t)
          new PRIORITY_AUTHORS
      ∧ n_calls (trace w') = n_calls (trace initial_world) + length PRIORITY_AUTHORS
      ∧ n_grants (trace w') = n_grants (trace initial_world)
      ∧ _hf_api_calls w' = _hf_api_calls initial_world.
Proof.
  split; [reflexivity|].
  apply (prefetch_covers_every_author sample_env_limited initial_world). reflexivity.
Defined.

(** A models folder with three directories and a file. *)
Lemma subfolders_listed_once_witness :
  NoDup (d_listdir sample_dirs "/comfy/models")
  ∧ get_model_subfolders sample_dirs None = ["checkpoints"; "vae"; "zoo"]
  ∧ NoDup (get_model_subfolders sample_dirs None)
  ∧ exists prio rest,
      get_model_subfolders sample_dirs None = prio ++ rest
      ∧ prio `sublist_of` SUBFOLDER_PRIORITY
      ∧ Forall (fun f => f ∉ SUBFOLDER_PRIORITY) rest.
Proof.
  assert (NoDup (d_listdir sample_dirs "/comfy/models")) as Hnd.
  { apply (bool_decide_unpack _). vm_compute. exact I. }
  split; [exact Hnd|]. split; [vm_compute; reflexivity|].
  destruct (subfolders_listed_once sample_dirs None Hnd) as (H1 & _ & H3).
  by split.
Defined.
